(** * Luna-cpp: the vendored zlib primitives

    A shallow embedding of [src/include/zlib/crc32.cpp] (the checksum
    engine) and [src/include/zlib/trees.cpp] (the entropy coder), with the
    properties of the design document proved over it.

    Conventions.  C integers are [Z] with the wrap-around of their type
    written out at the places where the source relies on it ([ush], [uch],
    [z_crc_t], [z_word_t]).  Bit operations are [Z.land], [Z.lor], [Z.lxor],
    [Z.shiftl], [Z.shiftr].  Constant tables and buffers are lists read by
    index; the arrays of the deflate state are total maps from the index,
    written at one index.  A loop whose termination is not evident from
    its header runs on fuel and returns [None] when the fuel is gone. *)

From Stdlib Require Import ZArith NArith List Lia Bool Permutation.
From Stdlib Require Import Strings.Byte.
Import ListNotations.
Local Open Scope Z_scope.

(** ** crc32.cpp *)

Module Crc32.

(** [#define N 5]: the number of braids ([Z_TESTN] is not defined). *)
Definition N : nat := 5.

(** The word size [W] (4 or 8) and the byte order of the host: both are
    fixed by the platform the file is compiled and run on. *)
Inductive word_size := W4 | W8.

Definition Wn (w : word_size) : nat :=
  match w with W4 => 4%nat | W8 => 8%nat end.

Record platform := Platform { W : word_size; little_endian : bool }.

(** Conversions to [z_crc_t] (32 bits) and to [z_word_t] (8*W bits). *)
Definition crc_t (x : Z) : Z := Z.land x 0xffffffff.
Definition word_t (w : word_size) (x : Z) : Z :=
  match w with
  | W4 => Z.land x 0xffffffff
  | W8 => Z.land x 0xffffffffffffffff
  end.

(** [byte_swap], one body per word size. *)
Definition byte_swap (w : word_size) (word : Z) : Z :=
  match w with
  | W8 =>
      Z.lor (Z.lor (Z.lor (Z.lor (Z.lor (Z.lor (Z.lor
        (Z.shiftr (Z.land word 0xff00000000000000) 56)
        (Z.shiftr (Z.land word 0xff000000000000) 40))
        (Z.shiftr (Z.land word 0xff0000000000) 24))
        (Z.shiftr (Z.land word 0xff00000000) 8))
        (word_t W8 (Z.shiftl (Z.land word 0xff000000) 8)))
        (word_t W8 (Z.shiftl (Z.land word 0xff0000) 24)))
        (word_t W8 (Z.shiftl (Z.land word 0xff00) 40)))
        (word_t W8 (Z.shiftl (Z.land word 0xff) 56))
  | W4 =>
      Z.lor (Z.lor (Z.lor
        (Z.shiftr (Z.land word 0xff000000) 24)
        (Z.shiftr (Z.land word 0xff0000) 8))
        (word_t W4 (Z.shiftl (Z.land word 0xff00) 8)))
        (word_t W4 (Z.shiftl (Z.land word 0xff) 24))
  end.

(** [#define POLY 0xedb88320]: p(x) reflected, with x^32 implied. *)
Definition POLY : Z := 0xedb88320.

(** The update [b = b & 1 ? (b >> 1) ^ POLY : b >> 1] of [multmodp]'s loop
    (the same statement generates the tables). *)
Definition times_x (b : Z) : Z :=
  if negb (Z.land b 1 =? 0) then Z.lxor (Z.shiftr b 1) POLY else Z.shiftr b 1.

(** [multmodp(a, b)]: the [for (;;)] loop, one iteration per unit of fuel.
    [m - 1] is computed in [z_crc_t]. *)
Fixpoint multmodp_loop (fuel : nat) (a m p b : Z) : option Z :=
  match fuel with
  | O => None
  | S fuel' =>
      if negb (Z.land a m =? 0) then
        let p := Z.lxor p b in
        if Z.land a (crc_t (m - 1)) =? 0 then Some p
        else multmodp_loop fuel' a (Z.shiftr m 1) p (times_x b)
      else multmodp_loop fuel' a (Z.shiftr m 1) p (times_x b)
  end.

Definition multmodp (fuel : nat) (a b : Z) : option Z :=
  multmodp_loop fuel (crc_t a) (Z.shiftl 1 31) 0 (crc_t b).

(** Modelled from the spec: [crc32.hpp], which holds the generated tables,
    is not among the sources.  [x2n_table[k]] is x^(2^k) mod p(x) for
    k = 0..31: it starts at x^1 and each entry is the square of the one
    before, as [make_crc_table()] fills it. *)
Fixpoint x2n_gen (n : nat) (p : Z) : list Z :=
  match n with
  | O => []
  | S n' =>
      p :: x2n_gen n' (match multmodp 32 p p with Some q => q | None => 0 end)
  end.

Definition x2n_list : list Z := Eval vm_compute in x2n_gen 32 (Z.shiftl 1 30).

Definition x2n_table (k : Z) : Z := nth (Z.to_nat k) x2n_list 0.

(** [x2nmodp(n, k)]: the [while (n)] loop on fuel; [n >>= 1] is the
    arithmetic shift of a signed [z_off64_t], [k++] wraps as [unsigned]. *)
Fixpoint x2nmodp_loop (mfuel fuel : nat) (n k p : Z) : option Z :=
  match fuel with
  | O => None
  | S fuel' =>
      if n =? 0 then Some p
      else
        match (if negb (Z.land n 1 =? 0)
               then multmodp mfuel (x2n_table (Z.land k 31)) p
               else Some p) with
        | None => None
        | Some p' =>
            x2nmodp_loop mfuel fuel' (Z.shiftr n 1) (crc_t (k + 1)) p'
        end
  end.

Definition x2nmodp (fuel : nat) (n k : Z) : option Z :=
  x2nmodp_loop fuel fuel n k (Z.shiftl 1 31).

(** Modelled from the spec: [crc32.hpp] is not among the sources.
    [crc_table[i]] is the byte-wise table of the reflected polynomial,
    eight steps of the generating statement on [i]. *)
Definition crc_table (i : Z) : Z :=
  if (0 <=? i) && (i <? 256) then Nat.iter 8 times_x i else 0.

(** Modelled from the spec: [crc32.hpp] is not among the sources.
    [crc_braid_table[k][i]] is the contribution of byte [i], at offset [k]
    of a word, to the CRC one stride of N words later: [i] carried over the
    8*(N*W - k) bit positions that follow it. *)
Definition crc_braid_table (w : word_size) (k i : Z) : Z :=
  if (0 <=? i) && (i <? 256) && (0 <=? k) && (k <? Z.of_nat (Wn w))
  then Nat.iter (8 * (N * Wn w - Z.to_nat k)) times_x i else 0.

(** Modelled from the spec: [crc32.hpp] is not among the sources.  The
    tables of the big-endian path hold the same entries byte-swapped within
    a [z_word_t], with the byte lanes in the opposite order. *)
Definition crc_big_table (w : word_size) (i : Z) : Z :=
  byte_swap w (crc_table i).

Definition crc_braid_big_table (w : word_size) (k i : Z) : Z :=
  byte_swap w (crc_braid_table w (Z.of_nat (Wn w) - 1 - k) i).

(** [crc_word] and [crc_word_big]: [W] rounds on a [z_word_t]. *)
Definition crc_word (w : word_size) (data : Z) : Z :=
  crc_t (Nat.iter (Wn w)
           (fun data => Z.lxor (Z.shiftr data 8) (crc_table (Z.land data 0xff)))
           data).

Definition crc_word_big (w : word_size) (data : Z) : Z :=
  Nat.iter (Wn w)
    (fun data =>
       Z.lxor (word_t w (Z.shiftl data 8))
         (crc_big_table w
            (Z.land (Z.shiftr data (Z.shiftl (Z.of_nat (Wn w) - 1) 3)) 0xff)))
    data.

(** The input of [crc32_z]: a pointer is its address and the bytes found
    there; [None] is [Z_NULL]. *)
Record buffer := Buffer { addr : Z; bytes : list byte }.

Definition byte_val (b : byte) : Z := Z.of_N (Byte.to_N b).

(** [crc = (crc >> 8) ^ crc_table[(crc ^ *buf++) & 0xff]] for the byte at
    the head of [buf] (a read past the end of the model's list gives 0). *)
Definition crc_byte (crc : Z) (buf : list byte) : Z :=
  Z.lxor (Z.shiftr crc 8)
    (crc_table (Z.land (Z.lxor crc (byte_val (hd x00 buf))) 0xff)).

(** [words[i]]: the [z_word_t] the host loads from bytes [i*W .. i*W+W-1]. *)
Definition load_le (bs : list byte) : Z :=
  fold_right (fun b acc => byte_val b + 256 * acc) 0 bs.

Definition load_be (bs : list byte) : Z :=
  fold_left (fun acc b => 256 * acc + byte_val b) bs 0.

Definition take_word (w : word_size) (buf : list byte) (i : nat) : list byte :=
  map (fun j => nth (i * Wn w + j) buf x00) (seq 0 (Wn w)).

Definition word_at (pl : platform) (buf : list byte) (i : nat) : Z :=
  if little_endian pl then load_le (take_word (W pl) buf i)
  else load_be (take_word (W pl) buf i).

(** The alignment loop
    [while (len && ((z_size_t)buf & (W - 1)) != 0) { len--; crc = ...; }]. *)
Fixpoint align_loop (w : word_size) (len : nat) (crc p : Z) (buf : list byte)
  : Z * nat * list byte :=
  match len with
  | O => (crc, len, buf)
  | S len' =>
      if negb (Z.land p (Z.of_nat (Wn w) - 1) =? 0)
      then align_loop w len' (crc_byte crc buf) (p + 1) (tl buf)
      else (crc, len, buf)
  end.

(** One braid: [crc = table[0][word & 0xff]] and then, for k = 1..W-1,
    [crc ^= table[k][(word >> (k << 3)) & 0xff]]. *)
Definition braid (w : word_size) (table : Z -> Z -> Z) (word : Z) : Z :=
  fold_left
    (fun crc k =>
       Z.lxor crc (table k (Z.land (Z.shiftr word (Z.shiftl k 3)) 0xff)))
    (map Z.of_nat (seq 1 (Wn w - 1)))
    (table 0 (Z.land word 0xff)).

(** The five running CRCs of the braids. *)
Record lanes := Lanes { crc0 : Z; crc1 : Z; crc2 : Z; crc3 : Z; crc4 : Z }.

(** The loop [while (--blks)] over the first blks-1 blocks; [n] counts the
    iterations left and [words] is the pointer, moved by [words += N]. *)
Fixpoint braid_loop (pl : platform) (table : Z -> Z -> Z) (n : nat)
    (c : lanes) (words : list byte) : lanes * list byte :=
  match n with
  | O => (c, words)
  | S n' =>
      let word0 := Z.lxor (crc0 c) (word_at pl words 0) in
      let word1 := Z.lxor (crc1 c) (word_at pl words 1) in
      let word2 := Z.lxor (crc2 c) (word_at pl words 2) in
      let word3 := Z.lxor (crc3 c) (word_at pl words 3) in
      let word4 := Z.lxor (crc4 c) (word_at pl words 4) in
      braid_loop pl table n'
        (Lanes (braid (W pl) table word0) (braid (W pl) table word1)
               (braid (W pl) table word2) (braid (W pl) table word3)
               (braid (W pl) table word4))
        (skipn (N * Wn (W pl)) words)
  end.

(** The braided block of [crc32_z], entered when [len >= N * W + W - 1]:
    it returns the running crc, the remaining length and the pointer. *)
Definition braided (pl : platform) (crc : Z) (b : buffer) (len : nat)
  : Z * nat * list byte :=
  let w := W pl in
  let '(crc, len, buf) := align_loop w len crc (addr b) (bytes b) in
  let blks := (len / (N * Wn w))%nat in
  let len := (len - blks * N * Wn w)%nat in
  if little_endian pl then
    let '(c, words) :=
      braid_loop pl (crc_braid_table w) (blks - 1)
        (Lanes crc 0 0 0 0) buf in
    let crc := crc_word w (Z.lxor (crc0 c) (word_at pl words 0)) in
    let crc := crc_word w (Z.lxor (Z.lxor (crc1 c) (word_at pl words 1)) crc) in
    let crc := crc_word w (Z.lxor (Z.lxor (crc2 c) (word_at pl words 2)) crc) in
    let crc := crc_word w (Z.lxor (Z.lxor (crc3 c) (word_at pl words 3)) crc) in
    let crc := crc_word w (Z.lxor (Z.lxor (crc4 c) (word_at pl words 4)) crc) in
    (crc, len, skipn (N * Wn w) words)
  else
    let '(c, words) :=
      braid_loop pl (crc_braid_big_table w) (blks - 1)
        (Lanes (byte_swap w crc) 0 0 0 0) buf in
    let comb := crc_word_big w (Z.lxor (crc0 c) (word_at pl words 0)) in
    let comb :=
      crc_word_big w (Z.lxor (Z.lxor (crc1 c) (word_at pl words 1)) comb) in
    let comb :=
      crc_word_big w (Z.lxor (Z.lxor (crc2 c) (word_at pl words 2)) comb) in
    let comb :=
      crc_word_big w (Z.lxor (Z.lxor (crc3 c) (word_at pl words 3)) comb) in
    let comb :=
      crc_word_big w (Z.lxor (Z.lxor (crc4 c) (word_at pl words 4)) comb) in
    (byte_swap w comb, len, skipn (N * Wn w) words).

(** [while (len >= 8) { len -= 8; (eight byte steps) }]: [n] is the number
    of rounds, len / 8. *)
Fixpoint unrolled_loop (n : nat) (crc : Z) (buf : list byte) : Z * list byte :=
  match n with
  | O => (crc, buf)
  | S n' =>
      let crc := crc_byte crc buf in let buf := tl buf in
      let crc := crc_byte crc buf in let buf := tl buf in
      let crc := crc_byte crc buf in let buf := tl buf in
      let crc := crc_byte crc buf in let buf := tl buf in
      let crc := crc_byte crc buf in let buf := tl buf in
      let crc := crc_byte crc buf in let buf := tl buf in
      let crc := crc_byte crc buf in let buf := tl buf in
      let crc := crc_byte crc buf in let buf := tl buf in
      unrolled_loop n' crc buf
  end.

(** [while (len) { len--; crc = ...; }]. *)
Fixpoint tail_loop (len : nat) (crc : Z) (buf : list byte) : Z :=
  match len with
  | O => crc
  | S len' => tail_loop len' (crc_byte crc buf) (tl buf)
  end.

Definition crc32_z (pl : platform) (crc : Z) (buf : option buffer) (len : nat)
  : Z :=
  match buf with
  | None => 0
  | Some b =>
      let crc := Z.land (Z.lnot crc) 0xffffffff in
      let '(crc, len, p) :=
        if (N * Wn (W pl) + Wn (W pl) - 1 <=? len)%nat
        then braided pl crc b len
        else (crc, len, bytes b) in
      let '(crc, p) := unrolled_loop (len / 8) crc p in
      let crc := tail_loop (len mod 8) crc p in
      Z.lxor crc 0xffffffff
  end.

Definition crc32 (pl : platform) (crc : Z) (buf : option buffer) (len : nat)
  : Z :=
  crc32_z pl crc buf len.

Definition crc32_combine64 (fuel : nat) (crc1 crc2 len2 : Z) : option Z :=
  match x2nmodp fuel len2 3 with
  | None => None
  | Some op =>
      match multmodp fuel op crc1 with
      | None => None
      | Some r => Some (Z.lxor r (Z.land crc2 0xffffffff))
      end
  end.

Definition crc32_combine (fuel : nat) (crc1 crc2 len2 : Z) : option Z :=
  crc32_combine64 fuel crc1 crc2 len2.

Definition crc32_combine_gen64 (fuel : nat) (len2 : Z) : option Z :=
  x2nmodp fuel len2 3.

Definition crc32_combine_gen (fuel : nat) (len2 : Z) : option Z :=
  crc32_combine_gen64 fuel len2.

Definition crc32_combine_op (fuel : nat) (crc1 crc2 op : Z) : option Z :=
  match multmodp fuel op crc1 with
  | None => None
  | Some r => Some (Z.lxor r (Z.land crc2 0xffffffff))
  end.

(** The plain byte-at-a-time loop over a whole buffer, with the pre- and
    post-conditioning of [crc32_z]: what the braided path is compared
    with. *)
Definition crc32_bytewise (crc : Z) (data : list byte) : Z :=
  Z.lxor (tail_loop (length data) (Z.land (Z.lnot crc) 0xffffffff) data)
    0xffffffff.

End Crc32.

(** ** trees.cpp *)

Module Trees.

(** The constants of [deflate.hpp] and of [trees.cpp]. *)
Definition LENGTH_CODES : Z := 29.
Definition LITERALS : Z := 256.
Definition L_CODES : Z := LITERALS + 1 + LENGTH_CODES.
Definition D_CODES : Z := 30.
Definition BL_CODES : Z := 19.
Definition HEAP_SIZE : Z := 2 * L_CODES + 1.
Definition MAX_BITS : Z := 15.
Definition Buf_size : Z := 16.
Definition MAX_BL_BITS : Z := 7.
Definition END_BLOCK : Z := 256.
Definition REP_3_6 : Z := 16.
Definition REPZ_3_10 : Z := 17.
Definition REPZ_11_138 : Z := 18.
Definition SMALLEST : Z := 1.

(** Modelled from the spec: [zlib.h] and [zutil.hpp] are not among the
    sources.  The three block types of the format (stored, static, dynamic)
    and the values of the data types and of the strategy that pins the
    fixed trees. *)
Definition STORED_BLOCK : Z := 0.
Definition STATIC_TREES : Z := 1.
Definition DYN_TREES : Z := 2.
Definition Z_BINARY : Z := 0.
Definition Z_TEXT : Z := 1.
Definition Z_UNKNOWN : Z := 2.
Definition Z_FIXED : Z := 4.

(** The integer types: [ush] and [uch] wrap at 16 and 8 bits, [unsigned]
    at 32, and [ulg] ([unsigned long]) is taken at 32 bits. *)
Definition ush (x : Z) : Z := x mod 2 ^ 16.
Definition uch (x : Z) : Z := x mod 2 ^ 8.
Definition uns (x : Z) : Z := x mod 2 ^ 32.
Definition ulg (x : Z) : Z := x mod 2 ^ 32.

Definition extra_lbits : list Z :=
  [0;0;0;0;0;0;0;0;1;1;1;1;2;2;2;2;3;3;3;3;4;4;4;4;5;5;5;5;0].

Definition extra_dbits : list Z :=
  [0;0;0;0;1;1;2;2;3;3;4;4;5;5;6;6;7;7;8;8;9;9;10;10;11;11;12;12;13;13].

Definition extra_blbits : list Z :=
  [0;0;0;0;0;0;0;0;0;0;0;0;0;0;0;0;2;3;7].

Definition bl_order : list Z :=
  [16;17;18;0;8;7;9;6;10;5;11;4;12;3;13;2;14;1;15].

(** [a[i]] for a constant table. *)
Definition at_ (a : list Z) (i : Z) : Z := nth (Z.to_nat i) a 0.

(** Arrays in the state: total maps, written at one index. *)
Definition upd {A} (a : Z -> A) (i : Z) (v : A) : Z -> A :=
  fun j => if j =? i then v else a j.

(** [ct_data]: two unions, [fc] read as [Freq] or [Code] and [dl] read as
    [Dad] or [Len]. *)
Record ct_data := Ct_data { fc : Z; dl : Z }.

Definition Freq (c : ct_data) : Z := fc c.
Definition Code (c : ct_data) : Z := fc c.
Definition Dad (c : ct_data) : Z := dl c.
Definition Len (c : ct_data) : Z := dl c.
Definition set_Freq (c : ct_data) (v : Z) : ct_data := Ct_data v (dl c).
Definition set_Code (c : ct_data) (v : Z) : ct_data := Ct_data v (dl c).
Definition set_Dad (c : ct_data) (v : Z) : ct_data := Ct_data (fc c) v.
Definition set_Len (c : ct_data) (v : Z) : ct_data := Ct_data (fc c) v.

(** Counted loops: [for (i = i0; ...; i++)] and [for (...; i--)] over [n]
    rounds. *)
Fixpoint for_up {St} (n : nat) (i : Z) (body : Z -> St -> St) (s : St) : St :=
  match n with
  | O => s
  | S n' => for_up n' (i + 1) body (body i s)
  end.

Fixpoint for_down {St} (n : nat) (i : Z) (body : Z -> St -> St) (s : St)
  : St :=
  match n with
  | O => s
  | S n' => for_down n' (i - 1) body (body i s)
  end.

(** The same, for a body that can fail. *)
Fixpoint for_down_opt {St} (n : nat) (i : Z) (body : Z -> St -> option St)
    (s : St) : option St :=
  match n with
  | O => Some s
  | S n' =>
      match body i s with
      | None => None
      | Some s' => for_down_opt n' (i - 1) body s'
      end
  end.

(** [bi_reverse]: the [do ... while (--len > 0)] runs [len] times, once
    when [len <= 0]; [res] is an [unsigned]. *)
Definition bi_reverse (code len : Z) : Z :=
  let '(_, res) :=
    Nat.iter (Z.to_nat (Z.max len 1))
      (fun '(code, res) =>
         let res := Z.lor res (Z.land code 1) in
         (Z.shiftr code 1, uns (Z.shiftl res 1)))
      (uns code, 0) in
  Z.shiftr res 1.

(** [gen_codes], its first loop: the running [code], an [unsigned], and the
    array [next_code] of [ush] it fills for bits = 1..MAX_BITS. *)
Definition gen_codes_next (bl_count : Z -> Z) : Z * (Z -> Z) :=
  for_up (Z.to_nat MAX_BITS) 1
    (fun bits '(code, next_code) =>
       let code := uns (Z.shiftl (code + bl_count (bits - 1)) 1) in
       (code, upd next_code bits (ush code)))
    (0, fun _ => 0).

(** The second loop, over the symbols 0..max_code. *)
Definition gen_codes_assign (n : Z) (st : (Z -> ct_data) * (Z -> Z))
  : (Z -> ct_data) * (Z -> Z) :=
  let '(tree, next_code) := st in
  let len := Len (tree n) in
  if len =? 0 then (tree, next_code)
  else
    (upd tree n (set_Code (tree n) (ush (bi_reverse (next_code len) len))),
     upd next_code len (ush (next_code len + 1))).

Definition gen_codes (tree : Z -> ct_data) (max_code : Z) (bl_count : Z -> Z)
  : Z -> ct_data :=
  let '(_, next_code) := gen_codes_next bl_count in
  fst (for_up (Z.to_nat (max_code + 1)) 0 gen_codes_assign (tree, next_code)).

(** Modelled from the spec: [trees.hpp], which holds the fixed trees, is
    not among the sources.  The fixed literal/length code of the format has
    lengths 8, 9, 7, 8 on symbols 0-143, 144-255, 256-279, 280-287 and the
    fixed distance code has 5 bits for every symbol; the codes are the
    canonical ones, bit-reversed. *)
Definition static_ltree : Z -> ct_data :=
  gen_codes
    (fun n =>
       Ct_data 0
         (if n <? 0 then 0 else if n <=? 143 then 8 else if n <=? 255 then 9
          else if n <=? 279 then 7 else if n <=? 287 then 8 else 0))
    (L_CODES + 1)
    (fun b => if b =? 7 then 24 else if b =? 8 then 152
              else if b =? 9 then 112 else 0).

Definition static_dtree : Z -> ct_data :=
  fun n =>
    if (0 <=? n) && (n <? D_CODES) then Ct_data (bi_reverse n 5) 5
    else Ct_data 0 0.

(** Modelled from the spec: [trees.hpp] is not among the sources.  The
    tables that map a match length and a match distance to their codes and
    back to the bases of the codes are parameters of the model. *)
Record match_tables := Match_tables {
  _dist_code : Z -> Z;
  _length_code : Z -> Z;
  base_length : Z -> Z;
  base_dist : Z -> Z
}.

Record static_tree_desc := Static_tree_desc {
  static_tree : option (Z -> ct_data);
  extra_bits : list Z;
  extra_base : Z;
  elems : Z;
  max_length : Z
}.

Definition static_l_desc : static_tree_desc :=
  Static_tree_desc (Some static_ltree) extra_lbits (LITERALS + 1) L_CODES
    MAX_BITS.

Definition static_d_desc : static_tree_desc :=
  Static_tree_desc (Some static_dtree) extra_dbits 0 D_CODES MAX_BITS.

Definition static_bl_desc : static_tree_desc :=
  Static_tree_desc None extra_blbits 0 BL_CODES MAX_BL_BITS.

(** [deflate_state], the fields [trees.cpp] reads or writes.  An array is a
    total map from the index; the output buffer is the list of the bytes
    put into it. *)
Record deflate_state := Deflate_state {
  data_type : Z;  (* strm->data_type *)
  pending_buf : list Z;  (* the bytes put so far; pending is its length *)
  level : Z;
  strategy : Z;
  dyn_ltree : Z -> ct_data;
  dyn_dtree : Z -> ct_data;
  bl_tree : Z -> ct_data;
  l_max_code : Z;  (* l_desc.max_code *)
  d_max_code : Z;  (* d_desc.max_code *)
  bl_max_code : Z;  (* bl_desc.max_code *)
  bl_count : Z -> Z;
  heap : Z -> Z;
  heap_len : Z;
  heap_max : Z;
  depth : Z -> Z;
  sym_buf : Z -> Z;
  sym_next : Z;
  sym_end : Z;
  opt_len : Z;
  static_len : Z;
  matches : Z;
  bi_buf : Z;
  bi_valid : Z
}.

(** Assignment to one field. *)
Definition set_data_type (s : deflate_state) (v : Z) : deflate_state :=
  Deflate_state v (pending_buf s) (level s) (strategy s) (dyn_ltree s)
    (dyn_dtree s) (bl_tree s) (l_max_code s) (d_max_code s) (bl_max_code s)
    (bl_count s) (heap s) (heap_len s) (heap_max s) (depth s) (sym_buf s)
    (sym_next s) (sym_end s) (opt_len s) (static_len s) (matches s) (bi_buf
    s) (bi_valid s).

Definition set_pending_buf (s : deflate_state) (v : list Z) : deflate_state :=
  Deflate_state (data_type s) v (level s) (strategy s) (dyn_ltree s)
    (dyn_dtree s) (bl_tree s) (l_max_code s) (d_max_code s) (bl_max_code s)
    (bl_count s) (heap s) (heap_len s) (heap_max s) (depth s) (sym_buf s)
    (sym_next s) (sym_end s) (opt_len s) (static_len s) (matches s) (bi_buf
    s) (bi_valid s).

Definition set_level (s : deflate_state) (v : Z) : deflate_state :=
  Deflate_state (data_type s) (pending_buf s) v (strategy s) (dyn_ltree s)
    (dyn_dtree s) (bl_tree s) (l_max_code s) (d_max_code s) (bl_max_code s)
    (bl_count s) (heap s) (heap_len s) (heap_max s) (depth s) (sym_buf s)
    (sym_next s) (sym_end s) (opt_len s) (static_len s) (matches s) (bi_buf
    s) (bi_valid s).

Definition set_strategy (s : deflate_state) (v : Z) : deflate_state :=
  Deflate_state (data_type s) (pending_buf s) (level s) v (dyn_ltree s)
    (dyn_dtree s) (bl_tree s) (l_max_code s) (d_max_code s) (bl_max_code s)
    (bl_count s) (heap s) (heap_len s) (heap_max s) (depth s) (sym_buf s)
    (sym_next s) (sym_end s) (opt_len s) (static_len s) (matches s) (bi_buf
    s) (bi_valid s).

Definition set_dyn_ltree (s : deflate_state) (v : Z -> ct_data) : deflate_state :=
  Deflate_state (data_type s) (pending_buf s) (level s) (strategy s) v
    (dyn_dtree s) (bl_tree s) (l_max_code s) (d_max_code s) (bl_max_code s)
    (bl_count s) (heap s) (heap_len s) (heap_max s) (depth s) (sym_buf s)
    (sym_next s) (sym_end s) (opt_len s) (static_len s) (matches s) (bi_buf
    s) (bi_valid s).

Definition set_dyn_dtree (s : deflate_state) (v : Z -> ct_data) : deflate_state :=
  Deflate_state (data_type s) (pending_buf s) (level s) (strategy s)
    (dyn_ltree s) v (bl_tree s) (l_max_code s) (d_max_code s) (bl_max_code
    s) (bl_count s) (heap s) (heap_len s) (heap_max s) (depth s) (sym_buf s)
    (sym_next s) (sym_end s) (opt_len s) (static_len s) (matches s) (bi_buf
    s) (bi_valid s).

Definition set_bl_tree (s : deflate_state) (v : Z -> ct_data) : deflate_state :=
  Deflate_state (data_type s) (pending_buf s) (level s) (strategy s)
    (dyn_ltree s) (dyn_dtree s) v (l_max_code s) (d_max_code s) (bl_max_code
    s) (bl_count s) (heap s) (heap_len s) (heap_max s) (depth s) (sym_buf s)
    (sym_next s) (sym_end s) (opt_len s) (static_len s) (matches s) (bi_buf
    s) (bi_valid s).

Definition set_l_max_code (s : deflate_state) (v : Z) : deflate_state :=
  Deflate_state (data_type s) (pending_buf s) (level s) (strategy s)
    (dyn_ltree s) (dyn_dtree s) (bl_tree s) v (d_max_code s) (bl_max_code s)
    (bl_count s) (heap s) (heap_len s) (heap_max s) (depth s) (sym_buf s)
    (sym_next s) (sym_end s) (opt_len s) (static_len s) (matches s) (bi_buf
    s) (bi_valid s).

Definition set_d_max_code (s : deflate_state) (v : Z) : deflate_state :=
  Deflate_state (data_type s) (pending_buf s) (level s) (strategy s)
    (dyn_ltree s) (dyn_dtree s) (bl_tree s) (l_max_code s) v (bl_max_code s)
    (bl_count s) (heap s) (heap_len s) (heap_max s) (depth s) (sym_buf s)
    (sym_next s) (sym_end s) (opt_len s) (static_len s) (matches s) (bi_buf
    s) (bi_valid s).

Definition set_bl_max_code (s : deflate_state) (v : Z) : deflate_state :=
  Deflate_state (data_type s) (pending_buf s) (level s) (strategy s)
    (dyn_ltree s) (dyn_dtree s) (bl_tree s) (l_max_code s) (d_max_code s) v
    (bl_count s) (heap s) (heap_len s) (heap_max s) (depth s) (sym_buf s)
    (sym_next s) (sym_end s) (opt_len s) (static_len s) (matches s) (bi_buf
    s) (bi_valid s).

Definition set_bl_count (s : deflate_state) (v : Z -> Z) : deflate_state :=
  Deflate_state (data_type s) (pending_buf s) (level s) (strategy s)
    (dyn_ltree s) (dyn_dtree s) (bl_tree s) (l_max_code s) (d_max_code s)
    (bl_max_code s) v (heap s) (heap_len s) (heap_max s) (depth s) (sym_buf
    s) (sym_next s) (sym_end s) (opt_len s) (static_len s) (matches s)
    (bi_buf s) (bi_valid s).

Definition set_heap (s : deflate_state) (v : Z -> Z) : deflate_state :=
  Deflate_state (data_type s) (pending_buf s) (level s) (strategy s)
    (dyn_ltree s) (dyn_dtree s) (bl_tree s) (l_max_code s) (d_max_code s)
    (bl_max_code s) (bl_count s) v (heap_len s) (heap_max s) (depth s)
    (sym_buf s) (sym_next s) (sym_end s) (opt_len s) (static_len s) (matches
    s) (bi_buf s) (bi_valid s).

Definition set_heap_len (s : deflate_state) (v : Z) : deflate_state :=
  Deflate_state (data_type s) (pending_buf s) (level s) (strategy s)
    (dyn_ltree s) (dyn_dtree s) (bl_tree s) (l_max_code s) (d_max_code s)
    (bl_max_code s) (bl_count s) (heap s) v (heap_max s) (depth s) (sym_buf
    s) (sym_next s) (sym_end s) (opt_len s) (static_len s) (matches s)
    (bi_buf s) (bi_valid s).

Definition set_heap_max (s : deflate_state) (v : Z) : deflate_state :=
  Deflate_state (data_type s) (pending_buf s) (level s) (strategy s)
    (dyn_ltree s) (dyn_dtree s) (bl_tree s) (l_max_code s) (d_max_code s)
    (bl_max_code s) (bl_count s) (heap s) (heap_len s) v (depth s) (sym_buf
    s) (sym_next s) (sym_end s) (opt_len s) (static_len s) (matches s)
    (bi_buf s) (bi_valid s).

Definition set_depth (s : deflate_state) (v : Z -> Z) : deflate_state :=
  Deflate_state (data_type s) (pending_buf s) (level s) (strategy s)
    (dyn_ltree s) (dyn_dtree s) (bl_tree s) (l_max_code s) (d_max_code s)
    (bl_max_code s) (bl_count s) (heap s) (heap_len s) (heap_max s) v
    (sym_buf s) (sym_next s) (sym_end s) (opt_len s) (static_len s) (matches
    s) (bi_buf s) (bi_valid s).

Definition set_sym_buf (s : deflate_state) (v : Z -> Z) : deflate_state :=
  Deflate_state (data_type s) (pending_buf s) (level s) (strategy s)
    (dyn_ltree s) (dyn_dtree s) (bl_tree s) (l_max_code s) (d_max_code s)
    (bl_max_code s) (bl_count s) (heap s) (heap_len s) (heap_max s) (depth
    s) v (sym_next s) (sym_end s) (opt_len s) (static_len s) (matches s)
    (bi_buf s) (bi_valid s).

Definition set_sym_next (s : deflate_state) (v : Z) : deflate_state :=
  Deflate_state (data_type s) (pending_buf s) (level s) (strategy s)
    (dyn_ltree s) (dyn_dtree s) (bl_tree s) (l_max_code s) (d_max_code s)
    (bl_max_code s) (bl_count s) (heap s) (heap_len s) (heap_max s) (depth
    s) (sym_buf s) v (sym_end s) (opt_len s) (static_len s) (matches s)
    (bi_buf s) (bi_valid s).

Definition set_sym_end (s : deflate_state) (v : Z) : deflate_state :=
  Deflate_state (data_type s) (pending_buf s) (level s) (strategy s)
    (dyn_ltree s) (dyn_dtree s) (bl_tree s) (l_max_code s) (d_max_code s)
    (bl_max_code s) (bl_count s) (heap s) (heap_len s) (heap_max s) (depth
    s) (sym_buf s) (sym_next s) v (opt_len s) (static_len s) (matches s)
    (bi_buf s) (bi_valid s).

Definition set_opt_len (s : deflate_state) (v : Z) : deflate_state :=
  Deflate_state (data_type s) (pending_buf s) (level s) (strategy s)
    (dyn_ltree s) (dyn_dtree s) (bl_tree s) (l_max_code s) (d_max_code s)
    (bl_max_code s) (bl_count s) (heap s) (heap_len s) (heap_max s) (depth
    s) (sym_buf s) (sym_next s) (sym_end s) v (static_len s) (matches s)
    (bi_buf s) (bi_valid s).

Definition set_static_len (s : deflate_state) (v : Z) : deflate_state :=
  Deflate_state (data_type s) (pending_buf s) (level s) (strategy s)
    (dyn_ltree s) (dyn_dtree s) (bl_tree s) (l_max_code s) (d_max_code s)
    (bl_max_code s) (bl_count s) (heap s) (heap_len s) (heap_max s) (depth
    s) (sym_buf s) (sym_next s) (sym_end s) (opt_len s) v (matches s)
    (bi_buf s) (bi_valid s).

Definition set_matches (s : deflate_state) (v : Z) : deflate_state :=
  Deflate_state (data_type s) (pending_buf s) (level s) (strategy s)
    (dyn_ltree s) (dyn_dtree s) (bl_tree s) (l_max_code s) (d_max_code s)
    (bl_max_code s) (bl_count s) (heap s) (heap_len s) (heap_max s) (depth
    s) (sym_buf s) (sym_next s) (sym_end s) (opt_len s) (static_len s) v
    (bi_buf s) (bi_valid s).

Definition set_bi_buf (s : deflate_state) (v : Z) : deflate_state :=
  Deflate_state (data_type s) (pending_buf s) (level s) (strategy s)
    (dyn_ltree s) (dyn_dtree s) (bl_tree s) (l_max_code s) (d_max_code s)
    (bl_max_code s) (bl_count s) (heap s) (heap_len s) (heap_max s) (depth
    s) (sym_buf s) (sym_next s) (sym_end s) (opt_len s) (static_len s)
    (matches s) v (bi_valid s).

Definition set_bi_valid (s : deflate_state) (v : Z) : deflate_state :=
  Deflate_state (data_type s) (pending_buf s) (level s) (strategy s)
    (dyn_ltree s) (dyn_dtree s) (bl_tree s) (l_max_code s) (d_max_code s)
    (bl_max_code s) (bl_count s) (heap s) (heap_len s) (heap_max s) (depth
    s) (sym_buf s) (sym_next s) (sym_end s) (opt_len s) (static_len s)
    (matches s) (bi_buf s) v.

(** The three [tree_desc] of a state, as [_tr_init] sets them up: each
    names its dynamic tree in the state and its static description. *)
Inductive tree_desc := L_DESC | D_DESC | BL_DESC.

Definition stat_desc (desc : tree_desc) : static_tree_desc :=
  match desc with
  | L_DESC => static_l_desc
  | D_DESC => static_d_desc
  | BL_DESC => static_bl_desc
  end.

Definition dyn_tree (s : deflate_state) (desc : tree_desc) : Z -> ct_data :=
  match desc with
  | L_DESC => dyn_ltree s
  | D_DESC => dyn_dtree s
  | BL_DESC => bl_tree s
  end.

Definition set_dyn_tree (s : deflate_state) (desc : tree_desc)
    (t : Z -> ct_data) : deflate_state :=
  match desc with
  | L_DESC => set_dyn_ltree s t
  | D_DESC => set_dyn_dtree s t
  | BL_DESC => set_bl_tree s t
  end.

Definition max_code (s : deflate_state) (desc : tree_desc) : Z :=
  match desc with
  | L_DESC => l_max_code s
  | D_DESC => d_max_code s
  | BL_DESC => bl_max_code s
  end.

Definition set_max_code (s : deflate_state) (desc : tree_desc) (v : Z)
  : deflate_state :=
  match desc with
  | L_DESC => set_l_max_code s v
  | D_DESC => set_d_max_code s v
  | BL_DESC => set_bl_max_code s v
  end.

(** [put_byte] and [put_short]: the low byte goes out first. *)
Definition put_byte (s : deflate_state) (c : Z) : deflate_state :=
  set_pending_buf s (pending_buf s ++ [uch c]).

Definition put_short (s : deflate_state) (w : Z) : deflate_state :=
  let s := put_byte s (uch (Z.land w 0xff)) in
  put_byte s (uch (Z.shiftr (ush w) 8)).

Definition bi_flush (s : deflate_state) : deflate_state :=
  if bi_valid s =? 16 then
    let s := put_short s (bi_buf s) in
    let s := set_bi_buf s 0 in
    set_bi_valid s 0
  else if bi_valid s >=? 8 then
    let s := put_byte s (bi_buf s) in
    let s := set_bi_buf s (Z.shiftr (bi_buf s) 8) in
    set_bi_valid s (bi_valid s - 8)
  else s.

Definition bi_windup (s : deflate_state) : deflate_state :=
  let s :=
    if bi_valid s >? 8 then put_short s (bi_buf s)
    else if bi_valid s >? 0 then put_byte s (bi_buf s)
    else s in
  let s := set_bi_buf s 0 in
  set_bi_valid s 0.

(** The macro [send_bits(s, value, length)]; [bi_buf] is a [ush]. *)
Definition send_bits (s : deflate_state) (value length : Z) : deflate_state :=
  let len := length in
  if bi_valid s >? Buf_size - len then
    let val := value in
    let s := set_bi_buf s (ush (Z.lor (bi_buf s) (Z.shiftl (ush val) (bi_valid s)))) in
    let s := put_short s (bi_buf s) in
    let s := set_bi_buf s (Z.shiftr (ush val) (Buf_size - bi_valid s)) in
    set_bi_valid s (bi_valid s + (len - Buf_size))
  else
    let s := set_bi_buf s (ush (Z.lor (bi_buf s) (Z.shiftl (ush value) (bi_valid s)))) in
    set_bi_valid s (bi_valid s + len).

(** [send_code(s, c, tree)]. *)
Definition send_code (s : deflate_state) (c : Z) (tree : Z -> ct_data)
  : deflate_state :=
  send_bits s (Code (tree c)) (Len (tree c)).

Definition init_block (s : deflate_state) : deflate_state :=
  let s :=
    for_up (Z.to_nat L_CODES) 0
      (fun n s => set_dyn_ltree s (upd (dyn_ltree s) n (set_Freq (dyn_ltree s n) 0)))
      s in
  let s :=
    for_up (Z.to_nat D_CODES) 0
      (fun n s => set_dyn_dtree s (upd (dyn_dtree s) n (set_Freq (dyn_dtree s n) 0)))
      s in
  let s :=
    for_up (Z.to_nat BL_CODES) 0
      (fun n s => set_bl_tree s (upd (bl_tree s) n (set_Freq (bl_tree s n) 0)))
      s in
  let s :=
    set_dyn_ltree s (upd (dyn_ltree s) END_BLOCK (set_Freq (dyn_ltree s END_BLOCK) 1)) in
  let s := set_static_len s 0 in
  let s := set_opt_len s 0 in
  let s := set_matches s 0 in
  set_sym_next s 0.

(** [_tr_init]: the descriptors are the three [tree_desc] above. *)
Definition _tr_init (s : deflate_state) : deflate_state :=
  let s := set_bi_buf s 0 in
  let s := set_bi_valid s 0 in
  init_block s.

(** The macro [smaller(tree, n, m, depth)]. *)
Definition smaller (tree : Z -> ct_data) (n m : Z) (depth : Z -> Z) : bool :=
  (Freq (tree n) <? Freq (tree m))
  || ((Freq (tree n) =? Freq (tree m)) && (depth n <=? depth m)).

(** [pqdownheap]: the [while (j <= s->heap_len)] loop, on fuel. *)
Fixpoint pqdownheap_loop (fuel : nat) (s : deflate_state)
    (tree : Z -> ct_data) (v k j : Z) : option (deflate_state * Z) :=
  match fuel with
  | O => None
  | S fuel' =>
      if j <=? heap_len s then
        let j :=
          if (j <? heap_len s)
             && smaller tree (heap s (j + 1)) (heap s j) (depth s)
          then j + 1 else j in
        if smaller tree v (heap s j) (depth s) then Some (s, k)
        else
          let s := set_heap s (upd (heap s) k (heap s j)) in
          pqdownheap_loop fuel' s tree v j (Z.shiftl j 1)
      else Some (s, k)
  end.

Definition pqdownheap (fuel : nat) (s : deflate_state) (tree : Z -> ct_data)
    (k : Z) : option deflate_state :=
  let v := heap s k in
  match pqdownheap_loop fuel s tree v k (Z.shiftl k 1) with
  | None => None
  | Some (s, k) => Some (set_heap s (upd (heap s) k v))
  end.

(** [gen_bitlen], the loop over the sorted part of the heap: the state of
    the loop is the tree, [bl_count], [opt_len], [static_len] and
    [overflow]. *)
Definition gen_bitlen_count (s : deflate_state) (desc : tree_desc) (h : Z)
    (st : (Z -> ct_data) * (Z -> Z) * Z * Z * Z)
  : (Z -> ct_data) * (Z -> Z) * Z * Z * Z :=
  let '(tree, bl_count, opt_len, static_len, overflow) := st in
  let max_code := max_code s desc in
  let stree := static_tree (stat_desc desc) in
  let extra := extra_bits (stat_desc desc) in
  let base := extra_base (stat_desc desc) in
  let max_length := max_length (stat_desc desc) in
  let n := heap s h in
  let bits := Len (tree (Dad (tree n))) + 1 in
  let '(bits, overflow) :=
    if bits >? max_length then (max_length, overflow + 1)
    else (bits, overflow) in
  let tree := upd tree n (set_Len (tree n) (ush bits)) in
  if n >? max_code then (tree, bl_count, opt_len, static_len, overflow)
  else
    let bl_count := upd bl_count bits (ush (bl_count bits + 1)) in
    let xbits := if n >=? base then at_ extra (n - base) else 0 in
    let f := Freq (tree n) in
    let opt_len := ulg (opt_len + ulg f * uns (bits + xbits)) in
    let static_len :=
      match stree with
      | Some stree => ulg (static_len + ulg f * uns (Len (stree n) + xbits))
      | None => static_len
      end in
    (tree, bl_count, opt_len, static_len, overflow).

(** [while (s->bl_count[bits] == 0) bits--;]: the model gives up below
    index 0, where the array has no element. *)
Fixpoint gen_bitlen_scan (fuel : nat) (bl_count : Z -> Z) (bits : Z)
  : option Z :=
  match fuel with
  | O => None
  | S fuel' =>
      if bits <? 0 then None
      else if bl_count bits =? 0 then gen_bitlen_scan fuel' bl_count (bits - 1)
      else Some bits
  end.

(** The repair loop [do { ... overflow -= 2; } while (overflow > 0)]. *)
Fixpoint gen_bitlen_repair (fuel0 fuel : nat) (max_length : Z)
    (bl_count : Z -> Z) (overflow : Z) : option (Z -> Z) :=
  match fuel with
  | O => None
  | S fuel' =>
      match gen_bitlen_scan fuel0 bl_count (max_length - 1) with
      | None => None
      | Some bits =>
          let bl_count := upd bl_count bits (ush (bl_count bits - 1)) in
          let bl_count :=
            upd bl_count (bits + 1) (ush (bl_count (bits + 1) + 2)) in
          let bl_count :=
            upd bl_count max_length (ush (bl_count max_length - 1)) in
          let overflow := overflow - 2 in
          if overflow >? 0
          then gen_bitlen_repair fuel0 fuel' max_length bl_count overflow
          else Some bl_count
      end
  end.

(** [while (n != 0) { m = s->heap[--h]; ... n--; }]: the model gives up
    below index 0 of the heap. *)
Fixpoint gen_bitlen_assign (fuel : nat) (s : deflate_state) (max_code bits : Z)
    (n h : Z) (tree : Z -> ct_data) (opt_len : Z)
  : option (Z * (Z -> ct_data) * Z) :=
  match fuel with
  | O => None
  | S fuel' =>
      if n =? 0 then Some (h, tree, opt_len)
      else
        let h := h - 1 in
        if h <? 0 then None
        else
          let m := heap s h in
          if m >? max_code
          then gen_bitlen_assign fuel' s max_code bits n h tree opt_len
          else
            let '(tree, opt_len) :=
              if negb (uns (Len (tree m)) =? uns bits) then
                (upd tree m (set_Len (tree m) (ush bits)),
                 ulg (opt_len + ulg (ulg bits - Len (tree m)) * Freq (tree m)))
              else (tree, opt_len) in
            gen_bitlen_assign fuel' s max_code bits (n - 1) h tree opt_len
  end.

Definition gen_bitlen (fuel : nat) (s : deflate_state) (desc : tree_desc)
  : option deflate_state :=
  let tree := dyn_tree s desc in
  let max_code := max_code s desc in
  let max_length := max_length (stat_desc desc) in
  let bl_count :=
    for_up (Z.to_nat (MAX_BITS + 1)) 0 (fun bits blc => upd blc bits 0)
      (bl_count s) in
  let root := heap s (heap_max s) in
  let tree := upd tree root (set_Len (tree root) 0) in
  let '(tree, bl_count, opt_len, static_len, overflow) :=
    for_up (Z.to_nat (HEAP_SIZE - (heap_max s + 1))) (heap_max s + 1)
      (gen_bitlen_count s desc)
      (tree, bl_count, opt_len s, static_len s, 0) in
  let h := Z.max HEAP_SIZE (heap_max s + 1) in
  let s := set_bl_count s bl_count in
  let s := set_static_len s static_len in
  if overflow =? 0 then
    Some (set_opt_len (set_dyn_tree s desc tree) opt_len)
  else
    match gen_bitlen_repair fuel fuel max_length bl_count overflow with
    | None => None
    | Some bl_count =>
        let s := set_bl_count s bl_count in
        match
          for_down_opt (Z.to_nat max_length) max_length
            (fun bits '(h, tree, opt_len) =>
               gen_bitlen_assign fuel s max_code bits (bl_count bits) h tree
                 opt_len)
            (h, tree, opt_len)
        with
        | None => None
        | Some (_, tree, opt_len) =>
            Some (set_opt_len (set_dyn_tree s desc tree) opt_len)
        end
    end.

(** [build_tree], its first loop: the symbols with a frequency enter the
    heap, the others get length 0.  [max_code] is the local variable. *)
Definition build_tree_collect (desc : tree_desc) (n : Z)
    (st : deflate_state * Z) : deflate_state * Z :=
  let '(s, max_code) := st in
  let tree := dyn_tree s desc in
  if negb (Freq (tree n) =? 0) then
    let s := set_heap_len s (heap_len s + 1) in
    let s := set_heap s (upd (heap s) (heap_len s) n) in
    let s := set_depth s (upd (depth s) n 0) in
    (s, n)
  else (set_dyn_tree s desc (upd tree n (set_Len (tree n) 0)), max_code).

(** [while (s->heap_len < 2)]: at most two rounds. *)
Fixpoint build_tree_force (rounds : nat) (desc : tree_desc)
    (st : deflate_state * Z) : deflate_state * Z :=
  match rounds with
  | O => st
  | S rounds' =>
      let '(s, max_code) := st in
      if heap_len s <? 2 then
        let tree := dyn_tree s desc in
        let stree := static_tree (stat_desc desc) in
        let '(max_code, node) :=
          if max_code <? 2 then (max_code + 1, max_code + 1)
          else (max_code, 0) in
        let s := set_heap_len s (heap_len s + 1) in
        let s := set_heap s (upd (heap s) (heap_len s) node) in
        let s := set_dyn_tree s desc (upd tree node (set_Freq (tree node) 1)) in
        let s := set_depth s (upd (depth s) node 0) in
        let s := set_opt_len s (ulg (opt_len s - 1)) in
        let s :=
          match stree with
          | Some stree => set_static_len s (ulg (static_len s - Len (stree node)))
          | None => s
          end in
        build_tree_force rounds' desc (s, max_code)
      else st
  end.

(** [for (n = s->heap_len / 2; n >= 1; n--) pqdownheap(s, tree, n);]. *)
Definition build_tree_heapify (fuel : nat) (s : deflate_state)
    (desc : tree_desc) : option deflate_state :=
  for_down_opt (Z.to_nat (heap_len s / 2)) (heap_len s / 2)
    (fun n s => pqdownheap fuel s (dyn_tree s desc) n) s.

(** The [do ... while (s->heap_len >= 2)] that joins the two least
    frequent nodes; [node] is the next internal node. *)
Fixpoint build_tree_join (fuel0 fuel : nat) (s : deflate_state)
    (desc : tree_desc) (node : Z) : option deflate_state :=
  match fuel with
  | O => None
  | S fuel' =>
      (* pqremove(s, tree, n) *)
      let n := heap s SMALLEST in
      let s := set_heap s (upd (heap s) SMALLEST (heap s (heap_len s))) in
      let s := set_heap_len s (heap_len s - 1) in
      match pqdownheap fuel0 s (dyn_tree s desc) SMALLEST with
      | None => None
      | Some s =>
          let m := heap s SMALLEST in
          let s := set_heap_max s (heap_max s - 1) in
          let s := set_heap s (upd (heap s) (heap_max s) n) in
          let s := set_heap_max s (heap_max s - 1) in
          let s := set_heap s (upd (heap s) (heap_max s) m) in
          let tree := dyn_tree s desc in
          let tree :=
            upd tree node
              (set_Freq (tree node) (ush (Freq (tree n) + Freq (tree m)))) in
          let s :=
            set_depth s
              (upd (depth s) node
                 (uch ((if depth s n >=? depth s m then depth s n
                        else depth s m) + 1))) in
          let tree := upd tree m (set_Dad (tree m) (ush node)) in
          let tree := upd tree n (set_Dad (tree n) (ush node)) in
          let s := set_dyn_tree s desc tree in
          let s := set_heap s (upd (heap s) SMALLEST node) in
          let node := node + 1 in
          match pqdownheap fuel0 s (dyn_tree s desc) SMALLEST with
          | None => None
          | Some s =>
              if heap_len s >=? 2 then build_tree_join fuel0 fuel' s desc node
              else Some s
          end
      end
  end.

Definition build_tree (fuel : nat) (s : deflate_state) (desc : tree_desc)
  : option deflate_state :=
  let elems := elems (stat_desc desc) in
  let s := set_heap_len s 0 in
  let s := set_heap_max s HEAP_SIZE in
  let '(s, max_code) :=
    for_up (Z.to_nat elems) 0 (build_tree_collect desc) (s, -1) in
  let '(s, max_code) := build_tree_force 2 desc (s, max_code) in
  let s := set_max_code s desc max_code in
  match build_tree_heapify fuel s desc with
  | None => None
  | Some s =>
      match build_tree_join fuel fuel s desc elems with
      | None => None
      | Some s =>
          let s := set_heap_max s (heap_max s - 1) in
          let s := set_heap s (upd (heap s) (heap_max s) (heap s SMALLEST)) in
          match gen_bitlen fuel s desc with
          | None => None
          | Some s =>
              Some (set_dyn_tree s desc
                      (gen_codes (dyn_tree s desc) max_code (bl_count s)))
          end
      end
  end.

(** The variables [scan_tree] and [send_tree] carry around their loop. *)
Record run := Run {
  prevlen : Z; nextlen : Z; count : Z; max_count : Z; min_count : Z
}.

(** The end of a round of both loops: the next limits. *)
Definition next_run (curlen nextlen : Z) : run :=
  if nextlen =? 0 then Run curlen nextlen 0 138 3
  else if curlen =? nextlen then Run curlen nextlen 0 6 3
  else Run curlen nextlen 0 7 4.

Definition bump (s : deflate_state) (i by_ : Z) : deflate_state :=
  set_bl_tree s (upd (bl_tree s) i (set_Freq (bl_tree s i) (ush (Freq (bl_tree s i) + by_)))).

Definition scan_tree_round (tree : Z -> ct_data) (n : Z)
    (st : deflate_state * run) : deflate_state * run :=
  let '(s, r) := st in
  let curlen := nextlen r in
  let nextlen := Len (tree (n + 1)) in
  let count := count r + 1 in
  if (count <? max_count r) && (curlen =? nextlen) then
    (s, Run (prevlen r) nextlen count (max_count r) (min_count r))
  else
    let s :=
      if count <? min_count r then bump s curlen count
      else if negb (curlen =? 0) then
        let s := if negb (curlen =? prevlen r) then bump s curlen 1 else s in
        bump s REP_3_6 1
      else if count <=? 10 then bump s REPZ_3_10 1
      else bump s REPZ_11_138 1 in
    (s, next_run curlen nextlen).

(** [scan_tree(s, tree, max_code)], [tree] being the dynamic tree of
    [desc]: it also writes the guard [tree[max_code + 1].Len = 0xffff]. *)
Definition scan_tree (s : deflate_state) (desc : tree_desc) (max_code : Z)
  : deflate_state :=
  let tree := dyn_tree s desc in
  let nextlen := Len (tree 0) in
  let r := if nextlen =? 0 then Run (-1) nextlen 0 138 3
           else Run (-1) nextlen 0 7 4 in
  let tree := upd tree (max_code + 1) (set_Len (tree (max_code + 1)) 0xffff) in
  let s := set_dyn_tree s desc tree in
  fst (for_up (Z.to_nat (max_code + 1)) 0 (scan_tree_round tree) (s, r)).

(** [do { send_code(s, curlen, s->bl_tree); } while (--count != 0);] with
    [count >= 1], as it is where the loop is entered. *)
Fixpoint send_tree_repeat (count : nat) (s : deflate_state) (curlen : Z)
  : deflate_state :=
  match count with
  | O => s
  | S count' => send_tree_repeat count' (send_code s curlen (bl_tree s)) curlen
  end.

Definition send_tree_round (tree : Z -> ct_data) (n : Z)
    (st : deflate_state * run) : deflate_state * run :=
  let '(s, r) := st in
  let curlen := nextlen r in
  let nextlen := Len (tree (n + 1)) in
  let count := count r + 1 in
  if (count <? max_count r) && (curlen =? nextlen) then
    (s, Run (prevlen r) nextlen count (max_count r) (min_count r))
  else
    let s :=
      if count <? min_count r then send_tree_repeat (Z.to_nat count) s curlen
      else if negb (curlen =? 0) then
        let '(s, count) :=
          if negb (curlen =? prevlen r)
          then (send_code s curlen (bl_tree s), count - 1)
          else (s, count) in
        let s := send_code s REP_3_6 (bl_tree s) in
        send_bits s (count - 3) 2
      else if count <=? 10 then
        let s := send_code s REPZ_3_10 (bl_tree s) in
        send_bits s (count - 3) 3
      else
        let s := send_code s REPZ_11_138 (bl_tree s) in
        send_bits s (count - 11) 7 in
    (s, next_run curlen nextlen).

Definition send_tree (s : deflate_state) (tree : Z -> ct_data) (max_code : Z)
  : deflate_state :=
  let nextlen := Len (tree 0) in
  let r := if nextlen =? 0 then Run (-1) nextlen 0 138 3
           else Run (-1) nextlen 0 7 4 in
  fst (for_up (Z.to_nat (max_code + 1)) 0 (send_tree_round tree) (s, r)).

(** [for (max_blindex = BL_CODES - 1; max_blindex >= 3; max_blindex--)
      if (s->bl_tree[bl_order[max_blindex]].Len != 0) break;]. *)
Fixpoint build_bl_tree_index (rounds : nat) (s : deflate_state)
    (max_blindex : Z) : Z :=
  match rounds with
  | O => max_blindex
  | S rounds' =>
      if max_blindex >=? 3 then
        if negb (Len (bl_tree s (at_ bl_order max_blindex)) =? 0)
        then max_blindex
        else build_bl_tree_index rounds' s (max_blindex - 1)
      else max_blindex
  end.

Definition build_bl_tree (fuel : nat) (s : deflate_state)
  : option (deflate_state * Z) :=
  let s := scan_tree s L_DESC (l_max_code s) in
  let s := scan_tree s D_DESC (d_max_code s) in
  match build_tree fuel s BL_DESC with
  | None => None
  | Some s =>
      let max_blindex :=
        build_bl_tree_index (Z.to_nat BL_CODES) s (BL_CODES - 1) in
      let s := set_opt_len s (ulg (opt_len s + (3 * (ulg max_blindex + 1) + 5 + 5 + 4))) in
      Some (s, max_blindex)
  end.

Definition send_all_trees (s : deflate_state) (lcodes dcodes blcodes : Z)
  : deflate_state :=
  let s := send_bits s (lcodes - 257) 5 in
  let s := send_bits s (dcodes - 1) 5 in
  let s := send_bits s (blcodes - 4) 4 in
  let s :=
    for_up (Z.to_nat blcodes) 0
      (fun rank s => send_bits s (Len (bl_tree s (at_ bl_order rank))) 3) s in
  let s := send_tree s (dyn_ltree s) (lcodes - 1) in
  send_tree s (dyn_dtree s) (dcodes - 1).

(** [_tr_stored_block]: [buf] is the bytes at the pointer, [None] for the
    null pointer; [zmemcpy] copies [stored_len] of them. *)
Definition _tr_stored_block (s : deflate_state) (buf : option (list Z))
    (stored_len last : Z) : deflate_state :=
  let s := send_bits s (Z.shiftl STORED_BLOCK 1 + last) 3 in
  let s := bi_windup s in
  let s := put_short s (ush stored_len) in
  let s := put_short s (ush (Z.lnot stored_len)) in
  let data := match buf with Some data => data | None => [] end in
  if negb (stored_len =? 0) then
    set_pending_buf s
      (pending_buf s
       ++ map (fun i => uch (nth i data 0)) (seq 0 (Z.to_nat stored_len)))
  else s.

Definition _tr_flush_bits (s : deflate_state) : deflate_state := bi_flush s.

Definition _tr_align (s : deflate_state) : deflate_state :=
  let s := send_bits s (Z.shiftl STATIC_TREES 1) 3 in
  let s := send_code s END_BLOCK static_ltree in
  bi_flush s.

(** The macro [d_code(dist)]. *)
Definition d_code (mt : match_tables) (dist : Z) : Z :=
  if dist <? 256 then _dist_code mt dist
  else _dist_code mt (256 + Z.shiftr dist 7).

(** [compress_block], the [do ... while (sx < s->sym_next)] over the
    symbol buffer: [sx] grows by 3 a round, so [rounds] bounds it. *)
Fixpoint compress_block_loop (rounds : nat) (mt : match_tables)
    (s : deflate_state) (ltree dtree : Z -> ct_data) (sx : Z)
  : deflate_state :=
  match rounds with
  | O => s
  | S rounds' =>
      let dist := Z.land (sym_buf s sx) 0xff in
      let dist := uns (dist + Z.shiftl (Z.land (sym_buf s (sx + 1)) 0xff) 8) in
      let lc := sym_buf s (sx + 2) in
      let sx := sx + 3 in
      let s :=
        if dist =? 0 then send_code s lc ltree
        else
          let code := _length_code mt lc in
          let s := send_code s (uns (code + uns LITERALS + 1)) ltree in
          let extra := at_ extra_lbits code in
          let s :=
            if negb (extra =? 0)
            then send_bits s (lc - base_length mt code) extra
            else s in
          let dist := uns (dist - 1) in
          let code := d_code mt dist in
          let s := send_code s code dtree in
          let extra := at_ extra_dbits code in
          if negb (extra =? 0)
          then send_bits s (uns (dist - uns (base_dist mt code))) extra
          else s in
      if sx <? sym_next s
      then compress_block_loop rounds' mt s ltree dtree sx
      else s
  end.

Definition compress_block (mt : match_tables) (s : deflate_state)
    (ltree dtree : Z -> ct_data) : deflate_state :=
  let s :=
    if negb (sym_next s =? 0)
    then compress_block_loop (Z.to_nat (sym_next s)) mt s ltree dtree 0
    else s in
  send_code s END_BLOCK ltree.

(** [detect_data_type]: the three searches, each ended by a [return]. *)
Definition detect_data_type (s : deflate_state) : Z :=
  if existsb
       (fun n => Z.testbit 0xf3ffc07f n && negb (Freq (dyn_ltree s n) =? 0))
       (map Z.of_nat (seq 0 32))
  then Z_BINARY
  else if negb (Freq (dyn_ltree s 9) =? 0)
          || negb (Freq (dyn_ltree s 10) =? 0)
          || negb (Freq (dyn_ltree s 13) =? 0)
  then Z_TEXT
  else if existsb (fun n => negb (Freq (dyn_ltree s n) =? 0))
            (map Z.of_nat (seq 32 (Z.to_nat LITERALS - 32)))
  then Z_TEXT
  else Z_BINARY.

(** [_tr_flush_block], its first half: the trees are built and the costs
    of the three encodings computed.  It returns the state, [opt_lenb],
    [static_lenb] and [max_blindex]. *)
Definition flush_block_costs (fuel : nat) (s : deflate_state)
    (stored_len : Z) : option (deflate_state * Z * Z * Z) :=
  if level s >? 0 then
    let s :=
      if data_type s =? Z_UNKNOWN then set_data_type s (detect_data_type s)
      else s in
    match build_tree fuel s L_DESC with
    | None => None
    | Some s =>
        match build_tree fuel s D_DESC with
        | None => None
        | Some s =>
            match build_bl_tree fuel s with
            | None => None
            | Some (s, max_blindex) =>
                let opt_lenb := Z.shiftr (ulg (opt_len s + 3 + 7)) 3 in
                let static_lenb := Z.shiftr (ulg (static_len s + 3 + 7)) 3 in
                let opt_lenb :=
                  if (static_lenb <=? opt_lenb) || (strategy s =? Z_FIXED)
                  then static_lenb else opt_lenb in
                Some (s, opt_lenb, static_lenb, max_blindex)
            end
        end
    end
  else Some (s, ulg (stored_len + 5), ulg (stored_len + 5), 0).

(** The [if ... else if ... else] of [_tr_flush_block]: the type of the
    block that is written. *)
Definition flush_block_type (buf : option (list Z))
    (stored_len opt_lenb static_lenb : Z) : Z :=
  if (ulg (stored_len + 4) <=? opt_lenb)
     && (match buf with Some _ => true | None => false end)
  then STORED_BLOCK
  else if static_lenb =? opt_lenb then STATIC_TREES
  else DYN_TREES.

Definition flush_block_emit (mt : match_tables) (s : deflate_state)
    (buf : option (list Z)) (stored_len last : Z)
    (opt_lenb static_lenb max_blindex : Z) : deflate_state :=
  let type := flush_block_type buf stored_len opt_lenb static_lenb in
  if type =? STORED_BLOCK then _tr_stored_block s buf stored_len last
  else if type =? STATIC_TREES then
    let s := send_bits s (Z.shiftl STATIC_TREES 1 + last) 3 in
    compress_block mt s static_ltree static_dtree
  else
    let s := send_bits s (Z.shiftl DYN_TREES 1 + last) 3 in
    let s :=
      send_all_trees s (l_max_code s + 1) (d_max_code s + 1)
        (max_blindex + 1) in
    compress_block mt s (dyn_ltree s) (dyn_dtree s).

Definition _tr_flush_block (fuel : nat) (mt : match_tables)
    (s : deflate_state) (buf : option (list Z)) (stored_len last : Z)
  : option deflate_state :=
  match flush_block_costs fuel s stored_len with
  | None => None
  | Some (s, opt_lenb, static_lenb, max_blindex) =>
      let s :=
        flush_block_emit mt s buf stored_len last opt_lenb static_lenb
          max_blindex in
      let s := init_block s in
      Some (if negb (last =? 0) then bi_windup s else s)
  end.

(** [_tr_tally]; [matches] is a [uInt] and wraps.  [sym_next] is written
    without its wrap at 2^32: it indexes the symbol buffer, which ends at
    [sym_end]. *)
Definition _tr_tally (mt : match_tables) (s : deflate_state) (dist lc : Z)
  : deflate_state * bool :=
  let s := set_sym_buf s (upd (sym_buf s) (sym_next s) (uch dist)) in
  let s := set_sym_next s (sym_next s + 1) in
  let s := set_sym_buf s (upd (sym_buf s) (sym_next s) (uch (Z.shiftr dist 8))) in
  let s := set_sym_next s (sym_next s + 1) in
  let s := set_sym_buf s (upd (sym_buf s) (sym_next s) (uch lc)) in
  let s := set_sym_next s (sym_next s + 1) in
  let s :=
    if dist =? 0 then
      set_dyn_ltree s (upd (dyn_ltree s) lc (set_Freq (dyn_ltree s lc) (ush (Freq (dyn_ltree s lc) + 1))))
    else
      let s := set_matches s (uns (matches s + 1)) in
      let dist := uns (dist - 1) in
      let i := _length_code mt lc + LITERALS + 1 in
      let s :=
        set_dyn_ltree s (upd (dyn_ltree s) i (set_Freq (dyn_ltree s i) (ush (Freq (dyn_ltree s i) + 1)))) in
      let j := d_code mt dist in
      set_dyn_dtree s (upd (dyn_dtree s) j (set_Freq (dyn_dtree s j) (ush (Freq (dyn_dtree s j) + 1)))) in
  (s, sym_next s =? sym_end s).

End Trees.

(** ** Properties of crc32.cpp *)

Module Crc32_facts.
Import Crc32.

(** *** Words and bitwise reasoning *)

Definition word32 (x : Z) : Prop := 0 <= x < 2 ^ 32.

Definition wordn (n : nat) (x : Z) : Prop := 0 <= x < 2 ^ Z.of_nat n.

(** A function on words is linear when it commutes with exclusive or. *)
Definition linear (f : Z -> Z) : Prop :=
  forall a b, f (Z.lxor a b) = Z.lxor (f a) (f b).

Create HintDb lin discriminated.

Ltac bitwise :=
  apply Z.bits_inj'; intros ?n ?Hn;
  repeat rewrite ?Z.lxor_spec, ?Z.land_spec, ?Z.lor_spec, ?Z.bits_0;
  repeat match goal with
         | |- context [Z.testbit ?a ?n] => destruct (Z.testbit a n)
         end; reflexivity.

Lemma land_lxor_distr a b m :
  Z.land (Z.lxor a b) m = Z.lxor (Z.land a m) (Z.land b m).
Proof. bitwise. Qed.

Lemma lxor_swap a b c : Z.lxor (Z.lxor a b) c = Z.lxor (Z.lxor a c) b.
Proof. bitwise. Qed.

Lemma lxor_cancel_mid a b c d :
  Z.lxor (Z.lxor a b) (Z.lxor c d) = Z.lxor (Z.lxor a c) (Z.lxor b d).
Proof. bitwise. Qed.

Lemma wordn_iff n x : wordn n x <-> Z.land x (Z.ones (Z.of_nat n)) = x.
Proof.
  unfold wordn. rewrite Z.land_ones by lia.
  assert (0 < 2 ^ Z.of_nat n) by (apply Z.pow_pos_nonneg; lia).
  split; intros Hx.
  - apply Z.mod_small; assumption.
  - rewrite <- Hx. apply Z.mod_pos_bound; assumption.
Qed.

Lemma word32_wordn x : word32 x <-> wordn 32 x.
Proof. reflexivity. Qed.

Lemma word32_iff x : word32 x <-> crc_t x = x.
Proof. rewrite word32_wordn, wordn_iff. reflexivity. Qed.

Lemma crc_t_word32 x : word32 (crc_t x).
Proof.
  unfold crc_t, word32. change 0xffffffff with (Z.ones 32).
  rewrite Z.land_ones by lia. apply Z.mod_pos_bound. lia.
Qed.

Lemma wordn_lxor n a b : wordn n a -> wordn n b -> wordn n (Z.lxor a b).
Proof.
  rewrite !wordn_iff. intros Ha Hb.
  rewrite land_lxor_distr. congruence.
Qed.

Lemma word32_lxor a b : word32 a -> word32 b -> word32 (Z.lxor a b).
Proof. apply (wordn_lxor 32). Qed.

Lemma wordn_0 n : wordn n 0.
Proof. unfold wordn. split; [lia | apply Z.pow_pos_nonneg; lia]. Qed.

Lemma wordn_testbit_high n x m :
  wordn n x -> Z.of_nat n <= m -> Z.testbit x m = false.
Proof.
  intros [H0 H1] Hm.
  destruct (Z.eq_dec x 0) as [-> | Hx]; [apply Z.bits_0 |].
  apply Z.bits_above_log2; [assumption |].
  apply Z.lt_le_trans with (Z.of_nat n); [| assumption].
  apply Z.log2_lt_pow2; lia.
Qed.

Lemma wordn_pow2 n j : (j < n)%nat -> wordn n (2 ^ Z.of_nat j).
Proof.
  intros Hj. unfold wordn. split.
  - apply Z.pow_nonneg; lia.
  - apply Z.pow_lt_mono_r; lia.
Qed.

Lemma wordn_mono n m x : (n <= m)%nat -> wordn n x -> wordn m x.
Proof.
  unfold wordn. intros Hnm [H0 H1]. split; [assumption |].
  apply Z.lt_le_trans with (2 ^ Z.of_nat n); [assumption |].
  apply Z.pow_le_mono_r; lia.
Qed.

(** *** Linear functions are determined by their values on single bits *)

Lemma linear_0 f : linear f -> f 0 = 0.
Proof.
  intros Hf. specialize (Hf 0 0). rewrite Z.lxor_0_l in Hf.
  rewrite Hf at 1. apply Z.lxor_nilpotent.
Qed.

Lemma split_top_bit n x :
  wordn (S n) x -> 2 ^ Z.of_nat n <= x ->
  x = Z.lxor (2 ^ Z.of_nat n) (x - 2 ^ Z.of_nat n)
  /\ wordn n (x - 2 ^ Z.of_nat n).
Proof.
  unfold wordn. intros [H0 H1] Hge.
  rewrite Nat2Z.inj_succ, Z.pow_succ_r in H1 by lia.
  assert (Hr : wordn n (x - 2 ^ Z.of_nat n)) by (unfold wordn; lia).
  split; [| exact Hr].
  rewrite <- Z.add_nocarry_lxor; [lia |].
  apply Z.bits_inj'. intros m Hm.
  rewrite Z.land_spec, Z.bits_0, Z.pow2_bits_eqb by lia.
  destruct (Z.eqb_spec (Z.of_nat n) m) as [<- | Hne]; [| reflexivity].
  rewrite (wordn_testbit_high n) by (assumption || lia). reflexivity.
Qed.

Lemma linear_ext_below f g :
  linear f -> linear g ->
  forall n, (forall j, (j < n)%nat -> f (2 ^ Z.of_nat j) = g (2 ^ Z.of_nat j)) ->
  forall x, wordn n x -> f x = g x.
Proof.
  intros Hf Hg. induction n as [| n IH]; intros Hb x Hx.
  - assert (x = 0) by (unfold wordn in Hx; simpl in Hx; lia). subst x.
    rewrite !linear_0 by assumption. reflexivity.
  - destruct (Z_lt_le_dec x (2 ^ Z.of_nat n)) as [Hlt | Hge].
    + apply IH; [intros; apply Hb; lia | unfold wordn in *; lia].
    + destruct (split_top_bit n x Hx Hge) as [E Hr].
      rewrite E, Hf, Hg, (Hb n) by lia. f_equal.
      apply IH; [intros; apply Hb; lia | assumption].
Qed.

Definition agree_on_bits (n : nat) (f g : Z -> Z) : bool :=
  forallb (fun j => f (2 ^ Z.of_nat j) =? g (2 ^ Z.of_nat j)) (seq 0 n).

Lemma agree_on_bits_spec n f g :
  agree_on_bits n f g = true ->
  forall j, (j < n)%nat -> f (2 ^ Z.of_nat j) = g (2 ^ Z.of_nat j).
Proof.
  unfold agree_on_bits. rewrite forallb_forall. intros H j Hj.
  apply Z.eqb_eq, H, in_seq. lia.
Qed.

Lemma linear_ext n f g :
  linear f -> linear g -> agree_on_bits n f g = true ->
  forall x, wordn n x -> f x = g x.
Proof.
  intros Hf Hg Hb. apply linear_ext_below; try assumption.
  apply agree_on_bits_spec, Hb.
Qed.

(** Closure properties of linearity. *)

Lemma linear_id : linear (fun x => x).
Proof. intros a b. reflexivity. Qed.

Lemma linear_const0 : linear (fun _ => 0).
Proof. intros a b. reflexivity. Qed.

Lemma linear_comp f g : linear f -> linear g -> linear (fun x => f (g x)).
Proof. intros Hf Hg a b. rewrite Hg, Hf. reflexivity. Qed.

Lemma linear_lxor f g :
  linear f -> linear g -> linear (fun x => Z.lxor (f x) (g x)).
Proof. intros Hf Hg a b. rewrite Hf, Hg. apply lxor_cancel_mid. Qed.

Lemma linear_shiftr n : linear (fun x => Z.shiftr x n).
Proof. intros a b. apply Z.shiftr_lxor. Qed.

Lemma linear_shiftl n : linear (fun x => Z.shiftl x n).
Proof. intros a b. apply Z.shiftl_lxor. Qed.

Lemma linear_land m : linear (fun x => Z.land x m).
Proof. intros a b. apply land_lxor_distr. Qed.

Lemma linear_nat_iter f n : linear f -> linear (Nat.iter n f).
Proof.
  intros Hf. induction n as [| n IH]; intros a b; simpl.
  - reflexivity.
  - rewrite IH, Hf. reflexivity.
Qed.

Lemma linear_eq f g : (forall x, f x = g x) -> linear g -> linear f.
Proof. intros E Hg a b. rewrite !E. apply Hg. Qed.

#[local] Hint Resolve linear_id linear_const0 linear_shiftr linear_shiftl
  linear_land : lin.

(** *** Multiplication by x *)

Lemma land_1_odd b : (Z.land b 1 =? 0) = negb (Z.odd b).
Proof.
  change 1 with (Z.ones 1) at 1. rewrite Z.land_ones by lia.
  change (2 ^ 1) with 2. rewrite Zmod_odd.
  destruct (Z.odd b); reflexivity.
Qed.

Lemma times_x_alt b :
  times_x b = Z.lxor (Z.shiftr b 1) (if Z.odd b then POLY else 0).
Proof.
  unfold times_x. rewrite land_1_odd, negb_involutive.
  destruct (Z.odd b); [reflexivity | rewrite Z.lxor_0_r; reflexivity].
Qed.

Lemma linear_times_x : linear times_x.
Proof.
  intros a b. rewrite !times_x_alt, Z.shiftr_lxor.
  rewrite <- !Z.bit0_odd, Z.lxor_spec.
  destruct (Z.testbit a 0), (Z.testbit b 0); simpl; bitwise.
Qed.
#[local] Hint Resolve linear_times_x : lin.

Lemma times_x_0 : times_x 0 = 0.
Proof. reflexivity. Qed.

Lemma word32_times_x b : word32 b -> word32 (times_x b).
Proof.
  intros Hb. rewrite times_x_alt. apply word32_lxor.
  - unfold word32 in *. rewrite Z.shiftr_div_pow2 by lia.
    change (2 ^ 1) with 2. split; [apply Z.div_pos; lia |].
    apply Z.div_lt_upper_bound; lia.
  - destruct (Z.odd b); unfold word32, POLY; lia.
Qed.

Lemma times_x_eq_0 b : word32 b -> times_x b = 0 -> b = 0.
Proof.
  intros Hb. rewrite times_x_alt. unfold word32 in Hb.
  assert (Hs : 0 <= Z.shiftr b 1 < 2 ^ 31).
  { rewrite Z.shiftr_div_pow2 by lia. change (2 ^ 1) with 2.
    split; [apply Z.div_pos; lia | apply Z.div_lt_upper_bound; lia]. }
  destruct (Z.odd b) eqn:Ho; intros H0.
  - apply Z.lxor_eq in H0. unfold POLY in H0. lia.
  - rewrite Z.lxor_0_r in H0. rewrite Z.shiftr_div_pow2 in H0 by lia.
    change (2 ^ 1) with 2 in H0.
    pose proof (Zmod_odd b) as Hm. rewrite Ho in Hm.
    pose proof (Z.div_mod b 2). lia.
Qed.

(** The powers of [times_x]: [powx e b] is b(x) * x^e mod p(x). *)
Definition powx (e : BinNums.N) (b : Z) : Z := N.iter e times_x b.

Lemma powx_0 b : powx 0 b = b.
Proof. reflexivity. Qed.

Lemma powx_add e1 e2 b : powx (e1 + e2) b = powx e1 (powx e2 b).
Proof. apply N.iter_add. Qed.

Lemma powx_nat n b : Nat.iter n times_x b = powx (N.of_nat n) b.
Proof. apply Nat2N.inj_iter. Qed.

Lemma linear_powx e : linear (powx e).
Proof.
  unfold powx. intros a b.
  rewrite !N2Nat.inj_iter. apply linear_nat_iter, linear_times_x.
Qed.
#[local] Hint Resolve linear_powx : lin.

Lemma word32_powx e b : word32 b -> word32 (powx e b).
Proof. apply N.iter_invariant. intros; apply word32_times_x; assumption. Qed.

Lemma powx_zero e : powx e 0 = 0.
Proof. apply linear_0, linear_powx. Qed.

Lemma powx_eq_0 e b : word32 b -> powx e b = 0 -> b = 0.
Proof.
  intros Hb. unfold powx.
  induction e as [| e IH] using N.peano_ind; [trivial |].
  rewrite N.iter_succ. intros H0.
  apply IH, times_x_eq_0; [| assumption].
  apply word32_powx; assumption.
Qed.

(** *** [multmodp] computes the product modulo p(x) *)

(** The sum the loop of [multmodp] accumulates: b * x^i for every
    coefficient x^i of a, coefficient x^i being bit [31 - i]. *)
Fixpoint mulp_from (cnt : nat) (a bit b : Z) : Z :=
  match cnt with
  | O => 0
  | S c =>
      Z.lxor (if Z.testbit a bit then b else 0)
        (mulp_from c a (bit - 1) (times_x b))
  end.

Definition mulp (a b : Z) : Z := mulp_from 32 a 31 b.

Lemma mulp_from_low_zero cnt a b :
  Z.land a (Z.ones (Z.of_nat cnt)) = 0 ->
  mulp_from cnt a (Z.of_nat cnt - 1) b = 0.
Proof.
  revert b. induction cnt as [| c IH]; intros b Ha; [reflexivity |].
  cbn [mulp_from].
  assert (Hbit : forall m, 0 <= m < Z.of_nat (S c) -> Z.testbit a m = false).
  { intros m Hm.
    assert (E : Z.testbit (Z.land a (Z.ones (Z.of_nat (S c)))) m = false)
      by (rewrite Ha; apply Z.bits_0).
    rewrite Z.land_spec, Z.ones_spec_low, andb_true_r in E by lia. exact E. }
  rewrite Hbit by lia. rewrite Z.lxor_0_l.
  replace (Z.of_nat (S c) - 1 - 1) with (Z.of_nat c - 1) by lia.
  apply IH. apply Z.bits_inj'. intros m Hm.
  rewrite Z.land_spec, Z.bits_0.
  destruct (Z_lt_le_dec m (Z.of_nat c)).
  - rewrite Hbit by lia. reflexivity.
  - rewrite Z.ones_spec_high by lia. apply andb_false_r.
Qed.

Lemma land_pow2_testbit a c :
  0 <= c -> (Z.land a (2 ^ c) =? 0) = negb (Z.testbit a c).
Proof.
  intros Hc. destruct (Z.testbit a c) eqn:E; simpl.
  - apply Z.eqb_neq. intros H0.
    assert (F : Z.testbit (Z.land a (2 ^ c)) c = false)
      by (rewrite H0; apply Z.bits_0).
    rewrite Z.land_spec, Z.pow2_bits_true, E in F by lia. discriminate.
  - apply Z.eqb_eq. apply Z.bits_inj'. intros m Hm.
    rewrite Z.land_spec, Z.bits_0, Z.pow2_bits_eqb by lia.
    destruct (Z.eqb_spec c m) as [<- | ?];
      [rewrite E; reflexivity | apply andb_false_r].
Qed.

Lemma land_ones_succ a c :
  0 <= c -> Z.testbit a c = false ->
  Z.land a (Z.ones (c + 1)) = Z.land a (Z.ones c).
Proof.
  intros Hc E. apply Z.bits_inj'. intros m Hm. rewrite !Z.land_spec.
  destruct (Z_lt_le_dec m c).
  - rewrite !Z.ones_spec_low by lia. reflexivity.
  - rewrite (Z.ones_spec_high c) by lia.
    destruct (Z.eq_dec m c) as [-> | ?].
    + rewrite E. reflexivity.
    + rewrite Z.ones_spec_high by lia. reflexivity.
Qed.

(** The loop, entered with [m = 2^(cnt-1)], leaves within [cnt] rounds when
    one of the low [cnt] bits of [a] is set. *)
Lemma multmodp_loop_spec cnt :
  (cnt <= 32)%nat ->
  forall fuel a p b,
    (cnt <= fuel)%nat ->
    Z.land a (Z.ones (Z.of_nat cnt)) <> 0 ->
    multmodp_loop fuel a (2 ^ (Z.of_nat cnt - 1)) p b
    = Some (Z.lxor p (mulp_from cnt a (Z.of_nat cnt - 1) b)).
Proof.
  induction cnt as [| c IH]; intros Hc fuel a p b Hf Ha.
  - exfalso. apply Ha. simpl. apply Z.land_0_r.
  - destruct fuel as [| f]; [lia |].
    replace (Z.of_nat (S c) - 1) with (Z.of_nat c) in * by lia.
    cbn [multmodp_loop mulp_from].
    rewrite land_pow2_testbit by lia.
    assert (Em : crc_t (2 ^ Z.of_nat c - 1) = Z.ones (Z.of_nat c)).
    { rewrite Z.ones_equiv, <- Z.sub_1_r.
      apply word32_iff. unfold word32.
      assert (0 < 2 ^ Z.of_nat c) by (apply Z.pow_pos_nonneg; lia).
      assert (2 ^ Z.of_nat c <= 2 ^ 31) by (apply Z.pow_le_mono_r; lia).
      lia. }
    rewrite Em.
    assert (Es : c <> O ->
                 Z.shiftr (2 ^ Z.of_nat c) 1 = 2 ^ (Z.of_nat c - 1)).
    { intros Hc0. rewrite Z.shiftr_div_pow2 by lia.
      rewrite <- Z.pow_sub_r by lia. reflexivity. }
    destruct (Z.testbit a (Z.of_nat c)) eqn:Eb; cbn [negb].
    + destruct (Z.eqb_spec (Z.land a (Z.ones (Z.of_nat c))) 0) as [E0 | E0].
      * rewrite mulp_from_low_zero by assumption.
        rewrite Z.lxor_0_r. reflexivity.
      * destruct c as [| c']; [exfalso; apply E0; apply Z.land_0_r |].
        rewrite Es by discriminate.
        rewrite IH by (assumption || lia).
        rewrite Z.lxor_assoc. reflexivity.
    + assert (E0 : Z.land a (Z.ones (Z.of_nat c)) <> 0).
      { rewrite <- land_ones_succ by (assumption || lia).
        replace (Z.of_nat c + 1) with (Z.of_nat (S c)) by lia. exact Ha. }
      destruct c as [| c']; [exfalso; apply E0; apply Z.land_0_r |].
      rewrite Es by discriminate.
      rewrite IH by (assumption || lia).
      rewrite Z.lxor_0_l. reflexivity.
Qed.

Lemma multmodp_spec fuel a b :
  (32 <= fuel)%nat -> crc_t a <> 0 ->
  multmodp fuel a b = Some (mulp (crc_t a) (crc_t b)).
Proof.
  intros Hf Ha. unfold multmodp, mulp.
  change (Z.shiftl 1 31) with (2 ^ (Z.of_nat 32 - 1)).
  rewrite (multmodp_loop_spec 32) by
    (try lia; change (Z.ones (Z.of_nat 32)) with 0xffffffff;
     fold (crc_t (crc_t a)); rewrite (proj1 (word32_iff _) (crc_t_word32 a));
     exact Ha).
  rewrite Z.lxor_0_l. reflexivity.
Qed.

(** With no bit of [a] set the condition of the [break] is never reached. *)
Lemma multmodp_loop_zero fuel m p b : multmodp_loop fuel 0 m p b = None.
Proof.
  revert m p b. induction fuel as [| f IH]; intros m p b; [reflexivity |].
  cbn [multmodp_loop]. rewrite Z.land_0_l. simpl. apply IH.
Qed.

Lemma multmodp_zero fuel a b : crc_t a = 0 -> multmodp fuel a b = None.
Proof. intros Ha. unfold multmodp. rewrite Ha. apply multmodp_loop_zero. Qed.

(** [mulp] is linear in each argument. *)

Lemma mulp_from_lxor_r cnt a bit b c :
  mulp_from cnt a bit (Z.lxor b c)
  = Z.lxor (mulp_from cnt a bit b) (mulp_from cnt a bit c).
Proof.
  revert bit b c. induction cnt as [| n IH]; intros bit b c; [reflexivity |].
  cbn [mulp_from]. rewrite linear_times_x, IH.
  destruct (Z.testbit a bit); bitwise.
Qed.

Lemma mulp_from_lxor_l cnt a a' bit b :
  mulp_from cnt (Z.lxor a a') bit b
  = Z.lxor (mulp_from cnt a bit b) (mulp_from cnt a' bit b).
Proof.
  revert bit b. induction cnt as [| n IH]; intros bit b; [reflexivity |].
  cbn [mulp_from]. rewrite IH, Z.lxor_spec.
  destruct (Z.testbit a bit), (Z.testbit a' bit); simpl; bitwise.
Qed.

Lemma linear_mulp_r a : linear (mulp a).
Proof. intros b c. apply mulp_from_lxor_r. Qed.

Lemma linear_mulp_l b : linear (fun a => mulp a b).
Proof. intros a a'. apply mulp_from_lxor_l. Qed.
#[local] Hint Resolve linear_mulp_r linear_mulp_l : lin.

Lemma mulp_0_l b : mulp 0 b = 0.
Proof. apply (linear_0 (fun a => mulp a b)), linear_mulp_l. Qed.

Lemma mulp_0_r a : mulp a 0 = 0.
Proof. apply linear_0, linear_mulp_r. Qed.

Lemma word32_mulp_from cnt a bit b :
  word32 b -> word32 (mulp_from cnt a bit b).
Proof.
  revert bit b. induction cnt as [| n IH]; intros bit b Hb.
  - apply (wordn_0 32).
  - cbn [mulp_from]. apply word32_lxor.
    + destruct (Z.testbit a bit); [assumption | apply (wordn_0 32)].
    + apply IH, word32_times_x, Hb.
Qed.

Lemma word32_mulp a b : word32 b -> word32 (mulp a b).
Proof. apply word32_mulp_from. Qed.

Lemma mulp_from_times_x cnt a bit b :
  mulp_from cnt a bit (times_x b) = times_x (mulp_from cnt a bit b).
Proof.
  revert bit b. induction cnt as [| n IH]; intros bit b; [reflexivity |].
  cbn [mulp_from]. rewrite IH, linear_times_x.
  destruct (Z.testbit a bit); reflexivity.
Qed.

Lemma mulp_powx a e b : mulp a (powx e b) = powx e (mulp a b).
Proof.
  unfold powx. apply N.iter_swap_gen. intros c. apply mulp_from_times_x.
Qed.

(** Two functions linear in each of two arguments agree on 32-bit words
    when they agree on pairs of single bits. *)
Lemma bilinear_ext (F G : Z -> Z -> Z) :
  (forall b, linear (fun a => F a b)) -> (forall a, linear (F a)) ->
  (forall b, linear (fun a => G a b)) -> (forall a, linear (G a)) ->
  forallb (fun i => agree_on_bits 32 (F (2 ^ Z.of_nat i)) (G (2 ^ Z.of_nat i)))
    (seq 0 32) = true ->
  forall a b, word32 a -> word32 b -> F a b = G a b.
Proof.
  intros HF1 HF2 HG1 HG2 Hc a b Ha Hb.
  apply (linear_ext_below (fun a => F a b) (fun a => G a b)) with (n := 32%nat);
    auto.
  intros j Hj. apply (linear_ext 32); auto.
  rewrite forallb_forall in Hc. apply Hc, in_seq. lia.
Qed.

(** x^32 is reduced modulo p(x): multiplying the left factor by x is
    multiplying the product by x. *)
Lemma mulp_times_x_l a b :
  word32 a -> word32 b -> mulp (times_x a) b = times_x (mulp a b).
Proof.
  apply (bilinear_ext (fun a b => mulp (times_x a) b)
                      (fun a b => times_x (mulp a b))).
  - intros c. apply (linear_comp (fun a => mulp a c) times_x); auto with lin.
  - auto with lin.
  - intros c. apply (linear_comp times_x (fun a => mulp a c)); auto with lin.
  - intros c. apply (linear_comp times_x (mulp c)); auto with lin.
  - vm_compute. reflexivity.
Qed.

Lemma mulp_assoc_from cnt a bit c b :
  word32 c -> word32 b ->
  mulp (mulp_from cnt a bit c) b = mulp_from cnt a bit (mulp c b).
Proof.
  revert bit c. induction cnt as [| n IH]; intros bit c Hc Hb.
  - apply mulp_0_l.
  - cbn [mulp_from].
    rewrite (linear_mulp_l b), IH by (try apply word32_times_x; assumption).
    rewrite mulp_times_x_l by assumption.
    destruct (Z.testbit a bit); [reflexivity | rewrite mulp_0_l; reflexivity].
Qed.

Lemma mulp_assoc a c b :
  word32 c -> word32 b -> mulp (mulp a c) b = mulp a (mulp c b).
Proof. apply mulp_assoc_from. Qed.

(** [rep r e]: the word [r] stands for x^e modulo p(x). *)
Definition rep (r : Z) (e : BinNums.N) : Prop :=
  word32 r /\ forall b, word32 b -> mulp r b = powx e b.

Lemma rep_mul r1 e1 r2 e2 :
  rep r1 e1 -> rep r2 e2 -> rep (mulp r1 r2) (e1 + e2).
Proof.
  intros [W1 H1] [W2 H2]. split; [apply word32_mulp; assumption |].
  intros b Hb. rewrite mulp_assoc, H2, H1, powx_add by
    (try apply word32_powx; assumption).
  reflexivity.
Qed.

Lemma rep_ext r e e' :
  rep r e -> (forall b, word32 b -> powx e b = powx e' b) -> rep r e'.
Proof.
  intros [W1 H1] E. split; [assumption |].
  intros b Hb. rewrite H1, E by assumption. reflexivity.
Qed.

Lemma word32_1 : word32 1.
Proof. unfold word32. lia. Qed.

Lemma rep_nonzero r e : rep r e -> r <> 0.
Proof.
  intros [_ H] ->. specialize (H 1 word32_1). rewrite mulp_0_l in H.
  symmetry in H. apply powx_eq_0 in H; [discriminate | apply word32_1].
Qed.

Lemma rep_one : rep (Z.shiftl 1 31) 0.
Proof.
  split; [unfold word32; simpl; lia |].
  apply (linear_ext 32); auto with lin.
Qed.

Lemma rep_x : rep (Z.shiftl 1 30) 1.
Proof.
  split; [unfold word32; simpl; lia |].
  apply (linear_ext 32); auto with lin.
Qed.

(** *** The table of powers and [x2nmodp] *)

Lemma x2n_table_squares :
  forallb (fun k => x2n_table (Z.of_nat (S k))
                    =? mulp (x2n_table (Z.of_nat k)) (x2n_table (Z.of_nat k)))
    (seq 0 31) = true.
Proof. vm_compute. reflexivity. Qed.

Lemma x2n_table_rep_nat k :
  (k < 32)%nat -> rep (x2n_table (Z.of_nat k)) (2 ^ N.of_nat k).
Proof.
  induction k as [| k IH]; intros Hk.
  - exact rep_x.
  - pose proof x2n_table_squares as Hs. rewrite forallb_forall in Hs.
    specialize (Hs k). rewrite in_seq in Hs.
    rewrite (proj1 (Z.eqb_eq _ _) (Hs ltac:(lia))).
    rewrite Nat2N.inj_succ, N.pow_succ_r'.
    replace (2 * 2 ^ N.of_nat k)%N with (2 ^ N.of_nat k + 2 ^ N.of_nat k)%N
      by lia.
    apply rep_mul; apply IH; lia.
Qed.

(** The powers of x repeat: x^(2^32) = x modulo p(x), which is what makes
    the index [k & 31] right for every k. *)
Lemma powx_2_32 b : word32 b -> powx (2 ^ 32) b = powx 1 b.
Proof.
  intros Hb.
  assert (H : rep (x2n_table 0) (2 ^ 32)).
  { change (x2n_table 0) with (mulp (x2n_table 31) (x2n_table 31)).
    change (2 ^ 32)%N with (2 ^ N.of_nat 31 + 2 ^ N.of_nat 31)%N.
    apply rep_mul; apply (x2n_table_rep_nat 31); lia. }
  destruct H as [_ H]. rewrite <- H by assumption.
  apply (proj2 rep_x), Hb.
Qed.

Lemma powx_period k b :
  word32 b -> powx (2 ^ (k + 32)) b = powx (2 ^ k) b.
Proof.
  revert b. induction k as [| k IH] using N.peano_ind; intros b Hb.
  - rewrite N.add_0_l. apply powx_2_32, Hb.
  - rewrite N.add_succ_l, !N.pow_succ_r'.
    replace (2 * 2 ^ (k + 32))%N with (2 ^ (k + 32) + 2 ^ (k + 32))%N by lia.
    replace (2 * 2 ^ k)%N with (2 ^ k + 2 ^ k)%N by lia.
    rewrite !powx_add, !IH by (try apply word32_powx; assumption).
    reflexivity.
Qed.

Lemma x2n_table_rep_period q r :
  (r < 32)%nat ->
  rep (x2n_table (Z.of_nat r)) (2 ^ (N.of_nat r + 32 * N.of_nat q)).
Proof.
  intros Hr. induction q as [| q IH].
  - rewrite N.mul_0_r, N.add_0_r. apply x2n_table_rep_nat, Hr.
  - apply (rep_ext _ _ _ IH). intros b Hb.
    replace (N.of_nat r + 32 * N.of_nat (S q))%N
      with (N.of_nat r + 32 * N.of_nat q + 32)%N by lia.
    symmetry. apply powx_period, Hb.
Qed.

Lemma x2n_table_rep k :
  0 <= k -> rep (x2n_table (Z.land k 31)) (2 ^ Z.to_N k).
Proof.
  intros Hk. change 31 with (Z.ones 5). rewrite Z.land_ones by lia.
  change (2 ^ 5) with 32.
  pose proof (Z.div_mod k 32 ltac:(lia)) as Hdm.
  pose proof (Z.mod_pos_bound k 32 ltac:(lia)) as Hm.
  assert (0 <= k / 32) by (apply Z.div_pos; lia).
  replace (Z.to_N k)
    with (N.of_nat (Z.to_nat (k mod 32)) + 32 * N.of_nat (Z.to_nat (k / 32)))%N
    by lia.
  replace (k mod 32) with (Z.of_nat (Z.to_nat (k mod 32))) at 1 by lia.
  apply x2n_table_rep_period. lia.
Qed.

Lemma rep_word32 r e : rep r e -> crc_t r = r.
Proof. intros [Hw _]. apply word32_iff, Hw. Qed.

Lemma multmodp_rep fuel r1 e1 r2 e2 :
  (32 <= fuel)%nat -> rep r1 e1 -> rep r2 e2 ->
  multmodp fuel r1 r2 = Some (mulp r1 r2) /\ rep (mulp r1 r2) (e1 + e2).
Proof.
  intros Hf H1 H2. split; [| apply rep_mul; assumption].
  rewrite multmodp_spec, (rep_word32 _ _ H1), (rep_word32 _ _ H2);
    [reflexivity | assumption |].
  rewrite (rep_word32 _ _ H1). eapply rep_nonzero, H1.
Qed.

(** The loop of [x2nmodp] on a non-negative [n] of at most [bits] bits. *)
Lemma x2nmodp_loop_spec bits :
  forall fuel mfuel n k p e,
    (32 <= mfuel)%nat -> (bits < fuel)%nat ->
    0 <= n < 2 ^ Z.of_nat bits ->
    0 <= k -> k + Z.of_nat bits < 2 ^ 32 ->
    rep p e ->
    exists r, x2nmodp_loop mfuel fuel n k p = Some r
              /\ rep r (e + Z.to_N n * 2 ^ Z.to_N k).
Proof.
  induction bits as [| b IH]; intros fuel mfuel n k p e Hmf Hf Hn Hk Hkb Hp;
    (destruct fuel as [| f]; [lia |]); cbn [x2nmodp_loop].
  - assert (n = 0) by (simpl in Hn; lia). subst n. simpl.
    exists p. split; [reflexivity |]. rewrite N.add_0_r. exact Hp.
  - destruct (Z.eqb_spec n 0) as [-> | Hn0].
    + exists p. split; [reflexivity |]. simpl. rewrite N.add_0_r. exact Hp.
    + rewrite Nat2Z.inj_succ, Z.pow_succ_r in Hn by lia.
      assert (Hh : 0 <= Z.shiftr n 1 < 2 ^ Z.of_nat b).
      { rewrite Z.shiftr_div_pow2 by lia. change (2 ^ 1) with 2.
        split; [apply Z.div_pos; lia | apply Z.div_lt_upper_bound; lia]. }
      assert (Ek : crc_t (k + 1) = k + 1)
        by (apply word32_iff; unfold word32; lia).
      assert (E2 : (2 ^ Z.to_N (k + 1) = 2 * 2 ^ Z.to_N k)%N).
      { replace (Z.to_N (k + 1)) with (N.succ (Z.to_N k)) by lia.
        apply N.pow_succ_r'. }
      assert (Ed : n = 2 * Z.shiftr n 1 + (if Z.odd n then 1 else 0)).
      { rewrite Z.shiftr_div_pow2 by lia. change (2 ^ 1) with 2.
        pose proof (Z.div_mod n 2 ltac:(lia)) as Hd.
        rewrite Zmod_odd in Hd. exact Hd. }
      rewrite land_1_odd, negb_involutive, Ek.
      destruct (Z.odd n).
      * destruct (multmodp_rep mfuel _ _ _ _ Hmf (x2n_table_rep k Hk) Hp)
          as [-> Hq].
        destruct (IH f mfuel (Z.shiftr n 1) (k + 1) _ _ Hmf ltac:(lia) Hh
                    ltac:(lia) ltac:(lia) Hq) as [r [Er Hr]].
        exists r. split; [exact Er |].
        replace (e + Z.to_N n * 2 ^ Z.to_N k)%N
          with (2 ^ Z.to_N k + e
                + Z.to_N (Z.shiftr n 1) * 2 ^ Z.to_N (k + 1))%N; [exact Hr |].
        rewrite E2. rewrite Ed at 2.
        replace (Z.to_N (2 * Z.shiftr n 1 + 1))
          with (2 * Z.to_N (Z.shiftr n 1) + 1)%N by lia.
        lia.
      * destruct (IH f mfuel (Z.shiftr n 1) (k + 1) _ _ Hmf ltac:(lia) Hh
                    ltac:(lia) ltac:(lia) Hp) as [r [Er Hr]].
        exists r. split; [exact Er |].
        replace (e + Z.to_N n * 2 ^ Z.to_N k)%N
          with (e + Z.to_N (Z.shiftr n 1) * 2 ^ Z.to_N (k + 1))%N; [exact Hr |].
        rewrite E2. rewrite Ed at 2.
        replace (Z.to_N (2 * Z.shiftr n 1 + 0))
          with (2 * Z.to_N (Z.shiftr n 1))%N by lia.
        lia.
Qed.

Lemma x2nmodp_spec fuel n k :
  (64 <= fuel)%nat -> 0 <= n < 2 ^ 63 -> 0 <= k < 2 ^ 31 ->
  exists r, x2nmodp fuel n k = Some r /\ rep r (Z.to_N n * 2 ^ Z.to_N k).
Proof.
  intros Hf Hn Hk. unfold x2nmodp.
  destruct (x2nmodp_loop_spec 63 fuel fuel n k _ 0%N ltac:(lia) ltac:(lia)
              Hn ltac:(lia) ltac:(lia) rep_one) as [r [Er Hr]].
  exists r. split; [exact Er |]. rewrite N.add_0_l in Hr. exact Hr.
Qed.

(** A negative [n] stays negative under [n >>= 1]: the loop has no exit. *)
Lemma x2nmodp_loop_negative mfuel fuel n k p :
  n < 0 -> x2nmodp_loop mfuel fuel n k p = None.
Proof.
  revert n k p. induction fuel as [| f IH]; intros n k p Hn; [reflexivity |].
  cbn [x2nmodp_loop].
  destruct (Z.eqb_spec n 0) as [-> | _]; [lia |].
  assert (Z.shiftr n 1 < 0) by (apply Z.shiftr_neg; exact Hn).
  destruct (if negb (Z.land n 1 =? 0)
            then multmodp mfuel (x2n_table (Z.land k 31)) p else Some p);
    [apply IH; assumption | reflexivity].
Qed.

(** *** [crc32_combine64] multiplies by x^(8*len2) *)

Lemma crc32_combine64_spec fuel crc1 crc2 len2 :
  (64 <= fuel)%nat -> 0 <= len2 < 2 ^ 63 ->
  crc32_combine64 fuel crc1 crc2 len2
  = Some (Z.lxor (powx (8 * Z.to_N len2) (crc_t crc1)) (crc_t crc2)).
Proof.
  intros Hf Hl. unfold crc32_combine64.
  destruct (x2nmodp_spec fuel len2 3 Hf Hl ltac:(lia)) as [op [-> Hop]].
  rewrite multmodp_spec, (rep_word32 _ _ Hop); try lia.
  - rewrite (proj2 Hop) by apply crc_t_word32.
    change (2 ^ Z.to_N 3)%N with 8%N. rewrite N.mul_comm. reflexivity.
  - rewrite (rep_word32 _ _ Hop). eapply rep_nonzero, Hop.
Qed.

(** *** The byte-at-a-time loop *)

Lemma byte_val_range b : 0 <= byte_val b < 256.
Proof.
  unfold byte_val. pose proof (Byte.to_N_bounded b). lia.
Qed.

Lemma land_255_range x : 0 <= Z.land x 0xff < 256.
Proof.
  change 0xff with (Z.ones 8). rewrite Z.land_ones by lia.
  apply Z.mod_pos_bound. lia.
Qed.

Lemma crc_table_low x : crc_table (Z.land x 0xff) = powx 8 (Z.land x 0xff).
Proof.
  unfold crc_table. pose proof (land_255_range x) as H.
  destruct (Z.leb_spec 0 (Z.land x 0xff)); [| lia].
  destruct (Z.ltb_spec (Z.land x 0xff) 256); [| lia].
  reflexivity.
Qed.

(** One round of the table loop on a whole word. *)
Definition round (x : Z) : Z :=
  Z.lxor (Z.shiftr x 8) (crc_table (Z.land x 0xff)).

Lemma linear_pointwise_land g m :
  linear g -> linear (fun x => Z.land (g x) m).
Proof. intros Hg. apply (linear_comp (fun y => Z.land y m) g); auto with lin. Qed.

Lemma linear_pointwise_shiftr g n :
  linear g -> linear (fun x => Z.shiftr (g x) n).
Proof.
  intros Hg. apply (linear_comp (fun y => Z.shiftr y n) g); auto with lin.
Qed.

Lemma linear_pointwise_shiftl g n :
  linear g -> linear (fun x => Z.shiftl (g x) n).
Proof.
  intros Hg. apply (linear_comp (fun y => Z.shiftl y n) g); auto with lin.
Qed.

Lemma linear_pointwise_powx g e : linear g -> linear (fun x => powx e (g x)).
Proof. intros Hg. apply (linear_comp (powx e) g); auto with lin. Qed.

Lemma linear_pointwise_crc_table g :
  linear g -> linear (fun x => crc_table (Z.land (g x) 0xff)).
Proof.
  intros Hg. apply (linear_eq _ (fun x => powx 8 (Z.land (g x) 0xff))).
  - intros x. apply crc_table_low.
  - apply linear_pointwise_powx, linear_pointwise_land, Hg.
Qed.

#[local] Hint Resolve linear_pointwise_land linear_pointwise_shiftr
  linear_pointwise_shiftl linear_pointwise_powx linear_pointwise_crc_table
  linear_lxor : lin.

Lemma linear_round : linear round.
Proof. unfold round. auto with lin. Qed.
#[local] Hint Resolve linear_round : lin.

Lemma powx_8_round v : word32 v -> powx 8 v = round v.
Proof. apply (linear_ext 32); auto with lin. Qed.

Lemma shiftr_8_byte b : 0 <= b < 256 -> Z.shiftr b 8 = 0.
Proof.
  intros Hb. rewrite Z.shiftr_div_pow2 by lia. apply Z.div_small. simpl. lia.
Qed.

Lemma word32_byte b : 0 <= b < 256 -> word32 b.
Proof. unfold word32. lia. Qed.

Lemma crc_byte_powx c buf :
  word32 c -> crc_byte c buf = powx 8 (Z.lxor c (byte_val (hd x00 buf))).
Proof.
  intros Hc. pose proof (byte_val_range (hd x00 buf)) as Hb.
  rewrite powx_8_round by (apply word32_lxor; [| apply word32_byte]; assumption).
  unfold crc_byte, round.
  rewrite Z.shiftr_lxor, (shiftr_8_byte _ Hb), Z.lxor_0_r. reflexivity.
Qed.

Lemma word32_crc_byte c buf : word32 c -> word32 (crc_byte c buf).
Proof.
  intros Hc. rewrite crc_byte_powx by assumption.
  apply word32_powx, word32_lxor; [assumption |].
  apply word32_byte, byte_val_range.
Qed.

(** The running CRC over a list of bytes. *)
Definition crc_bytes (c : Z) (bs : list byte) : Z :=
  fold_left (fun c b => crc_byte c [b]) bs c.

Lemma crc_bytes_app c xs ys :
  crc_bytes c (xs ++ ys) = crc_bytes (crc_bytes c xs) ys.
Proof. apply fold_left_app. Qed.

Lemma word32_crc_bytes bs : forall c, word32 c -> word32 (crc_bytes c bs).
Proof.
  induction bs as [| b bs IH]; intros c Hc; [exact Hc |].
  apply IH, word32_crc_byte, Hc.
Qed.

(** The CRC is affine in its start value: a change [d] of the start value
    shows as [d * x^(8*length)] in the result. *)
Lemma crc_bytes_lxor bs :
  forall c d, word32 c -> word32 d ->
  crc_bytes (Z.lxor c d) bs
  = Z.lxor (crc_bytes c bs) (powx (8 * N.of_nat (length bs)) d).
Proof.
  induction bs as [| b bs IH]; intros c d Hc Hd.
  - reflexivity.
  - cbn [crc_bytes fold_left length]. fold (crc_bytes (crc_byte (Z.lxor c d) [b]) bs).
    fold (crc_bytes (crc_byte c [b]) bs).
    assert (E : crc_byte (Z.lxor c d) [b]
                = Z.lxor (crc_byte c [b]) (powx 8 d)).
    { rewrite !crc_byte_powx by (try apply word32_lxor; assumption).
      rewrite <- linear_powx. f_equal. apply lxor_swap. }
    rewrite E, IH by (try apply word32_crc_byte; try apply word32_powx; assumption).
    rewrite <- powx_add. do 2 f_equal. lia.
Qed.

Lemma crc_bytes_from_0 bs c :
  word32 c ->
  crc_bytes c bs = Z.lxor (crc_bytes 0 bs) (powx (8 * N.of_nat (length bs)) c).
Proof.
  intros Hc. rewrite <- crc_bytes_lxor by (assumption || apply (wordn_0 32)).
  rewrite Z.lxor_0_l. reflexivity.
Qed.

(** The first [n] bytes at a pointer, with the model's zero past the end. *)
Definition prefix (n : nat) (buf : list byte) : list byte :=
  map (fun j => nth j buf x00) (seq 0 n).

Lemma length_prefix n buf : length (prefix n buf) = n.
Proof. unfold prefix. rewrite length_map, length_seq. reflexivity. Qed.

Lemma nth_tl {A} j (l : list A) d : nth j (tl l) d = nth (S j) l d.
Proof. destruct l; [destruct j |]; reflexivity. Qed.

Lemma prefix_S n buf : prefix (S n) buf = hd x00 buf :: prefix n (tl buf).
Proof.
  unfold prefix. cbn [seq map]. f_equal.
  - destruct buf; reflexivity.
  - rewrite <- seq_shift, map_map. apply map_ext. intros j.
    symmetry. apply nth_tl.
Qed.

Lemma nth_skipn_add {A} a j (l : list A) d :
  nth j (skipn a l) d = nth (a + j) l d.
Proof.
  revert l. induction a as [| a IH]; intros l; [reflexivity |].
  destruct l as [| x l]; [destruct j; reflexivity |].
  cbn [skipn]. rewrite IH. reflexivity.
Qed.

Lemma skipn_tl {A} n (l : list A) : skipn n (tl l) = skipn (S n) l.
Proof. destruct l; [destruct n |]; reflexivity. Qed.

Lemma prefix_add a b :
  forall buf, prefix (a + b) buf = prefix a buf ++ prefix b (skipn a buf).
Proof.
  induction a as [| a IH]; intros buf; [reflexivity |].
  cbn [Nat.add]. rewrite !prefix_S, IH, skipn_tl. reflexivity.
Qed.

Lemma prefix_exact data : prefix (length data) data = data.
Proof.
  induction data as [| b data IH]; [reflexivity |].
  cbn [length]. rewrite prefix_S. cbn [hd tl]. rewrite IH. reflexivity.
Qed.

Lemma tail_loop_crc_bytes len :
  forall c buf, tail_loop len c buf = crc_bytes c (prefix len buf).
Proof.
  induction len as [| n IH]; intros c buf; [reflexivity |].
  cbn [tail_loop]. rewrite IH, prefix_S.
  cbn [crc_bytes fold_left]. unfold crc_byte. destruct buf; reflexivity.
Qed.

Lemma unrolled_loop_spec n :
  forall c buf,
    unrolled_loop n c buf = (tail_loop (n * 8) c buf, skipn (n * 8) buf).
Proof.
  induction n as [| n IH]; intros c buf; [reflexivity |].
  cbn [unrolled_loop Nat.mul Nat.add tail_loop]. rewrite IH.
  f_equal. rewrite !skipn_tl. reflexivity.
Qed.

(** The two closing loops of [crc32_z] together are the byte loop. *)
Lemma closing_loops len c buf :
  tail_loop (len mod 8) (tail_loop (len / 8 * 8) c buf)
    (skipn (len / 8 * 8) buf)
  = crc_bytes c (prefix len buf).
Proof.
  rewrite !tail_loop_crc_bytes, <- crc_bytes_app, <- prefix_add.
  do 2 f_equal. pose proof (Nat.div_mod_eq len 8). lia.
Qed.

Lemma crc32_bytewise_spec crc data :
  crc32_bytewise crc data
  = Z.lxor (crc_bytes (Z.land (Z.lnot crc) 0xffffffff) data) 0xffffffff.
Proof.
  unfold crc32_bytewise. rewrite tail_loop_crc_bytes, prefix_exact.
  reflexivity.
Qed.

(** *** Words: the little-endian path *)

Lemma round_cons c b R :
  round (Z.lxor c (byte_val b + 256 * R)) = Z.lxor (crc_byte c [b]) R.
Proof.
  pose proof (byte_val_range b) as Hb.
  unfold round, crc_byte. cbn [hd].
  assert (E1 : Z.shiftr (byte_val b + 256 * R) 8 = R).
  { rewrite Z.shiftr_div_pow2 by lia. change (2 ^ 8) with 256.
    symmetry. apply (Z.div_unique _ _ _ (byte_val b)); lia. }
  assert (E2 : Z.land (byte_val b + 256 * R) 0xff = Z.land (byte_val b) 0xff).
  { change 0xff with (Z.ones 8). rewrite !Z.land_ones by lia.
    change (2 ^ 8) with 256.
    replace (byte_val b + 256 * R) with (byte_val b + R * 256) by lia.
    rewrite Z.mod_add by lia. reflexivity. }
  rewrite Z.shiftr_lxor, E1, !land_lxor_distr, E2.
  apply lxor_swap.
Qed.

Lemma iter_round_load_le bs :
  forall c, Nat.iter (length bs) round (Z.lxor c (load_le bs)) = crc_bytes c bs.
Proof.
  induction bs as [| b bs IH]; intros c.
  - simpl. apply Z.lxor_0_r.
  - cbn [length load_le fold_right].
    rewrite Nat.iter_succ_r. fold (load_le bs).
    rewrite round_cons. apply IH.
Qed.

Lemma crc_word_round w x : crc_word w x = crc_t (Nat.iter (Wn w) round x).
Proof. reflexivity. Qed.

Lemma crc_word_load_le w c bs :
  word32 c -> length bs = Wn w ->
  crc_word w (Z.lxor c (load_le bs)) = crc_bytes c bs.
Proof.
  intros Hc Hl. rewrite crc_word_round, <- Hl, iter_round_load_le.
  apply word32_iff, word32_crc_bytes, Hc.
Qed.

Lemma load_le_range bs : wordn (8 * length bs) (load_le bs).
Proof.
  induction bs as [| b bs IH].
  - apply wordn_0.
  - unfold wordn in *. cbn [load_le fold_right length]. fold (load_le bs).
    pose proof (byte_val_range b).
    replace (Z.of_nat (8 * S (length bs)))
      with (8 + Z.of_nat (8 * length bs)) by lia.
    rewrite Z.pow_add_r by lia. change (2 ^ 8) with 256. lia.
Qed.

Lemma length_take_word w buf i : length (take_word w buf i) = Wn w.
Proof. unfold take_word. rewrite length_map, length_seq. reflexivity. Qed.

Lemma take_word_prefix w buf i :
  take_word w buf i = prefix (Wn w) (skipn (i * Wn w) buf).
Proof.
  unfold take_word, prefix. apply map_ext. intros j.
  symmetry. apply nth_skipn_add.
Qed.

Lemma linear_crc_word w : linear (crc_word w).
Proof.
  apply (linear_eq _ (fun x => Z.land (Nat.iter (Wn w) round x) 0xffffffff)).
  - reflexivity.
  - apply linear_pointwise_land, linear_nat_iter, linear_round.
Qed.
#[local] Hint Resolve linear_crc_word : lin.

Lemma crc_braid_table_low w k x :
  0 <= k < Z.of_nat (Wn w) ->
  crc_braid_table w k (Z.land x 0xff)
  = powx (N.of_nat (8 * (N * Wn w - Z.to_nat k))) (Z.land x 0xff).
Proof.
  intros Hk. unfold crc_braid_table. pose proof (land_255_range x) as H.
  destruct (Z.leb_spec 0 (Z.land x 0xff)); [| lia].
  destruct (Z.ltb_spec (Z.land x 0xff) 256); [| lia].
  destruct (Z.leb_spec 0 k); [| lia].
  destruct (Z.ltb_spec k (Z.of_nat (Wn w))); [| lia].
  cbn [andb]. apply powx_nat.
Qed.

Lemma crc_braid_table_high w k i :
  ~ 0 <= k < Z.of_nat (Wn w) -> crc_braid_table w k i = 0.
Proof.
  intros Hk. unfold crc_braid_table.
  destruct (Z.leb_spec 0 k); [| rewrite andb_false_r; reflexivity].
  destruct (Z.ltb_spec k (Z.of_nat (Wn w))); [lia |].
  rewrite andb_false_r. reflexivity.
Qed.

Lemma linear_pointwise_braid_table w k g :
  linear g -> linear (fun x => crc_braid_table w k (Z.land (g x) 0xff)).
Proof.
  intros Hg.
  destruct (Z_le_dec 0 k) as [H0 |];
    [destruct (Z_lt_dec k (Z.of_nat (Wn w))) as [H1 |] |].
  - apply (linear_eq _ (fun x => powx (N.of_nat (8 * (N * Wn w - Z.to_nat k)))
                                   (Z.land (g x) 0xff))).
    + intros x. apply crc_braid_table_low. lia.
    + auto with lin.
  - apply (linear_eq _ (fun _ => 0)); [| apply linear_const0].
    intros x. apply crc_braid_table_high. lia.
  - apply (linear_eq _ (fun _ => 0)); [| apply linear_const0].
    intros x. apply crc_braid_table_high. lia.
Qed.
#[local] Hint Resolve linear_pointwise_braid_table : lin.

Lemma linear_braid w (table : Z -> Z -> Z) :
  (forall k g, linear g -> linear (fun x => table k (Z.land (g x) 0xff))) ->
  linear (braid w table).
Proof.
  intros Ht. unfold braid.
  destruct w; cbn [Wn Nat.sub seq map fold_left];
    repeat apply linear_lxor; apply Ht; auto with lin.
Qed.

(** A braid carries the CRC of its word over the N-1 words that follow in
    the stride. *)
Lemma braid_crc_word w x :
  wordn (8 * Wn w) x ->
  braid w (crc_braid_table w) x
  = powx (N.of_nat (8 * ((N - 1) * Wn w))) (crc_word w x).
Proof.
  revert x.
  apply (linear_ext (8 * Wn w) (braid w (crc_braid_table w))
           (fun x => powx (N.of_nat (8 * ((N - 1) * Wn w))) (crc_word w x))).
  - apply linear_braid. intros; auto with lin.
  - auto with lin.
  - destruct w; vm_compute; reflexivity.
Qed.

Lemma wordn_word32 n x : (32 <= n)%nat -> word32 x -> wordn n x.
Proof. intros Hn Hx. apply (wordn_mono 32); assumption. Qed.

Lemma W_ge_4 w : (4 <= Wn w)%nat.
Proof. destruct w; simpl; lia. Qed.

(** One lane of the little-endian loop: the braid of [crc ^ word]. *)
Lemma braid_lane w c bs :
  word32 c -> length bs = Wn w ->
  braid w (crc_braid_table w) (Z.lxor c (load_le bs))
  = powx (N.of_nat (8 * ((N - 1) * Wn w))) (crc_bytes c bs).
Proof.
  intros Hc Hl. rewrite braid_crc_word.
  - rewrite crc_word_load_le by assumption. reflexivity.
  - apply wordn_lxor.
    + apply wordn_word32; [pose proof (W_ge_4 w); lia | assumption].
    + rewrite <- Hl. apply load_le_range.
Qed.

(** *** Words: the big-endian path *)

Lemma lor_masked y c R R' :
  Z.land R R' = 0 ->
  Z.lor (Z.land y R) (Z.land c R')
  = Z.land (Z.lxor (Z.land y R) (Z.land c R')) (Z.lor R R').
Proof.
  intros H. apply Z.bits_inj'. intros n Hn.
  assert (E : Z.testbit (Z.land R R') n = false) by (rewrite H; apply Z.bits_0).
  rewrite Z.land_spec in E.
  rewrite Z.lor_spec, !Z.land_spec, Z.lxor_spec, !Z.land_spec, Z.lor_spec.
  destruct (Z.testbit y n), (Z.testbit c n), (Z.testbit R n),
    (Z.testbit R' n); simpl in *; congruence.
Qed.

(** [masked R f]: [f] is linear and all its values lie within the bits
    of the mask [R]. *)
Definition masked (R : Z) (f : Z -> Z) : Prop :=
  linear f /\ forall x, Z.land (f x) R = f x.

Lemma masked_shiftr_land M s :
  masked (Z.shiftr M s) (fun x => Z.shiftr (Z.land x M) s).
Proof.
  split; [auto with lin |].
  intros x. rewrite Z.shiftr_land, <- Z.land_assoc, Z.land_diag. reflexivity.
Qed.

Lemma masked_shiftl_land M s K :
  masked (Z.land (Z.shiftl M s) K)
    (fun x => Z.land (Z.shiftl (Z.land x M) s) K).
Proof.
  split; [auto with lin |].
  intros x. rewrite Z.shiftl_land, <- !Z.land_assoc.
  f_equal. rewrite (Z.land_comm K), <- !Z.land_assoc, Z.land_diag.
  rewrite Z.land_assoc, Z.land_diag. reflexivity.
Qed.

Lemma masked_lor R R' f g :
  masked R f -> masked R' g -> Z.land R R' = 0 ->
  masked (Z.lor R R') (fun x => Z.lor (f x) (g x)).
Proof.
  intros [Lf Mf] [Lg Mg] H.
  assert (E : forall x, Z.lor (f x) (g x)
                        = Z.land (Z.lxor (f x) (g x)) (Z.lor R R')).
  { intros x. rewrite <- (Mf x), <- (Mg x). rewrite lor_masked by exact H.
    rewrite (Mf x), (Mg x). reflexivity. }
  split.
  - apply (linear_eq _ _ E). auto with lin.
  - intros x. rewrite E, <- Z.land_assoc, Z.land_diag. reflexivity.
Qed.

Lemma masked_linear R f : masked R f -> linear f.
Proof. intros [H _]. exact H. Qed.

Ltac masks :=
  first [ apply masked_shiftr_land | apply masked_shiftl_land
        | eapply masked_lor; [masks | masks | reflexivity] ].

(** The bytes [byte_swap] moves do not overlap, so its [|] is a [^]. *)
Lemma linear_byte_swap w : linear (byte_swap w).
Proof.
  destruct w; unfold byte_swap, word_t; eapply masked_linear; masks.
Qed.
#[local] Hint Resolve linear_byte_swap : lin.

Lemma linear_pointwise_byte_swap w g :
  linear g -> linear (fun x => byte_swap w (g x)).
Proof. intros Hg. apply (linear_comp (byte_swap w) g); auto with lin. Qed.
#[local] Hint Resolve linear_pointwise_byte_swap : lin.

Lemma byte_swap_involutive w x :
  wordn (8 * Wn w) x -> byte_swap w (byte_swap w x) = x.
Proof.
  revert x.
  apply (linear_ext (8 * Wn w) (fun x => byte_swap w (byte_swap w x))
           (fun x => x)).
  - auto with lin.
  - auto with lin.
  - destruct w; vm_compute; reflexivity.
Qed.

Lemma byte_swap_0 w : byte_swap w 0 = 0.
Proof. destruct w; reflexivity. Qed.

Lemma byte_cons b R : 0 <= b < 256 -> b + 256 * R = Z.lxor b (Z.shiftl R 8).
Proof.
  intros Hb. rewrite Z.shiftl_mul_pow2 by lia. change (2 ^ 8) with 256.
  rewrite (Z.mul_comm 256). apply Z.add_nocarry_lxor.
  apply Z.bits_inj'. intros m Hm. rewrite Z.land_spec, Z.bits_0.
  destruct (Z_lt_le_dec m 8).
  - change 256 with (2 ^ 8). rewrite Z.mul_pow2_bits_low by lia.
    apply andb_false_r.
  - rewrite (wordn_testbit_high 8 b) by (unfold wordn; simpl; lia).
    reflexivity.
Qed.

Lemma byte_swap_shiftl w s s' :
  agree_on_bits 8 (fun b => byte_swap w (Z.shiftl b s))
    (fun b => Z.shiftl b s') = true ->
  forall b, 0 <= b < 256 -> byte_swap w (Z.shiftl b s) = Z.shiftl b s'.
Proof.
  intros Hc b Hb.
  apply (linear_ext 8 (fun b => byte_swap w (Z.shiftl b s))
           (fun b => Z.shiftl b s')); auto with lin.
Qed.

Ltac flatten_bytes :=
  repeat rewrite byte_cons by apply byte_val_range;
  repeat rewrite ?Z.shiftl_lxor, ?Z.shiftl_0_l, ?Z.lxor_0_r;
  repeat rewrite Z.shiftl_shiftl by lia;
  cbn [Z.add Pos.add Pos.succ].

Lemma load_be_byte_swap w bs :
  length bs = Wn w -> load_be bs = byte_swap w (load_le bs).
Proof.
  intros Hl. destruct w; cbn [Wn] in Hl.
  - destruct bs as [| b0 [| b1 [| b2 [| b3 [| ? ?]]]]]; try discriminate.
    unfold load_be, load_le. cbn [fold_left fold_right].
    rewrite !Z.mul_0_r, !Z.add_0_r, !Z.add_0_l.
    rewrite !(Z.add_comm (256 * _) (byte_val _)).
    flatten_bytes.
    rewrite !(linear_byte_swap W4).
    rewrite <- (Z.shiftl_0_r (byte_val b0)) at 2.
    rewrite !byte_swap_shiftl with (s' := 24) (s := 0),
            !byte_swap_shiftl with (s' := 16) (s := 8),
            !byte_swap_shiftl with (s' := 8) (s := 16),
            !byte_swap_shiftl with (s' := 0) (s := 24)
      by (reflexivity || apply byte_val_range).
    rewrite Z.shiftl_0_r. bitwise.
  - destruct bs as [| b0 [| b1 [| b2 [| b3 [| b4 [| b5 [| b6 [| b7 [| ? ?]]]]]]]]];
      try discriminate.
    unfold load_be, load_le. cbn [fold_left fold_right].
    rewrite !Z.mul_0_r, !Z.add_0_r, !Z.add_0_l.
    rewrite !(Z.add_comm (256 * _) (byte_val _)).
    flatten_bytes.
    rewrite !(linear_byte_swap W8).
    rewrite <- (Z.shiftl_0_r (byte_val b0)) at 2.
    rewrite !byte_swap_shiftl with (s' := 56) (s := 0),
            !byte_swap_shiftl with (s' := 48) (s := 8),
            !byte_swap_shiftl with (s' := 40) (s := 16),
            !byte_swap_shiftl with (s' := 32) (s := 24),
            !byte_swap_shiftl with (s' := 24) (s := 32),
            !byte_swap_shiftl with (s' := 16) (s := 40),
            !byte_swap_shiftl with (s' := 8) (s := 48),
            !byte_swap_shiftl with (s' := 0) (s := 56)
      by (reflexivity || apply byte_val_range).
    rewrite Z.shiftl_0_r. bitwise.
Qed.

Lemma word_at_big w buf i :
  word_at (Platform w false) buf i
  = byte_swap w (word_at (Platform w true) buf i).
Proof.
  unfold word_at. cbn [little_endian W].
  apply load_be_byte_swap, length_take_word.
Qed.

Lemma word_at_range w buf i : wordn (8 * Wn w) (word_at (Platform w true) buf i).
Proof.
  unfold word_at. cbn [little_endian W].
  rewrite <- (length_take_word w buf i) at 1. apply load_le_range.
Qed.

Lemma linear_pointwise_braid_big_table w k g :
  linear g -> linear (fun x => crc_braid_big_table w k (Z.land (g x) 0xff)).
Proof. intros Hg. unfold crc_braid_big_table. auto with lin. Qed.

Lemma braid_big w x :
  wordn (8 * Wn w) x ->
  braid w (crc_braid_big_table w) (byte_swap w x)
  = byte_swap w (braid w (crc_braid_table w) x).
Proof.
  revert x.
  apply (linear_ext (8 * Wn w)
           (fun x => braid w (crc_braid_big_table w) (byte_swap w x))
           (fun x => byte_swap w (braid w (crc_braid_table w) x))).
  - apply (linear_comp (braid w (crc_braid_big_table w)) (byte_swap w));
      [| auto with lin].
    apply linear_braid. intros. apply linear_pointwise_braid_big_table.
    assumption.
  - apply linear_pointwise_byte_swap, linear_braid.
    intros; auto with lin.
  - destruct w; vm_compute; reflexivity.
Qed.

Lemma linear_crc_word_big w : linear (crc_word_big w).
Proof.
  unfold crc_word_big. apply linear_nat_iter.
  apply linear_lxor.
  - destruct w; unfold word_t; auto with lin.
  - unfold crc_big_table. auto with lin.
Qed.

Lemma crc_word_big_swap w x :
  wordn (8 * Wn w) x ->
  crc_word_big w (byte_swap w x) = byte_swap w (crc_word w x).
Proof.
  revert x.
  apply (linear_ext (8 * Wn w) (fun x => crc_word_big w (byte_swap w x))
           (fun x => byte_swap w (crc_word w x))).
  - apply (linear_comp (crc_word_big w) (byte_swap w));
      auto using linear_crc_word_big with lin.
  - auto with lin.
  - destruct w; vm_compute; reflexivity.
Qed.

(** *** The braids *)

Section Braids.
Variable w : word_size.

(** The bits one word of input moves the CRC by. *)
Let E : BinNums.N := (8 * N.of_nat (Wn w))%N.

(** What the running CRCs of the lanes are worth to the CRC of the block
    they are merged into: lane i still has N - i words to go. *)
Fixpoint phi (cs : list Z) : Z :=
  match cs with
  | [] => 0
  | c :: cs' => Z.lxor (powx (E * N.of_nat (S (length cs'))) c) (phi cs')
  end.

(** The merge of the lanes into one CRC over the words [Bs] of the last
    block: [crc = crc_word(crc_i ^ words[i] ^ crc)] for each lane. *)
Fixpoint combine_chain (f : Z) (cs : list Z) (Bs : list (list byte)) : Z :=
  match cs, Bs with
  | c :: cs', B :: Bs' => combine_chain (crc_bytes (Z.lxor c f) B) cs' Bs'
  | _, _ => f
  end.

(** One round of the braid loop on every lane. *)
Fixpoint lane_step (P : BinNums.N) (cs : list Z) (Bs : list (list byte))
  : list Z :=
  match cs, Bs with
  | c :: cs', B :: Bs' => powx P (crc_bytes c B) :: lane_step P cs' Bs'
  | _, _ => []
  end.

Definition word_sized (Bs : list (list byte)) : Prop :=
  Forall (fun B => length B = Wn w) Bs.

Lemma length_concat_words Bs :
  word_sized Bs -> length (concat Bs) = (Wn w * length Bs)%nat.
Proof.
  induction 1 as [| B Bs HB _ IH]; cbn [concat length].
  - lia.
  - rewrite length_app, IH, HB. lia.
Qed.

Lemma length_lane_step P cs :
  forall Bs, length cs = length Bs -> length (lane_step P cs Bs) = length cs.
Proof.
  induction cs as [| c cs IH]; intros [| B Bs] Hl; try discriminate;
    cbn [lane_step length] in *; [reflexivity |].
  rewrite IH by lia. reflexivity.
Qed.

Lemma Forall_word32_lane_step P cs :
  forall Bs, Forall word32 cs -> Forall word32 (lane_step P cs Bs).
Proof.
  induction cs as [| c cs IH]; intros [| B Bs] Hc; cbn [lane_step];
    try constructor.
  - inversion_clear Hc. apply word32_powx, word32_crc_bytes. assumption.
  - inversion_clear Hc. apply IH. assumption.
Qed.

Lemma word32_phi cs : Forall word32 cs -> word32 (phi cs).
Proof.
  induction 1 as [| c cs Hc _ IH]; cbn [phi].
  - apply (wordn_0 32).
  - apply word32_lxor; [apply word32_powx |]; assumption.
Qed.

Lemma combine_chain_spec cs :
  forall Bs f,
    length cs = length Bs -> Forall word32 cs -> word_sized Bs -> word32 f ->
    combine_chain f cs Bs = Z.lxor (crc_bytes f (concat Bs)) (phi cs).
Proof.
  induction cs as [| c cs IH]; intros [| B Bs] f Hl Hc HB Hf;
    try discriminate; cbn [combine_chain phi concat].
  - rewrite Z.lxor_0_r. reflexivity.
  - inversion_clear Hc as [| ? ? Hc0 Hcs]. inversion HB as [| ? ? HB0 HBs]; subst.
    cbn [length] in Hl.
    rewrite IH by (try apply word32_crc_bytes; try apply word32_lxor;
                   assumption || lia).
    rewrite <- crc_bytes_app, (Z.lxor_comm c f), crc_bytes_lxor by assumption.
    rewrite length_app, HB0, length_concat_words by assumption.
    replace (8 * N.of_nat (Wn w + Wn w * length Bs))%N
      with (E * N.of_nat (S (length cs)))%N by (unfold E; nia).
    apply Z.lxor_assoc.
Qed.

Lemma phi_lane_step P cs :
  forall Bs,
    length cs = length Bs -> Forall word32 cs -> word_sized Bs ->
    phi (lane_step P cs Bs)
    = powx (P + E) (Z.lxor (phi cs) (crc_bytes 0 (concat Bs))).
Proof.
  induction cs as [| c cs IH]; intros [| B Bs] Hl Hc HB;
    try discriminate; cbn [lane_step phi concat].
  - rewrite Z.lxor_0_l. symmetry. apply powx_zero.
  - inversion_clear Hc as [| ? ? Hc0 Hcs]. inversion HB as [| ? ? HB0 HBs]; subst.
    cbn [length] in Hl.
    rewrite IH, length_lane_step by (assumption || lia).
    rewrite crc_bytes_app.
    rewrite (crc_bytes_from_0 (concat Bs) (crc_bytes 0 B))
      by (apply word32_crc_bytes, (wordn_0 32)).
    rewrite (crc_bytes_from_0 B c) by assumption.
    rewrite length_concat_words, HB0 by assumption.
    rewrite !linear_powx, <- !powx_add.
    replace (E * N.of_nat (S (length cs)) + P)%N
      with (P + E + 8 * N.of_nat (Wn w * length Bs))%N by (unfold E; nia).
    replace (P + E + 8 * N.of_nat (Wn w * length Bs) + 8 * N.of_nat (Wn w))%N
      with (P + E + E * N.of_nat (S (length cs)))%N by (unfold E; nia).
    bitwise.
Qed.

(** The model's five lanes and the words of one block. *)
Definition lanes_list (c : lanes) : list Z :=
  [crc0 c; crc1 c; crc2 c; crc3 c; crc4 c].

Definition block_words (words : list byte) : list (list byte) :=
  map (take_word w words) (seq 0 N).

Lemma word_sized_block words : word_sized (block_words words).
Proof.
  unfold word_sized, block_words. apply Forall_forall. intros B HB.
  apply in_map_iff in HB. destruct HB as [i [<- _]]. apply length_take_word.
Qed.

Lemma skipn_skipn_add {A} a b (l : list A) :
  skipn a (skipn b l) = skipn (b + a) l.
Proof.
  revert l. induction b as [| b IH]; intros l; [reflexivity |].
  destruct l as [| x l]; [destruct a; reflexivity |]. apply IH.
Qed.

Lemma concat_block_words words :
  concat (block_words words) = prefix (N * Wn w) words.
Proof.
  unfold block_words, N. cbn [seq map concat].
  rewrite !take_word_prefix, app_nil_r.
  replace (5 * Wn w)%nat
    with (Wn w + (Wn w + (Wn w + (Wn w + Wn w))))%nat by lia.
  rewrite !prefix_add, !skipn_skipn_add. cbn [Nat.mul Nat.add skipn].
  repeat (f_equal; try (f_equal; lia)).
Qed.

Definition lanes_ok (c : lanes) : Prop := Forall word32 (lanes_list c).

Lemma word_at_le words i :
  word_at (Platform w true) words i = load_le (take_word w words i).
Proof. reflexivity. Qed.

(** One round of the little-endian loop. *)
Lemma braid_loop_le_step n c words :
  lanes_ok c ->
  exists c',
    braid_loop (Platform w true) (crc_braid_table w) (S n) c words
    = braid_loop (Platform w true) (crc_braid_table w) n c'
        (skipn (N * Wn w) words)
    /\ lanes_list c'
       = lane_step (N.of_nat (8 * ((N - 1) * Wn w))) (lanes_list c)
           (block_words words).
Proof.
  intros Hc. unfold lanes_ok, lanes_list in Hc.
  repeat match goal with
         | H : Forall _ (_ :: _) |- _ => inversion_clear H
         end.
  eexists. split; [reflexivity |].
  cbn [lanes_list crc0 crc1 crc2 crc3 crc4 W block_words N seq map lane_step].
  rewrite !word_at_le, !braid_lane by (assumption || apply length_take_word).
  reflexivity.
Qed.

Lemma braid_loop_le n :
  forall c words R,
    lanes_ok c -> word32 R ->
    phi (lanes_list c) = powx (E * N.of_nat N) R ->
    exists c',
      braid_loop (Platform w true) (crc_braid_table w) n c words
      = (c', skipn (n * (N * Wn w)) words)
      /\ lanes_ok c'
      /\ phi (lanes_list c')
         = powx (E * N.of_nat N)
             (crc_bytes R (prefix (n * (N * Wn w)) words)).
Proof.
  induction n as [| n IH]; intros c words R Hc HR Hphi.
  - exists c. repeat split; assumption.
  - destruct (braid_loop_le_step n c words Hc) as [c1 [E1 L1]].
    assert (Hl : length (lanes_list c) = length (block_words words))
      by (unfold block_words; rewrite length_map, length_seq; reflexivity).
    assert (Hc1 : lanes_ok c1).
    { unfold lanes_ok. rewrite L1. apply Forall_word32_lane_step, Hc. }
    assert (Hphi1 : phi (lanes_list c1)
                    = powx (E * N.of_nat N)
                        (crc_bytes R (prefix (N * Wn w) words))).
    { rewrite L1, phi_lane_step, Hphi, concat_block_words
        by (assumption || apply word_sized_block).
      rewrite (crc_bytes_from_0 _ R), length_prefix by assumption.
      replace (N.of_nat (8 * ((N - 1) * Wn w)) + E)%N with (E * N.of_nat N)%N
        by (unfold E, N; lia).
      replace (8 * N.of_nat (N * Wn w))%N with (E * N.of_nat N)%N
        by (unfold E, N; lia).
      f_equal. apply Z.lxor_comm. }
    destruct (IH c1 (skipn (N * Wn w) words) _ Hc1
                (word32_crc_bytes _ _ HR) Hphi1) as [c' [E' [Hc' Hphi']]].
    exists c'. rewrite E1, E'. repeat split; try assumption.
    + rewrite skipn_skipn_add. reflexivity.
    + rewrite Hphi', <- crc_bytes_app, <- prefix_add. reflexivity.
Qed.

(** The merge of the lanes over the last block, as [braided] writes it. *)
Definition merge_le (c : lanes) (words : list byte) : Z :=
  let pl := Platform w true in
  let crc := crc_word w (Z.lxor (crc0 c) (word_at pl words 0)) in
  let crc := crc_word w (Z.lxor (Z.lxor (crc1 c) (word_at pl words 1)) crc) in
  let crc := crc_word w (Z.lxor (Z.lxor (crc2 c) (word_at pl words 2)) crc) in
  let crc := crc_word w (Z.lxor (Z.lxor (crc3 c) (word_at pl words 3)) crc) in
  crc_word w (Z.lxor (Z.lxor (crc4 c) (word_at pl words 4)) crc).

Lemma crc_word_lane c f bs :
  word32 c -> word32 f -> length bs = Wn w ->
  crc_word w (Z.lxor (Z.lxor c (load_le bs)) f) = crc_bytes (Z.lxor c f) bs.
Proof.
  intros Hc Hf Hl. rewrite lxor_swap.
  apply crc_word_load_le; [apply word32_lxor |]; assumption.
Qed.

Lemma merge_le_spec c words R :
  lanes_ok c -> word32 R ->
  phi (lanes_list c) = powx (E * N.of_nat N) R ->
  merge_le c words = crc_bytes R (prefix (N * Wn w) words).
Proof.
  intros Hc HR Hphi.
  assert (Hm : merge_le c words
               = combine_chain 0 (lanes_list c) (block_words words)).
  { unfold lanes_ok, lanes_list in Hc.
    repeat match goal with
           | H : Forall _ (_ :: _) |- _ => inversion_clear H
           end.
    unfold merge_le.
    cbn [lanes_list block_words N seq map combine_chain].
    rewrite !word_at_le.
    rewrite <- (Z.lxor_0_r (Z.lxor (crc0 c) _)).
    repeat rewrite crc_word_lane
      by (try apply crc_t_word32; try apply (wordn_0 32);
          assumption || apply length_take_word).
    reflexivity. }
  rewrite Hm, combine_chain_spec, Hphi, concat_block_words;
    try assumption; try apply word_sized_block; try apply (wordn_0 32).
  - rewrite (crc_bytes_from_0 _ R), length_prefix by assumption.
    replace (8 * N.of_nat (N * Wn w))%N with (E * N.of_nat N)%N
      by (unfold E, N; lia).
    reflexivity.
  - unfold block_words. rewrite length_map, length_seq. reflexivity.
Qed.

Lemma word32_merge_le c words : word32 (merge_le c words).
Proof. unfold merge_le, crc_word. apply crc_t_word32. Qed.

(** The big-endian loop keeps every lane byte-swapped. *)
Definition swap_lanes (c : lanes) : lanes :=
  Lanes (byte_swap w (crc0 c)) (byte_swap w (crc1 c)) (byte_swap w (crc2 c))
        (byte_swap w (crc3 c)) (byte_swap w (crc4 c)).

Lemma wordn_lane_word c words i :
  word32 c -> wordn (8 * Wn w) (Z.lxor c (word_at (Platform w true) words i)).
Proof.
  intros Hc. apply wordn_lxor; [| apply word_at_range].
  apply wordn_word32; [pose proof (W_ge_4 w); lia | assumption].
Qed.

Lemma braid_big_lane c words i :
  word32 c ->
  braid w (crc_braid_big_table w)
    (Z.lxor (byte_swap w c) (word_at (Platform w false) words i))
  = byte_swap w
      (braid w (crc_braid_table w)
         (Z.lxor c (word_at (Platform w true) words i))).
Proof.
  intros Hc. rewrite word_at_big, <- linear_byte_swap.
  apply braid_big, wordn_lane_word, Hc.
Qed.

Lemma word32_braid_lane c words i :
  word32 c ->
  word32 (braid w (crc_braid_table w)
            (Z.lxor c (word_at (Platform w true) words i))).
Proof.
  intros Hc. rewrite word_at_le, braid_lane
    by (assumption || apply length_take_word).
  apply word32_powx, word32_crc_bytes, Hc.
Qed.

Lemma braid_loop_be n :
  forall c words,
    lanes_ok c ->
    braid_loop (Platform w false) (crc_braid_big_table w) n (swap_lanes c) words
    = (let '(c', ws) :=
         braid_loop (Platform w true) (crc_braid_table w) n c words in
       (swap_lanes c', ws)).
Proof.
  induction n as [| n IH]; intros c words Hc; [reflexivity |].
  unfold lanes_ok, lanes_list in Hc.
  repeat match goal with
         | H : Forall _ (_ :: _) |- _ => inversion_clear H
         end.
  cbn [braid_loop W swap_lanes crc0 crc1 crc2 crc3 crc4].
  rewrite !braid_big_lane by assumption.
  rewrite <- IH; [reflexivity |].
  unfold lanes_ok, lanes_list. cbn [crc0 crc1 crc2 crc3 crc4].
  repeat apply Forall_cons; try apply Forall_nil;
    apply word32_braid_lane; assumption.
Qed.

(** The merge of the big-endian path, as [braided] writes it. *)
Definition merge_be (c : lanes) (words : list byte) : Z :=
  let pl := Platform w false in
  let comb := crc_word_big w (Z.lxor (crc0 c) (word_at pl words 0)) in
  let comb :=
    crc_word_big w (Z.lxor (Z.lxor (crc1 c) (word_at pl words 1)) comb) in
  let comb :=
    crc_word_big w (Z.lxor (Z.lxor (crc2 c) (word_at pl words 2)) comb) in
  let comb :=
    crc_word_big w (Z.lxor (Z.lxor (crc3 c) (word_at pl words 3)) comb) in
  let comb :=
    crc_word_big w (Z.lxor (Z.lxor (crc4 c) (word_at pl words 4)) comb) in
  byte_swap w comb.

Lemma word32_crc_word x : word32 (crc_word w x).
Proof. apply crc_t_word32. Qed.

Lemma crc_word_big_lane c f words i :
  word32 c -> word32 f ->
  crc_word_big w
    (Z.lxor (Z.lxor (byte_swap w c) (word_at (Platform w false) words i))
       (byte_swap w f))
  = byte_swap w
      (crc_word w
         (Z.lxor (Z.lxor c (word_at (Platform w true) words i)) f)).
Proof.
  intros Hc Hf. rewrite word_at_big, <- !linear_byte_swap.
  apply crc_word_big_swap, wordn_lxor; [apply wordn_lane_word, Hc |].
  apply wordn_word32; [pose proof (W_ge_4 w); lia | assumption].
Qed.

Lemma merge_be_le c words :
  lanes_ok c -> merge_be (swap_lanes c) words = merge_le c words.
Proof.
  intros Hc. unfold lanes_ok, lanes_list in Hc.
  repeat match goal with
         | H : Forall _ (_ :: _) |- _ => inversion_clear H
         end.
  unfold merge_be, merge_le.
  cbn [swap_lanes crc0 crc1 crc2 crc3 crc4].
  rewrite <- (Z.lxor_0_r (Z.lxor (byte_swap w (crc0 c)) _)).
  rewrite <- (byte_swap_0 w) at 1.
  repeat rewrite crc_word_big_lane
    by (try apply word32_crc_word; try apply (wordn_0 32); assumption).
  rewrite Z.lxor_0_r.
  apply byte_swap_involutive.
  apply wordn_word32; [pose proof (W_ge_4 w); lia | apply word32_crc_word].
Qed.

End Braids.
(** *** [crc32_z] *)

Lemma crc_byte_hd c buf : crc_byte c buf = crc_byte c [hd x00 buf].
Proof. reflexivity. Qed.

Lemma land_W_mod w p : Z.land p (Z.of_nat (Wn w) - 1) = p mod Z.of_nat (Wn w).
Proof.
  destruct w; cbn [Wn].
  - change (Z.of_nat 4 - 1) with (Z.ones 2). apply Z.land_ones. lia.
  - change (Z.of_nat 8 - 1) with (Z.ones 3). apply Z.land_ones. lia.
Qed.

Lemma mod_opp_step m p :
  0 < m -> p mod m <> 0 -> (- p) mod m = (- (p + 1)) mod m + 1.
Proof.
  intros Hm Hp. pose proof (Z.div_mod p m ltac:(lia)) as Hd.
  pose proof (Z.mod_pos_bound p m Hm) as Hr.
  rewrite <- (Z.mod_unique (- p) m (- (p / m) - 1) (m - p mod m)) by lia.
  rewrite <- (Z.mod_unique (- (p + 1)) m (- (p / m) - 1) (m - p mod m - 1))
    by lia.
  lia.
Qed.

(** The alignment loop takes at most W-1 bytes. *)
Lemma align_loop_spec w len :
  forall crc p buf,
  exists j,
    (j <= len)%nat /\ Z.of_nat j <= (- p) mod Z.of_nat (Wn w)
    /\ align_loop w len crc p buf
       = (crc_bytes crc (prefix j buf), (len - j)%nat, skipn j buf).
Proof.
  assert (HW : 0 < Z.of_nat (Wn w)) by (pose proof (W_ge_4 w); lia).
  induction len as [| len IH]; intros crc p buf.
  - exists 0%nat. repeat split; [lia | apply Z.mod_pos_bound; lia].
  - cbn [align_loop]. rewrite land_W_mod.
    destruct (Z.eqb_spec (p mod Z.of_nat (Wn w)) 0) as [E0 | E0]; cbn [negb].
    + exists 0%nat. repeat split; [lia | apply Z.mod_pos_bound; lia].
    + destruct (IH (crc_byte crc buf) (p + 1) (tl buf)) as [j [Hj [Hb Ej]]].
      exists (S j). repeat split; [lia | |].
      * rewrite (mod_opp_step _ p HW E0). lia.
      * rewrite Ej, prefix_S, skipn_tl. reflexivity.
Qed.

Lemma braided_le w crc b len :
  (N * Wn w + Wn w - 1 <= len)%nat -> word32 crc ->
  exists crc' len' p',
    braided (Platform w true) crc b len = (crc', len', p')
    /\ word32 crc'
    /\ crc_bytes crc' (prefix len' p') = crc_bytes crc (prefix len (bytes b)).
Proof.
  intros Hlen Hcrc. unfold braided. cbn [W little_endian].
  destruct (align_loop_spec w len crc (addr b) (bytes b)) as [j [Hj [Hb ->]]].
  set (cr1 := crc_bytes crc (prefix j (bytes b))).
  set (buf1 := skipn j (bytes b)).
  set (len1 := (len - j)%nat).
  set (blks := (len1 / (N * Wn w))%nat).
  assert (HW : (4 <= Wn w)%nat) by apply W_ge_4.
  assert (Hj' : (j < Wn w)%nat).
  { pose proof (Z.mod_pos_bound (- addr b) (Z.of_nat (Wn w)) ltac:(lia)). lia. }
  assert (Hblks : (1 <= blks)%nat).
  { unfold blks. apply Nat.div_le_lower_bound; unfold N, len1 in *; lia. }
  assert (Hle : (blks * (N * Wn w) <= len1)%nat).
  { unfold blks. rewrite Nat.mul_comm. apply Nat.Div0.mul_div_le. }
  assert (H1 : word32 cr1) by (apply word32_crc_bytes, Hcrc).
  destruct (braid_loop_le w (blks - 1) (Lanes cr1 0 0 0 0) buf1 cr1)
    as [c [-> [Hc Hphi]]].
  - unfold lanes_ok, lanes_list; cbn [crc0 crc1 crc2 crc3 crc4].
    repeat apply Forall_cons; try apply Forall_nil;
      (exact H1 || apply (wordn_0 32)).
  - exact H1.
  - cbn [lanes_list phi crc0 crc1 crc2 crc3 crc4 length].
    rewrite !powx_zero, !Z.lxor_0_r. reflexivity.
  - fold (merge_le w c (skipn ((blks - 1) * (N * Wn w)) buf1)).
    do 3 eexists. split; [reflexivity |]. split; [apply word32_merge_le |].
    rewrite (merge_le_spec w c _ _ Hc (word32_crc_bytes _ _ H1) Hphi).
    rewrite <- !crc_bytes_app, <- !prefix_add.
    unfold cr1. rewrite <- crc_bytes_app. unfold buf1.
    rewrite <- prefix_add. f_equal. f_equal. unfold len1 in *. nia.
Qed.

Lemma braided_be w crc b len :
  word32 crc ->
  braided (Platform w false) crc b len = braided (Platform w true) crc b len.
Proof.
  intros Hcrc. unfold braided. cbn [W little_endian].
  destruct (align_loop_spec w len crc (addr b) (bytes b)) as [j [Hj [Hb ->]]].
  set (cr1 := crc_bytes crc (prefix j (bytes b))).
  assert (H1 : word32 cr1) by (apply word32_crc_bytes, Hcrc).
  assert (Hc : lanes_ok (Lanes cr1 0 0 0 0)).
  { unfold lanes_ok, lanes_list; cbn [crc0 crc1 crc2 crc3 crc4].
    repeat apply Forall_cons; try apply Forall_nil;
      (exact H1 || apply (wordn_0 32)). }
  replace (Lanes (byte_swap w cr1) 0 0 0 0)
    with (swap_lanes w (Lanes cr1 0 0 0 0))
    by (unfold swap_lanes; cbn [crc0 crc1 crc2 crc3 crc4];
        rewrite !byte_swap_0; reflexivity).
  rewrite braid_loop_be by exact Hc.
  destruct (braid_loop_le w ((len - j) / (N * Wn w) - 1) (Lanes cr1 0 0 0 0)
              (skipn j (bytes b)) cr1) as [c [-> [Hc' _]]].
  - exact Hc.
  - exact H1.
  - cbn [lanes_list phi crc0 crc1 crc2 crc3 crc4 length].
    rewrite !powx_zero, !Z.lxor_0_r. reflexivity.
  - fold (merge_be w (swap_lanes w c)
            (skipn (((len - j) / (N * Wn w) - 1) * (N * Wn w))
               (skipn j (bytes b)))).
    rewrite merge_be_le by exact Hc'. reflexivity.
Qed.

(** [crc32_z] on any platform and at any address is the byte loop over
    the [len] bytes at the pointer. *)
Lemma crc32_z_crc_bytes pl crc b len :
  crc32_z pl crc (Some b) len
  = Z.lxor (crc_bytes (Z.land (Z.lnot crc) 0xffffffff) (prefix len (bytes b)))
      0xffffffff.
Proof.
  unfold crc32_z.
  assert (H0 : word32 (Z.land (Z.lnot crc) 0xffffffff))
    by apply crc_t_word32.
  destruct (Nat.leb_spec (N * Wn (W pl) + Wn (W pl) - 1) len) as [Hlen | Hlen].
  - destruct pl as [w [|]]; cbn [W] in *.
    + destruct (braided_le w _ b len Hlen H0) as [c' [l' [p' [-> [_ E]]]]].
      cbv iota beta. rewrite unrolled_loop_spec. cbv iota beta zeta.
      rewrite closing_loops, E. reflexivity.
    + rewrite braided_be by exact H0.
      destruct (braided_le w _ b len Hlen H0) as [c' [l' [p' [-> [_ E]]]]].
      cbv iota beta. rewrite unrolled_loop_spec. cbv iota beta zeta.
      rewrite closing_loops, E. reflexivity.
  - rewrite unrolled_loop_spec. cbv iota beta zeta.
    rewrite closing_loops. reflexivity.
Qed.

Lemma crc32_z_bytewise pl crc p data :
  crc32_z pl crc (Some (Buffer p data)) (length data) = crc32_bytewise crc data.
Proof.
  rewrite crc32_z_crc_bytes, crc32_bytewise_spec. cbn [bytes].
  rewrite prefix_exact. reflexivity.
Qed.

(** *** The properties of the design document *)

(** C2.  On every platform (word size 4 or 8, either byte order), for every
    initial crc, every address and every buffer, [crc32_z] returns what the
    plain loop [crc = (crc >> 8) ^ crc_table[(crc ^ byte) & 0xff]] over the
    whole buffer returns: the braided path, taken from N*W + W - 1 bytes on,
    agrees with the byte loop at every length. *)
Theorem crc32_z_braided_equals_bytewise :
  forall (pl : platform) (crc p : Z) (data : list byte),
    crc32_z pl crc (Some (Buffer p data)) (length data)
    = crc32_bytewise crc data.
Proof. intros. apply crc32_z_bytewise. Qed.

(** The lengths around the threshold N*W + W - 1 = 47 of an 8-byte word,
    at an unaligned address, run through the model. *)
Example crc32_z_at_threshold :
  let data n := repeat "a"%byte n ++ ["b"%byte; "c"%byte] in
  forall pl, In pl [Platform W8 true; Platform W8 false] ->
  forall n, In n [44; 45; 46]%nat ->
    crc32_z pl 0 (Some (Buffer 0x1003 (data n))) (length (data n))
    = crc32_bytewise 0 (data n).
Proof.
  intros data pl Hpl n Hn. cbn [In] in Hpl, Hn.
  repeat match goal with H : _ \/ _ |- _ => destruct H end;
    subst; try contradiction; vm_compute; reflexivity.
Qed.

Lemma crc32_as_crc_bytes pl p data :
  crc32 pl 0 (Some (Buffer p data)) (length data)
  = Z.lxor (crc_bytes 0xffffffff data) 0xffffffff.
Proof.
  unfold crc32. rewrite crc32_z_bytewise, crc32_bytewise_spec. reflexivity.
Qed.

Lemma word32_ones : word32 0xffffffff.
Proof. unfold word32. lia. Qed.

Lemma combine_concat (a b : list byte) :
  Z.lxor (powx (8 * N.of_nat (length b))
            (Z.lxor (crc_bytes 0xffffffff a) 0xffffffff))
    (Z.lxor (crc_bytes 0xffffffff b) 0xffffffff)
  = Z.lxor (crc_bytes 0xffffffff (a ++ b)) 0xffffffff.
Proof.
  rewrite crc_bytes_app.
  set (A := Z.lxor (crc_bytes 0xffffffff a) 0xffffffff).
  assert (HA : word32 A)
    by (apply word32_lxor; [apply word32_crc_bytes |]; apply word32_ones).
  replace (crc_bytes 0xffffffff a) with (Z.lxor 0xffffffff A)
    by (unfold A; bitwise).
  rewrite crc_bytes_lxor by (assumption || apply word32_ones).
  bitwise.
Qed.

(** C1.  The CRCs of two byte sequences, computed independently, combine
    into the CRC of their concatenation:
    [crc32_combine64(crc32(0,a), crc32(0,b), len(b)) = crc32(0, a++b)],
    and the combination is the product of crc_a with x^(8*len_b) modulo
    p(x), exclusive-or crc_b.  The lengths are those a [uInt] holds, and
    the loops are given the 64 rounds a [z_off64_t] can ask for. *)
Theorem crc32_combine64_concat :
  forall (pl : platform) (fuel : nat) (pa pb pab : Z) (a b : list byte),
    (64 <= fuel)%nat ->
    Z.of_nat (length (a ++ b)) < 2 ^ 32 ->
    let crc_a := crc32 pl 0 (Some (Buffer pa a)) (length a) in
    let crc_b := crc32 pl 0 (Some (Buffer pb b)) (length b) in
    crc32_combine64 fuel crc_a crc_b (Z.of_nat (length b))
    = Some (crc32 pl 0 (Some (Buffer pab (a ++ b))) (length (a ++ b)))
    /\ crc32_combine64 fuel crc_a crc_b (Z.of_nat (length b))
       = Some (Z.lxor (powx (8 * N.of_nat (length b)) crc_a) crc_b).
Proof.
  intros pl fuel pa pb pab a b Hf Hl crc_a crc_b.
  rewrite length_app in Hl.
  assert (E : crc32_combine64 fuel crc_a crc_b (Z.of_nat (length b))
              = Some (Z.lxor (powx (8 * N.of_nat (length b)) crc_a) crc_b)).
  { rewrite crc32_combine64_spec by lia.
    unfold crc_a, crc_b. rewrite !crc32_as_crc_bytes.
    rewrite !(proj1 (word32_iff _))
      by (apply word32_lxor; [apply word32_crc_bytes |]; apply word32_ones).
    do 3 f_equal. lia. }
  split; [| exact E].
  rewrite E. unfold crc_a, crc_b. rewrite !crc32_as_crc_bytes.
  f_equal. apply combine_concat.
Qed.

Lemma crc32_combine64_concat_witness :
  (64 <= 64)%nat
  /\ Z.of_nat (length (["1"%byte; "2"%byte] ++ ["3"%byte])) < 2 ^ 32
  /\ crc32_combine64 64
       (crc32 (Platform W8 true) 0
          (Some (Buffer 4096 ["1"%byte; "2"%byte])) 2)
       (crc32 (Platform W8 true) 0 (Some (Buffer 8192 ["3"%byte])) 1) 1
     = Some (crc32 (Platform W8 true) 0
               (Some (Buffer 12288 ["1"%byte; "2"%byte; "3"%byte])) 3).
Proof.
  split; [lia |]. split; [simpl; lia |].
  apply (crc32_combine64_concat (Platform W8 true) 64 4096 8192 12288
           ["1"%byte; "2"%byte] ["3"%byte]); [lia | simpl; lia].
Defined.

(** C9.  With an absent input pointer [crc32_z], and so [crc32], returns 0
    whatever the crc and the length passed: no byte is read, nothing else
    is computed.  0 is the value a CRC starts from: it is what [crc32]
    gives for no data from the start value 0. *)
Theorem crc32_z_null_buffer :
  forall (pl : platform) (crc : Z) (len : nat),
    crc32_z pl crc None len = 0
    /\ crc32 pl crc None len = 0
    /\ forall b, crc32 pl 0 (Some b) 0 = 0.
Proof.
  intros pl crc len. repeat split.
  intros b. unfold crc32. rewrite crc32_z_crc_bytes. reflexivity.
Qed.

(** C10, as the code has it.  [multmodp] leaves its loop exactly when some
    bit of the 32-bit [a] is set; [x2nmodp] returns, and returns a word
    that is not 0, for every [n >= 0]; so [crc32_combine64] and
    [crc32_combine] return for every length that is not negative.  With
    [a == 0] the loop of [multmodp] has no exit, which is what
    [crc32_combine_op] runs into with [op == 0], and with [n < 0] the loop
    of [x2nmodp] has none. *)
Theorem multmodp_combine_termination :
  (forall fuel a b,
      (32 <= fuel)%nat -> crc_t a <> 0 -> exists r, multmodp fuel a b = Some r)
  /\ (forall fuel n k,
         (64 <= fuel)%nat -> 0 <= n < 2 ^ 63 -> 0 <= k < 2 ^ 31 ->
         exists r, x2nmodp fuel n k = Some r /\ r <> 0)
  /\ (forall fuel crc1 crc2 len2,
         (64 <= fuel)%nat -> 0 <= len2 < 2 ^ 63 ->
         exists r, crc32_combine64 fuel crc1 crc2 len2 = Some r
                   /\ crc32_combine fuel crc1 crc2 len2 = Some r)
  /\ (forall fuel a b, crc_t a = 0 -> multmodp fuel a b = None)
  /\ (forall fuel crc1 crc2, crc32_combine_op fuel crc1 crc2 0 = None)
  /\ (forall fuel crc1 crc2 len2,
         len2 < 0 -> crc32_combine64 fuel crc1 crc2 len2 = None).
Proof.
  split; [| split; [| split; [| split; [| split]]]].
  - intros fuel a b Hf Ha. eexists. apply multmodp_spec; assumption.
  - intros fuel n k Hf Hn Hk.
    destruct (x2nmodp_spec fuel n k) as [r [Er Hr]]; try assumption.
    exists r. split; [exact Er | eapply rep_nonzero, Hr].
  - intros fuel c1 c2 len2 Hf Hl. eexists.
    unfold crc32_combine. rewrite crc32_combine64_spec by assumption.
    split; reflexivity.
  - intros fuel a b Ha. apply multmodp_zero, Ha.
  - intros fuel c1 c2. unfold crc32_combine_op.
    rewrite multmodp_zero by reflexivity. reflexivity.
  - intros fuel c1 c2 len2 Hl. unfold crc32_combine64, x2nmodp.
    rewrite x2nmodp_loop_negative by exact Hl. reflexivity.
Qed.

Lemma multmodp_combine_termination_witness :
  (64 <= 64)%nat /\ 0 <= 5 < 2 ^ 63
  /\ exists r, crc32_combine64 64 1 2 5 = Some r
               /\ crc32_combine 64 1 2 5 = Some r.
Proof.
  split; [lia |]. split; [lia |].
  apply (proj1 (proj2 (proj2 multmodp_combine_termination))); lia.
Defined.

(** C10 as stated fails: a call of [crc32_combine64] with the length -1,
    a value of its parameter type [z_off64_t], returns on no amount of
    fuel. *)
Lemma crc32_combine64_negative_length :
  ~ exists fuel r, crc32_combine64 fuel 0 0 (-1) = Some r.
Proof.
  intros [fuel [r H]]. unfold crc32_combine64, x2nmodp in H.
  rewrite x2nmodp_loop_negative in H by lia. discriminate.
Qed.

(** *** Further properties of the checksum code *)

Lemma word32_crc32_z pl crc b len : word32 (crc32_z pl crc (Some b) len).
Proof.
  rewrite crc32_z_crc_bytes.
  apply word32_lxor; [apply word32_crc_bytes, crc_t_word32 | apply word32_ones].
Qed.

(** Conditioning a conditioned word again gives the word back. *)
Lemma recondition x :
  word32 x -> Z.land (Z.lnot (Z.lxor x 0xffffffff)) 0xffffffff = x.
Proof.
  intros Hx. apply word32_iff in Hx. rewrite <- Hx at 2. unfold crc_t.
  apply Z.bits_inj'. intros n Hn.
  rewrite !Z.land_spec, Z.lnot_spec, Z.lxor_spec by exact Hn.
  destruct (Z.testbit x n), (Z.testbit 0xffffffff n); reflexivity.
Qed.

Lemma condition_twice crc :
  Z.lxor (Z.land (Z.lnot crc) 0xffffffff) 0xffffffff = Z.land crc 0xffffffff.
Proof.
  apply Z.bits_inj'. intros n Hn.
  rewrite Z.lxor_spec, !Z.land_spec, Z.lnot_spec by exact Hn.
  destruct (Z.testbit crc n), (Z.testbit 0xffffffff n); reflexivity.
Qed.

(** X1.  The checksum can be computed piece by piece: feeding the result
    of [crc32_z] on a first buffer as the start value of [crc32_z] on a
    second one gives the result of one call on the two buffers joined, on
    every platform, at every three addresses and for every start value. *)
Theorem crc32_z_incremental :
  forall (pl : platform) (crc pa pb pab : Z) (a b : list byte),
    crc32_z pl (crc32_z pl crc (Some (Buffer pa a)) (length a))
      (Some (Buffer pb b)) (length b)
    = crc32_z pl crc (Some (Buffer pab (a ++ b))) (length (a ++ b)).
Proof.
  intros pl crc pa pb pab a b.
  rewrite !crc32_z_crc_bytes. cbn [bytes].
  rewrite !prefix_exact, crc_bytes_app.
  rewrite recondition by apply word32_crc_bytes, crc_t_word32.
  reflexivity.
Qed.

(** X2.  With a buffer, [crc32_z] returns a value of 32 bits whatever the
    start value, also one with bits beyond the 32nd, and for the length 0
    it returns the low 32 bits of the start value, no byte being read. *)
Theorem crc32_z_range_and_empty :
  forall (pl : platform) (crc : Z) (b : buffer) (len : nat),
    0 <= crc32_z pl crc (Some b) len < 2 ^ 32
    /\ crc32_z pl crc (Some b) 0 = Z.land crc 0xffffffff
    /\ crc32 pl crc (Some b) 0 = Z.land crc 0xffffffff.
Proof.
  intros pl crc b len. split; [apply word32_crc32_z |].
  assert (E : crc32_z pl crc (Some b) 0 = Z.land crc 0xffffffff).
  { rewrite crc32_z_crc_bytes. change (prefix 0 (bytes b)) with (@nil byte).
    cbn [crc_bytes fold_left]. apply condition_twice. }
  split; exact E.
Qed.

(** The checksums of two buffers and the one of the buffers joined. *)
Lemma combine64_crc_concat pl fuel pa pb pab a b :
  (64 <= fuel)%nat -> Z.of_nat (length (a ++ b)) < 2 ^ 32 ->
  crc32_combine64 fuel (crc32 pl 0 (Some (Buffer pa a)) (length a))
    (crc32 pl 0 (Some (Buffer pb b)) (length b)) (Z.of_nat (length b))
  = Some (crc32 pl 0 (Some (Buffer pab (a ++ b))) (length (a ++ b))).
Proof.
  intros Hf Hl. rewrite length_app in Hl.
  rewrite crc32_combine64_spec by lia.
  rewrite !crc32_as_crc_bytes.
  rewrite !(proj1 (word32_iff _))
    by (apply word32_lxor; [apply word32_crc_bytes |]; apply word32_ones).
  f_equal. rewrite <- combine_concat. do 3 f_equal. lia.
Qed.

(** X3.  The operator that [crc32_combine_gen64] (and [crc32_combine_gen])
    returns for a length that is not negative is not 0, so
    [crc32_combine_op] returns with it; what it returns is what
    [crc32_combine64] returns for that length, for every two values; and
    when the length is that of the second of two buffers, on the checksums
    of the buffers it is the checksum of the buffers joined. *)
Theorem crc32_combine_gen_op :
  forall (pl : platform) (fuel : nat) (crc1 crc2 len2 pa pb pab : Z)
         (a b : list byte),
    (64 <= fuel)%nat ->
    0 <= len2 < 2 ^ 63 ->
    exists op,
      crc32_combine_gen64 fuel len2 = Some op
      /\ crc32_combine_gen fuel len2 = Some op
      /\ op <> 0 /\ 0 <= op < 2 ^ 32
      /\ crc32_combine_op fuel crc1 crc2 op
         = crc32_combine64 fuel crc1 crc2 len2
      /\ (len2 = Z.of_nat (length b) ->
          Z.of_nat (length (a ++ b)) < 2 ^ 32 ->
          crc32_combine_op fuel
            (crc32 pl 0 (Some (Buffer pa a)) (length a))
            (crc32 pl 0 (Some (Buffer pb b)) (length b)) op
          = Some (crc32 pl 0 (Some (Buffer pab (a ++ b))) (length (a ++ b)))).
Proof.
  intros pl fuel crc1 crc2 len2 pa pb pab a b Hf Hl.
  destruct (x2nmodp_spec fuel len2 3 Hf Hl ltac:(lia)) as (op & Eop & Hop).
  assert (Ec : forall c1 c2,
             crc32_combine_op fuel c1 c2 op
             = crc32_combine64 fuel c1 c2 len2)
    by (intros c1 c2; unfold crc32_combine64, crc32_combine_op;
        rewrite Eop; reflexivity).
  exists op. unfold crc32_combine_gen, crc32_combine_gen64.
  split; [exact Eop |]. split; [exact Eop |].
  split; [eapply rep_nonzero, Hop |]. split; [apply Hop |].
  split; [apply Ec |].
  intros El Hab. rewrite Ec, El. apply combine64_crc_concat; assumption.
Qed.

Lemma crc32_combine_gen_op_witness :
  (exists op,
     crc32_combine_gen64 64 1 = Some op
     /\ crc32_combine_op 64
          (crc32 (Platform W4 false) 0
             (Some (Buffer 4096 ["1"%byte; "2"%byte])) 2)
          (crc32 (Platform W4 false) 0 (Some (Buffer 8192 ["3"%byte])) 1)
          op
        = Some (crc32 (Platform W4 false) 0
                  (Some (Buffer 12288 ["1"%byte; "2"%byte; "3"%byte])) 3))
  /\ (exists op,
        crc32_combine_gen64 64 (2 ^ 40) = Some op /\ op <> 0
        /\ crc32_combine_op 64 1 2 op = crc32_combine64 64 1 2 (2 ^ 40)).
Proof.
  split.
  - destruct (crc32_combine_gen_op (Platform W4 false) 64 0 0 1
                4096 8192 12288 ["1"%byte; "2"%byte] ["3"%byte]
                ltac:(lia) ltac:(lia))
      as (op & E1 & _ & _ & _ & _ & E2).
    exists op. split; [exact E1 |].
    apply E2; [reflexivity | simpl; lia].
  - destruct (crc32_combine_gen_op (Platform W4 false) 64 1 2 (2 ^ 40)
                0 0 0 [] [] ltac:(lia) ltac:(lia))
      as (op & E1 & _ & Hnz & _ & E2 & _).
    exists op. split; [exact E1 |]. split; [exact Hnz | exact E2].
Defined.

(** The product of polynomials does not depend on the order. *)
Lemma mulp_comm a b : word32 a -> word32 b -> mulp a b = mulp b a.
Proof.
  apply (bilinear_ext mulp (fun a b => mulp b a)); auto with lin.
Qed.

Lemma mulp_1_l b : word32 b -> mulp (Z.shiftl 1 31) b = b.
Proof. intros Hb. apply (proj2 rep_one b Hb). Qed.

Lemma mulp_1_r a : word32 a -> mulp a (Z.shiftl 1 31) = a.
Proof.
  intros Ha. rewrite mulp_comm by (assumption || apply rep_one).
  apply mulp_1_l, Ha.
Qed.

(** X4.  [multmodp] is a commutative product with the unit [1 << 31] (the
    polynomial 1): on operands that are not 0 it gives the same in either
    order, the unit on either side gives the other operand back, and a
    product of three, where the products of two are not 0, does not depend
    on the grouping. *)
Theorem multmodp_commutative_monoid :
  forall (fuel : nat) (a b c : Z),
    (32 <= fuel)%nat -> crc_t a <> 0 -> crc_t b <> 0 ->
    multmodp fuel a b = multmodp fuel b a
    /\ multmodp fuel (Z.shiftl 1 31) b = Some (crc_t b)
    /\ multmodp fuel a (Z.shiftl 1 31) = Some (crc_t a)
    /\ exists ab bc,
         multmodp fuel a b = Some ab /\ multmodp fuel b c = Some bc
         /\ 0 <= ab < 2 ^ 32
         /\ (ab <> 0 -> multmodp fuel ab c = multmodp fuel a bc).
Proof.
  intros fuel a b c Hf Ha Hb.
  pose proof (crc_t_word32 a) as Wa. pose proof (crc_t_word32 b) as Wb.
  pose proof (crc_t_word32 c) as Wc.
  assert (H1 : crc_t (Z.shiftl 1 31) <> 0) by (vm_compute; discriminate).
  rewrite !multmodp_spec by assumption.
  split; [f_equal; apply mulp_comm; assumption |].
  change (crc_t (Z.shiftl 1 31)) with (Z.shiftl 1 31).
  split; [f_equal; apply mulp_1_l, Wb |].
  split; [f_equal; apply mulp_1_r, Wa |].
  eexists _, _. split; [reflexivity |]. split; [reflexivity |].
  split; [apply word32_mulp, Wb |].
  intros Hab.
  assert (Wab : word32 (mulp (crc_t a) (crc_t b))) by apply word32_mulp, Wb.
  assert (Wbc : word32 (mulp (crc_t b) (crc_t c))) by apply word32_mulp, Wc.
  rewrite !multmodp_spec; try assumption.
  - rewrite (proj1 (word32_iff _) Wab), (proj1 (word32_iff _) Wbc).
    f_equal. apply mulp_assoc; assumption.
  - rewrite (proj1 (word32_iff _)) by assumption. exact Hab.
Qed.

Lemma multmodp_commutative_monoid_witness :
  (32 <= 32)%nat /\ crc_t 3 <> 0 /\ crc_t 5 <> 0
  /\ multmodp 32 3 5 = multmodp 32 5 3.
Proof.
  split; [lia |]. split; [discriminate |]. split; [discriminate |].
  apply (multmodp_commutative_monoid 32 3 5 7); [lia | discriminate ..].
Defined.

(** A word stands for one power of x at most. *)
Lemma rep_unique r r' e : rep r e -> rep r' e -> r = r'.
Proof.
  intros [W1 H1] [W2 H2].
  rewrite <- (mulp_1_r r W1), <- (mulp_1_r r' W2).
  rewrite H1, H2 by apply rep_one. reflexivity.
Qed.

(** X5.  [x2nmodp] turns sums into products: for lengths that are not
    negative, [multmodp] of [x2nmodp(n, k)] and [x2nmodp(m, k)] is
    [x2nmodp(n + m, k)], and [x2nmodp(0, k)] is the unit [1 << 31]. *)
Theorem x2nmodp_additive :
  forall (fuel : nat) (n m k : Z),
    (64 <= fuel)%nat -> 0 <= n -> 0 <= m -> n + m < 2 ^ 63 ->
    0 <= k < 2 ^ 31 ->
    exists rn rm rnm,
      x2nmodp fuel n k = Some rn /\ x2nmodp fuel m k = Some rm
      /\ x2nmodp fuel (n + m) k = Some rnm
      /\ multmodp fuel rn rm = Some rnm
      /\ x2nmodp fuel 0 k = Some (Z.shiftl 1 31).
Proof.
  intros fuel n m k Hf Hn Hm Hnm Hk.
  destruct (x2nmodp_spec fuel n k Hf ltac:(lia) Hk) as (rn & En & Rn).
  destruct (x2nmodp_spec fuel m k Hf ltac:(lia) Hk) as (rm & Em & Rm).
  destruct (x2nmodp_spec fuel (n + m) k Hf ltac:(lia) Hk)
    as (rnm & Enm & Rnm).
  exists rn, rm, rnm.
  split; [exact En |]. split; [exact Em |]. split; [exact Enm |].
  split.
  - destruct (multmodp_rep fuel rn _ rm _ ltac:(lia) Rn Rm) as [E R].
    rewrite E. f_equal. apply (rep_unique _ _ _ R).
    replace (Z.to_N n * 2 ^ Z.to_N k + Z.to_N m * 2 ^ Z.to_N k)%N
      with (Z.to_N (n + m) * 2 ^ Z.to_N k)%N; [exact Rnm |].
    rewrite Z2N.inj_add by assumption. apply N.mul_add_distr_r.
  - unfold x2nmodp. destruct fuel as [| fuel]; [lia | reflexivity].
Qed.

Lemma x2nmodp_additive_witness :
  (64 <= 64)%nat /\ 0 <= 5 /\ 0 <= 9 /\ 5 + 9 < 2 ^ 63 /\ 0 <= 3 < 2 ^ 31
  /\ exists rn rm,
       x2nmodp 64 5 3 = Some rn /\ x2nmodp 64 9 3 = Some rm
       /\ multmodp 64 rn rm = x2nmodp 64 14 3.
Proof.
  split; [lia |]. split; [lia |]. split; [lia |]. split; [lia |].
  split; [lia |].
  destruct (x2nmodp_additive 64 5 9 3 ltac:(lia) ltac:(lia) ltac:(lia)
              ltac:(lia) ltac:(lia))
    as (rn & rm & rnm & En & Em & Enm & E & _).
  exists rn, rm. split; [exact En |]. split; [exact Em |].
  rewrite E. symmetry. exact Enm.
Defined.

(** X6.  [byte_swap] turns the little-endian reading of W bytes into their
    big-endian reading and back, and applied twice to a word of W bytes it
    gives the word back. *)
Theorem byte_swap_endianness :
  forall (w : word_size) (bs : list byte),
    length bs = Wn w ->
    byte_swap w (load_le bs) = load_be bs
    /\ byte_swap w (load_be bs) = load_le bs
    /\ forall x, 0 <= x < 2 ^ Z.of_nat (8 * Wn w) ->
         byte_swap w (byte_swap w x) = x.
Proof.
  intros w bs Hl.
  pose proof (load_le_range bs) as Hr. rewrite Hl in Hr.
  split; [symmetry; apply load_be_byte_swap, Hl |].
  split.
  - rewrite (load_be_byte_swap w bs Hl). apply byte_swap_involutive, Hr.
  - intros x Hx. apply byte_swap_involutive, Hx.
Qed.

Lemma byte_swap_endianness_witness :
  length ["a"%byte; "b"%byte; "c"%byte; "d"%byte] = Wn W4
  /\ byte_swap W4 (load_le ["a"%byte; "b"%byte; "c"%byte; "d"%byte])
     = load_be ["a"%byte; "b"%byte; "c"%byte; "d"%byte].
Proof.
  split; [reflexivity |].
  exact (proj1 (byte_swap_endianness W4
                  ["a"%byte; "b"%byte; "c"%byte; "d"%byte] eq_refl)).
Defined.

(** X7.  [crc32_combine64] is associative: combining the checksums of
    three blocks from the left or from the right gives the same, for every
    three values and every two lengths that are not negative; and a second
    block of length 0 adds its value by exclusive or only. *)
Theorem crc32_combine64_assoc :
  forall (fuel : nat) (crc1 crc2 crc3 len2 len3 : Z),
    (64 <= fuel)%nat -> 0 <= len2 -> 0 <= len3 -> len2 + len3 < 2 ^ 63 ->
    exists c12 c23,
      crc32_combine64 fuel crc1 crc2 len2 = Some c12
      /\ crc32_combine64 fuel crc2 crc3 len3 = Some c23
      /\ crc32_combine64 fuel c12 crc3 len3
         = crc32_combine64 fuel crc1 c23 (len2 + len3)
      /\ crc32_combine64 fuel crc1 crc2 0
         = Some (Z.lxor (Z.land crc1 0xffffffff) (Z.land crc2 0xffffffff)).
Proof.
  intros fuel c1 c2 c3 l2 l3 Hf H2 H3 H23.
  rewrite !crc32_combine64_spec by lia.
  eexists _, _. split; [reflexivity |]. split; [reflexivity |].
  split; [| reflexivity].
  rewrite !crc32_combine64_spec by lia. f_equal.
  pose proof (crc_t_word32 c1) as W1. pose proof (crc_t_word32 c2) as W2.
  pose proof (crc_t_word32 c3) as W3.
  rewrite (proj1 (word32_iff
                    (Z.lxor (powx (8 * Z.to_N l2) (crc_t c1)) (crc_t c2))))
    by (apply word32_lxor; [apply word32_powx |]; assumption).
  rewrite (proj1 (word32_iff
                    (Z.lxor (powx (8 * Z.to_N l3) (crc_t c2)) (crc_t c3))))
    by (apply word32_lxor; [apply word32_powx |]; assumption).
  rewrite (linear_powx (8 * Z.to_N l3)).
  replace (8 * Z.to_N (l2 + l3))%N with (8 * Z.to_N l3 + 8 * Z.to_N l2)%N
    by (rewrite Z2N.inj_add by assumption; lia).
  rewrite powx_add. apply Z.lxor_assoc.
Qed.

Lemma crc32_combine64_assoc_witness :
  (64 <= 64)%nat /\ 0 <= 3 /\ 0 <= 4 /\ 3 + 4 < 2 ^ 63
  /\ exists c12 c23,
       crc32_combine64 64 10 20 3 = Some c12
       /\ crc32_combine64 64 20 30 4 = Some c23
       /\ crc32_combine64 64 c12 30 4 = crc32_combine64 64 10 c23 7.
Proof.
  split; [lia |]. split; [lia |]. split; [lia |]. split; [lia |].
  destruct (crc32_combine64_assoc 64 10 20 30 3 4 ltac:(lia) ltac:(lia)
              ltac:(lia) ltac:(lia))
    as (c12 & c23 & E1 & E2 & E3 & _).
  exists c12, c23. split; [exact E1 |]. split; [exact E2 | exact E3].
Defined.

(** X8.  [crc_word] returns what the byte loop of [crc32_z] gives from 0
    over the W bytes of the word, the least significant byte first, and
    [crc_word_big] on the big-endian word of the same bytes returns that
    value with its bytes swapped. *)
Theorem crc_word_is_byte_loop :
  forall (w : word_size) (bs : list byte),
    length bs = Wn w ->
    crc_word w (load_le bs) = tail_loop (Wn w) 0 bs
    /\ crc_word_big w (load_be bs) = byte_swap w (tail_loop (Wn w) 0 bs).
Proof.
  intros w bs Hl.
  assert (E : crc_word w (load_le bs) = tail_loop (Wn w) 0 bs).
  { rewrite <- (Z.lxor_0_l (load_le bs)).
    rewrite (crc_word_load_le w 0 bs (wordn_0 32) Hl).
    rewrite tail_loop_crc_bytes, <- Hl, prefix_exact. reflexivity. }
  split; [exact E |].
  rewrite (load_be_byte_swap w bs Hl), crc_word_big_swap, E; [reflexivity |].
  pose proof (load_le_range bs) as Hr. rewrite Hl in Hr. exact Hr.
Qed.

Lemma crc_word_is_byte_loop_witness :
  length ["a"%byte; "b"%byte; "c"%byte; "d"%byte] = Wn W4
  /\ crc_word W4 (load_le ["a"%byte; "b"%byte; "c"%byte; "d"%byte])
     = tail_loop (Wn W4) 0 ["a"%byte; "b"%byte; "c"%byte; "d"%byte].
Proof.
  split; [reflexivity |].
  exact (proj1 (crc_word_is_byte_loop W4
                  ["a"%byte; "b"%byte; "c"%byte; "d"%byte] eq_refl)).
Defined.
End Crc32_facts.
(** ** Properties of trees.cpp *)

Module Trees_facts.
Import Trees.

(** *** Loops and arrays *)

(** Reads of a field through the assignments before it. *)
Ltac fields :=
  cbn [
       data_type pending_buf level strategy dyn_ltree dyn_dtree bl_tree
       l_max_code d_max_code bl_max_code bl_count heap heap_len heap_max
       depth sym_buf sym_next sym_end opt_len static_len matches bi_buf
       bi_valid set_data_type set_pending_buf set_level set_strategy
       set_dyn_ltree set_dyn_dtree set_bl_tree set_l_max_code
       set_d_max_code set_bl_max_code set_bl_count set_heap set_heap_len
       set_heap_max set_depth set_sym_buf set_sym_next set_sym_end
       set_opt_len set_static_len set_matches set_bi_buf set_bi_valid ].

Ltac fields_all :=
  cbn [
       data_type pending_buf level strategy dyn_ltree dyn_dtree bl_tree
       l_max_code d_max_code bl_max_code bl_count heap heap_len heap_max
       depth sym_buf sym_next sym_end opt_len static_len matches bi_buf
       bi_valid set_data_type set_pending_buf set_level set_strategy
       set_dyn_ltree set_dyn_dtree set_bl_tree set_l_max_code
       set_d_max_code set_bl_max_code set_bl_count set_heap set_heap_len
       set_heap_max set_depth set_sym_buf set_sym_next set_sym_end
       set_opt_len set_static_len set_matches set_bi_buf set_bi_valid ]
    in *.

Ltac fields_in H :=
  cbn [
       data_type pending_buf level strategy dyn_ltree dyn_dtree bl_tree
       l_max_code d_max_code bl_max_code bl_count heap heap_len heap_max
       depth sym_buf sym_next sym_end opt_len static_len matches bi_buf
       bi_valid set_data_type set_pending_buf set_level set_strategy
       set_dyn_ltree set_dyn_dtree set_bl_tree set_l_max_code
       set_d_max_code set_bl_max_code set_bl_count set_heap set_heap_len
       set_heap_max set_depth set_sym_buf set_sym_next set_sym_end
       set_opt_len set_static_len set_matches set_bi_buf set_bi_valid ] in H.


Lemma upd_same {A} (a : Z -> A) i v : upd a i v i = v.
Proof. unfold upd. rewrite Z.eqb_refl. reflexivity. Qed.

Lemma upd_other {A} (a : Z -> A) i j v : j <> i -> upd a i v j = a j.
Proof.
  intros H. unfold upd. destruct (Z.eqb_spec j i); [contradiction | reflexivity].
Qed.

(** The indices [lo, lo+1, ..., lo+n-1]. *)
Fixpoint Zseq (lo : Z) (n : nat) : list Z :=
  match n with
  | O => []
  | S n' => lo :: Zseq (lo + 1) n'
  end.

Lemma length_Zseq n : forall lo, length (Zseq lo n) = n.
Proof. induction n as [| n IH]; intros lo; simpl; [| rewrite IH]; reflexivity. Qed.

Lemma In_Zseq n : forall lo x, In x (Zseq lo n) <-> lo <= x < lo + Z.of_nat n.
Proof.
  induction n as [| n IH]; intros lo x; cbn [Zseq In].
  - lia.
  - rewrite IH. lia.
Qed.

Lemma NoDup_Zseq n : forall lo, NoDup (Zseq lo n).
Proof.
  induction n as [| n IH]; intros lo; cbn [Zseq]; constructor.
  - rewrite In_Zseq. lia.
  - apply IH.
Qed.

Lemma Zseq_snoc n : forall lo, Zseq lo (S n) = Zseq lo n ++ [lo + Z.of_nat n].
Proof.
  induction n as [| n IH]; intros lo.
  - cbn. rewrite Z.add_0_r. reflexivity.
  - change (Zseq lo (S (S n))) with (lo :: Zseq (lo + 1) (S n)).
    rewrite IH. cbn [Zseq app]. do 3 f_equal. lia.
Qed.

Lemma Zseq_app n m : forall lo,
  Zseq lo (n + m) = Zseq lo n ++ Zseq (lo + Z.of_nat n) m.
Proof.
  induction n as [| n IH]; intros lo.
  - cbn. rewrite Z.add_0_r. reflexivity.
  - cbn [Nat.add Zseq app]. rewrite IH. do 3 f_equal. lia.
Qed.

Lemma for_up_fold {St} (body : Z -> St -> St) n :
  forall i s, for_up n i body s = fold_left (fun s j => body j s) (Zseq i n) s.
Proof. induction n as [| n IH]; intros i s; cbn; [| rewrite IH]; reflexivity. Qed.

Lemma for_down_opt_fold {St} (body : Z -> St -> option St) n :
  forall i s,
    for_down_opt n i body s
    = fold_left
        (fun o j => match o with Some s => body j s | None => None end)
        (rev (Zseq (i - Z.of_nat n + 1) n)) (Some s).
Proof.
  induction n as [| n IH]; intros i s; [reflexivity |].
  rewrite Zseq_snoc, rev_app_distr. cbn [for_down_opt rev app fold_left].
  replace (i - Z.of_nat (S n) + 1 + Z.of_nat n) with i by lia.
  replace (i - Z.of_nat (S n) + 1) with (i - 1 - Z.of_nat n + 1) by lia.
  destruct (body i s) as [s' |]; [apply IH |].
  clear. induction (rev (Zseq (i - 1 - Z.of_nat n + 1) n)); auto.
Qed.

Lemma for_up_S_end {St} (body : Z -> St -> St) n :
  forall i s,
    for_up (S n) i body s = body (i + Z.of_nat n) (for_up n i body s).
Proof.
  induction n as [| n IH]; intros i s.
  - cbn. rewrite Z.add_0_r. reflexivity.
  - change (for_up (S (S n)) i body s)
      with (for_up (S n) (i + 1) body (body i s)).
    rewrite IH. cbn [for_up]. f_equal. lia.
Qed.

(** The invariant rule of a counted loop. *)
Lemma for_up_ind {St} (P : Z -> St -> Prop) (body : Z -> St -> St) n :
  forall i s,
    P i s ->
    (forall j t, i <= j < i + Z.of_nat n -> P j t -> P (j + 1) (body j t)) ->
    P (i + Z.of_nat n) (for_up n i body s).
Proof.
  induction n as [| n IH]; intros i s H0 Hstep.
  - cbn. rewrite Z.add_0_r. exact H0.
  - cbn [for_up]. replace (i + Z.of_nat (S n)) with (i + 1 + Z.of_nat n) by lia.
    apply IH.
    + apply Hstep; [lia | exact H0].
    + intros j t Hj. apply Hstep. lia.
Qed.

(** *** The bit writer *)

(** The low [n] bits of [v], least significant first. *)
Definition bits_of (n : nat) (v : Z) : list bool :=
  map (fun i => Z.testbit v i) (Zseq 0 n).

(** The bit stream written so far: the bytes put in the buffer, each from
    its low bit on, and then the [bi_valid] bits held in [bi_buf]. *)
Definition stream (s : deflate_state) : list bool :=
  flat_map (bits_of 8) (pending_buf s)
  ++ bits_of (Z.to_nat (bi_valid s)) (bi_buf s).

(** The accumulator is in order: at most 16 bits are held and [bi_buf] has
    no bit beyond them. *)
Definition bi_ok (s : deflate_state) : Prop :=
  0 <= bi_valid s <= 16 /\ 0 <= bi_buf s < 2 ^ bi_valid s.

Lemma bits_of_ext n x y :
  (forall i, 0 <= i < Z.of_nat n -> Z.testbit x i = Z.testbit y i) ->
  bits_of n x = bits_of n y.
Proof.
  intros H. unfold bits_of. apply map_ext_in. intros i Hi.
  apply In_Zseq in Hi. apply H. lia.
Qed.

Lemma map_Zseq_shift {A} (f : Z -> A) n : forall lo d,
  map f (Zseq (lo + d) n) = map (fun i => f (i + d)) (Zseq lo n).
Proof.
  induction n as [| n IH]; intros lo d; [reflexivity |].
  cbn [Zseq map]. f_equal.
  replace (lo + d + 1) with (lo + 1 + d) by lia. apply IH.
Qed.

Lemma bits_of_app a b v :
  bits_of (a + b) v = bits_of a v ++ bits_of b (Z.shiftr v (Z.of_nat a)).
Proof.
  unfold bits_of. rewrite Zseq_app, map_app. f_equal.
  rewrite map_Zseq_shift. apply map_ext_in. intros i Hi.
  apply In_Zseq in Hi. rewrite Z.shiftr_spec by lia. reflexivity.
Qed.

Lemma bits_of_mod m n x :
  Z.of_nat m <= n -> bits_of m (x mod 2 ^ n) = bits_of m x.
Proof.
  intros H. apply bits_of_ext. intros i Hi.
  apply Z.mod_pow2_bits_low. lia.
Qed.

Lemma bits_of_zero n : bits_of n 0 = repeat false n.
Proof.
  unfold bits_of. generalize 0 at 2. induction n as [| n IH]; intros lo.
  - reflexivity.
  - cbn [Zseq map repeat]. rewrite Z.bits_0, IH. reflexivity.
Qed.

Lemma length_bits_of n v : length (bits_of n v) = n.
Proof. unfold bits_of. rewrite length_map, length_Zseq. reflexivity. Qed.

Lemma small_testbit x n i : 0 <= x < 2 ^ n -> n <= i -> Z.testbit x i = false.
Proof.
  intros Hx Hi.
  destruct (Z.eq_dec x 0) as [-> | Hx0]; [apply Z.bits_0 |].
  apply Z.bits_above_log2; [lia |].
  assert (0 <= n).
  { destruct (Z_lt_le_dec n 0); [| assumption].
    rewrite Z.pow_neg_r in Hx by assumption. lia. }
  apply Z.lt_le_trans with n; [| assumption].
  apply Z.log2_lt_pow2; lia.
Qed.

Lemma bits_of_lor_low n x R :
  bits_of n (Z.lor x (Z.shiftl R (Z.of_nat n))) = bits_of n x.
Proof.
  apply bits_of_ext. intros i Hi.
  rewrite Z.lor_spec, Z.shiftl_spec_low by lia. apply orb_false_r.
Qed.

Lemma shiftr_lor_shiftl n x R :
  0 <= n -> 0 <= x < 2 ^ n -> Z.shiftr (Z.lor x (Z.shiftl R n)) n = R.
Proof.
  intros Hn Hx. rewrite Z.shiftr_lor, Z.shiftr_shiftl_l, Z.sub_diag by lia.
  rewrite Z.shiftl_0_r.
  rewrite Z.shiftr_div_pow2, Z.div_small by lia. reflexivity.
Qed.

Lemma ush_small_16 x : 0 <= x < 2 ^ 16 -> ush x = x.
Proof. intros H. unfold ush. apply Z.mod_small. exact H. Qed.

Lemma bits_of_put_short w :
  bits_of 8 (uch (uch (Z.land w 0xff)))
  ++ bits_of 8 (uch (uch (Z.shiftr (ush w) 8)))
  = bits_of 16 w.
Proof.
  unfold uch, ush. change 0xff with (Z.ones 8). rewrite Z.land_ones by lia.
  rewrite !bits_of_mod by lia.
  change 16%nat with (8 + 8)%nat. rewrite bits_of_app. f_equal.
  apply bits_of_ext. intros i Hi.
  rewrite !Z.shiftr_spec by lia. apply Z.mod_pow2_bits_low. lia.
Qed.

Lemma stream_put_short s w :
  stream (put_short s w)
  = flat_map (bits_of 8) (pending_buf s) ++ bits_of 16 w
    ++ bits_of (Z.to_nat (bi_valid s)) (bi_buf s).
Proof.
  unfold stream, put_short, put_byte. fields.
  rewrite <- app_assoc, flat_map_app. cbn [flat_map app].
  rewrite app_nil_r, <- !app_assoc. f_equal.
  rewrite app_assoc. f_equal. apply bits_of_put_short.
Qed.

Lemma bits_of_put_byte c : bits_of 8 (uch c) = bits_of 8 c.
Proof. unfold uch. apply bits_of_mod. lia. Qed.

Lemma bits_of_split a b x :
  0 <= a -> 0 <= b ->
  bits_of (Z.to_nat (a + b)) x
  = bits_of (Z.to_nat a) x ++ bits_of (Z.to_nat b) (Z.shiftr x a).
Proof.
  intros Ha Hb. rewrite Z2Nat.inj_add, bits_of_app, Z2Nat.id by lia.
  reflexivity.
Qed.

Lemma bits_of_acc bv len bb v :
  0 <= bv -> 0 <= len -> 0 <= bb < 2 ^ bv ->
  bits_of (Z.to_nat (bv + len)) (Z.lor bb (Z.shiftl v bv))
  = bits_of (Z.to_nat bv) bb ++ bits_of (Z.to_nat len) v.
Proof.
  intros Hv Hl Hb. rewrite bits_of_split, shiftr_lor_shiftl by lia.
  f_equal. rewrite <- (Z2Nat.id bv) at 2 by lia. apply bits_of_lor_low.
Qed.

(** What [send_bits] does to the stream and to the accumulator. *)
Lemma send_bits_spec s value length :
  bi_ok s -> 1 <= length <= 16 ->
  stream (send_bits s value length)
  = stream s ++ bits_of (Z.to_nat length) value
  /\ 0 <= bi_valid (send_bits s value length) <= 16
  /\ (0 <= value < 2 ^ length -> bi_ok (send_bits s value length)).
Proof.
  intros [Hv Hb] Hl. unfold send_bits, Buf_size.
  set (bv := bi_valid s) in *. set (bb := bi_buf s) in *.
  assert (Eu : bits_of (Z.to_nat length) (ush value)
               = bits_of (Z.to_nat length) value)
    by (apply bits_of_mod; lia).
  destruct (Z.gtb_spec bv (16 - length)) as [Hg | Hg].
  - (* the accumulator fills up: 16 bits go out *)
    split; [| split].
    + unfold stream, put_short, put_byte. fields. fold bv bb.
      rewrite <- app_assoc, flat_map_app. cbn [flat_map app].
      rewrite app_nil_r, <- !app_assoc. f_equal.
      rewrite (app_assoc (bits_of 8 _)), bits_of_put_short.
      unfold ush at 1. rewrite bits_of_mod by lia.
      change 16%nat with (Z.to_nat 16).
      replace 16 with (bv + (16 - bv)) at 1 by lia.
      rewrite bits_of_acc by lia.
      rewrite <- app_assoc. f_equal. rewrite <- Eu.
      symmetry.
      replace (Z.to_nat length)
        with (Z.to_nat ((16 - bv) + (bv + (length - 16)))) by (f_equal; lia).
      apply bits_of_split; lia.
    + unfold put_short, put_byte. fields. fold bv. lia.
    + intros Hval. unfold bi_ok, put_short, put_byte. fields. fold bv bb.
      split; [lia |].
      unfold ush. rewrite (Z.mod_small value) by
        (split; [lia |]; apply Z.lt_le_trans with (2 ^ length);
         [lia | apply Z.pow_le_mono_r; lia]).
      rewrite Z.shiftr_div_pow2 by lia. split.
      * apply Z.div_pos; [lia | apply Z.pow_pos_nonneg; lia].
      * apply Z.div_lt_upper_bound; [apply Z.pow_pos_nonneg; lia |].
        rewrite <- Z.pow_add_r by lia.
        replace (16 - bv + (bv + (length - 16))) with length by lia. lia.
  - split; [| split].
    + unfold stream, put_short, put_byte. fields. fold bv bb. rewrite <- app_assoc. f_equal.
      unfold ush at 1. rewrite bits_of_mod by lia.
      rewrite bits_of_acc, Eu by lia. reflexivity.
    + unfold put_short, put_byte. fields. fold bv. lia.
    + intros Hval. unfold bi_ok, put_short, put_byte. fields. fold bv bb.
      split; [lia |].
      assert (Hr : 0 <= Z.lor bb (Z.shiftl (ush value) bv) < 2 ^ (bv + length)).
      { unfold ush. rewrite (Z.mod_small value) by
          (split; [lia |]; apply Z.lt_le_trans with (2 ^ length);
           [lia | apply Z.pow_le_mono_r; lia]).
        split.
        - apply Z.lor_nonneg. split; [lia | apply Z.shiftl_nonneg; lia].
        - apply Z.log2_lt_cancel.
          rewrite Z.log2_pow2 by lia.
          destruct (Z.eq_dec (Z.lor bb (Z.shiftl value bv)) 0) as [-> | Hnz];
            [simpl; lia |].
          rewrite Z.log2_lor by (try apply Z.shiftl_nonneg; lia).
          apply Z.max_lub_lt.
          + destruct (Z.eq_dec bb 0) as [-> | ?]; [simpl; lia |].
            apply Z.lt_le_trans with bv; [apply Z.log2_lt_pow2; lia | lia].
          + destruct (Z.eq_dec value 0) as [-> | ?];
              [rewrite Z.shiftl_0_l; simpl; lia |].
            rewrite Z.log2_shiftl by lia.
            assert (Z.log2 value < length) by (apply Z.log2_lt_pow2; lia).
            lia. }
      rewrite (ush_small_16 (Z.lor bb _)); [exact Hr |].
      split; [lia |]. apply Z.lt_le_trans with (2 ^ (bv + length)); [lia |].
      apply Z.pow_le_mono_r; lia.
Qed.

Lemma send_bits_frame s value length :
  let s' := send_bits s value length in
  dyn_ltree s' = dyn_ltree s /\ dyn_dtree s' = dyn_dtree s
  /\ bl_tree s' = bl_tree s /\ sym_buf s' = sym_buf s
  /\ sym_next s' = sym_next s.
Proof.
  unfold send_bits, put_short, put_byte.
  destruct (bi_valid s >? Buf_size - length); fields; repeat split; reflexivity.
Qed.

(** [bi_windup] puts the held bits out, with zero bits up to the end of
    the byte. *)
Lemma bi_windup_spec s :
  bi_ok s ->
  let s' := bi_windup s in
  bi_buf s' = 0 /\ bi_valid s' = 0
  /\ stream s' = stream s ++ repeat false (Z.to_nat ((- bi_valid s) mod 8))
  /\ stream s' = flat_map (bits_of 8) (pending_buf s').
Proof.
  intros [Hv Hb]. cbv zeta.
  assert (Etail : forall s0, bi_valid s0 = 0 ->
            stream s0 = flat_map (bits_of 8) (pending_buf s0)).
  { intros s0 E0. unfold stream. rewrite E0. apply app_nil_r. }
  split; [| split; [| split]]; try reflexivity;
    [| apply Etail; reflexivity].
  unfold bi_windup, stream, put_short, put_byte.
  set (bv := bi_valid s) in *. set (bb := bi_buf s) in *.
  destruct (Z.gtb_spec bv 8) as [H8 | H8];
    [| destruct (Z.gtb_spec bv 0) as [H0 | H0]].
  - fields. change (Z.to_nat 0) with 0%nat. cbn [bits_of Zseq map].
    rewrite !app_nil_r, <- app_assoc, flat_map_app. cbn [flat_map app].
    rewrite app_nil_r, <- !app_assoc. f_equal.
    rewrite bits_of_put_short.
    replace 16%nat with (Z.to_nat bv + Z.to_nat (16 - bv))%nat by lia.
    rewrite bits_of_app. f_equal.
    rewrite Z2Nat.id by lia.
    rewrite Z.shiftr_div_pow2, Z.div_small, bits_of_zero by lia.
    f_equal. rewrite <- (Z.mod_unique (- bv) 8 (-2) (16 - bv)) by lia.
    reflexivity.
  - fields. change (Z.to_nat 0) with 0%nat. cbn [bits_of Zseq map].
    rewrite !app_nil_r, flat_map_app. cbn [flat_map app].
    rewrite app_nil_r, <- app_assoc. f_equal.
    rewrite bits_of_put_byte.
    replace 8%nat with (Z.to_nat bv + Z.to_nat (8 - bv))%nat at 1 by lia.
    rewrite bits_of_app. f_equal.
    rewrite Z2Nat.id by lia.
    rewrite Z.shiftr_div_pow2, Z.div_small, bits_of_zero by lia.
    f_equal. rewrite <- (Z.mod_unique (- bv) 8 (-1) (8 - bv)) by lia.
    reflexivity.
  - assert (E0 : bv = 0) by lia. fields. fold bv. rewrite E0.
    change (Z.to_nat 0) with 0%nat. cbn [bits_of Zseq map repeat].
    change (Z.to_nat (- 0 mod 8)) with 0%nat. cbn [repeat].
    rewrite !app_nil_r. reflexivity.
Qed.

Lemma bi_flush_spec s :
  bi_ok s -> stream (bi_flush s) = stream s /\ bi_ok (bi_flush s).
Proof.
  intros [Hv Hb]. unfold bi_flush, stream, bi_ok, put_short, put_byte.
  set (bv := bi_valid s) in *. set (bb := bi_buf s) in *.
  destruct (Z.eqb_spec bv 16) as [E16 | E16];
    [| destruct (Z.geb_spec bv 8) as [H8 | H8]].
  - fields. split; [| simpl; lia].
    change (Z.to_nat 0) with 0%nat. cbn [bits_of Zseq map].
    rewrite <- app_assoc, flat_map_app. cbn [flat_map app].
    rewrite !app_nil_r. f_equal.
    rewrite bits_of_put_short. rewrite E16. reflexivity.
  - fields. fold bv bb. split.
    + rewrite flat_map_app. cbn [flat_map app].
      rewrite app_nil_r, <- !app_assoc. f_equal.
      rewrite bits_of_put_byte.
      replace (Z.to_nat bv) with (8 + Z.to_nat (bv - 8))%nat by lia.
      rewrite bits_of_app. reflexivity.
    + split; [lia |]. rewrite Z.shiftr_div_pow2 by lia. split.
      * apply Z.div_pos; lia.
      * apply Z.div_lt_upper_bound; [lia |].
        rewrite <- Z.pow_add_r by lia.
        replace (8 + (bv - 8)) with bv by lia. lia.
  - split; [reflexivity | split; assumption].
Qed.

Definition state0 : deflate_state :=
  Deflate_state Z_UNKNOWN [] 6 0 (fun _ => Ct_data 0 0) (fun _ => Ct_data 0 0)
    (fun _ => Ct_data 0 0) 0 0 0 (fun _ => 0) (fun _ => 0) 0 0 (fun _ => 0)
    (fun _ => 0) 0 0 0 0 0 0 0.

Lemma bi_ok_state0 : bi_ok state0.
Proof. unfold bi_ok, state0. fields. simpl. lia. Qed.

(** *** gen_codes and bi_reverse *)

(** The first code of each length, by the recurrence of the first loop of
    [gen_codes]. *)
Fixpoint first_code (bl_count : Z -> Z) (bits : nat) : Z :=
  match bits with
  | O => 0
  | S b => uns (Z.shiftl (first_code bl_count b + bl_count (Z.of_nat b)) 1)
  end.

(** How many of the symbols [0 .. n-1] have the length [len]. *)
Definition count_before (tree : Z -> ct_data) (len n : Z) : Z :=
  Z.of_nat
    (List.length
       (filter (fun m => Len (tree m) =? len) (Zseq 0 (Z.to_nat n)))).

Lemma count_before_succ tree len n :
  0 <= n ->
  count_before tree len (n + 1)
  = count_before tree len n + (if Len (tree n) =? len then 1 else 0).
Proof.
  intros Hn. unfold count_before.
  replace (Z.to_nat (n + 1)) with (S (Z.to_nat n)) by lia.
  rewrite Zseq_snoc, filter_app, length_app. cbn [filter].
  rewrite Z.add_0_l, Z2Nat.id by lia.
  destruct (Len (tree n) =? len); cbn [List.length]; lia.
Qed.

Lemma count_before_0 tree len : count_before tree len 0 = 0.
Proof. reflexivity. Qed.

Lemma gen_codes_next_spec bl_count :
  fst (gen_codes_next bl_count) = first_code bl_count (Z.to_nat MAX_BITS)
  /\ forall bits, 1 <= bits <= MAX_BITS ->
       snd (gen_codes_next bl_count) bits
       = ush (first_code bl_count (Z.to_nat bits)).
Proof.
  unfold gen_codes_next.
  pose (P := fun (j : Z) (st : Z * (Z -> Z)) =>
    fst st = first_code bl_count (Z.to_nat (j - 1))
    /\ forall bits, 1 <= bits < j ->
         snd st bits = ush (first_code bl_count (Z.to_nat bits))).
  match goal with
  | |- context [for_up ?n ?i ?b ?s] =>
      assert (H : P (i + Z.of_nat n) (for_up n i b s))
  end.
  { apply for_up_ind.
    - split; [reflexivity |]. intros bits Hb. lia.
    - intros j [code nc] Hj [Hc Hn]. cbn [fst snd] in *. cbv zeta.
      assert (E : first_code bl_count (Z.to_nat (j + 1 - 1))
                  = uns (Z.shiftl (code + bl_count (j - 1)) 1)).
      { replace (Z.to_nat (j + 1 - 1)) with (S (Z.to_nat (j - 1))) by lia.
        cbn [first_code]. rewrite Z2Nat.id by lia. rewrite Hc. reflexivity. }
      split; cbn [fst snd]; [symmetry; exact E |].
      intros bits Hb. destruct (Z.eq_dec bits j) as [-> | Hne].
      + rewrite upd_same. rewrite <- E.
        replace (j + 1 - 1) with j by lia. reflexivity.
      + rewrite upd_other by assumption. apply Hn. lia. }
  destruct H as [H1 H2]. split.
  - rewrite H1. reflexivity.
  - intros bits Hb. apply H2. unfold MAX_BITS in *. lia.
Qed.

Lemma ush_idem x : ush (ush x) = ush x.
Proof. unfold ush. apply Z.mod_mod. lia. Qed.

Lemma gen_codes_next_ush bl_count bits :
  ush (snd (gen_codes_next bl_count) bits) = snd (gen_codes_next bl_count) bits.
Proof.
  unfold gen_codes_next.
  pose (P := fun (j : Z) (st : Z * (Z -> Z)) =>
    forall bits, ush (snd st bits) = snd st bits).
  match goal with
  | |- context [for_up ?n ?i ?b ?s] =>
      assert (H : P (i + Z.of_nat n) (for_up n i b s))
  end.
  { apply for_up_ind.
    - intros b. reflexivity.
    - intros j [code nc] Hj Hn b. cbn [fst snd] in *. cbv zeta.
      destruct (Z.eq_dec b j) as [-> | Hne].
      + rewrite upd_same. apply ush_idem.
      + rewrite upd_other by assumption. apply Hn. }
  apply H.
Qed.

Lemma ush_add_l a b : ush (ush a + b) = ush (a + b).
Proof. unfold ush. apply Zplus_mod_idemp_l. Qed.

(** The second loop of [gen_codes], from the table [nc0] of first codes. *)
Lemma gen_codes_assign_spec tree nc0 n :
  (forall len, ush (nc0 len) = nc0 len) ->
  let st := for_up n 0 gen_codes_assign (tree, nc0) in
  (forall m, dl (fst st m) = dl (tree m))
  /\ (forall m, ~ 0 <= m < Z.of_nat n -> fst st m = tree m)
  /\ (forall m, Len (tree m) = 0 -> fst st m = tree m)
  /\ (forall m, 0 <= m < Z.of_nat n -> Len (tree m) <> 0 ->
        Code (fst st m)
        = ush (bi_reverse
                 (ush (nc0 (Len (tree m))
                       + count_before tree (Len (tree m)) m))
                 (Len (tree m)))).
Proof.
  intros Hnc0. cbv zeta.
  pose (Q := fun (j : Z) (st : (Z -> ct_data) * (Z -> Z)) =>
    (forall m, dl (fst st m) = dl (tree m))
    /\ (forall m, ~ 0 <= m < j -> fst st m = tree m)
    /\ (forall m, Len (tree m) = 0 -> fst st m = tree m)
    /\ (forall m, 0 <= m < j -> Len (tree m) <> 0 ->
          Code (fst st m)
          = ush (bi_reverse
                   (ush (nc0 (Len (tree m))
                         + count_before tree (Len (tree m)) m))
                   (Len (tree m))))
    /\ (forall len, len <> 0 ->
          snd st len = ush (nc0 len + count_before tree len j))).
  assert (H : Q (0 + Z.of_nat n) (for_up n 0 gen_codes_assign (tree, nc0))).
  { apply for_up_ind.
    - unfold Q. cbn [fst snd]. repeat split; try reflexivity.
      + intros m Hm. lia.
      + intros len _. rewrite count_before_0, Z.add_0_r. symmetry. apply Hnc0.
    - intros j [t nc] Hj (Hd & Ho & Hz & Hc & Hn). cbn [fst snd] in *.
      assert (EL : Len (t j) = Len (tree j)) by (unfold Len; apply Hd).
      unfold Q, gen_codes_assign. rewrite !EL.
      destruct (Z.eqb_spec (Len (tree j)) 0) as [E0 | E0]; cbn [fst snd].
      + split; [exact Hd |]. split; [intros m Hm; apply Ho; lia |].
        split; [exact Hz |]. split.
        * intros m Hm Hl. apply Hc; [| exact Hl].
          destruct (Z.eq_dec m j) as [-> | ?]; [contradiction | lia].
        * intros len Hlen. rewrite count_before_succ by lia.
          destruct (Z.eqb_spec (Len (tree j)) len) as [E | E];
            [congruence |].
          rewrite Z.add_0_r. apply Hn. exact Hlen.
      + split; [| split; [| split; [| split]]].
        * intros m. destruct (Z.eq_dec m j) as [-> | Hne].
          -- rewrite upd_same. unfold set_Code. cbn [dl]. apply Hd.
          -- rewrite upd_other by assumption. apply Hd.
        * intros m Hm. rewrite upd_other by lia. apply Ho. lia.
        * intros m Hm. destruct (Z.eq_dec m j) as [-> | Hne];
            [contradiction |].
          rewrite upd_other by assumption. apply Hz. exact Hm.
        * intros m Hm Hl. destruct (Z.eq_dec m j) as [-> | Hne].
          -- rewrite upd_same. unfold Code, set_Code. cbn [fc].
             rewrite Hn by assumption. reflexivity.
          -- rewrite upd_other by assumption. apply Hc; [lia | exact Hl].
        * intros len Hlen. rewrite count_before_succ by lia.
          destruct (Z.eqb_spec (Len (tree j)) len) as [E | E].
          -- rewrite <- E, upd_same, Hn by assumption.
             rewrite ush_add_l, Z.add_assoc. reflexivity.
          -- rewrite upd_other by congruence. rewrite Z.add_0_r.
             apply Hn. exact Hlen. }
  destruct H as (Hd & Ho & Hz & Hc & _).
  split; [exact Hd |]. split; [intros m Hm; apply Ho; lia |].
  split; [exact Hz |]. intros m Hm. apply Hc. lia.
Qed.

(** [bi_reverse]: after [k] rounds the low [k] bits of the code are in
    [res], reversed and one place up. *)
Lemma land_1_bit c k :
  0 <= k -> Z.land (Z.shiftr c k) 1 = Z.b2z (Z.testbit c k).
Proof.
  intros Hk. change 1 with (Z.ones 1). rewrite Z.land_ones by lia.
  change (2 ^ 1) with 2. rewrite <- Z.bit0_mod, Z.shiftr_spec by lia.
  reflexivity.
Qed.

Lemma lor_double_bit R (b : bool) : Z.lor (2 * R) (Z.b2z b) = 2 * R + Z.b2z b.
Proof.
  apply Z.bits_inj'. intros n Hn. rewrite Z.lor_spec.
  destruct (Z.eq_dec n 0) as [-> | Hn0].
  - rewrite Z.testbit_0_r, Z.testbit_even_0, Z.b2z_bit0. reflexivity.
  - replace n with (Z.succ (n - 1)) by lia.
    rewrite Z.testbit_succ_r, Z.double_bits_succ by lia.
    rewrite (small_testbit (Z.b2z b) 1) by (destruct b; simpl; lia).
    apply orb_false_r.
Qed.

Definition bi_reverse_round (st : Z * Z) : Z * Z :=
  let '(code, res) := st in
  let res := Z.lor res (Z.land code 1) in
  (Z.shiftr code 1, uns (Z.shiftl res 1)).

Lemma bi_reverse_rounds c k :
  (k <= 31)%nat ->
  exists R,
    Nat.iter k bi_reverse_round (c, 0) = (Z.shiftr c (Z.of_nat k), 2 * R)
    /\ 0 <= R < 2 ^ Z.of_nat k
    /\ forall i, 0 <= i ->
         Z.testbit R i = (i <? Z.of_nat k) && Z.testbit c (Z.of_nat k - 1 - i).
Proof.
  induction k as [| k IH]; intros Hk.
  - exists 0. unfold Nat.iter. cbn [nat_rect]. rewrite Z.shiftr_0_r. split; [reflexivity |].
    split; [simpl; lia |]. intros i Hi. rewrite Z.bits_0.
    destruct (Z.ltb_spec i (Z.of_nat 0)); [lia | reflexivity].
  - destruct IH as (R & E & HR & Hbits); [lia |].
    exists (2 * R + Z.b2z (Z.testbit c (Z.of_nat k))).
    rewrite Nat.iter_succ, E. unfold bi_reverse_round.
    rewrite land_1_bit, lor_double_bit by lia.
    set (R' := 2 * R + Z.b2z (Z.testbit c (Z.of_nat k))).
    assert (HR' : 0 <= R' < 2 ^ Z.of_nat (S k)).
    { rewrite Nat2Z.inj_succ, Z.pow_succ_r by lia. unfold R'.
      destruct (Z.testbit c (Z.of_nat k)); cbn [Z.b2z]; lia. }
    split; [| split; [exact HR' |]].
    + f_equal.
      * rewrite Z.shiftr_shiftr by lia. f_equal. lia.
      * rewrite Z.shiftl_mul_pow2 by lia. change (2 ^ 1) with 2.
        unfold uns. rewrite Z.mod_small; [lia |].
        assert (2 ^ Z.of_nat (S k) <= 2 ^ 31)
          by (apply Z.pow_le_mono_r; lia).
        lia.
    + intros i Hi. unfold R'.
      destruct (Z.eq_dec i 0) as [-> | Hi0].
      * rewrite Z.testbit_0_r.
        destruct (Z.ltb_spec 0 (Z.of_nat (S k))); [| lia].
        cbn [andb]. f_equal. lia.
      * replace i with (Z.succ (i - 1)) at 1 by lia.
        rewrite Z.testbit_succ_r, Hbits by lia.
        replace (Z.of_nat (S k) - 1 - i) with (Z.of_nat k - 1 - (i - 1))
          by lia.
        f_equal.
        destruct (Z.ltb_spec (i - 1) (Z.of_nat k));
          destruct (Z.ltb_spec i (Z.of_nat (S k))); try reflexivity; lia.
Qed.

Lemma bi_reverse_unfold code len :
  bi_reverse code len
  = Z.shiftr
      (snd (Nat.iter (Z.to_nat (Z.max len 1)) bi_reverse_round (uns code, 0)))
      1.
Proof.
  unfold bi_reverse.
  change (fun '(code0, res) =>
            let res0 := Z.lor res (Z.land code0 1) in
            (Z.shiftr code0 1, uns (Z.shiftl res0 1)))
    with bi_reverse_round.
  destruct (Nat.iter _ _ _) as [c r]. reflexivity.
Qed.

(** [bi_reverse(code, len)] is the mirror image of the low [len] bits of
    [code]. *)
Lemma bi_reverse_bits code len i :
  1 <= len <= 31 -> 0 <= i ->
  Z.testbit (bi_reverse code len) i
  = (i <? len) && Z.testbit code (len - 1 - i).
Proof.
  intros Hl Hi. rewrite bi_reverse_unfold.
  replace (Z.max len 1) with len by lia.
  destruct (bi_reverse_rounds (uns code) (Z.to_nat len)) as (R & E & HR & Hb);
    [lia |].
  rewrite E. cbn [snd]. rewrite Z.shiftr_div_pow2 by lia.
  change (2 ^ 1) with 2. rewrite (Z.mul_comm 2 R), Z.div_mul by lia.
  rewrite Hb, Z2Nat.id by lia.
  destruct (Z.ltb_spec i len); [| reflexivity]. cbn [andb].
  unfold uns. apply Z.mod_pow2_bits_low. lia.
Qed.

Lemma bi_reverse_range code len :
  1 <= len <= 31 -> 0 <= bi_reverse code len < 2 ^ len.
Proof.
  intros Hl. rewrite bi_reverse_unfold.
  replace (Z.max len 1) with len by lia.
  destruct (bi_reverse_rounds (uns code) (Z.to_nat len)) as (R & E & HR & Hb);
    [lia |].
  rewrite E. cbn [snd]. rewrite Z.shiftr_div_pow2 by lia.
  change (2 ^ 1) with 2. rewrite (Z.mul_comm 2 R), Z.div_mul by lia.
  rewrite Z2Nat.id in HR by lia. exact HR.
Qed.

(** C5.  [gen_codes] gives the canonical codes.  The first code of the
    length [bits], for 1 <= bits <= MAX_BITS, is the first code of the
    length before plus the count of that length, shifted left by one
    ([first_code], kept in [next_code] as a [ush]).  The symbols are then
    taken in ascending order: a symbol of length 0 is left as it was, no
    length is changed, and a symbol [n] of length [len] gets the first code
    of [len] plus the number of symbols before [n] with the same length,
    with its [len] bits in the reverse order, as [bi_reverse] makes it. *)
Theorem gen_codes_canonical :
  forall (tree : Z -> ct_data) (max_code : Z) (bl_count : Z -> Z),
    (forall n, 0 <= n <= max_code -> 0 <= Len (tree n) <= MAX_BITS) ->
    (forall bits, 1 <= bits <= MAX_BITS ->
       snd (gen_codes_next bl_count) bits
       = ush (Z.shiftl (first_code bl_count (Z.to_nat (bits - 1))
                        + bl_count (bits - 1)) 1))
    /\ (forall n, Len (gen_codes tree max_code bl_count n) = Len (tree n))
    /\ (forall n, ~ 0 <= n <= max_code \/ Len (tree n) = 0 ->
          gen_codes tree max_code bl_count n = tree n)
    /\ (forall n, 0 <= n <= max_code -> Len (tree n) <> 0 ->
          Code (gen_codes tree max_code bl_count n)
          = bi_reverse
              (ush (first_code bl_count (Z.to_nat (Len (tree n)))
                    + count_before tree (Len (tree n)) n))
              (Len (tree n)))
    /\ (forall code len i, 1 <= len <= MAX_BITS -> 0 <= i ->
          Z.testbit (bi_reverse code len) i
          = (i <? len) && Z.testbit code (len - 1 - i)).
Proof.
  intros tree max_code bl_count Hlen.
  destruct (gen_codes_next_spec bl_count) as [_ Hnext].
  pose proof (gen_codes_next_ush bl_count) as Hush.
  unfold gen_codes.
  destruct (gen_codes_next bl_count) as [code0 nc0] eqn:Enext.
  cbn [snd] in *.
  destruct (gen_codes_assign_spec tree nc0 (Z.to_nat (max_code + 1)) Hush)
    as (Hd & Ho & Hz & Hc).
  split; [| split; [| split; [| split]]].
  - intros bits Hb. rewrite Hnext by assumption.
    replace (Z.to_nat bits) with (S (Z.to_nat (bits - 1))) by lia.
    cbn [first_code]. rewrite Z2Nat.id by lia.
    unfold ush, uns. change (2 ^ 32) with (2 ^ 16 * 2 ^ 16).
    rewrite Z.rem_mul_r by lia.
    rewrite Z.mul_comm, Z.mod_add by lia. apply Z.mod_mod. lia.
  - intros n. apply Hd.
  - intros n [Hn | Hn]; [apply Ho; lia | apply Hz; exact Hn].
  - intros n Hn Hl.
    assert (Hr : 1 <= Len (tree n) <= MAX_BITS)
      by (specialize (Hlen n Hn); lia).
    rewrite Hc by (try assumption; lia).
    rewrite Hnext, ush_add_l by assumption.
    apply ush_small_16.
    pose proof (bi_reverse_range
                  (ush (first_code bl_count (Z.to_nat (Len (tree n)))
                        + count_before tree (Len (tree n)) n))
                  (Len (tree n))) as Hrange.
    unfold MAX_BITS in Hr.
    assert (2 ^ Len (tree n) <= 2 ^ 16) by (apply Z.pow_le_mono_r; lia).
    lia.
  - intros code len i Hl Hi. apply bi_reverse_bits; [unfold MAX_BITS in Hl; lia | exact Hi].
Qed.

Definition tree_of_lengths (l : list Z) : Z -> ct_data :=
  fun n => Ct_data 0 (if n <? 0 then 0 else at_ l n).

Lemma gen_codes_canonical_witness :
  (forall n, 0 <= n <= 3 ->
     0 <= Len (tree_of_lengths [2; 1; 3; 3] n) <= MAX_BITS)
  /\ Code (gen_codes (tree_of_lengths [2; 1; 3; 3]) 3
             (fun b => at_ [0; 1; 1; 2] b) 3) = 7.
Proof.
  assert (H : forall n, 0 <= n <= 3 ->
                0 <= Len (tree_of_lengths [2; 1; 3; 3] n) <= MAX_BITS).
  { intros n Hn.
    assert (E : n = 0 \/ n = 1 \/ n = 2 \/ n = 3) by lia.
    destruct E as [-> | [-> | [-> | ->]]]; vm_compute; split; discriminate. }
  split; [exact H |].
  destruct (gen_codes_canonical (tree_of_lengths [2; 1; 3; 3]) 3
              (fun b => at_ [0; 1; 1; 2] b) H) as (_ & _ & _ & Hc & _).
  rewrite Hc; [reflexivity | lia | discriminate].
Defined.
(** *** Sums and counts over lists *)

Fixpoint sumf {A} (f : A -> Z) (l : list A) : Z :=
  match l with
  | [] => 0
  | x :: l' => f x + sumf f l'
  end.

Definition countf {A} (p : A -> bool) (l : list A) : Z :=
  sumf (fun x => if p x then 1 else 0) l.

Lemma sumf_app {A} (f : A -> Z) l1 l2 :
  sumf f (l1 ++ l2) = sumf f l1 + sumf f l2.
Proof. induction l1 as [| x l1 IH]; cbn [sumf app]; [| rewrite IH]; lia. Qed.

Lemma sumf_ext {A} (f g : A -> Z) l :
  (forall x, In x l -> f x = g x) -> sumf f l = sumf g l.
Proof.
  induction l as [| x l IH]; intros H; cbn [sumf]; [reflexivity |].
  rewrite H, IH; [reflexivity | | left; reflexivity].
  intros y Hy. apply H. right. exact Hy.
Qed.

Lemma sumf_perm {A} (f : A -> Z) l1 l2 :
  Permutation l1 l2 -> sumf f l1 = sumf f l2.
Proof. induction 1; cbn [sumf]; lia. Qed.

Lemma sumf_map {A B} (f : B -> Z) (g : A -> B) l :
  sumf f (map g l) = sumf (fun x => f (g x)) l.
Proof. induction l as [| x l IH]; cbn [sumf map]; [| rewrite IH]; reflexivity. Qed.

Lemma sumf_plus {A} (f g : A -> Z) l :
  sumf (fun x => f x + g x) l = sumf f l + sumf g l.
Proof. induction l as [| x l IH]; cbn [sumf]; [| rewrite IH]; lia. Qed.

Lemma sumf_scale {A} c (f : A -> Z) l :
  sumf (fun x => c * f x) l = c * sumf f l.
Proof. induction l as [| x l IH]; cbn [sumf]; [| rewrite IH]; lia. Qed.

Lemma sumf_nonneg {A} (f : A -> Z) l :
  (forall x, In x l -> 0 <= f x) -> 0 <= sumf f l.
Proof.
  induction l as [| x l IH]; intros H; cbn [sumf]; [lia |].
  assert (0 <= f x) by (apply H; left; reflexivity).
  assert (0 <= sumf f l) by (apply IH; intros y Hy; apply H; right; exact Hy).
  lia.
Qed.

Lemma sumf_zero {A} (f : A -> Z) l :
  (forall x, In x l -> f x = 0) -> sumf f l = 0.
Proof.
  intros H. rewrite (sumf_ext f (fun _ => 0)) by exact H.
  clear. induction l as [| x l IH]; cbn [sumf]; lia.
Qed.

Lemma sumf_le {A} (f g : A -> Z) l :
  (forall x, In x l -> f x <= g x) -> sumf f l <= sumf g l.
Proof.
  induction l as [| x l IH]; intros H; cbn [sumf]; [lia |].
  assert (f x <= g x) by (apply H; left; reflexivity).
  assert (sumf f l <= sumf g l)
    by (apply IH; intros y Hy; apply H; right; exact Hy).
  lia.
Qed.

Lemma sumf_const {A} c (l : list A) :
  sumf (fun _ => c) l = c * Z.of_nat (length l).
Proof. induction l as [| x l IH]; cbn [sumf length]; [| rewrite IH]; lia. Qed.

Lemma sumf_In_le {A} (f : A -> Z) l x :
  (forall y, In y l -> 0 <= f y) -> In x l -> f x <= sumf f l.
Proof.
  induction l as [| y l IH]; intros H Hx; [contradiction |].
  cbn [sumf].
  assert (0 <= f y) by (apply H; left; reflexivity).
  assert (0 <= sumf f l)
    by (apply sumf_nonneg; intros z Hz; apply H; right; exact Hz).
  destruct Hx as [-> | Hx]; [lia |].
  assert (f x <= sumf f l)
    by (apply IH; [intros z Hz; apply H; right; exact Hz | exact Hx]).
  lia.
Qed.

Lemma countf_app {A} (p : A -> bool) l1 l2 :
  countf p (l1 ++ l2) = countf p l1 + countf p l2.
Proof. apply sumf_app. Qed.

Lemma countf_perm {A} (p : A -> bool) l1 l2 :
  Permutation l1 l2 -> countf p l1 = countf p l2.
Proof. apply sumf_perm. Qed.

Lemma countf_nonneg {A} (p : A -> bool) l : 0 <= countf p l.
Proof. apply sumf_nonneg. intros x _. destruct (p x); lia. Qed.

Lemma countf_le_length {A} (p : A -> bool) l :
  countf p l <= Z.of_nat (length l).
Proof.
  unfold countf. induction l as [| x l IH]; cbn [sumf length]; [lia |].
  destruct (p x); lia.
Qed.

Lemma countf_filter {A} (p : A -> bool) l :
  countf p l = Z.of_nat (length (filter p l)).
Proof.
  unfold countf. induction l as [| x l IH]; cbn [sumf filter]; [reflexivity |].
  destruct (p x); cbn [length]; lia.
Qed.

Lemma countf_ext {A} (p q : A -> bool) l :
  (forall x, In x l -> p x = q x) -> countf p l = countf q l.
Proof.
  intros H. apply sumf_ext. intros x Hx. rewrite H by exact Hx. reflexivity.
Qed.

(** A sum over the values of a function, sorted by value: [f] takes its
    values on [l] among [lo .. lo+n-1]. *)
Lemma sumf_by_value {A} (f : A -> Z) (w : Z -> Z) (l : list A) lo n :
  (forall x, In x l -> lo <= f x < lo + Z.of_nat n) ->
  sumf (fun x => w (f x)) l
  = sumf (fun b => countf (fun x => f x =? b) l * w b) (Zseq lo n).
Proof.
  induction l as [| x l IH]; intros H.
  - cbn [sumf]. symmetry. apply sumf_zero. intros b _. reflexivity.
  - cbn [sumf]. rewrite IH by (intros y Hy; apply H; right; exact Hy).
    unfold countf. cbn [sumf].
    rewrite (sumf_ext
               (fun b => ((if f x =? b then 1 else 0)
                          + sumf (fun x0 => if f x0 =? b then 1 else 0) l)
                         * w b)
               (fun b => (if f x =? b then w b else 0)
                         + sumf (fun x0 => if f x0 =? b then 1 else 0) l
                           * w b))
      by (intros b _; destruct (f x =? b); lia).
    rewrite sumf_plus. f_equal.
    assert (Hx : lo <= f x < lo + Z.of_nat n) by (apply H; left; reflexivity).
    clear - Hx. revert lo Hx.
    induction n as [| n IHn]; intros lo Hx; [lia |].
    cbn [Zseq sumf]. destruct (Z.eqb_spec (f x) lo) as [E | E].
    + rewrite sumf_zero; [rewrite E; lia |].
      intros b Hb. apply In_Zseq in Hb.
      destruct (Z.eqb_spec (f x) b); [lia | reflexivity].
    + rewrite <- IHn by lia. lia.
Qed.

(** A sum over a list without repetition equals the sum over any larger
    one where the function is zero outside. *)
Lemma sumf_incl (f : Z -> Z) l u :
  NoDup l -> NoDup u -> incl l u ->
  (forall x, In x u -> ~ In x l -> f x = 0) ->
  sumf f u = sumf f l.
Proof.
  revert u. induction l as [| x l IH]; intros u Hl Hu Hi Hz.
  - cbn [sumf]. apply sumf_zero. intros y Hy. apply Hz; [exact Hy | intros []].
  - assert (Hx : In x u) by (apply Hi; left; reflexivity).
    destruct (in_split _ _ Hx) as (u1 & u2 & ->).
    rewrite (sumf_perm f (u1 ++ x :: u2) (x :: u1 ++ u2))
      by (symmetry; apply Permutation_middle).
    cbn [sumf]. f_equal.
    inversion Hl as [| ? ? Hnx Hl']; subst.
    apply NoDup_remove in Hu. destruct Hu as [Hu Hnu].
    apply IH; [exact Hl' | exact Hu | |].
    + intros y Hy.
      assert (Hy' : In y (u1 ++ x :: u2)) by (apply Hi; right; exact Hy).
      apply in_app_or in Hy'. apply in_or_app.
      destruct Hy' as [Hy' | [-> | Hy']]; [left; exact Hy' | | right; exact Hy'].
      contradiction.
    + intros y Hy Hny. apply Hz.
      * apply in_app_or in Hy. apply in_or_app.
        destruct Hy as [Hy | Hy]; [left; exact Hy | right; right; exact Hy].
      * intros [-> | Hy']; [| contradiction].
        apply Hnu. exact Hy.
Qed.

(** A sum over indices after one entry of the array is written. *)
Lemma sumf_upd (a w : Z -> Z) i v l :
  NoDup l -> In i l ->
  sumf (fun b => upd a i v b * w b) l
  = sumf (fun b => a b * w b) l + (v - a i) * w i.
Proof.
  induction l as [| x l IH]; intros Hnd Hi; [contradiction |].
  inversion Hnd as [| ? ? Hnx Hnd']; subst. cbn [sumf].
  destruct Hi as [-> | Hi].
  - rewrite upd_same.
    rewrite (sumf_ext (fun b => upd a i v b * w b) (fun b => a b * w b)).
    + lia.
    + intros y Hy. rewrite upd_other; [reflexivity |].
      intros ->. contradiction.
  - rewrite IH by assumption. rewrite upd_other; [lia |].
    intros ->. contradiction.
Qed.

Lemma sumf_upd_out (a w : Z -> Z) i v l :
  ~ In i l ->
  sumf (fun b => upd a i v b * w b) l = sumf (fun b => a b * w b) l.
Proof.
  intros Hi. apply sumf_ext. intros y Hy. rewrite upd_other; [reflexivity |].
  intros ->. contradiction.
Qed.

Lemma NoDup_app_disjoint {A} (l1 l2 : list A) x :
  NoDup (l1 ++ l2) -> In x l1 -> In x l2 -> False.
Proof.
  induction l1 as [| y l1 IH]; intros Hnd H1 H2; [contradiction |].
  cbn [app] in Hnd. inversion Hnd as [| ? ? Hny Hnd']; subst.
  destruct H1 as [-> | H1].
  - apply Hny. apply in_or_app. right. exact H2.
  - apply IH; assumption.
Qed.

(** *** The heap *)

(** The entries [lo .. lo+n-1] of an array. *)
Definition zone {A} (h : Z -> A) (lo : Z) (n : nat) : list A :=
  map h (Zseq lo n).

Lemma zone_ext {A} (h h' : Z -> A) lo n :
  (forall i, lo <= i < lo + Z.of_nat n -> h' i = h i) ->
  zone h' lo n = zone h lo n.
Proof.
  intros H. apply map_ext_in. intros i Hi. apply In_Zseq in Hi. apply H.
  exact Hi.
Qed.

Lemma zone_upd_out {A} (h : Z -> A) i v lo n :
  ~ lo <= i < lo + Z.of_nat n -> zone (upd h i v) lo n = zone h lo n.
Proof.
  intros H. apply zone_ext. intros j Hj. apply upd_other. lia.
Qed.

Lemma zone_cons {A} (h : Z -> A) lo n :
  zone h lo (S n) = h lo :: zone h (lo + 1) n.
Proof. reflexivity. Qed.

Lemma zone_snoc {A} (h : Z -> A) lo n :
  zone h lo (S n) = zone h lo n ++ [h (lo + Z.of_nat n)].
Proof. unfold zone. rewrite Zseq_snoc, map_app. reflexivity. Qed.

Lemma length_zone {A} (h : Z -> A) lo n : length (zone h lo n) = n.
Proof. unfold zone. rewrite length_map. apply length_Zseq. Qed.

(** The exchange of two indices. *)
Definition tr (i j x : Z) : Z :=
  if x =? i then j else if x =? j then i else x.

Lemma tr_tr i j x : tr i j (tr i j x) = x.
Proof.
  unfold tr.
  destruct (Z.eqb_spec x i); destruct (Z.eqb_spec x j);
    repeat (match goal with
            | |- context [?a =? ?b] => destruct (Z.eqb_spec a b)
            end); lia.
Qed.

Lemma zone_tr (h : Z -> Z) i j lo n :
  lo <= i < lo + Z.of_nat n -> lo <= j < lo + Z.of_nat n ->
  Permutation (zone (fun x => h (tr i j x)) lo n) (zone h lo n).
Proof.
  intros Hi Hj. unfold zone.
  rewrite <- (map_map (tr i j) h). apply Permutation_map.
  assert (Hin : forall x, In x (Zseq lo n) -> In (tr i j x) (Zseq lo n)).
  { intros x Hx. apply In_Zseq in Hx. apply In_Zseq. unfold tr.
    destruct (x =? i); [lia |]. destruct (x =? j); lia. }
  apply NoDup_Permutation.
  - apply Finite.Injective_map_NoDup; [| apply NoDup_Zseq].
    intros x y E. rewrite <- (tr_tr i j x), <- (tr_tr i j y), E. reflexivity.
  - apply NoDup_Zseq.
  - intros x. split.
    + intros Hx. apply in_map_iff in Hx. destruct Hx as (y & <- & Hy).
      apply Hin. exact Hy.
    + intros Hx. apply in_map_iff. exists (tr i j x).
      split; [apply tr_tr | apply Hin; exact Hx].
Qed.

(** All of a state but its heap. *)
Definition unheap (s : deflate_state) : deflate_state :=
  set_heap s (fun _ => 0).

(** [pqdownheap] moves the entries of the heap [1 .. heap_len] among
    themselves and touches nothing else; it ends within [heap_len] rounds. *)
Lemma pqdownheap_loop_spec tree v :
  forall fuel s k j,
    1 <= k <= heap_len s -> k < j ->
    (1 <= fuel)%nat -> heap_len s + 2 <= Z.of_nat fuel + j ->
    exists s' k',
      pqdownheap_loop fuel s tree v k j = Some (s', k')
      /\ unheap s' = unheap s
      /\ 1 <= k' <= heap_len s
      /\ Permutation
           (zone (upd (heap s') k' v) 1 (Z.to_nat (heap_len s)))
           (zone (upd (heap s) k v) 1 (Z.to_nat (heap_len s)))
      /\ forall i, ~ 1 <= i <= heap_len s -> heap s' i = heap s i.
Proof.
  induction fuel as [| fuel IH]; intros s k j Hk Hj Hf1 Hf; [lia |].
  cbn [pqdownheap_loop].
  destruct (Z.leb_spec j (heap_len s)) as [Hjl | Hjl].
  - set (j' := if (j <? heap_len s)
                  && smaller tree (heap s (j + 1)) (heap s j) (depth s)
               then j + 1 else j).
    assert (Hj' : j <= j' <= heap_len s).
    { unfold j'. destruct (Z.ltb_spec j (heap_len s)); cbn [andb]; [| lia].
      destruct (smaller _ _ _ _); lia. }
    destruct (smaller tree v (heap s j') (depth s)).
    + exists s, k. repeat split; try reflexivity; try lia.
    + destruct (IH (set_heap s (upd (heap s) k (heap s j'))) j'
                  (Z.shiftl j' 1)) as (s' & k' & E & Hu & Hk' & Hp & Ho).
      * fields. lia.
      * rewrite Z.shiftl_mul_pow2 by lia. change (2 ^ 1) with 2. lia.
      * destruct fuel; [| lia]. lia.
      * fields. rewrite Z.shiftl_mul_pow2 by lia. change (2 ^ 1) with 2. lia.
      * exists s', k'. fields_in E. fields_in Hk'. fields_in Hp. fields_in Ho.
        split; [exact E |]. split; [exact Hu |]. split; [exact Hk' |].
        split.
        -- rewrite Hp.
           rewrite (zone_ext (fun x => upd (heap s) k v (tr k j' x))
                      (upd (upd (heap s) k (heap s j')) j' v)).
           ++ apply zone_tr; lia.
           ++ intros i Hi. unfold upd, tr.
              destruct (Z.eqb_spec i j'); destruct (Z.eqb_spec i k);
                repeat (match goal with
                        | |- context [?a =? ?b] => destruct (Z.eqb_spec a b)
                        end); try lia; reflexivity.
        -- intros i Hi. rewrite Ho by (fields; exact Hi). fields.
           apply upd_other. lia.
  - exists s, k. repeat split; try reflexivity; try lia.
Qed.

Lemma pqdownheap_spec fuel s tree k :
  1 <= k <= heap_len s -> (Z.to_nat (heap_len s) + 1 <= fuel)%nat ->
  exists s',
    pqdownheap fuel s tree k = Some s'
    /\ unheap s' = unheap s
    /\ Permutation (zone (heap s') 1 (Z.to_nat (heap_len s)))
                   (zone (heap s) 1 (Z.to_nat (heap_len s)))
    /\ forall i, ~ 1 <= i <= heap_len s -> heap s' i = heap s i.
Proof.
  intros Hk Hf. unfold pqdownheap.
  destruct (pqdownheap_loop_spec tree (heap s k) fuel s k (Z.shiftl k 1))
    as (s' & k' & E & Hu & Hk' & Hp & Ho).
  - exact Hk.
  - rewrite Z.shiftl_mul_pow2 by lia. change (2 ^ 1) with 2. lia.
  - lia.
  - rewrite Z.shiftl_mul_pow2 by lia. change (2 ^ 1) with 2. lia.
  - rewrite E. eexists. split; [reflexivity |].
    split; [| split].
    + rewrite <- Hu. reflexivity.
    + fields. rewrite Hp. apply Permutation_refl'.
      apply zone_ext. intros i Hi. unfold upd.
      destruct (Z.eqb_spec i k) as [-> | ?]; reflexivity.
    + intros i Hi. fields. rewrite upd_other by lia. apply Ho. exact Hi.
Qed.
(** *** build_tree: the leaves *)

(** What [build_tree] on [desc] leaves alone: the output, the symbol
    buffer, the settings and the two other trees. *)
Definition others (desc : tree_desc) (s : deflate_state) :=
  (data_type s, pending_buf s, level s, strategy s,
   match desc with
   | L_DESC => (dyn_dtree s, bl_tree s, d_max_code s, bl_max_code s)
   | D_DESC => (dyn_ltree s, bl_tree s, l_max_code s, bl_max_code s)
   | BL_DESC => (dyn_ltree s, dyn_dtree s, l_max_code s, d_max_code s)
   end,
   (sym_buf s, sym_next s, sym_end s, matches s, bi_buf s, bi_valid s)).

Ltac trees :=
  cbn [dyn_tree set_dyn_tree max_code set_max_code stat_desc others]; fields.

Ltac trees_all :=
  cbn [dyn_tree set_dyn_tree max_code set_max_code stat_desc others] in *;
  fields_all.

Ltac trees_in H :=
  cbn [dyn_tree set_dyn_tree max_code set_max_code stat_desc others] in H;
  fields_in H.

Lemma unheap_others desc s s' :
  unheap s' = unheap s -> others desc s' = others desc s.
Proof. intros H. exact (f_equal (others desc) H). Qed.

Lemma unheap_heap_len s s' : unheap s' = unheap s -> heap_len s' = heap_len s.
Proof. intros H. exact (f_equal heap_len H). Qed.

Lemma unheap_heap_max s s' : unheap s' = unheap s -> heap_max s' = heap_max s.
Proof. intros H. exact (f_equal heap_max H). Qed.

Lemma unheap_dyn_tree desc s s' :
  unheap s' = unheap s -> dyn_tree s' desc = dyn_tree s desc.
Proof. intros H. exact (f_equal (fun s => dyn_tree s desc) H). Qed.

Lemma unheap_max_code desc s s' :
  unheap s' = unheap s -> max_code s' desc = max_code s desc.
Proof. intros H. exact (f_equal (fun s => max_code s desc) H). Qed.

Lemma elems_range desc : 3 <= elems (stat_desc desc) <= 286.
Proof. destruct desc; vm_compute; split; discriminate. Qed.

Lemma max_length_range desc :
  7 <= max_length (stat_desc desc) <= MAX_BITS
  /\ elems (stat_desc desc) < 2 ^ max_length (stat_desc desc).
Proof. destruct desc; vm_compute; repeat split; discriminate. Qed.

(** The symbols of [0 .. j-1] with a frequency, in ascending order. *)
Definition used (tree : Z -> ct_data) (j : nat) : list Z :=
  filter (fun n => negb (Freq (tree n) =? 0)) (Zseq 0 j).

Lemma used_S tree j :
  used tree (S j)
  = used tree j
    ++ (if negb (Freq (tree (Z.of_nat j)) =? 0) then [Z.of_nat j] else []).
Proof.
  unfold used. rewrite Zseq_snoc, filter_app. cbn [filter]. rewrite Z.add_0_l.
  destruct (negb _); reflexivity.
Qed.

Lemma In_used tree j x :
  In x (used tree j) <-> 0 <= x < Z.of_nat j /\ Freq (tree x) <> 0.
Proof.
  unfold used. rewrite filter_In, In_Zseq.
  destruct (Z.eqb_spec (Freq (tree x)) 0); cbn [negb];
    intuition (try lia; try discriminate).
Qed.

Lemma NoDup_used tree j : NoDup (used tree j).
Proof. apply NoDup_filter, NoDup_Zseq. Qed.

(** The first loop of [build_tree]. *)
Lemma build_tree_collect_spec desc s j :
  heap_len s = 0 ->
  let tree0 := dyn_tree s desc in
  let r := for_up j 0 (build_tree_collect desc) (s, -1) in
  others desc (fst r) = others desc s
  /\ heap_max (fst r) = heap_max s
  /\ heap_len (fst r) = Z.of_nat (length (used tree0 j))
  /\ zone (heap (fst r)) 1 (length (used tree0 j)) = used tree0 j
  /\ (forall n, fc (dyn_tree (fst r) desc n) = fc (tree0 n))
  /\ (forall n, 0 <= n < Z.of_nat j -> Freq (tree0 n) = 0 ->
        dl (dyn_tree (fst r) desc n) = 0)
  /\ (forall n, ~ 0 <= n < Z.of_nat j ->
        dl (dyn_tree (fst r) desc n) = dl (tree0 n))
  /\ ((used tree0 j = [] /\ snd r = -1) \/ In (snd r) (used tree0 j))
  /\ (forall x, In x (used tree0 j) -> x <= snd r).
Proof.
  intros Hl0. cbv zeta. induction j as [| j IH].
  - cbn [for_up fst snd used filter Zseq length zone map].
    repeat split; try reflexivity; try tauto; try lia.
    intros x [].
  - rewrite for_up_S_end.
    destruct (for_up j 0 (build_tree_collect desc) (s, -1))
      as [s1 mc] eqn:E1.
    cbn [fst snd] in IH. destruct IH as (Ho & Hm & Hl & Hz & Hf & Hd & Hd' & Hmc & Hle).
    rewrite Z.add_0_l. unfold build_tree_collect.
    replace (Freq (dyn_tree s1 desc (Z.of_nat j)))
      with (Freq (dyn_tree s desc (Z.of_nat j))) by (unfold Freq; rewrite Hf; reflexivity).
    rewrite used_S.
    destruct (Z.eqb_spec (Freq (dyn_tree s desc (Z.of_nat j))) 0) as [E0 | E0];
      cbn [negb fst snd].
    + rewrite app_nil_r.
      split; [destruct desc; trees_all; exact Ho |].
      split; [destruct desc; trees_all; exact Hm |].
      split; [destruct desc; trees_all; exact Hl |].
      split; [destruct desc; trees_all; exact Hz |].
      split.
      { intros n. destruct desc; trees_all;
          (destruct (Z.eq_dec n (Z.of_nat j)) as [-> | Hne];
           [rewrite upd_same; unfold set_Len; cbn [fc]; apply Hf
           | rewrite upd_other by assumption; apply Hf]). }
      split.
      { intros n Hn Hfr. destruct desc; trees_all;
          (destruct (Z.eq_dec n (Z.of_nat j)) as [-> | Hne];
           [rewrite upd_same; reflexivity
           | rewrite upd_other by assumption; apply Hd; [lia | exact Hfr]]). }
      split.
      { intros n Hn. destruct desc; trees_all;
          (rewrite upd_other by lia; apply Hd'; lia). }
      split; [exact Hmc | exact Hle].
    + rewrite length_app. cbn [length].
      replace (length (used (dyn_tree s desc) j) + 1)%nat
        with (S (length (used (dyn_tree s desc) j))) by lia.
      split; [destruct desc; trees_all; exact Ho |].
      split; [destruct desc; trees_all; exact Hm |].
      split; [destruct desc; trees_all; rewrite Hl; lia |].
      split.
      { rewrite zone_snoc. f_equal.
        - rewrite <- Hz at 2. apply zone_ext. intros i Hi.
          destruct desc; trees_all; rewrite upd_other by lia; reflexivity.
        - destruct desc; trees_all; rewrite Hl;
            match goal with
            | |- [upd _ ?a _ ?b] = _ => replace b with a by lia
            end; rewrite upd_same; reflexivity. }
      split; [intros n; destruct desc; trees_all; apply Hf |].
      split; [intros n Hn Hfr; destruct desc; trees_all;
              (apply Hd;
               [destruct (Z.eq_dec n (Z.of_nat j)) as [-> | ?];
                [contradiction | lia] | exact Hfr]) |].
      split; [intros n Hn; destruct desc; trees_all; apply Hd'; lia |].
      split.
      { right. apply in_or_app. right. left. reflexivity. }
      { intros x Hx. apply in_app_or in Hx. destruct Hx as [Hx | [<- | []]].
        - apply In_used in Hx. lia.
        - lia. }
Qed.

(** One round of [while (s->heap_len < 2)]. *)
Definition force_round (desc : tree_desc) (s : deflate_state) (max_code : Z)
  : deflate_state * Z :=
  let tree := dyn_tree s desc in
  let stree := static_tree (stat_desc desc) in
  let max_code' := if max_code <? 2 then max_code + 1 else max_code in
  let node := if max_code <? 2 then max_code + 1 else 0 in
  let s := set_heap_len s (heap_len s + 1) in
  let s := set_heap s (upd (heap s) (heap_len s) node) in
  let s := set_dyn_tree s desc (upd tree node (set_Freq (tree node) 1)) in
  let s := set_depth s (upd (depth s) node 0) in
  let s := set_opt_len s (ulg (opt_len s - 1)) in
  let s :=
    match stree with
    | Some stree => set_static_len s (ulg (static_len s - Len (stree node)))
    | None => s
    end in
  (s, max_code').

Lemma build_tree_force_S rounds desc s mc :
  build_tree_force (S rounds) desc (s, mc)
  = if heap_len s <? 2 then build_tree_force rounds desc (force_round desc s mc)
    else (s, mc).
Proof.
  cbn [build_tree_force]. unfold force_round.
  destruct (heap_len s <? 2); [| reflexivity].
  destruct (mc <? 2); reflexivity.
Qed.

(** The heap holds the list [F] of distinct symbols, [mc] being the
    largest of them, or -1 for none. *)
Definition leaves_ok (s : deflate_state) (mc : Z) (F : list Z) : Prop :=
  heap_len s = Z.of_nat (length F)
  /\ zone (heap s) 1 (length F) = F
  /\ NoDup F
  /\ (forall x, In x F -> 0 <= x <= mc)
  /\ ((F = [] /\ mc = -1) \/ In mc F).

Lemma force_round_spec desc s mc F :
  leaves_ok s mc F -> (length F < 2)%nat ->
  let r := force_round desc s mc in
  exists node,
    leaves_ok (fst r) (snd r) (F ++ [node])
    /\ snd r <= Z.max mc 2 /\ mc <= snd r
    /\ (forall n, dl (dyn_tree (fst r) desc n) = dl (dyn_tree s desc n))
    /\ heap_max (fst r) = heap_max s
    /\ others desc (fst r) = others desc s.
Proof.
  intros (Hl & Hz & Hnd & Hr & Hmc) Hlt. cbv zeta.
  assert (Hmc1 : -1 <= mc).
  { destruct Hmc as [[_ ->] | Hin]; [lia |]. apply Hr in Hin. lia. }
  exists (if mc <? 2 then mc + 1 else 0).
  unfold force_round. set (node := if mc <? 2 then mc + 1 else 0).
  set (mc' := if mc <? 2 then mc + 1 else mc).
  assert (Hnode : 0 <= node <= mc' /\ mc <= mc' /\ mc' <= Z.max mc 2)
    by (unfold node, mc'; destruct (Z.ltb_spec mc 2); lia).
  assert (Hnin : ~ In node F).
  { intros Hin. unfold node in Hin. destruct (Z.ltb_spec mc 2) as [H2 | H2].
    - apply Hr in Hin. lia.
    - destruct Hmc as [[_ ->] | Hin']; [lia |].
      destruct F as [| a [| b F']]; cbn [length] in Hlt; try lia.
      + contradiction.
      + destruct Hin as [Ha | []]. destruct Hin' as [Ha' | []]. lia. }
  split; [| split; [| split; [| split; [| split]]]].
  - unfold leaves_ok. cbn [fst snd]. rewrite length_app. cbn [length].
    replace (length F + 1)%nat with (S (length F)) by lia.
    split; [| split; [| split; [| split]]].
    + destruct desc; destruct (static_tree _); trees_all; lia.
    + rewrite zone_snoc. f_equal.
      * rewrite <- Hz at 2. apply zone_ext. intros i Hi.
        destruct desc; destruct (static_tree _); trees_all;
          rewrite upd_other by lia; reflexivity.
      * destruct desc; destruct (static_tree _); trees_all; rewrite Hl;
          match goal with
          | |- [upd _ ?a _ ?b] = _ => replace b with a by lia
          end; rewrite upd_same; reflexivity.
    + apply NoDup_app; [exact Hnd | repeat constructor; intros [] |].
      intros x Hx [<- | []]. contradiction.
    + intros x Hx. apply in_app_or in Hx. destruct Hx as [Hx | [<- | []]].
      * apply Hr in Hx. lia.
      * lia.
    + right. apply in_or_app. unfold mc', node in *.
      destruct (Z.ltb_spec mc 2).
      * right. left. reflexivity.
      * left. destruct Hmc as [[_ ->] | Hin]; [lia | exact Hin].
  - cbn [snd]. lia.
  - cbn [snd]. lia.
  - intros n. cbn [fst].
    destruct desc; destruct (static_tree _); trees_all;
      (destruct (Z.eq_dec n node) as [-> | Hne];
       [rewrite upd_same; reflexivity
       | rewrite upd_other by assumption; reflexivity]).
  - cbn [fst]. destruct desc; destruct (static_tree _); reflexivity.
  - cbn [fst]. destruct desc; destruct (static_tree _); reflexivity.
Qed.

Lemma build_tree_force_spec desc s mc F :
  leaves_ok s mc F ->
  let r := build_tree_force 2 desc (s, mc) in
  exists L0,
    leaves_ok (fst r) (snd r) L0 /\ (2 <= length L0)%nat /\ incl F L0
    /\ snd r <= Z.max mc 2 /\ mc <= snd r
    /\ (forall n, dl (dyn_tree (fst r) desc n) = dl (dyn_tree s desc n))
    /\ heap_max (fst r) = heap_max s
    /\ others desc (fst r) = others desc s.
Proof.
  intros H. cbv zeta.
  assert (Hstop : forall rounds s mc F,
            leaves_ok s mc F -> (2 <= length F)%nat ->
            build_tree_force rounds desc (s, mc) = (s, mc)).
  { intros rounds s0 mc0 F0 (Hl0 & _) H2. destruct rounds; [reflexivity |].
    rewrite build_tree_force_S.
    destruct (Z.ltb_spec (heap_len s0) 2); [lia | reflexivity]. }
  rewrite build_tree_force_S.
  destruct (Z.ltb_spec (heap_len s) 2) as [Hlt | Hge].
  - destruct (force_round_spec desc s mc F H) as (n1 & H1 & Hm1 & Hm1' & Hd1 & Hx1 & Ho1).
    { destruct H as (Hl & _). lia. }
    destruct (force_round desc s mc) as [s1 mc1]. cbn [fst snd] in *.
    rewrite build_tree_force_S.
    destruct (Z.ltb_spec (heap_len s1) 2) as [Hlt1 | Hge1].
    + destruct (force_round_spec desc s1 mc1 (F ++ [n1]) H1)
        as (n2 & H2 & Hm2 & Hm2' & Hd2 & Hx2 & Ho2).
      { destruct H1 as (Hl1 & _). lia. }
      destruct (force_round desc s1 mc1) as [s2 mc2]. cbn [fst snd] in *.
      exists ((F ++ [n1]) ++ [n2]). cbn [build_tree_force fst snd].
      split; [exact H2 |].
      split; [rewrite !length_app; cbn [length]; lia |].
      split; [intros x Hx; apply in_or_app; left; apply in_or_app; left;
              exact Hx |].
      split; [lia |]. split; [lia |].
      split; [intros n; rewrite Hd2; apply Hd1 |].
      split; [congruence | congruence].
    + exists (F ++ [n1]). cbn [fst snd].
      split; [exact H1 |].
      split; [destruct H1 as (Hl1 & _); lia |].
      split; [intros x Hx; apply in_or_app; left; exact Hx |].
      split; [lia |]. split; [lia |].
      split; [exact Hd1 |]. split; assumption.
  - exists F. cbn [fst snd].
    split; [exact H |].
    split; [destruct H as (Hl & _); lia |].
    split; [apply incl_refl |].
    split; [lia |]. split; [lia |].
    repeat split; reflexivity.
Qed.

(** The leaves of the tree, as the first two loops of [build_tree] put
    them in the heap. *)
Lemma build_tree_leaves desc s :
  let E := elems (stat_desc desc) in
  let s0 := set_heap_max (set_heap_len s 0) HEAP_SIZE in
  let r :=
    build_tree_force 2 desc
      (for_up (Z.to_nat E) 0 (build_tree_collect desc) (s0, -1)) in
  exists L0,
    leaves_ok (fst r) (snd r) L0 /\ (2 <= length L0)%nat
    /\ snd r < E
    /\ (forall n, 0 <= n < E -> Freq (dyn_tree s desc n) <> 0 -> In n L0)
    /\ (forall n, 0 <= n < E -> ~ In n L0 ->
          dl (dyn_tree (fst r) desc n) = 0)
    /\ heap_max (fst r) = HEAP_SIZE
    /\ others desc (fst r) = others desc s.
Proof.
  cbv zeta. pose proof (elems_range desc) as HE.
  set (E := elems (stat_desc desc)) in *.
  set (s0 := set_heap_max (set_heap_len s 0) HEAP_SIZE).
  assert (T0 : dyn_tree s0 desc = dyn_tree s desc) by (destruct desc; reflexivity).
  destruct (build_tree_collect_spec desc s0 (Z.to_nat E) eq_refl)
    as (Ho & Hm & Hl & Hz & Hf & Hd & Hd' & Hmc & Hle).
  rewrite T0 in *.
  destruct (for_up (Z.to_nat E) 0 (build_tree_collect desc) (s0, -1))
    as [s1 mc1]. cbn [fst snd] in *.
  set (F := used (dyn_tree s desc) (Z.to_nat E)) in *.
  assert (HF : leaves_ok s1 mc1 F).
  { split; [exact Hl |]. split; [exact Hz |].
    split; [apply NoDup_used |]. split; [| exact Hmc].
    intros x Hx. split; [| apply Hle; exact Hx].
    apply In_used in Hx. lia. }
  assert (Hmc1 : mc1 < E).
  { destruct Hmc as [[_ ->] | Hin]; [lia |]. apply In_used in Hin. lia. }
  destruct (build_tree_force_spec desc s1 mc1 F HF)
    as (L0 & HL & H2 & Hi & Hm2 & Hm2' & Hd2 & Hx2 & Ho2).
  destruct (build_tree_force 2 desc (s1, mc1)) as [s2 mc2].
  cbn [fst snd] in *. exists L0.
  split; [exact HL |]. split; [exact H2 |]. split; [lia |].
  split.
  { intros n Hn Hfr. apply Hi. apply In_used. split; [lia | exact Hfr]. }
  split.
  { intros n Hn Hnin. rewrite Hd2. apply Hd; [lia |].
    destruct (Z.eq_dec (Freq (dyn_tree s desc n)) 0) as [E0 | E0];
      [exact E0 |].
    exfalso. apply Hnin, Hi. apply In_used. split; [lia | exact E0]. }
  split; [rewrite Hx2, Hm; reflexivity |].
  rewrite Ho2, Ho. destruct desc; reflexivity.
Qed.
(** *** build_tree: the heap and the joins *)

Lemma build_tree_heapify_rounds fuel desc :
  forall rounds n s,
    Z.of_nat rounds <= n <= heap_len s ->
    (Z.to_nat (heap_len s) + 1 <= fuel)%nat ->
    exists s',
      for_down_opt rounds n
        (fun n s => pqdownheap fuel s (dyn_tree s desc) n) s = Some s'
      /\ unheap s' = unheap s
      /\ Permutation (zone (heap s') 1 (Z.to_nat (heap_len s)))
                     (zone (heap s) 1 (Z.to_nat (heap_len s)))
      /\ forall i, ~ 1 <= i <= heap_len s -> heap s' i = heap s i.
Proof.
  induction rounds as [| rounds IH]; intros n s Hn Hf.
  - exists s. cbn [for_down_opt]. repeat split; reflexivity.
  - cbn [for_down_opt].
    destruct (pqdownheap_spec fuel s (dyn_tree s desc) n) as (s1 & E1 & Hu1 & Hp1 & Ho1);
      [lia | exact Hf |].
    rewrite E1.
    pose proof (unheap_heap_len _ _ Hu1) as Hl1.
    destruct (IH (n - 1) s1) as (s2 & E2 & Hu2 & Hp2 & Ho2);
      [lia | rewrite Hl1; exact Hf |].
    exists s2. split; [exact E2 |].
    split; [rewrite Hu2; exact Hu1 |].
    rewrite Hl1 in Hp2, Ho2.
    split; [rewrite Hp2; exact Hp1 |].
    intros i Hi. rewrite Ho2, Ho1 by exact Hi. reflexivity.
Qed.

Lemma build_tree_heapify_spec fuel s desc :
  0 <= heap_len s -> (Z.to_nat (heap_len s) + 1 <= fuel)%nat ->
  exists s',
    build_tree_heapify fuel s desc = Some s'
    /\ unheap s' = unheap s
    /\ Permutation (zone (heap s') 1 (Z.to_nat (heap_len s)))
                   (zone (heap s) 1 (Z.to_nat (heap_len s)))
    /\ forall i, ~ 1 <= i <= heap_len s -> heap s' i = heap s i.
Proof.
  intros H0 Hf. unfold build_tree_heapify.
  apply build_tree_heapify_rounds; [| exact Hf].
  assert (0 <= heap_len s / 2) by (apply Z.div_pos; lia).
  assert (heap_len s / 2 <= heap_len s)
    by (apply Z.div_le_upper_bound; lia).
  lia.
Qed.

(** The fathers of the nodes [E+j-1, ..., E], each twice: the sons of a
    node are put side by side in the sorted part of the heap. *)
Fixpoint dbl_desc (E : Z) (j : nat) : list Z :=
  match j with
  | O => []
  | S j' => (E + Z.of_nat j') :: (E + Z.of_nat j') :: dbl_desc E j'
  end.

(** Going through [S], the father of each node is in [H] or was met
    before. *)
Inductive dads_ok (dad : Z -> Z) : list Z -> list Z -> Prop :=
| dads_nil : forall H, dads_ok dad H []
| dads_cons : forall H x S,
    In (dad x) H -> dads_ok dad (x :: H) S -> dads_ok dad H (x :: S).

Lemma dads_ok_incl dad H S :
  dads_ok dad H S -> forall H', incl H H' -> dads_ok dad H' S.
Proof.
  induction 1 as [H | H x S Hin Hok IH]; intros H' Hi.
  - constructor.
  - constructor; [apply Hi; exact Hin |].
    apply IH. intros y [<- | Hy]; [left; reflexivity | right; apply Hi; exact Hy].
Qed.

Lemma dads_ok_ext dad dad' H S :
  dads_ok dad H S -> (forall x, In x S -> dad' x = dad x) ->
  dads_ok dad' H S.
Proof.
  induction 1 as [H | H x S Hin Hok IH]; intros He.
  - constructor.
  - constructor.
    + rewrite He by (left; reflexivity). exact Hin.
    + apply IH. intros y Hy. apply He. right. exact Hy.
Qed.

(** [pqremove], before its [pqdownheap]. *)
Definition join_remove (s : deflate_state) : deflate_state :=
  let s := set_heap s (upd (heap s) SMALLEST (heap s (heap_len s))) in
  set_heap_len s (heap_len s - 1).

(** The body of the loop between its two [pqdownheap]. *)
Definition join_link (desc : tree_desc) (s : deflate_state) (n node : Z)
  : deflate_state :=
  let m := heap s SMALLEST in
  let s := set_heap_max s (heap_max s - 1) in
  let s := set_heap s (upd (heap s) (heap_max s) n) in
  let s := set_heap_max s (heap_max s - 1) in
  let s := set_heap s (upd (heap s) (heap_max s) m) in
  let tree := dyn_tree s desc in
  let tree :=
    upd tree node
      (set_Freq (tree node) (ush (Freq (tree n) + Freq (tree m)))) in
  let s :=
    set_depth s
      (upd (depth s) node
         (uch ((if depth s n >=? depth s m then depth s n
                else depth s m) + 1))) in
  let tree := upd tree m (set_Dad (tree m) (ush node)) in
  let tree := upd tree n (set_Dad (tree n) (ush node)) in
  let s := set_dyn_tree s desc tree in
  set_heap s (upd (heap s) SMALLEST node).

Lemma build_tree_join_S fuel0 fuel s desc node :
  build_tree_join fuel0 (S fuel) s desc node
  = match
      pqdownheap fuel0 (join_remove s) (dyn_tree (join_remove s) desc)
        SMALLEST
    with
    | None => None
    | Some s2 =>
        let s4 := join_link desc s2 (heap s SMALLEST) node in
        match pqdownheap fuel0 s4 (dyn_tree s4 desc) SMALLEST with
        | None => None
        | Some s5 =>
            if heap_len s5 >=? 2
            then build_tree_join fuel0 fuel s5 desc (node + 1)
            else Some s5
        end
    end.
Proof. reflexivity. Qed.

Lemma join_link_fields desc s n node :
  let s' := join_link desc s n node in
  let m := heap s SMALLEST in
  heap_len s' = heap_len s
  /\ heap_max s' = heap_max s - 2
  /\ (forall i,
        heap s' i
        = upd (upd (upd (heap s) (heap_max s - 1) n) (heap_max s - 2) m)
            SMALLEST node i)
  /\ (forall x, x <> n -> x <> m -> x <> node ->
        dyn_tree s' desc x = dyn_tree s desc x)
  /\ dl (dyn_tree s' desc n) = ush node
  /\ (m <> n -> dl (dyn_tree s' desc m) = ush node)
  /\ max_code s' desc = max_code s desc
  /\ others desc s' = others desc s.
Proof.
  cbv zeta. unfold join_link.
  replace (heap_max s - 2) with (heap_max s - 1 - 1) by lia.
  destruct desc; trees;
    (split; [reflexivity |]; split; [reflexivity |];
     split; [reflexivity |]; split;
     [intros x H1 H2 H3; rewrite !upd_other by assumption; reflexivity |];
     split; [rewrite upd_same; reflexivity |];
     split; [intros Hmn; rewrite upd_other by assumption;
             rewrite upd_same; reflexivity |];
     split; reflexivity).
Qed.

(** The state of the loop of joins after [j] rounds, for the leaves [L0]:
    the nodes still to join are in the heap, the others in the sorted part,
    each after its father. *)
Definition join_ok (desc : tree_desc) (L0 : list Z) (treeA : Z -> ct_data)
    (s : deflate_state) (j : nat) : Prop :=
  let E := elems (stat_desc desc) in
  let dad := fun x => dl (dyn_tree s desc x) in
  exists a,
    (a + j = length L0)%nat
    /\ heap_len s = Z.of_nat a
    /\ heap_max s = HEAP_SIZE - Z.of_nat (2 * j)
    /\ Permutation
         (zone (heap s) 1 a ++ zone (heap s) (heap_max s) (2 * j))
         (L0 ++ Zseq E j)
    /\ map dad (zone (heap s) (heap_max s) (2 * j)) = dbl_desc E j
    /\ dads_ok dad (zone (heap s) 1 a) (zone (heap s) (heap_max s) (2 * j))
    /\ forall x,
         ~ In x (zone (heap s) 1 a ++ zone (heap s) (heap_max s) (2 * j)) ->
         dyn_tree s desc x = treeA x.

Lemma NoDup_leaves_nodes L0 E j :
  NoDup L0 -> (forall x, In x L0 -> 0 <= x < E) -> NoDup (L0 ++ Zseq E j).
Proof.
  intros Hnd Hr. apply NoDup_app; [exact Hnd | apply NoDup_Zseq |].
  intros x Hx Hx'. apply Hr in Hx. apply In_Zseq in Hx'. lia.
Qed.

Lemma perm_join (node n m : Z) T2 HZ SZ HZ' :
  Permutation HZ (n :: m :: T2) ->
  Permutation HZ' (node :: T2) ->
  Permutation (HZ' ++ m :: n :: SZ) (node :: HZ ++ SZ).
Proof.
  intros H1 H2. rewrite H1, H2. cbn [app]. constructor.
  rewrite <- Permutation_middle. rewrite <- Permutation_middle.
  apply perm_swap.
Qed.

Lemma length_leaves L0 E :
  NoDup L0 -> (forall x, In x L0 -> 0 <= x < E) ->
  Z.of_nat (length L0) <= Z.max E 0.
Proof.
  intros Hnd Hr.
  assert (H : (length L0 <= length (Zseq 0 (Z.to_nat E)))%nat).
  { apply NoDup_incl_length; [exact Hnd |].
    intros x Hx. apply Hr in Hx. apply In_Zseq. lia. }
  rewrite length_Zseq in H. lia.
Qed.

Lemma join_remove_fields desc s :
  heap_len (join_remove s) = heap_len s - 1
  /\ heap (join_remove s) = upd (heap s) SMALLEST (heap s (heap_len s))
  /\ heap_max (join_remove s) = heap_max s
  /\ dyn_tree (join_remove s) desc = dyn_tree s desc
  /\ max_code (join_remove s) desc = max_code s desc
  /\ others desc (join_remove s) = others desc s.
Proof. destruct desc; repeat split; reflexivity. Qed.

(** One round of the loop of joins. *)
Lemma build_tree_join_step desc L0 treeA fuel0 fuel s j :
  NoDup L0 ->
  (forall x, In x L0 -> 0 <= x < elems (stat_desc desc)) ->
  join_ok desc L0 treeA s j -> 2 <= heap_len s -> (287 <= fuel0)%nat ->
  exists s',
    build_tree_join fuel0 (S fuel) s desc
      (elems (stat_desc desc) + Z.of_nat j)
    = (if heap_len s' >=? 2
       then build_tree_join fuel0 fuel s' desc
              (elems (stat_desc desc) + Z.of_nat (S j))
       else Some s')
    /\ join_ok desc L0 treeA s' (S j)
    /\ max_code s' desc = max_code s desc
    /\ others desc s' = others desc s.
Proof.
  intros Hnd Hr (a & Haj & Hl & Hm & Hp & Hdad & Hok & Hfr) H2 Hf0.
  pose proof (elems_range desc) as HE.
  pose proof (length_leaves L0 _ Hnd Hr) as HL.
  set (E := elems (stat_desc desc)) in *.
  rewrite build_tree_join_S.
  set (n := heap s SMALLEST). set (node := E + Z.of_nat j).
  change HEAP_SIZE with 573 in *.
  destruct a as [| [| a2]]; try lia.
  destruct (join_remove_fields desc s) as (L1 & H1 & M1 & T1 & C1 & O1).
  set (s1 := join_remove s) in *.
  destruct (pqdownheap_spec fuel0 s1 (dyn_tree s1 desc) SMALLEST)
    as (s2 & E2 & Hu2 & Hp2 & Ho2); [unfold SMALLEST; lia | lia |].
  rewrite E2. cbv zeta.
  destruct (join_link_fields desc s2 n node)
    as (L4 & M4 & H4 & T4 & Dn4 & Dm4 & C4 & O4).
  set (s4 := join_link desc s2 n node) in *.
  set (m := heap s2 SMALLEST) in *.
  pose proof (unheap_heap_len _ _ Hu2) as L2.
  pose proof (unheap_heap_max _ _ Hu2) as M2.
  pose proof (unheap_dyn_tree desc _ _ Hu2) as T2.
  pose proof (unheap_max_code desc _ _ Hu2) as C2.
  pose proof (unheap_others desc _ _ Hu2) as O2.
  assert (HM2 : heap_max s2 = heap_max s) by congruence.
  rewrite HM2 in H4, M4.
  destruct (pqdownheap_spec fuel0 s4 (dyn_tree s4 desc) SMALLEST)
    as (s5 & E5 & Hu5 & Hp5 & Ho5); [unfold SMALLEST; lia | lia |].
  rewrite E5.
  pose proof (unheap_heap_len _ _ Hu5) as L5.
  pose proof (unheap_heap_max _ _ Hu5) as M5.
  pose proof (unheap_dyn_tree desc _ _ Hu5) as T5.
  pose proof (unheap_max_code desc _ _ Hu5) as C5.
  pose proof (unheap_others desc _ _ Hu5) as O5.
  exists s5.
  split; [replace (E + Z.of_nat (S j)) with (node + 1) by lia; reflexivity |].
  split; [| split; [congruence | congruence]].
  (* the lists *)
  replace (Z.to_nat (heap_len s1)) with (S a2) in Hp2 by lia.
  replace (Z.to_nat (heap_len s4)) with (S a2) in Hp5 by lia.
  set (HZ := zone (heap s) 1 (S (S a2))) in *.
  set (SZ := zone (heap s) (heap_max s) (2 * j)) in *.
  set (TT := zone (heap s2) 2 a2).
  assert (HZ2 : zone (heap s2) 1 (S a2) = m :: TT) by reflexivity.
  assert (HZ1 : Permutation HZ (n :: m :: TT)).
  { unfold HZ. rewrite zone_cons. constructor. rewrite <- HZ2, Hp2.
    change (1 + 1) with 2. rewrite zone_snoc, zone_cons.
    rewrite H1. unfold SMALLEST. rewrite upd_same.
    rewrite (zone_upd_out (heap s) 1 _ (1 + 1) a2) by lia.
    change (1 + 1) with 2.
    replace (heap_len s) with (2 + Z.of_nat a2) by lia.
    symmetry. apply Permutation_cons_append. }
  assert (HZ4 : zone (heap s4) 1 (S a2) = node :: TT).
  { rewrite zone_cons. f_equal.
    apply zone_ext. intros i Hi. rewrite H4. unfold SMALLEST.
    rewrite !upd_other by lia. reflexivity. }
  assert (HZ5 : Permutation (zone (heap s5) 1 (S a2)) (node :: TT))
    by (rewrite Hp5, HZ4; reflexivity).
  assert (SZ5 : zone (heap s5) ((heap_max s) - 2) (2 * S j) = m :: n :: SZ).
  { replace (2 * S j)%nat with (S (S (2 * j))) by lia.
    rewrite !zone_cons.
    rewrite !Ho5 by lia. rewrite !H4. unfold SMALLEST.
    f_equal; [| f_equal].
    - rewrite upd_other by lia. rewrite upd_same. reflexivity.
    - rewrite upd_other by lia. rewrite upd_other by lia.
      replace ((heap_max s) - 2 + 1) with (heap_max s - 1) by lia.
      apply upd_same.
    - replace (heap_max s - 2 + 1 + 1) with (heap_max s) by lia.
      apply zone_ext. intros i Hi. rewrite Ho5 by lia. rewrite H4.
      unfold SMALLEST. rewrite !upd_other by lia.
      rewrite Ho2 by lia. rewrite H1. unfold SMALLEST.
      apply upd_other. lia. }
  assert (P5 : Permutation (zone (heap s5) 1 (S a2) ++ m :: n :: SZ)
                 (node :: HZ ++ SZ))
    by (apply perm_join with (T2 := TT); assumption).
  assert (P5' : Permutation (zone (heap s5) 1 (S a2) ++ m :: n :: SZ)
                  (L0 ++ Zseq E (S j))).
  { rewrite P5, Hp, Zseq_snoc, app_assoc. apply Permutation_cons_append. }
  assert (ND : NoDup (HZ ++ SZ)).
  { apply (Permutation_NoDup (l := L0 ++ Zseq E j));
      [symmetry; exact Hp | apply NoDup_leaves_nodes; assumption]. }
  assert (ND5 : NoDup (node :: HZ ++ SZ)).
  { apply (Permutation_NoDup (l := L0 ++ Zseq E (S j)));
      [rewrite <- P5'; exact P5 | apply NoDup_leaves_nodes; assumption]. }
  assert (Hn : In n HZ) by (left; reflexivity).
  assert (Hmi : In m HZ)
    by (apply (Permutation_in _ (Permutation_sym HZ1)); right; left;
        reflexivity).
  assert (Hnm : m <> n).
  { assert (NoDup (n :: m :: TT)).
    { apply (Permutation_NoDup HZ1). apply NoDup_app_remove_r in ND.
      exact ND. }
    apply NoDup_cons_iff in H. destruct H as [Hx _]. intros ->. apply Hx.
    left. reflexivity. }
  assert (Hout : forall x, In x SZ -> x <> n /\ x <> m /\ x <> node).
  { intros x Hx. pose proof ND5 as ND6.
    apply NoDup_cons_iff in ND6. destruct ND6 as [Hnode _].
    assert (Hd : forall y, In y HZ -> y <> x).
    { intros y Hy ->. apply (NoDup_app_disjoint _ _ x ND); assumption. }
    repeat split.
    - intros ->. apply (Hd n); [exact Hn | reflexivity].
    - intros ->. apply (Hd m); [exact Hmi | reflexivity].
    - intros ->. apply Hnode. apply in_or_app. right. exact Hx. }
  assert (Hnode16 : ush node = node).
  { apply ush_small_16. unfold node. change (2 ^ 16) with 65536. lia. }
  assert (Hdl : forall x, In x SZ ->
            dl (dyn_tree s5 desc x) = dl (dyn_tree s desc x)).
  { intros x Hx. destruct (Hout x Hx) as (X1 & X2 & X3).
    rewrite T5, T4 by assumption. rewrite T2, T1. reflexivity. }
  exists (S a2). change HEAP_SIZE with 573.
  split; [lia |]. split; [lia |]. split; [lia |].
  replace (heap_max s5) with ((heap_max s) - 2) by lia.
  rewrite SZ5.
  split; [exact P5' |].
  split.
  { cbn [map dbl_desc]. rewrite T5, Dn4, Dm4, Hnode16 by exact Hnm.
    assert (Em : map (fun x => dl (dyn_tree s4 desc x)) SZ = dbl_desc E j).
    { rewrite <- Hdad. apply map_ext_in. intros x Hx. rewrite <- T5.
      apply Hdl. exact Hx. }
    rewrite Em. reflexivity. }
  split.
  { constructor.
    { rewrite T5, Dm4, Hnode16 by exact Hnm.
      apply (Permutation_in _ (Permutation_sym HZ5)). left. reflexivity. }
    constructor.
    { rewrite T5, Dn4, Hnode16. right.
      apply (Permutation_in _ (Permutation_sym HZ5)). left. reflexivity. }
    apply dads_ok_ext with (dad := fun x => dl (dyn_tree s desc x));
      [| exact Hdl].
    apply (dads_ok_incl _ _ _ Hok). intros x Hx.
    apply (Permutation_in _ HZ1) in Hx.
    destruct Hx as [<- | [<- | Hx]];
      [left; reflexivity | right; left; reflexivity |].
    right. right. apply (Permutation_in _ (Permutation_sym HZ5)).
    right. exact Hx. }
  intros x Hx.
  assert (Hx' : ~ In x (node :: HZ ++ SZ)).
  { intros Hin. apply Hx. apply (Permutation_in _ (Permutation_sym P5)).
    exact Hin. }
  rewrite T5, T4.
  - rewrite T2, T1. apply Hfr. intros Hin. apply Hx'. right. exact Hin.
  - intros ->. apply Hx'. right. apply in_or_app. left. exact Hn.
  - intros ->. apply Hx'. right. apply in_or_app. left. exact Hmi.
  - intros ->. apply Hx'. left. reflexivity.
Qed.

Lemma join_ok_heap_len desc L0 treeA s j :
  join_ok desc L0 treeA s j ->
  heap_len s = Z.of_nat (length L0) - Z.of_nat j /\ 0 <= heap_len s.
Proof. intros (a & Haj & Hl & _). lia. Qed.

(** The loop of joins ends with one node in the heap. *)
Lemma build_tree_join_spec desc L0 treeA fuel0 :
  NoDup L0 ->
  (forall x, In x L0 -> 0 <= x < elems (stat_desc desc)) ->
  (287 <= fuel0)%nat ->
  forall fuel s j,
    join_ok desc L0 treeA s j -> 2 <= heap_len s ->
    heap_len s <= Z.of_nat fuel + 1 ->
    exists s' k,
      build_tree_join fuel0 fuel s desc (elems (stat_desc desc) + Z.of_nat j)
      = Some s'
      /\ join_ok desc L0 treeA s' k
      /\ heap_len s' = 1
      /\ max_code s' desc = max_code s desc
      /\ others desc s' = others desc s.
Proof.
  intros Hnd Hr Hf0. induction fuel as [| fuel IH]; intros s j Hj H2 Hf;
    [lia |].
  destruct (build_tree_join_step desc L0 treeA fuel0 fuel s j Hnd Hr Hj H2 Hf0)
    as (s1 & E1 & Hj1 & C1 & O1).
  rewrite E1.
  pose proof (join_ok_heap_len _ _ _ _ _ Hj) as [Hl _].
  pose proof (join_ok_heap_len _ _ _ _ _ Hj1) as [Hl1 _].
  destruct (Z.geb_spec (heap_len s1) 2) as [Hge | Hlt].
  - destruct (IH s1 (S j) Hj1 Hge) as (s2 & k & E2 & Hj2 & Hl2 & C2 & O2);
      [lia |].
    exists s2, k. split; [exact E2 |]. split; [exact Hj2 |].
    split; [exact Hl2 |]. split; congruence.
  - exists s1, (S j). split; [reflexivity |]. split; [exact Hj1 |].
    split; [lia |]. split; assumption.
Qed.

(** The tree handed to [gen_bitlen]: the sorted part of the heap holds the
    root and then every other node after its father; the leaves are [L0]
    and the internal nodes are [E .. E+k-1], each the father of two
    nodes. *)
Definition tree_ok (desc : tree_desc) (L0 : list Z) (treeA : Z -> ct_data)
    (s : deflate_state) (k : nat) (root : Z) (rest : list Z) : Prop :=
  let E := elems (stat_desc desc) in
  let dad := fun x => dl (dyn_tree s desc x) in
  S k = length L0
  /\ heap_max s = HEAP_SIZE - Z.of_nat (2 * k + 1)
  /\ zone (heap s) (heap_max s) (2 * k + 1) = root :: rest
  /\ Permutation (root :: rest) (L0 ++ Zseq E k)
  /\ map dad rest = dbl_desc E k
  /\ dads_ok dad [root] rest
  /\ forall x, ~ In x (root :: rest) -> dyn_tree s desc x = treeA x.

Lemma join_ok_tree_ok desc L0 treeA s k :
  join_ok desc L0 treeA s k -> heap_len s = 1 ->
  let s1 := set_heap_max s (heap_max s - 1) in
  let s2 := set_heap s1 (upd (heap s1) (heap_max s1) (heap s1 SMALLEST)) in
  exists root rest, tree_ok desc L0 treeA s2 k root rest.
Proof.
  intros (a & Hak & Hl & Hm & Hp & Hdad & Hok & Hfr) H1. cbv zeta.
  assert (a = 1%nat) by lia. subst a.
  change HEAP_SIZE with 573 in *.
  change (zone (heap s) 1 1) with [heap s 1] in *.
  set (s2 := set_heap _ _).
  assert (T2 : dyn_tree s2 desc = dyn_tree s desc)
    by (destruct desc; reflexivity).
  assert (M2 : heap_max s2 = heap_max s - 1) by reflexivity.
  assert (H2 : heap s2 = upd (heap s) (heap_max s - 1) (heap s 1))
    by reflexivity.
  exists (heap s 1), (zone (heap s) (heap_max s) (2 * k)).
  unfold tree_ok. rewrite T2, M2, H2. change HEAP_SIZE with 573.
  split; [lia |]. split; [lia |]. split.
  { replace (2 * k + 1)%nat with (S (2 * k)) by lia. rewrite zone_cons.
    rewrite upd_same. f_equal.
    replace (heap_max s - 1 + 1) with (heap_max s) by lia.
    apply zone_upd_out. lia. }
  split; [exact Hp |]. split; [exact Hdad |]. split; [exact Hok |].
  exact Hfr.
Qed.
(** *** gen_bitlen: the first lengths *)

Lemma zone_app {A} (h : Z -> A) lo n m :
  zone h lo (n + m) = zone h lo n ++ zone h (lo + Z.of_nat n) m.
Proof. unfold zone. rewrite Zseq_app, map_app. reflexivity. Qed.

Lemma zone_split {A} (h : Z -> A) lo n c :
  (c < n)%nat ->
  zone h lo n
  = zone h lo c ++ h (lo + Z.of_nat c)
    :: zone h (lo + Z.of_nat c + 1) (n - c - 1).
Proof.
  intros Hc. replace n with (c + S (n - c - 1))%nat at 1 by lia.
  rewrite zone_app, zone_cons. reflexivity.
Qed.

Lemma dads_ok_mid dad P :
  forall H x Q, dads_ok dad H (P ++ x :: Q) -> In (dad x) (P ++ H).
Proof.
  induction P as [| y P IH]; intros H x Q Hok; cbn [app] in *.
  - inversion Hok; subst. assumption.
  - inversion Hok as [| ? ? ? Hin Hok']; subst.
    apply IH in Hok'. apply in_app_or in Hok'.
    destruct Hok' as [Hp | [<- | Hh]].
    + right. apply in_or_app. left. exact Hp.
    + left. reflexivity.
    + right. apply in_or_app. right. exact Hh.
Qed.

(** The body of the first loop of [gen_bitlen], for the node [n]. *)
Definition count_node (desc : tree_desc) (max_code n : Z)
    (st : (Z -> ct_data) * (Z -> Z) * Z * Z * Z)
  : (Z -> ct_data) * (Z -> Z) * Z * Z * Z :=
  let '(tree, bl_count, opt_len, static_len, overflow) := st in
  let stree := static_tree (stat_desc desc) in
  let extra := extra_bits (stat_desc desc) in
  let base := extra_base (stat_desc desc) in
  let max_length := max_length (stat_desc desc) in
  let bits := Len (tree (Dad (tree n))) + 1 in
  let '(bits, overflow) :=
    if bits >? max_length then (max_length, overflow + 1)
    else (bits, overflow) in
  let tree := upd tree n (set_Len (tree n) (ush bits)) in
  if n >? max_code then (tree, bl_count, opt_len, static_len, overflow)
  else
    let bl_count := upd bl_count bits (ush (bl_count bits + 1)) in
    let xbits := if n >=? base then at_ extra (n - base) else 0 in
    let f := Freq (tree n) in
    let opt_len := ulg (opt_len + ulg f * uns (bits + xbits)) in
    let static_len :=
      match stree with
      | Some stree => ulg (static_len + ulg f * uns (Len (stree n) + xbits))
      | None => static_len
      end in
    (tree, bl_count, opt_len, static_len, overflow).

Lemma gen_bitlen_count_node s desc h st :
  gen_bitlen_count s desc h st
  = count_node desc (max_code s desc) (heap s h) st.
Proof. reflexivity. Qed.

Lemma count_node_eq desc mc n tree blc ol sl ov :
  let ML := max_length (stat_desc desc) in
  let p := dl (tree (dl (tree n))) in
  let bits := Z.min (p + 1) ML in
  exists ol' sl',
    count_node desc mc n (tree, blc, ol, sl, ov)
    = (upd tree n (set_Len (tree n) (ush bits)),
       (if n >? mc then blc else upd blc bits (ush (blc bits + 1))),
       ol', sl', ov + (if p =? ML then 1 else 0))
    \/ ML < p.
Proof.
  cbv zeta. unfold count_node, Len, Dad.
  set (ML := max_length (stat_desc desc)).
  set (p := dl (tree (dl (tree n)))).
  destruct (Z_lt_le_dec ML p) as [Hlt | Hle];
    [exists 0, 0; right; exact Hlt |].
  destruct (Z.gtb_spec (p + 1) ML) as [Hg | Hg].
  - replace (Z.min (p + 1) ML) with ML by lia.
    destruct (Z.eqb_spec p ML); [| lia].
    destruct (n >? mc); do 2 eexists; left; reflexivity.
  - replace (Z.min (p + 1) ML) with (p + 1) by lia.
    destruct (Z.eqb_spec p ML); [lia |]. rewrite Z.add_0_r.
    destruct (n >? mc); do 2 eexists; left; reflexivity.
Qed.

(** The state of the loop after the nodes [P], for the tree [treeR] it
    starts from, where the father of [x] is [dl (treeR x)]: the lengths are
    within 1..ML, each the length of the father plus one or ML. *)
Definition count_ok (desc : tree_desc) (mc : Z) (treeR : Z -> ct_data)
    (P : list Z) (st : (Z -> ct_data) * (Z -> Z) * Z * Z * Z) : Prop :=
  let ML := max_length (stat_desc desc) in
  let '(tree, blc, _, _, ov) := st in
  (forall x, In x P -> 1 <= dl (tree x) <= ML)
  /\ (forall x, ~ In x P -> tree x = treeR x)
  /\ (forall x, In x P ->
        dl (tree x) = Z.min (dl (tree (dl (treeR x))) + 1) ML)
  /\ ov = countf (fun x => dl (tree (dl (treeR x))) =? ML) P
  /\ (forall b, 0 <= b <= MAX_BITS ->
        blc b = countf (fun x => (x <=? mc) && (dl (tree x) =? b)) P).

Lemma count_node_ok desc mc treeR root P x st :
  count_ok desc mc treeR P st ->
  dl (treeR root) = 0 -> ~ In root P -> root <> x ->
  ~ In x P -> In (dl (treeR x)) (root :: P) ->
  (forall y, In y P -> In (dl (treeR y)) (root :: P)) ->
  Z.of_nat (length P) < 1000 ->
  count_ok desc mc treeR (P ++ [x]) (count_node desc mc x st).
Proof.
  destruct st as [[[[tree blc] ol] sl] ov].
  intros (H1 & H2 & H3 & H4 & H5) Hroot Hrp Hrx Hx Hdx Hdp Hlen.
  pose proof (max_length_range desc) as [HML _]. unfold MAX_BITS in HML.
  set (ML := max_length (stat_desc desc)) in *.
  assert (Etx : tree x = treeR x) by (apply H2; exact Hx).
  assert (Etr : dl (tree root) = 0) by (rewrite H2 by exact Hrp; exact Hroot).
  set (d := dl (treeR x)) in *.
  assert (Hp : 0 <= dl (tree d) <= ML).
  { destruct Hdx as [<- | Hin]; [lia |]. apply H1 in Hin. lia. }
  assert (Hdne : d <> x).
  { intros E. destruct Hdx as [Hr | Hin]; [congruence |].
    rewrite E in Hin. contradiction. }
  destruct (count_node_eq desc mc x tree blc ol sl ov) as (ol' & sl' & [E | E]).
  2:{ rewrite Etx in E. fold d in E. fold ML in E. lia. }
  rewrite E. clear E. rewrite Etx. fold d. fold ML.
  set (bits := Z.min (dl (tree d) + 1) ML).
  assert (Hbits : 1 <= bits <= ML) by (unfold bits; lia).
  assert (Hush : ush bits = bits) by (apply ush_small_16; lia).
  rewrite Hush.
  set (tree' := upd tree x (set_Len (treeR x) bits)).
  assert (Ex : dl (tree' x) = bits) by (unfold tree'; rewrite upd_same; reflexivity).
  assert (Eo : forall y, y <> x -> tree' y = tree y)
    by (intros y Hy; unfold tree'; apply upd_other; exact Hy).
  assert (EP : forall y, In y P -> tree' y = tree y).
  { intros y Hy. apply Eo. intros ->. contradiction. }
  assert (EdP : forall y, In y P -> tree' (dl (treeR y)) = tree (dl (treeR y))).
  { intros y Hy. apply Eo. intros E. apply Hdp in Hy. rewrite E in Hy.
    destruct Hy as [Hr | Hin]; [congruence | contradiction]. }
  unfold count_ok. fold ML.
  split; [| split; [| split; [| split]]].
  - intros y Hy. apply in_app_or in Hy. destruct Hy as [Hy | [<- | []]].
    + rewrite EP by exact Hy. apply H1. exact Hy.
    + rewrite Ex. exact Hbits.
  - intros y Hy. rewrite Eo.
    + apply H2. intros Hin. apply Hy. apply in_or_app. left. exact Hin.
    + intros ->. apply Hy. apply in_or_app. right. left. reflexivity.
  - intros y Hy. apply in_app_or in Hy. destruct Hy as [Hy | [<- | []]].
    + rewrite EP, EdP by exact Hy. apply H3. exact Hy.
    + rewrite Ex. fold d. rewrite Eo by exact Hdne. reflexivity.
  - rewrite countf_app. unfold countf at 2. cbn [sumf]. fold d.
    rewrite (Eo d) by exact Hdne. rewrite Z.add_0_r. f_equal.
    rewrite H4. apply countf_ext. intros y Hy. rewrite EdP by exact Hy.
    reflexivity.
  - intros b Hb. rewrite countf_app. unfold countf at 2. cbn [sumf].
    rewrite Ex, Z.add_0_r.
    rewrite (countf_ext (fun y => (y <=? mc) && (dl (tree' y) =? b))
                        (fun y => (y <=? mc) && (dl (tree y) =? b)))
      by (intros y Hy; rewrite EP by exact Hy; reflexivity).
    rewrite <- H5 by exact Hb.
    destruct (Z.gtb_spec x mc) as [Hg | Hg].
    + destruct (Z.leb_spec x mc); [lia |]. cbn [andb]. lia.
    + destruct (Z.leb_spec x mc); [| lia]. cbn [andb].
      assert (Hcnt : 0 <= blc bits <= Z.of_nat (length P)).
      { rewrite H5 by (unfold MAX_BITS; lia).
        split; [apply countf_nonneg | apply countf_le_length]. }
      destruct (Z.eqb_spec bits b) as [<- | Hne].
      * rewrite upd_same. apply ush_small_16. lia.
      * rewrite upd_other by congruence. lia.
Qed.

Lemma count_ok_nil desc mc treeR blc ol sl :
  (forall b, 0 <= b <= MAX_BITS -> blc b = 0) ->
  count_ok desc mc treeR [] (treeR, blc, ol, sl, 0).
Proof.
  intros H0. unfold count_ok.
  split; [intros x [] |]. split; [reflexivity |].
  split; [intros x [] |]. split; [reflexivity |].
  intros b Hb. rewrite H0 by exact Hb. reflexivity.
Qed.

Lemma dads_ok_in dad root rest y :
  dads_ok dad [root] rest -> In y rest -> In (dad y) (root :: rest).
Proof.
  intros Hok Hy. destruct (in_split _ _ Hy) as (P1 & P2 & ->).
  apply dads_ok_mid in Hok. apply in_app_or in Hok.
  destruct Hok as [Hin | [<- | []]]; [| left; reflexivity].
  right. apply in_or_app. left. exact Hin.
Qed.

(** The first loop of [gen_bitlen] over the nodes after the root. *)
Lemma gen_bitlen_count_loop desc s treeR root rest lo blc ol sl :
  zone (heap s) lo (length rest) = rest ->
  NoDup (root :: rest) ->
  dads_ok (fun x => dl (treeR x)) [root] rest ->
  dl (treeR root) = 0 ->
  Z.of_nat (length rest) < 1000 ->
  (forall b, 0 <= b <= MAX_BITS -> blc b = 0) ->
  forall c, (c <= length rest)%nat ->
    count_ok desc (max_code s desc) treeR (zone (heap s) lo c)
      (for_up c lo (gen_bitlen_count s desc) (treeR, blc, ol, sl, 0)).
Proof.
  intros Hz Hnd Hok Hroot Hlen Hblc.
  apply NoDup_cons_iff in Hnd. destruct Hnd as [Hnr Hnd].
  induction c as [| c IH]; intros Hc.
  - apply count_ok_nil. exact Hblc.
  - rewrite for_up_S_end, gen_bitlen_count_node, zone_snoc.
    pose proof (zone_split (heap s) lo (length rest) c ltac:(lia)) as Hs.
    rewrite Hz in Hs.
    set (P := zone (heap s) lo c) in *.
    set (x := heap s (lo + Z.of_nat c)) in *.
    set (Q := zone (heap s) (lo + Z.of_nat c + 1) (length rest - c - 1)) in *.
    assert (HP : forall y, In y P -> In y rest)
      by (intros y Hy; rewrite Hs; apply in_or_app; left; exact Hy).
    assert (Hxr : In x rest)
      by (rewrite Hs; apply in_or_app; right; left; reflexivity).
    apply count_node_ok with (root := root).
    + apply IH. lia.
    + exact Hroot.
    + intros Hin. apply Hnr, HP. exact Hin.
    + intros ->. contradiction.
    + rewrite Hs in Hnd. apply NoDup_remove_2 in Hnd. intros Hin.
      apply Hnd. apply in_or_app. left. exact Hin.
    + rewrite Hs in Hok. apply dads_ok_mid in Hok.
      apply in_app_or in Hok.
      destruct Hok as [Hin | [<- | []]]; [right; exact Hin | left; reflexivity].
    + intros y Hy. destruct (in_split _ _ Hy) as (P1 & P2 & EP).
      rewrite Hs, EP, <- app_assoc in Hok. cbn [app] in Hok.
      apply dads_ok_mid in Hok. apply in_app_or in Hok.
      destruct Hok as [Hin | [<- | []]]; [| left; reflexivity].
      right. rewrite EP. apply in_or_app. left. exact Hin.
    + unfold P. rewrite length_zone. lia.
Qed.

Lemma bl_count_zero blc :
  forall b,
    for_up (Z.to_nat (MAX_BITS + 1)) 0 (fun bits blc => upd blc bits 0) blc b
    = if (0 <=? b) && (b <=? MAX_BITS) then 0 else blc b.
Proof.
  pose (P := fun (j : Z) (c : Z -> Z) =>
               forall b, c b = if (0 <=? b) && (b <? j) then 0 else blc b).
  assert (H : P (0 + Z.of_nat (Z.to_nat (MAX_BITS + 1)))
                (for_up (Z.to_nat (MAX_BITS + 1)) 0
                   (fun bits blc => upd blc bits 0) blc)).
  { apply for_up_ind.
    - intros b. destruct (Z.leb_spec 0 b); destruct (Z.ltb_spec b 0);
        cbn [andb]; try reflexivity; lia.
    - intros j c Hj Hc b. destruct (Z.eq_dec b j) as [-> | Hne].
      + rewrite upd_same.
        destruct (Z.leb_spec 0 j); destruct (Z.ltb_spec j (j + 1));
          cbn [andb]; try reflexivity; lia.
      + rewrite upd_other by exact Hne. rewrite Hc.
        destruct (Z.leb_spec 0 b); destruct (Z.ltb_spec b j);
          destruct (Z.ltb_spec b (j + 1)); cbn [andb]; try reflexivity; lia. }
  intros b. rewrite H. unfold MAX_BITS.
  destruct (Z.leb_spec 0 b); destruct (Z.ltb_spec b (0 + Z.of_nat (Z.to_nat (15 + 1))));
    destruct (Z.leb_spec b 15); cbn [andb]; try reflexivity; lia.
Qed.

(** *** The lengths and the inequality of Kraft *)

Lemma sumf_dbl_desc (f : Z -> Z) E k :
  sumf f (dbl_desc E k) = 2 * sumf f (Zseq E k).
Proof.
  induction k as [| k IH]; [reflexivity |].
  rewrite Zseq_snoc, sumf_app. cbn [dbl_desc sumf]. rewrite IH. lia.
Qed.

Section Lengths.

Variables (mc E ML : Z) (L0 : list Z) (k : nat) (root : Z) (rest : list Z).
Variables (len dad : Z -> Z).

Hypothesis H_perm : Permutation (root :: rest) (L0 ++ Zseq E k).
Hypothesis H_dads : map dad rest = dbl_desc E k.
Hypothesis H_ok : dads_ok dad [root] rest.
Hypothesis H_L0 : forall x, In x L0 -> 0 <= x <= mc.
Hypothesis H_mc : mc < E.
Hypothesis H_k : S k = length L0.
Hypothesis H_k1 : (1 <= k)%nat.
Hypothesis H_ML : 1 <= ML.
Hypothesis H_root : len root = 0.
Hypothesis H_range : forall x, In x rest -> 1 <= len x <= ML.
Hypothesis H_min :
  forall x, In x rest -> len x = Z.min (len (dad x) + 1) ML.

Lemma root_internal : root = E + Z.of_nat k - 1.
Proof.
  pose proof H_dads as Hd. pose proof H_ok as Hok.
  destruct k as [| k']; [lia |].
  destruct rest as [| x rest']; [discriminate |].
  cbn [map dbl_desc] in Hd. injection Hd as Hx _.
  inversion Hok as [| ? ? ? Hin _]; subst.
  destruct Hin as [Hin | []]. lia.
Qed.

Lemma root_not_leaf : mc < root.
Proof. rewrite root_internal. lia. Qed.

Lemma len_range x : In x (root :: rest) -> 0 <= len x <= ML.
Proof.
  intros [<- | Hx]; [lia |]. apply H_range in Hx. lia.
Qed.

Lemma leaves_sum (g : Z -> Z) :
  sumf (fun x => if x <=? mc then g x else 0) rest = sumf g L0.
Proof.
  pose proof root_not_leaf as Hr.
  assert (H : sumf (fun x => if x <=? mc then g x else 0) (root :: rest)
              = sumf g L0).
  { rewrite (sumf_perm _ _ _ H_perm), sumf_app.
    rewrite (sumf_zero _ (Zseq E k)).
    - rewrite Z.add_0_r. apply sumf_ext. intros x Hx. apply H_L0 in Hx.
      destruct (Z.leb_spec x mc); [reflexivity | lia].
    - intros x Hx. apply In_Zseq in Hx.
      destruct (Z.leb_spec x mc); [lia | reflexivity]. }
  cbn [sumf] in H. destruct (Z.leb_spec root mc); [lia |]. lia.
Qed.

Lemma leaves_count (p : Z -> bool) :
  countf (fun x => (x <=? mc) && p x) rest = countf p L0.
Proof.
  unfold countf. rewrite <- leaves_sum. apply sumf_ext. intros x _.
  destruct (x <=? mc); reflexivity.
Qed.

Lemma nodes_sum (g : Z -> Z) :
  g root + sumf g rest = sumf g L0 + sumf g (Zseq E k).
Proof.
  change (g root + sumf g rest) with (sumf g (root :: rest)).
  rewrite (sumf_perm _ _ _ H_perm). apply sumf_app.
Qed.

(** Twice the sum of [2^(ML - len)] over the leaves exceeds [2 * 2^ML] by
    the number of nodes whose father is at the length [ML]. *)
Lemma kraft_overflow :
  2 * sumf (fun x => 2 ^ (ML - len x)) L0
  = 2 * 2 ^ ML + countf (fun x => len (dad x) =? ML) rest.
Proof.
  set (W := fun x => 2 ^ (ML - len x)).
  assert (Hpt : forall x, In x rest ->
            2 * W x = W (dad x) + (if len (dad x) =? ML then 1 else 0)).
  { intros x Hx. unfold W. rewrite (H_min x Hx).
    pose proof (len_range (dad x) (dads_ok_in _ _ _ _ H_ok Hx)) as Hd.
    destruct (Z.eqb_spec (len (dad x)) ML) as [Em | Em].
    - rewrite Em. replace (Z.min (ML + 1) ML) with ML by lia.
      rewrite Z.sub_diag. reflexivity.
    - replace (Z.min (len (dad x) + 1) ML) with (len (dad x) + 1) by lia.
      replace (ML - len (dad x)) with (Z.succ (ML - (len (dad x) + 1)))
        by lia.
      rewrite Z.pow_succ_r by lia. lia. }
  assert (H1 : 2 * sumf W rest
               = sumf (fun x => W (dad x)) rest
                 + countf (fun x => len (dad x) =? ML) rest).
  { unfold countf. rewrite <- sumf_plus, <- sumf_scale.
    apply sumf_ext. exact Hpt. }
  rewrite <- (sumf_map W dad), H_dads, sumf_dbl_desc in H1.
  pose proof (nodes_sum W) as H2. unfold W at 1 in H2.
  rewrite H_root, Z.sub_0_r in H2. lia.
Qed.

Lemma count_father_le H S :
  dads_ok dad H S ->
  (forall x, In x S -> len x = Z.min (len (dad x) + 1) ML) ->
  (forall x, In x S -> len (dad x) <= ML) ->
  countf (fun x => len (dad x) =? ML) S <= countf (fun x => len x =? ML) S
  /\ ((forall h, In h H -> len h <> ML) ->
      0 < countf (fun x => len (dad x) =? ML) S ->
      countf (fun x => len (dad x) =? ML) S + 1
      <= countf (fun x => len x =? ML) S).
Proof.
  induction 1 as [H | H x S Hin Hok IH]; intros Hmin Hle.
  - unfold countf. cbn [sumf]. split; lia.
  - destruct IH as [IH1 IH2];
      [intros y Hy; apply Hmin; right; exact Hy
      | intros y Hy; apply Hle; right; exact Hy |].
    unfold countf in *. cbn [sumf].
    pose proof (Hmin x (or_introl eq_refl)) as Hx.
    pose proof (Hle x (or_introl eq_refl)) as Hx'.
    split.
    + destruct (Z.eqb_spec (len (dad x)) ML);
        destruct (Z.eqb_spec (len x) ML); lia.
    + intros HH Hpos.
      assert (Hd : len (dad x) <> ML) by (apply HH; exact Hin).
      destruct (Z.eqb_spec (len (dad x)) ML); [contradiction |].
      destruct (Z.eqb_spec (len x) ML) as [El | El]; [lia |].
      assert (forall h, In h (x :: H) -> len h <> ML).
      { intros h [<- | Hh]; [exact El | apply HH; exact Hh]. }
      specialize (IH2 H0). lia.
Qed.

(** When some node has its father at the length [ML], more than half as
    many leaves as such nodes are at the length [ML]. *)
Lemma overflow_bucket :
  0 < countf (fun x => len (dad x) =? ML) rest ->
  countf (fun x => len (dad x) =? ML) rest + 2
  <= 2 * countf (fun x => len x =? ML) L0.
Proof.
  intros Hpos.
  destruct (count_father_le [root] rest H_ok H_min) as [_ Hc].
  { intros x Hx. apply (len_range (dad x)). apply dads_ok_in; assumption. }
  specialize (Hc ltac:(intros h [<- | []]; lia) Hpos).
  assert (HB : countf (fun x => len (dad x) =? ML) rest
               = 2 * countf (fun x => len x =? ML) (Zseq E k)).
  { unfold countf.
    rewrite <- (sumf_map (fun d => if len d =? ML then 1 else 0) dad).
    rewrite H_dads. apply sumf_dbl_desc. }
  pose proof (nodes_sum (fun x => if len x =? ML then 1 else 0)) as HA.
  cbn beta in HA. rewrite H_root in HA.
  destruct (Z.eqb_spec 0 ML); [lia |].
  unfold countf in *. lia.
Qed.

End Lengths.
(** *** gen_bitlen: the repair of an overflow *)

(** The sum of [bl_count[b] * 2^(ML - b)] over the lengths [0 .. ML], and
    the number of counted symbols. *)
Definition kraft_sum (ML : Z) (blc : Z -> Z) : Z :=
  sumf (fun b => blc b * 2 ^ (ML - b)) (Zseq 0 (Z.to_nat (ML + 1))).

Definition total (ML : Z) (blc : Z -> Z) : Z :=
  sumf (fun b => blc b * 1) (Zseq 0 (Z.to_nat (ML + 1))).

(** The counts at the start of a round of the repair. *)
Definition repair_pre (ML : Z) (blc : Z -> Z) (ov : Z) : Prop :=
  blc 0 = 0
  /\ (forall b, 0 <= b <= ML -> 0 <= blc b)
  /\ 2 * kraft_sum ML blc = 2 * 2 ^ ML + ov
  /\ 0 < ov
  /\ ov + 2 <= 2 * blc ML
  /\ total ML blc < 2 ^ ML
  /\ total ML blc < 2 ^ 15.

Lemma total_bound ML blc b :
  (forall b, 0 <= b <= ML -> 0 <= blc b) -> 0 <= b <= ML ->
  blc b <= total ML blc.
Proof.
  intros Hn Hb. unfold total.
  rewrite <- (Z.mul_1_r (blc b)).
  apply (sumf_In_le (fun b => blc b * 1)).
  - intros y Hy. apply In_Zseq in Hy. rewrite Z.mul_1_r. apply Hn. lia.
  - apply In_Zseq. lia.
Qed.

Lemma exists_nonzero (blc w : Z -> Z) n :
  forall lo,
    sumf (fun b => blc b * w b) (Zseq lo n) <> 0 ->
    exists b, lo <= b < lo + Z.of_nat n /\ blc b <> 0.
Proof.
  induction n as [| n IH]; intros lo H; cbn [Zseq sumf] in H; [lia |].
  destruct (Z.eq_dec (blc lo) 0) as [E0 | E0].
  - rewrite E0, Z.mul_0_l, Z.add_0_l in H.
    destruct (IH _ H) as (b & Hb & Hnz). exists b. split; [lia | exact Hnz].
  - exists lo. split; [lia | exact E0].
Qed.

Lemma kraft_sum_split ML blc :
  1 <= ML ->
  kraft_sum ML blc
  = blc 0 * 2 ^ ML
    + sumf (fun b => blc b * 2 ^ (ML - b)) (Zseq 1 (Z.to_nat (ML - 1)))
    + blc ML.
Proof.
  intros H. unfold kraft_sum.
  replace (Z.to_nat (ML + 1)) with (S (Z.to_nat (ML - 1) + 1)) by lia.
  cbn [Zseq sumf]. rewrite Zseq_app, sumf_app. cbn [Zseq sumf].
  change (0 + 1) with 1. rewrite Z.sub_0_r.
  replace (1 + Z.of_nat (Z.to_nat (ML - 1))) with ML by lia.
  rewrite Z.sub_diag. change (2 ^ 0) with 1. lia.
Qed.

Lemma repair_pre_nonzero ML blc ov :
  1 <= ML -> repair_pre ML blc ov ->
  exists b0, 1 <= b0 <= ML - 1 /\ blc b0 <> 0.
Proof.
  intros HML (H0 & Hn & Hk & Hov & Hb & Ht & _).
  destruct (exists_nonzero blc (fun b => 2 ^ (ML - b)) (Z.to_nat (ML - 1)) 1)
    as (b & Hb1 & Hnz).
  - intros Hs. rewrite kraft_sum_split, H0, Hs in Hk by exact HML.
    pose proof (total_bound ML blc ML Hn ltac:(lia)). lia.
  - exists b. split; [lia | exact Hnz].
Qed.

Lemma gen_bitlen_scan_spec blc :
  blc 0 = 0 ->
  forall fuel bits,
    bits < Z.of_nat fuel ->
    (exists b0, 1 <= b0 <= bits /\ blc b0 <> 0) ->
    exists b,
      gen_bitlen_scan fuel blc bits = Some b
      /\ 1 <= b <= bits /\ blc b <> 0
      /\ forall b', b < b' <= bits -> blc b' = 0.
Proof.
  intros H0. induction fuel as [| fuel IH]; intros bits Hf (b0 & Hb0 & Hnz);
    [lia |].
  cbn [gen_bitlen_scan].
  destruct (Z.ltb_spec bits 0); [lia |].
  destruct (Z.eqb_spec (blc bits) 0) as [E | E].
  - destruct (IH (bits - 1)) as (b & Eb & Hb & Hbn & Hhi); [lia | |].
    + exists b0. split; [| exact Hnz].
      destruct (Z.eq_dec b0 bits) as [-> | ?]; [contradiction | lia].
    + exists b. split; [exact Eb |]. split; [lia |]. split; [exact Hbn |].
      intros b' Hb'. destruct (Z.eq_dec b' bits) as [-> | ?]; [exact E |].
      apply Hhi. lia.
  - exists bits. split; [reflexivity |]. split; [lia |]. split; [exact E |].
    intros b' Hb'. lia.
Qed.

Lemma sumf_upd_in (a w : Z -> Z) i v ML :
  0 <= i <= ML ->
  sumf (fun b => upd a i v b * w b) (Zseq 0 (Z.to_nat (ML + 1)))
  = sumf (fun b => a b * w b) (Zseq 0 (Z.to_nat (ML + 1))) + (v - a i) * w i.
Proof.
  intros Hi. apply sumf_upd; [apply NoDup_Zseq | apply In_Zseq; lia].
Qed.

(** One round of the repair: a leaf goes down from [bits] to [bits + 1],
    and one of the leaves at [ML] comes up beside it. *)
Lemma repair_round ML blc ov bits :
  repair_pre ML blc ov -> 1 <= ML <= 15 ->
  1 <= bits <= ML - 1 -> blc bits <> 0 ->
  let blc1 := upd blc bits (ush (blc bits - 1)) in
  let blc2 := upd blc1 (bits + 1) (ush (blc1 (bits + 1) + 2)) in
  let blc3 := upd blc2 ML (ush (blc2 ML - 1)) in
  blc3 0 = 0
  /\ (forall b, 0 <= b <= ML -> 0 <= blc3 b)
  /\ 2 * kraft_sum ML blc3 = 2 * 2 ^ ML + (ov - 2)
  /\ ov <= 2 * blc3 ML
  /\ total ML blc3 = total ML blc
  /\ (forall b, ML < b -> blc3 b = blc b)
  /\ (forall b,
        blc3 b
        = blc b + (if b =? bits + 1 then 2 else 0)
          - (if b =? bits then 1 else 0) - (if b =? ML then 1 else 0)).
Proof.
  intros (H0 & Hn & Hk & Hov & Hb & Ht & Ht') HML Hbits Hnz. cbv zeta.
  assert (Hle : forall b, 0 <= b <= ML -> 0 <= blc b <= total ML blc).
  { intros b Hb'. split; [apply Hn; exact Hb' | apply total_bound; assumption]. }
  change (2 ^ 15) with 32768 in Ht'.
  assert (Hu : forall x, 0 <= x < 40000 -> ush x = x).
  { intros x Hx. apply ush_small_16. change (2 ^ 16) with 65536. lia. }
  pose proof (Hle bits ltac:(lia)) as B1.
  pose proof (Hle (bits + 1) ltac:(lia)) as B2.
  pose proof (Hle ML ltac:(lia)) as B3.
  set (blc1 := upd blc bits (ush (blc bits - 1))).
  assert (E1 : ush (blc bits - 1) = blc bits - 1) by (apply Hu; lia).
  assert (E12 : blc1 (bits + 1) = blc (bits + 1))
    by (unfold blc1; apply upd_other; lia).
  set (blc2 := upd blc1 (bits + 1) (ush (blc1 (bits + 1) + 2))).
  assert (E2 : ush (blc1 (bits + 1) + 2) = blc (bits + 1) + 2)
    by (rewrite E12; apply Hu; lia).
  assert (E2M : 1 <= blc2 ML /\ blc ML <= blc2 ML).
  { unfold blc2. destruct (Z.eq_dec ML (bits + 1)) as [-> | Hne].
    - rewrite upd_same, E2. lia.
    - rewrite upd_other by exact Hne. unfold blc1.
      rewrite upd_other by lia. lia. }
  assert (E2M' : blc2 ML <= total ML blc + 2).
  { unfold blc2. destruct (Z.eq_dec ML (bits + 1)) as [-> | Hne].
    - rewrite upd_same, E2. lia.
    - rewrite upd_other by exact Hne. unfold blc1.
      rewrite upd_other by lia. lia. }
  assert (E3 : ush (blc2 ML - 1) = blc2 ML - 1) by (apply Hu; lia).
  set (blc3 := upd blc2 ML (ush (blc2 ML - 1))).
  assert (K : kraft_sum ML blc3 = kraft_sum ML blc - 1).
  { unfold kraft_sum, blc3. rewrite sumf_upd_in, E3 by lia.
    unfold blc2 at 1. rewrite sumf_upd_in, E2, E12 by lia.
    unfold blc1 at 1. rewrite sumf_upd_in, E1 by lia.
    rewrite Z.sub_diag. change (2 ^ 0) with 1.
    replace (ML - bits) with (Z.succ (ML - (bits + 1))) by lia.
    rewrite Z.pow_succ_r by lia. lia. }
  assert (T : total ML blc3 = total ML blc).
  { unfold total, blc3. rewrite sumf_upd_in, E3 by lia.
    unfold blc2 at 1. rewrite sumf_upd_in, E2, E12 by lia.
    unfold blc1 at 1. rewrite sumf_upd_in, E1 by lia. lia. }
  split.
  { unfold blc3, blc2, blc1. rewrite !upd_other by lia. exact H0. }
  split.
  { intros b Hb'. unfold blc3.
    destruct (Z.eq_dec b ML) as [-> | N3];
      [rewrite upd_same, E3; lia | rewrite upd_other by exact N3].
    unfold blc2.
    destruct (Z.eq_dec b (bits + 1)) as [-> | N2];
      [rewrite upd_same, E2; lia | rewrite upd_other by exact N2].
    unfold blc1.
    destruct (Z.eq_dec b bits) as [-> | N1];
      [rewrite upd_same, E1; lia | rewrite upd_other by exact N1].
    apply Hn. exact Hb'. }
  split; [lia |].
  split; [unfold blc3; rewrite upd_same, E3; lia |].
  split; [exact T |].
  split.
  { intros b Hb'. unfold blc3, blc2, blc1. rewrite !upd_other by lia.
    reflexivity. }
  intros b. unfold blc3.
  destruct (Z.eqb_spec b ML) as [-> | N3].
  - rewrite upd_same, E3. unfold blc2.
    destruct (Z.eqb_spec ML (bits + 1)) as [EM | NM].
    + rewrite EM, upd_same, E2.
      destruct (Z.eqb_spec (bits + 1) bits); lia.
    + rewrite upd_other by exact NM. unfold blc1.
      rewrite upd_other by lia.
      destruct (Z.eqb_spec ML bits); lia.
  - rewrite upd_other by exact N3. unfold blc2.
    destruct (Z.eqb_spec b (bits + 1)) as [-> | N2].
    + rewrite upd_same, E2. destruct (Z.eqb_spec (bits + 1) bits); lia.
    + rewrite upd_other by exact N2. unfold blc1.
      destruct (Z.eqb_spec b bits) as [-> | N1].
      * rewrite upd_same, E1. lia.
      * rewrite upd_other by exact N1. lia.
Qed.

(** The repair loop ends, with the counts of a complete code. *)
Lemma gen_bitlen_repair_spec ML fuel0 :
  1 <= ML <= 15 -> ML <= Z.of_nat fuel0 ->
  forall fuel blc ov,
    repair_pre ML blc ov -> ov <= 2 * Z.of_nat fuel ->
    exists blc',
      gen_bitlen_repair fuel0 fuel ML blc ov = Some blc'
      /\ kraft_sum ML blc' = 2 ^ ML
      /\ total ML blc' = total ML blc
      /\ blc' 0 = 0
      /\ (forall b, 0 <= b <= ML -> 0 <= blc' b)
      /\ (forall b, ML < b -> blc' b = blc b).
Proof.
  intros HML Hf0. induction fuel as [| fuel IH]; intros blc ov Hpre Hf.
  - destruct Hpre as (_ & _ & _ & Hov & _). lia.
  - cbn [gen_bitlen_repair].
    destruct (repair_pre_nonzero ML blc ov ltac:(lia) Hpre) as (b0 & Hb0 & Hnz0).
    destruct (gen_bitlen_scan_spec blc ltac:(apply Hpre) fuel0 (ML - 1))
      as (bits & Es & Hbits & Hnz & _);
      [lia | exists b0; split; assumption |].
    rewrite Es.
    destruct (repair_round ML blc ov bits Hpre HML Hbits Hnz)
      as (R0 & Rn & Rk & Rb & Rt & Ro & _).
    cbv zeta in R0, Rn, Rk, Rb, Rt, Ro.
    set (blc3 := upd _ ML _) in *.
    destruct Hpre as (H0 & Hn & Hk & Hov & Hb & Ht & Ht').
    destruct (Z.gtb_spec (ov - 2) 0) as [Hg | Hg].
    + destruct (IH blc3 (ov - 2)) as (blc' & E & K & T & Z0 & N & O).
      * unfold repair_pre. rewrite Rt.
        repeat split; try assumption; try lia.
      * lia.
      * exists blc'. split; [exact E |]. split; [exact K |].
        split; [lia |]. split; [exact Z0 |]. split; [exact N |].
        intros b Hb'. rewrite O, Ro by exact Hb'. reflexivity.
    + exists blc3. split; [reflexivity |].
      split; [lia |]. split; [exact Rt |]. split; [exact R0 |].
      split; [exact Rn | exact Ro].
Qed.
(** *** gen_bitlen: the lengths given again *)

Lemma zone_last {A} (h : Z -> A) lo hi :
  lo < hi ->
  zone h lo (Z.to_nat (hi - lo))
  = zone h lo (Z.to_nat (hi - 1 - lo)) ++ [h (hi - 1)].
Proof.
  intros H. replace (Z.to_nat (hi - lo)) with (S (Z.to_nat (hi - 1 - lo))) by lia.
  rewrite zone_snoc. do 3 f_equal. lia.
Qed.

Lemma zone_first {A} (h : Z -> A) lo hi :
  lo < hi ->
  zone h (lo - 1) (Z.to_nat (hi - (lo - 1)))
  = h (lo - 1) :: zone h lo (Z.to_nat (hi - lo)).
Proof.
  intros H.
  replace (Z.to_nat (hi - (lo - 1))) with (S (Z.to_nat (hi - lo))) by lia.
  rewrite zone_cons. do 2 f_equal. lia.
Qed.

Lemma zone_cut {A} (h : Z -> A) lo mid hi :
  lo <= mid <= hi ->
  zone h lo (Z.to_nat (hi - lo))
  = zone h lo (Z.to_nat (mid - lo)) ++ zone h mid (Z.to_nat (hi - mid)).
Proof.
  intros H.
  replace (Z.to_nat (hi - lo))
    with (Z.to_nat (mid - lo) + Z.to_nat (hi - mid))%nat by lia.
  rewrite zone_app. do 2 f_equal. lia.
Qed.

(** [gen_bitlen_assign] gives the length [bits] to the next [n] leaves
    below the index [h], and stops at the last of them. *)
Lemma gen_bitlen_assign_spec s mc bits lo :
  1 <= bits <= 15 -> 0 <= lo ->
  forall fuel n h tree opt,
    lo <= h ->
    0 <= n <= countf (fun x => x <=? mc) (zone (heap s) lo (Z.to_nat (h - lo))) ->
    h - lo < Z.of_nat fuel ->
    (forall x, In x (zone (heap s) lo (Z.to_nat (h - lo))) -> x <= mc ->
       0 <= dl (tree x) <= 15) ->
    exists h' tree' opt',
      gen_bitlen_assign fuel s mc bits n h tree opt = Some (h', tree', opt')
      /\ lo <= h' <= h
      /\ countf (fun x => x <=? mc) (zone (heap s) h' (Z.to_nat (h - h'))) = n
      /\ (forall x, In x (zone (heap s) h' (Z.to_nat (h - h'))) -> x <= mc ->
            dl (tree' x) = bits)
      /\ (forall x,
            ~ (In x (zone (heap s) h' (Z.to_nat (h - h'))) /\ x <= mc) ->
            tree' x = tree x).
Proof.
  intros Hbits Hlo.
  induction fuel as [| fuel IH]; intros n h tree opt Hh Hn Hf Hr; [lia |].
  cbn [gen_bitlen_assign].
  destruct (Z.eqb_spec n 0) as [-> | Hn0].
  - exists h, tree, opt. split; [reflexivity |]. split; [lia |].
    rewrite Z.sub_diag. cbn [Z.to_nat zone Zseq map].
    split; [reflexivity |]. split; [intros x [] |]. reflexivity.
  - assert (Hlt : lo < h).
    { destruct (Z_lt_le_dec lo h) as [? | Hle]; [assumption |].
      replace (Z.to_nat (h - lo)) with 0%nat in Hn by lia.
      cbn in Hn. lia. }
    destruct (Z.ltb_spec (h - 1) 0); [lia |].
    rewrite (zone_last (heap s) lo h Hlt) in Hn, Hr.
    rewrite countf_app in Hn. unfold countf at 2 in Hn. cbn [sumf] in Hn.
    set (m := heap s (h - 1)) in *.
    assert (Hzf : forall h', lo <= h' <= h - 1 ->
              zone (heap s) h' (Z.to_nat (h - h'))
              = zone (heap s) h' (Z.to_nat (h - 1 - h')) ++ [m]).
    { intros h' Hh'. apply zone_last. lia. }
    destruct (Z.gtb_spec m mc) as [Hg | Hg].
    + destruct (Z.leb_spec m mc); [lia |].
      destruct (IH n (h - 1) tree opt) as (h' & tree' & opt' & E & Hh' & Hc & Hb & Ho).
      * lia.
      * lia.
      * lia.
      * intros x Hx. apply Hr. apply in_or_app. left. exact Hx.
      * exists h', tree', opt'. split; [exact E |]. split; [lia |].
        rewrite Hzf by exact Hh'. rewrite countf_app.
        unfold countf at 2. cbn [sumf].
        destruct (Z.leb_spec m mc); [lia |].
        split; [lia |]. split.
        -- intros x Hx Hxl. apply in_app_or in Hx.
           destruct Hx as [Hx | [<- | []]]; [| lia].
           apply Hb; assumption.
        -- intros x Hx. apply Ho. intros [Hin Hxl]. apply Hx.
           split; [apply in_or_app; left; exact Hin | exact Hxl].
    + destruct (Z.leb_spec m mc); [| lia].
      set (st1 := if negb (uns (Len (tree m)) =? uns bits) then _ else _).
      assert (H1 : dl (fst st1 m) = bits
                   /\ forall x, x <> m -> fst st1 x = tree x).
      { unfold st1.
        destruct (Z.eqb_spec (uns (Len (tree m))) (uns bits)) as [E | E];
          cbn [negb fst].
        - split; [| reflexivity].
          assert (0 <= dl (tree m) <= 15).
          { apply Hr; [| lia]. apply in_or_app. right. left. reflexivity. }
          unfold uns, Len in E.
          rewrite !Z.mod_small in E by (change (2 ^ 32) with 4294967296; lia).
          exact E.
        - split.
          + rewrite upd_same. unfold set_Len. cbn [dl].
            apply ush_small_16. change (2 ^ 16) with 65536. lia.
          + intros x Hx. apply upd_other. exact Hx. }
      destruct st1 as [tree1 opt1]. cbn [fst] in H1. destruct H1 as [H1 H1'].
      destruct (IH (n - 1) (h - 1) tree1 opt1)
        as (h' & tree' & opt' & E & Hh' & Hc & Hb & Ho).
      * lia.
      * lia.
      * lia.
      * intros x Hx Hxl. destruct (Z.eq_dec x m) as [-> | Hne]; [lia |].
        rewrite H1' by exact Hne. apply Hr; [| exact Hxl].
        apply in_or_app. left. exact Hx.
      * exists h', tree', opt'. split; [exact E |]. split; [lia |].
        rewrite Hzf by exact Hh'. rewrite countf_app.
        unfold countf at 2. cbn [sumf].
        destruct (Z.leb_spec m mc); [| lia].
        split; [lia |]. split.
        -- intros x Hx Hxl. apply in_app_or in Hx.
           destruct Hx as [Hx | [<- | []]]; [apply Hb; assumption |].
           destruct (in_dec Z.eq_dec m
                       (zone (heap s) h' (Z.to_nat (h - 1 - h'))))
             as [Hin | Hnin].
           ++ apply Hb; assumption.
           ++ rewrite Ho by (intros [Hin _]; contradiction). exact H1.
        -- intros x Hx.
           assert (Hxm : x <> m).
           { intros ->. apply Hx. split; [| lia].
             apply in_or_app. right. left. reflexivity. }
           rewrite Ho; [apply H1'; exact Hxm |].
           intros [Hin Hxl]. apply Hx.
           split; [apply in_or_app; left; exact Hin | exact Hxl].
Qed.

Lemma countf_zero {A} (p : A -> bool) l :
  countf p l = 0 -> forall x, In x l -> p x = false.
Proof.
  unfold countf. induction l as [| y l IH]; intros H x Hx; [contradiction |].
  cbn [sumf] in H.
  assert (0 <= sumf (fun x => if p x then 1 else 0) l)
    by (apply (countf_nonneg p)).
  destruct Hx as [-> | Hx].
  - destruct (p x); [lia | reflexivity].
  - apply IH; [| exact Hx]. destruct (p y); lia.
Qed.

Section Assign.

Variables (s : deflate_state) (mc ML lo top : Z) (fuel : nat).
Variables (blc : Z -> Z) (tree0 : Z -> ct_data).

Let rest := zone (heap s) lo (Z.to_nat (top - lo)).
Let leaf := fun x => x <=? mc.
Let body :=
  fun bits '(h, tree, opt_len) =>
    gen_bitlen_assign fuel s mc bits (blc bits) h tree opt_len.

Hypothesis H_lo : 0 <= lo <= top.
Hypothesis H_fuel : top - lo < Z.of_nat fuel.
Hypothesis H_ML : 1 <= ML <= 15.
Hypothesis H_nd : NoDup rest.
Hypothesis H_b0 : blc 0 = 0.
Hypothesis H_bn : forall b, 0 <= b <= ML -> 0 <= blc b.
Hypothesis H_total : countf leaf rest = total ML blc.
Hypothesis H_r0 :
  forall x, In x rest -> x <= mc -> 0 <= dl (tree0 x) <= 15.

(** The state of the loop before the length [b] is given. *)
Definition assign_ok (b : Z) (st : Z * (Z -> ct_data) * Z) : Prop :=
  let '(h, tree, _) := st in
  let X := zone (heap s) h (Z.to_nat (top - h)) in
  lo <= h <= top
  /\ countf leaf (zone (heap s) lo (Z.to_nat (h - lo)))
     = sumf (fun c => blc c * 1) (Zseq 0 (Z.to_nat (b + 1)))
  /\ (forall c, b < c <= ML ->
        countf (fun x => leaf x && (dl (tree x) =? c)) X = blc c)
  /\ (forall x, In x X -> x <= mc -> b < dl (tree x) <= ML)
  /\ (forall x, ~ (In x X /\ x <= mc) -> tree x = tree0 x).

Lemma rest_cut h : lo <= h <= top ->
  rest = zone (heap s) lo (Z.to_nat (h - lo))
         ++ zone (heap s) h (Z.to_nat (top - h)).
Proof. intros H. apply zone_cut. exact H. Qed.

Lemma assign_round b st :
  1 <= b <= ML -> assign_ok b st ->
  exists st', body b st = Some st' /\ assign_ok (b - 1) st'.
Proof.
  destruct st as [[h tree] opt]. intros Hb (Hh & Hrem & J1 & J2 & J3).
  unfold body.
  set (X := zone (heap s) h (Z.to_nat (top - h))) in *.
  pose proof (rest_cut h Hh) as Hcut. fold X in Hcut.
  assert (Hsum : sumf (fun c => blc c * 1) (Zseq 0 (Z.to_nat (b + 1)))
                 = sumf (fun c => blc c * 1) (Zseq 0 (Z.to_nat b)) + blc b).
  { replace (Z.to_nat (b + 1)) with (S (Z.to_nat b)) by lia.
    rewrite Zseq_snoc, sumf_app. cbn [sumf]. rewrite Z2Nat.id by lia.
    rewrite Z.add_0_l. lia. }
  assert (Hpos : 0 <= sumf (fun c => blc c * 1) (Zseq 0 (Z.to_nat b))).
  { apply sumf_nonneg. intros c Hc. apply In_Zseq in Hc.
    rewrite Z.mul_1_r. apply H_bn. lia. }
  destruct (gen_bitlen_assign_spec s mc b lo ltac:(lia) ltac:(lia)
              fuel (blc b) h tree opt)
    as (h' & tree' & opt' & E & Hh' & Hc & Hl & Ho).
  - lia.
  - fold leaf. rewrite Hrem, Hsum. split; [apply H_bn; lia | lia].
  - lia.
  - intros x Hx Hxl. rewrite J3.
    + apply H_r0; [| exact Hxl]. rewrite Hcut. apply in_or_app. left. exact Hx.
    + intros [Hin _]. rewrite Hcut in H_nd.
      apply (NoDup_app_disjoint _ _ x H_nd); assumption.
  - exists (h', tree', opt'). split; [exact E |].
    set (Xb := zone (heap s) h' (Z.to_nat (h - h'))) in *.
    assert (HX' : zone (heap s) h' (Z.to_nat (top - h')) = Xb ++ X)
      by (apply zone_cut; lia).
    assert (Hrem' : zone (heap s) lo (Z.to_nat (h - lo))
                    = zone (heap s) lo (Z.to_nat (h' - lo)) ++ Xb)
      by (apply zone_cut; lia).
    assert (Hdis : forall x, In x X -> ~ In x Xb).
    { intros x Hx Hxb. rewrite Hcut, Hrem', <- app_assoc in H_nd.
      apply NoDup_app_remove_l in H_nd.
      apply (NoDup_app_disjoint _ _ x H_nd); assumption. }
    assert (HtX : forall x, In x X -> tree' x = tree x).
    { intros x Hx. apply Ho. intros [Hin _]. apply (Hdis x); assumption. }
    unfold assign_ok. rewrite HX'.
    split; [lia |]. split.
    { rewrite Hrem', countf_app in Hrem. fold leaf in Hc.
      replace (b - 1 + 1) with b by lia. lia. }
    split.
    { intros c Hc'. rewrite countf_app.
      rewrite (countf_ext (fun x => leaf x && (dl (tree' x) =? c))
                          (fun x => leaf x && (b =? c)) Xb).
      2:{ intros x Hx. unfold leaf. destruct (Z.leb_spec x mc); [| reflexivity].
          rewrite Hl by assumption. reflexivity. }
      rewrite (countf_ext (fun x => leaf x && (dl (tree' x) =? c))
                          (fun x => leaf x && (dl (tree x) =? c)) X).
      2:{ intros x Hx. rewrite HtX by exact Hx. reflexivity. }
      destruct (Z.eqb_spec b c) as [<- | Hne].
      - rewrite (countf_ext (fun x => leaf x && true) leaf Xb)
          by (intros x _; apply andb_true_r).
        fold leaf in Hc. rewrite Hc.
        assert (HX0 : countf (fun x => leaf x && (dl (tree x) =? b)) X = 0).
        { apply sumf_zero. intros x Hx. unfold leaf.
          destruct (Z.leb_spec x mc) as [Hxl | Hxl]; [| reflexivity].
          specialize (J2 x Hx Hxl).
          destruct (Z.eqb_spec (dl (tree x)) b); [lia | reflexivity]. }
        rewrite HX0. lia.
      - rewrite J1 by lia.
        assert (HX0 : countf (fun x => leaf x && false) Xb = 0).
        { apply sumf_zero. intros x _. rewrite andb_false_r. reflexivity. }
        rewrite HX0. lia. }
    split.
    { intros x Hx Hxl. apply in_app_or in Hx. destruct Hx as [Hx | Hx].
      - rewrite Hl by assumption. lia.
      - rewrite HtX by exact Hx. specialize (J2 x Hx Hxl). lia. }
    intros x Hx. rewrite Ho, J3.
    + reflexivity.
    + intros [Hin Hxl]. apply Hx. split; [| exact Hxl].
      apply in_or_app. right. exact Hin.
    + intros [Hin Hxl]. apply Hx. split; [| exact Hxl].
      apply in_or_app. left. exact Hin.
Qed.

Lemma assign_rounds :
  forall rounds b st,
    Z.of_nat rounds = b -> b <= ML -> assign_ok b st ->
    exists st', for_down_opt rounds b body st = Some st' /\ assign_ok 0 st'.
Proof.
  induction rounds as [| rounds IH]; intros b st Hr Hb Hok.
  - exists st. split; [reflexivity |]. rewrite <- Hr in Hok. exact Hok.
  - cbn [for_down_opt].
    destruct (assign_round b st ltac:(lia) Hok) as (st1 & E1 & Hok1).
    rewrite E1. apply IH; [lia | lia | exact Hok1].
Qed.

(** The last loop of [gen_bitlen]: every leaf gets a length, as many
    leaves each length as [bl_count] says. *)
Lemma assign_spec opt0 :
  exists h tree opt,
    for_down_opt (Z.to_nat ML) ML body (top, tree0, opt0)
    = Some (h, tree, opt)
    /\ (forall c, 1 <= c <= ML ->
          countf (fun x => leaf x && (dl (tree x) =? c)) rest = blc c)
    /\ (forall x, In x rest -> x <= mc -> 1 <= dl (tree x) <= ML)
    /\ (forall x, ~ (In x rest /\ x <= mc) -> tree x = tree0 x).
Proof.
  destruct (assign_rounds (Z.to_nat ML) ML (top, tree0, opt0))
    as ([[h tree] opt] & E & (Hh & Hrem & J1 & J2 & J3)).
  - lia.
  - lia.
  - unfold assign_ok. rewrite Z.sub_diag. cbn [Z.to_nat zone Zseq map].
    split; [lia |]. split; [exact H_total |].
    split; [intros c Hc; lia |]. split; [intros x [] |].
    intros x _. reflexivity.
  - exists h, tree, opt. split; [exact E |].
    pose proof (rest_cut h Hh) as Hcut.
    change (Z.to_nat (0 + 1)) with 1%nat in Hrem.
    cbn [Zseq sumf] in Hrem. rewrite H_b0 in Hrem.
    assert (Hnl : forall x,
              In x (zone (heap s) lo (Z.to_nat (h - lo))) -> leaf x = false).
    { apply countf_zero. lia. }
    split; [| split].
    + intros c Hc. rewrite Hcut, countf_app, J1 by lia.
      assert (H0 : countf (fun x => leaf x && (dl (tree x) =? c))
                     (zone (heap s) lo (Z.to_nat (h - lo))) = 0).
      { apply sumf_zero. intros x Hx. rewrite (Hnl x Hx). reflexivity. }
      rewrite H0. lia.
    + intros x Hx Hxl. rewrite Hcut in Hx. apply in_app_or in Hx.
      destruct Hx as [Hx | Hx].
      * apply Hnl in Hx. unfold leaf in Hx.
        destruct (Z.leb_spec x mc); [discriminate | lia].
      * specialize (J2 x Hx Hxl). lia.
    + intros x Hx. apply J3. intros [Hin Hxl]. apply Hx.
      split; [| exact Hxl]. rewrite Hcut. apply in_or_app. right. exact Hin.
Qed.

End Assign.
(** *** gen_bitlen *)

Lemma countf_true {A} (l : list A) :
  countf (fun _ => true) l = Z.of_nat (length l).
Proof. unfold countf. rewrite sumf_const. lia. Qed.

Lemma kraft_sum_leaves (len : Z -> Z) ML (L0 : list Z) (blc : Z -> Z) :
  0 <= ML ->
  (forall x, In x L0 -> 0 <= len x <= ML) ->
  (forall b, 0 <= b <= ML -> blc b = countf (fun x => len x =? b) L0) ->
  kraft_sum ML blc = sumf (fun x => 2 ^ (ML - len x)) L0
  /\ total ML blc = Z.of_nat (length L0).
Proof.
  intros HML Hr Hb. unfold kraft_sum, total. split.
  - rewrite (sumf_by_value len (fun b => 2 ^ (ML - b)) L0 0 (Z.to_nat (ML + 1)))
      by (intros x Hx; apply Hr in Hx; lia).
    apply sumf_ext. intros b Hin. apply In_Zseq in Hin.
    rewrite Hb by lia. reflexivity.
  - rewrite <- (Z.mul_1_l (Z.of_nat (length L0))), <- sumf_const.
    rewrite (sumf_by_value len (fun _ => 1) L0 0 (Z.to_nat (ML + 1)))
      by (intros x Hx; apply Hr in Hx; lia).
    apply sumf_ext. intros b Hin. apply In_Zseq in Hin.
    rewrite Hb by lia. reflexivity.
Qed.

(** [gen_bitlen] on the tree of [build_tree]: it ends, and gives the
    leaves lengths within 1..ML that fill the code space exactly;
    [bl_count] counts the leaves of each length. *)
Lemma gen_bitlen_spec desc L0 treeA s k root rest fuel :
  let E := elems (stat_desc desc) in
  let ML := max_length (stat_desc desc) in
  let mc := max_code s desc in
  tree_ok desc L0 treeA s k root rest ->
  NoDup L0 -> (forall x, In x L0 -> 0 <= x <= mc) -> mc < E ->
  (1 <= k)%nat -> (573 <= fuel)%nat ->
  exists s',
    gen_bitlen fuel s desc = Some s'
    /\ others desc s' = others desc s
    /\ max_code s' desc = mc
    /\ (forall x, In x L0 -> 1 <= dl (dyn_tree s' desc x) <= ML)
    /\ (forall x, ~ In x (root :: rest) ->
          dyn_tree s' desc x = dyn_tree s desc x)
    /\ sumf (fun x => 2 ^ (ML - dl (dyn_tree s' desc x))) L0 = 2 ^ ML
    /\ (forall b, 0 <= b <= MAX_BITS ->
          bl_count s' b
          = countf (fun x => dl (dyn_tree s' desc x) =? b) L0).
Proof.
  cbv zeta.
  intros (Hk & Hm & Hz & Hp & Hdad & Hok & Hfr) Hnd HL0 Hmc Hk1 Hfuel.
  pose proof (elems_range desc) as HE.
  pose proof (max_length_range desc) as [HML HEML].
  unfold MAX_BITS in HML.
  set (E := elems (stat_desc desc)) in *.
  set (ML := max_length (stat_desc desc)) in *.
  set (mc := max_code s desc) in *.
  change HEAP_SIZE with 573 in Hm.
  assert (HLE : forall x, In x L0 -> 0 <= x < E)
    by (intros x Hx; apply HL0 in Hx; lia).
  pose proof (length_leaves L0 E Hnd HLE) as HlenL.
  (* the sorted part of the heap *)
  replace (2 * k + 1)%nat with (S (2 * k)) in Hz by lia.
  rewrite zone_cons in Hz. injection Hz as Hroot Hrest.
  assert (Hlr : length rest = (2 * k)%nat)
    by (rewrite <- Hrest; apply length_zone).
  assert (Hn : Z.to_nat (HEAP_SIZE - (heap_max s + 1)) = length rest)
    by (change HEAP_SIZE with 573; lia).
  assert (Hrest' : zone (heap s) (heap_max s + 1) (length rest) = rest)
    by (rewrite Hlr; exact Hrest).
  assert (NDS : NoDup (root :: rest)).
  { apply (Permutation_NoDup (l := L0 ++ Zseq E k));
      [symmetry; exact Hp | apply NoDup_leaves_nodes; assumption]. }
  pose proof NDS as NDS'. apply NoDup_cons_iff in NDS'.
  destruct NDS' as [Hrn NDR].
  (* the loop over the nodes *)
  unfold gen_bitlen. rewrite Hn, Hroot. fold mc. fold ML.
  set (tree := dyn_tree s desc) in *.
  set (treeR := upd tree root (set_Len (tree root) 0)).
  set (blc0 := for_up (Z.to_nat (MAX_BITS + 1)) 0 _ (bl_count s)).
  assert (HdR : forall x, In x rest -> dl (treeR x) = dl (tree x)).
  { intros x Hx. unfold treeR. rewrite upd_other; [reflexivity |].
    intros ->. contradiction. }
  assert (HokR : dads_ok (fun x => dl (treeR x)) [root] rest)
    by (apply (dads_ok_ext _ _ _ _ Hok); exact HdR).
  assert (HdadR : map (fun x => dl (treeR x)) rest = dbl_desc E k)
    by (rewrite <- Hdad; apply map_ext_in; exact HdR).
  pose proof (gen_bitlen_count_loop desc s treeR root rest (heap_max s + 1)
                blc0 (opt_len s) (static_len s) Hrest' NDS HokR
                ltac:(unfold treeR; rewrite upd_same; reflexivity)
                ltac:(lia)
                ltac:(intros b Hb; unfold blc0; rewrite bl_count_zero;
                      destruct (Z.leb_spec 0 b); destruct (Z.leb_spec b MAX_BITS);
                      cbn [andb]; try reflexivity; lia)
                (length rest) (le_n _)) as Hcount.
  rewrite Hrest' in Hcount. fold mc in Hcount.
  destruct (for_up (length rest) (heap_max s + 1) (gen_bitlen_count s desc)
              (treeR, blc0, opt_len s, static_len s, 0))
    as [[[[tE blcE] olE] slE] ov].
  destruct Hcount as (C1 & C2 & C3 & C4 & C5). fold ML in C1, C3, C4.
  set (len := fun x => dl (tE x)).
  set (dad := fun x => dl (treeR x)).
  assert (Hlroot : len root = 0).
  { unfold len. rewrite C2 by exact Hrn. unfold treeR. rewrite upd_same.
    reflexivity. }
  assert (Hrl : mc < root)
    by (apply (root_not_leaf mc E ML L0 k root rest len dad); assumption).
  assert (HLrest : forall x, In x L0 -> In x rest).
  { intros x Hx.
    assert (Hin : In x (root :: rest)).
    { apply (Permutation_in _ (Permutation_sym Hp)). apply in_or_app. left.
      exact Hx. }
    destruct Hin as [<- | Hin]; [| exact Hin]. apply HL0 in Hx. lia. }
  assert (HlenL0 : forall x, In x L0 -> 1 <= len x <= ML)
    by (intros x Hx; apply C1, HLrest; exact Hx).
  assert (HblcE : forall b, 0 <= b <= MAX_BITS ->
            blcE b = countf (fun x => len x =? b) L0).
  { intros b Hb. rewrite C5 by exact Hb.
    apply (leaves_count mc E ML L0 k root rest len dad); assumption. }
  pose proof (kraft_overflow E ML L0 k root rest len dad Hp HdadR HokR
                Hk Hk1 ltac:(lia) Hlroot C1 C3) as HK.
  change (countf (fun x => len (dad x) =? ML) rest) with
    (countf (fun x => dl (tE (dl (treeR x))) =? ML) rest) in HK.
  rewrite <- C4 in HK.
  destruct (kraft_sum_leaves len ML L0 blcE ltac:(lia)) as [KS TS].
  { intros x Hx. apply HlenL0 in Hx. lia. }
  { intros b Hb. apply HblcE. unfold MAX_BITS. lia. }
  assert (Hov0 : 0 <= ov) by (rewrite C4; apply countf_nonneg).
  destruct (Z.eqb_spec ov 0) as [Eov | Eov].
  - (* no overflow *)
    eexists. split; [reflexivity |].
    split; [destruct desc; reflexivity |].
    split; [destruct desc; reflexivity |].
    assert (T' : dyn_tree
                   (set_opt_len
                      (set_dyn_tree
                         (set_static_len (set_bl_count s blcE) slE) desc tE)
                      olE) desc = tE) by (destruct desc; reflexivity).
    rewrite T'.
    split; [exact HlenL0 |]. split.
    { intros x Hx. rewrite C2.
      - unfold treeR. apply upd_other. intros ->. apply Hx. left. reflexivity.
      - intros Hin. apply Hx. right. exact Hin. }
    split;
      [change (sumf (fun x => 2 ^ (ML - len x)) L0 = 2 ^ ML); lia |].
    intros b Hb.
    transitivity (blcE b); [destruct desc; reflexivity |].
    apply HblcE. exact Hb.
  - (* the repair *)
    assert (Hpre : repair_pre ML blcE ov).
    { unfold repair_pre.
      split.
      { rewrite HblcE by (unfold MAX_BITS; lia). apply sumf_zero.
        intros x Hx. apply HlenL0 in Hx.
        destruct (Z.eqb_spec (len x) 0); [lia | reflexivity]. }
      split.
      { intros b Hb. rewrite HblcE by (unfold MAX_BITS; lia).
        apply countf_nonneg. }
      split; [rewrite KS; exact HK |].
      split; [lia |].
      split.
      { rewrite HblcE by (unfold MAX_BITS; lia). rewrite C4.
        apply (overflow_bucket E ML L0 k root rest len dad); try assumption.
        - lia.
        - change (0 < countf (fun x => dl (tE (dl (treeR x))) =? ML) rest).
          rewrite <- C4. lia. }
      rewrite TS.
      assert (2 ^ 7 <= 2 ^ ML) by (apply Z.pow_le_mono_r; lia).
      change (2 ^ 7) with 128 in *. change (2 ^ 15) with 32768. lia. }
    assert (Hovb : ov <= Z.of_nat (length rest))
      by (rewrite C4; apply countf_le_length).
    destruct (gen_bitlen_repair_spec ML fuel ltac:(lia) ltac:(lia)
                fuel blcE ov Hpre ltac:(lia))
      as (blc' & Er & Kr & Tr & Z0 & Nr & Or).
    rewrite Er.
    set (s2 := set_bl_count (set_static_len (set_bl_count s blcE) slE) blc').
    assert (Hh2 : heap s2 = heap s) by reflexivity.
    assert (Hmax : Z.max HEAP_SIZE (heap_max s + 1) = 573)
      by (change HEAP_SIZE with 573; lia).
    rewrite Hmax.
    destruct (assign_spec s2 mc ML (heap_max s + 1) 573 fuel blc' tE) with
      (opt0 := olE) as (hF & tF & oF & EF & F1 & F2 & F3).
    + lia.
    + lia.
    + lia.
    + rewrite Hh2. replace (Z.to_nat (573 - (heap_max s + 1))) with (length rest) by lia.
      rewrite Hrest'. exact NDR.
    + exact Z0.
    + exact Nr.
    + rewrite Hh2. replace (Z.to_nat (573 - (heap_max s + 1))) with (length rest) by lia.
      rewrite Hrest', Tr, TS.
      rewrite (countf_ext (fun x => x <=? mc) (fun x => (x <=? mc) && true))
        by (intros x _; symmetry; apply andb_true_r).
      rewrite (leaves_count mc E ML L0 k root rest len dad) by assumption.
      apply countf_true.
    + rewrite Hh2. replace (Z.to_nat (573 - (heap_max s + 1))) with (length rest) by lia.
      rewrite Hrest'. intros x Hx _. apply C1 in Hx. lia.
    + rewrite Hh2 in F1, F2, F3.
      replace (Z.to_nat (573 - (heap_max s + 1))) with (length rest)
        in F1, F2, F3 by lia.
      rewrite Hrest' in F1, F2, F3.
      rewrite EF.
      eexists. split; [reflexivity |].
      split; [destruct desc; reflexivity |].
      split; [destruct desc; reflexivity |].
      assert (T' : dyn_tree (set_opt_len (set_dyn_tree s2 desc tF) oF) desc
                   = tF) by (destruct desc; reflexivity).
      rewrite T'.
      assert (HlenF : forall x, In x L0 -> 1 <= dl (tF x) <= ML).
      { intros x Hx. apply F2; [apply HLrest; exact Hx |].
        apply HL0 in Hx. lia. }
      assert (HcF : forall b, 0 <= b <= MAX_BITS ->
                blc' b = countf (fun x => dl (tF x) =? b) L0).
      { intros b Hb.
        destruct (Z.eq_dec b 0) as [-> | Hb0].
        { rewrite Z0. symmetry. apply sumf_zero. intros x Hx.
          apply HlenF in Hx.
          destruct (Z.eqb_spec (dl (tF x)) 0); [lia | reflexivity]. }
        destruct (Z_le_gt_dec b ML) as [Hle | Hgt].
        - rewrite <- F1 by lia.
          apply (leaves_count mc E ML L0 k root rest len dad); assumption.
        - rewrite Or, HblcE by (try exact Hb; lia).
          transitivity 0; [| symmetry]; apply sumf_zero.
          + intros x Hx. apply HlenL0 in Hx.
            destruct (Z.eqb_spec (len x) b); [lia | reflexivity].
          + intros x Hx. apply HlenF in Hx.
            destruct (Z.eqb_spec (dl (tF x)) b); [lia | reflexivity]. }
      split; [exact HlenF |]. split.
      { intros x Hx. rewrite F3, C2.
        - unfold treeR. apply upd_other. intros ->. apply Hx. left.
          reflexivity.
        - intros Hin. apply Hx. right. exact Hin.
        - intros [Hin _]. apply Hx. right. exact Hin. }
      split.
      { destruct (kraft_sum_leaves (fun x => dl (tF x)) ML L0 blc' ltac:(lia))
          as [KF _].
        - intros x Hx. apply HlenF in Hx. lia.
        - intros b Hb. apply HcF. unfold MAX_BITS. lia.
        - rewrite <- KF. exact Kr. }
      intros b Hb.
      transitivity (blc' b); [destruct desc; reflexivity |].
      apply HcF. exact Hb.
Qed.
(** *** build_tree *)

Lemma gen_codes_dl tree mc blc n : dl (gen_codes tree mc blc n) = dl (tree n).
Proof.
  unfold gen_codes.
  pose proof (gen_codes_next_ush blc) as Hush.
  destruct (gen_codes_next blc) as [code0 nc0]. cbn [snd] in Hush.
  destruct (gen_codes_assign_spec tree nc0 (Z.to_nat (mc + 1)) Hush)
    as (Hd & _).
  apply Hd.
Qed.

(** What [build_tree] returns: [L0] are the leaves of the tree, the
    symbols with a frequency and the ones added to have two. *)
Definition built (desc : tree_desc) (s s' : deflate_state) (L0 : list Z)
  : Prop :=
  let E := elems (stat_desc desc) in
  let ML := max_length (stat_desc desc) in
  let mc := max_code s' desc in
  let t' := dyn_tree s' desc in
  others desc s' = others desc s
  /\ NoDup L0 /\ (2 <= length L0)%nat
  /\ (forall x, In x L0 -> 0 <= x <= mc) /\ mc < E
  /\ (forall n, 0 <= n < E -> Freq (dyn_tree s desc n) <> 0 -> In n L0)
  /\ (forall x, In x L0 -> 1 <= Len (t' x) <= ML)
  /\ (forall n, 0 <= n < E -> ~ In n L0 -> Len (t' n) = 0)
  /\ sumf (fun x => 2 ^ (ML - Len (t' x))) L0 = 2 ^ ML
  /\ (forall b, 0 <= b <= MAX_BITS ->
        bl_count s' b = countf (fun x => Len (t' x) =? b) L0)
  /\ exists t6,
       (forall n, dyn_tree s' desc n = gen_codes t6 mc (bl_count s') n)
       /\ forall n, Len (t6 n) = Len (t' n).

(** [build_tree] returns, whatever the frequencies are. *)
Lemma build_tree_spec fuel s desc :
  (573 <= fuel)%nat ->
  exists s' L0, build_tree fuel s desc = Some s' /\ built desc s s' L0.
Proof.
  intros Hfuel. unfold build_tree. cbv zeta.
  pose proof (elems_range desc) as HE.
  destruct (build_tree_leaves desc s)
    as (L0 & HL & H2 & Hmc & Hfreq & Hzero & Hmax & Ho1).
  cbv zeta in HL, Hmc, Hzero, Hmax, Ho1.
  set (E := elems (stat_desc desc)) in *.
  destruct (for_up (Z.to_nat E) 0 (build_tree_collect desc)
              (set_heap_max (set_heap_len s 0) HEAP_SIZE, -1))
    as [sc mcc].
  destruct (build_tree_force 2 desc (sc, mcc)) as [s1 mc].
  cbn [fst snd] in *.
  destruct HL as (Hl1 & Hz1 & Hnd & Hr1 & _).
  assert (HLE : forall x, In x L0 -> 0 <= x < E)
    by (intros x Hx; apply Hr1 in Hx; lia).
  pose proof (length_leaves L0 E Hnd HLE) as HlenL.
  set (s2 := set_max_code s1 desc mc).
  assert (F2 : heap s2 = heap s1 /\ heap_len s2 = heap_len s1
               /\ heap_max s2 = heap_max s1
               /\ dyn_tree s2 desc = dyn_tree s1 desc
               /\ max_code s2 desc = mc
               /\ others desc s2 = others desc s1)
    by (destruct desc; repeat split; reflexivity).
  destruct F2 as (Hh2 & Hl2 & Hm2 & Ht2 & Hc2 & Ho2).
  destruct (build_tree_heapify_spec fuel s2 desc)
    as (s3 & E3 & Hu3 & Hp3 & Hout3); [lia | lia |].
  rewrite E3.
  pose proof (unheap_heap_len _ _ Hu3) as Hl3.
  pose proof (unheap_heap_max _ _ Hu3) as Hm3.
  pose proof (unheap_dyn_tree desc _ _ Hu3) as Ht3.
  pose proof (unheap_max_code desc _ _ Hu3) as Hc3.
  pose proof (unheap_others desc _ _ Hu3) as Ho3.
  assert (J3 : join_ok desc L0 (dyn_tree s3 desc) s3 0).
  { exists (length L0). split; [lia |]. split; [lia |].
    split; [change (Z.of_nat (2 * 0)) with 0; lia |].
    cbn [Nat.mul zone Zseq map dbl_desc].
    rewrite !app_nil_r.
    split.
    { rewrite Hl2, Hl1, Nat2Z.id, Hh2, Hz1 in Hp3. exact Hp3. }
    split; [reflexivity |]. split; [constructor |].
    intros x _. reflexivity. }
  destruct (build_tree_join_spec desc L0 (dyn_tree s3 desc) fuel Hnd HLE
              ltac:(lia) fuel s3 0 J3 ltac:(lia) ltac:(lia))
    as (s4 & k & E4 & J4 & Hl4 & Hc4 & Ho4).
  rewrite Z.add_0_r in E4. fold E in E4. rewrite E4.
  destruct (join_ok_heap_len _ _ _ _ _ J4) as [Hk4 _].
  destruct (join_ok_tree_ok desc L0 (dyn_tree s3 desc) s4 k J4 Hl4)
    as (root & rest & TK).
  cbv zeta in TK.
  set (s5 := set_heap (set_heap_max s4 (heap_max s4 - 1)) _) in *.
  assert (F5 : max_code s5 desc = max_code s4 desc
               /\ others desc s5 = others desc s4)
    by (destruct desc; split; reflexivity).
  destruct F5 as (Hc5 & Ho5).
  assert (Hmc5 : max_code s5 desc = mc) by congruence.
  destruct (gen_bitlen_spec desc L0 (dyn_tree s3 desc) s5 k root rest fuel TK
              Hnd)
    as (s6 & E6 & Ho6 & Hc6 & G1 & G2 & G3 & G4).
  { rewrite Hmc5. exact Hr1. }
  { rewrite Hmc5. exact Hmc. }
  { lia. }
  { exact Hfuel. }
  rewrite E6. rewrite Hmc5 in Hc6.
  set (t6 := dyn_tree s6 desc) in *.
  set (s7 := set_dyn_tree s6 desc (gen_codes t6 mc (bl_count s6))).
  assert (F7 : dyn_tree s7 desc = gen_codes t6 mc (bl_count s6)
               /\ max_code s7 desc = max_code s6 desc
               /\ bl_count s7 = bl_count s6
               /\ others desc s7 = others desc s6)
    by (destruct desc; repeat split; reflexivity).
  destruct F7 as (Ht7 & Hc7 & Hb7 & Ho7).
  exists s7, L0. split; [reflexivity |].
  unfold built. rewrite Ht7, Hc7, Hc6, Hb7. fold E.
  unfold Len.
  split; [congruence |]. split; [exact Hnd |]. split; [exact H2 |].
  split; [exact Hr1 |]. split; [exact Hmc |]. split; [exact Hfreq |].
  split; [intros x Hx; rewrite gen_codes_dl; apply G1; exact Hx |].
  split.
  { intros n Hn Hnin. rewrite gen_codes_dl. unfold t6. rewrite G2.
    - destruct TK as (_ & _ & _ & Hp & _ & _ & Hfr).
      rewrite Hfr.
      + rewrite Ht3, Ht2. apply Hzero; assumption.
      + intros Hin. apply (Permutation_in _ Hp) in Hin.
        apply in_app_or in Hin. destruct Hin as [Hin | Hin];
          [contradiction |].
        apply In_Zseq in Hin. fold E in Hin. lia.
    - destruct TK as (_ & _ & _ & Hp & _).
      intros Hin. apply (Permutation_in _ Hp) in Hin.
      apply in_app_or in Hin. destruct Hin as [Hin | Hin];
        [contradiction |].
      apply In_Zseq in Hin. fold E in Hin. lia. }
  split.
  { rewrite <- G3. apply sumf_ext. intros x _. rewrite gen_codes_dl.
    reflexivity. }
  split.
  { intros b Hb. rewrite G4 by exact Hb. apply countf_ext. intros x _.
    rewrite gen_codes_dl. reflexivity. }
  exists t6. split; [intros n; reflexivity |].
  intros n. rewrite gen_codes_dl. reflexivity.
Qed.
(** *** The code of build_tree is complete *)

Lemma first_code_sum blc :
  (forall b, 0 <= b < 15 -> 0 <= blc b <= 1000) ->
  forall k, (k <= 15)%nat ->
    first_code blc k
    = sumf (fun b => blc b * 2 ^ (Z.of_nat k - b)) (Zseq 0 k)
    /\ 0 <= first_code blc k <= 1000 * (2 ^ (Z.of_nat k + 1) - 2).
Proof.
  intros Hb. induction k as [| k IH]; intros Hk.
  - cbn. lia.
  - destruct IH as [IH1 IH2]; [lia |].
    pose proof (Hb (Z.of_nat k) ltac:(lia)) as Hbk.
    assert (Hp : 2 ^ (Z.of_nat k + 1) <= 2 ^ 15)
      by (apply Z.pow_le_mono_r; lia).
    change (2 ^ 15) with 32768 in Hp.
    cbn [first_code]. rewrite Z.shiftl_mul_pow2 by lia. change (2 ^ 1) with 2.
    unfold uns. rewrite Z.mod_small
      by (change (2 ^ 32) with 4294967296; lia).
    split.
    + rewrite Zseq_snoc, sumf_app. cbn [sumf].
      rewrite Z.add_0_l, Z.add_0_r.
      replace (Z.of_nat (S k) - Z.of_nat k) with 1 by lia.
      change (2 ^ 1) with 2.
      rewrite (sumf_ext (fun b => blc b * 2 ^ (Z.of_nat (S k) - b))
                        (fun b => 2 * (blc b * 2 ^ (Z.of_nat k - b)))).
      * rewrite sumf_scale, <- IH1. lia.
      * intros b Hin. apply In_Zseq in Hin.
        replace (Z.of_nat (S k) - b) with (Z.succ (Z.of_nat k - b)) by lia.
        rewrite Z.pow_succ_r by lia. lia.
    + replace (Z.of_nat (S k) + 1) with (Z.succ (Z.of_nat k + 1)) by lia.
      rewrite Z.pow_succ_r by lia. lia.
Qed.

Lemma sumf_leaves_pow (len : Z -> Z) ML L0 :
  0 <= ML <= 15 ->
  (forall x, In x L0 -> 1 <= len x <= ML) ->
  sumf (fun x => 2 ^ (ML - len x)) L0 = 2 ^ ML ->
  sumf (fun x => 2 ^ (15 - len x)) L0 = 2 ^ 15.
Proof.
  intros HML Hr Hs.
  rewrite (sumf_ext (fun x => 2 ^ (15 - len x))
                    (fun x => 2 ^ (15 - ML) * 2 ^ (ML - len x))).
  - rewrite sumf_scale, Hs, <- Z.pow_add_r by lia. f_equal. lia.
  - intros x Hx. apply Hr in Hx. rewrite <- Z.pow_add_r by lia.
    f_equal. lia.
Qed.




(** *** The repair of an overflow (C4) *)

(** A round of the repair as the design document words it: one symbol is
    taken from the bucket [bits], and two symbols go from the bucket
    [max_length - 1] to the bucket [max_length]. *)
Definition repair_round_described (max_length : Z) (bl_count : Z -> Z)
    (bits : Z) : Z -> Z :=
  let bl_count := upd bl_count bits (bl_count bits - 1) in
  let bl_count :=
    upd bl_count (max_length - 1) (bl_count (max_length - 1) - 2) in
  upd bl_count max_length (bl_count max_length + 2).

(** The counts of the bit-length tree after the first loop of
    [gen_bitlen], when nine symbols have the frequencies 1, 1, 2, 3, 5, 8,
    13, 21, 34: two leaves were cut from the length 8 to 7. *)
Definition bl_count_fib : Z -> Z :=
  fun b => if b <? 0 then 0 else at_ [0; 1; 1; 1; 1; 1; 1; 3] b.

Definition state_fib : deflate_state :=
  set_bl_tree state0
    (fun n =>
       Ct_data (if n <? 0 then 0 else at_ [1; 1; 2; 3; 5; 8; 13; 21; 34] n)
         0).

Lemma repair_pre_fib : repair_pre 7 bl_count_fib 2.
Proof.
  unfold repair_pre.
  split; [reflexivity |]. split.
  { intros b Hb.
    assert (E : b = 0 \/ b = 1 \/ b = 2 \/ b = 3 \/ b = 4 \/ b = 5 \/ b = 6
                \/ b = 7) by lia.
    destruct E as [-> | [-> | [-> | [-> | [-> | [-> | [-> | ->]]]]]]];
      vm_compute; discriminate. }
  split; [reflexivity |]. split; [lia |].
  split; [vm_compute; discriminate |].
  split; reflexivity.
Qed.

(** C4, as amended.  From counts with an overflow ([repair_pre]: the sum of
    [bl_count[b] * 2^(ML - b)] exceeds [2^ML] by half the overflow, and the
    bucket [ML] holds more than half the overflow), a round of the repair
    finds the highest bucket [bits] below [ML] that is not empty, takes one
    symbol from it, adds two to the bucket [bits + 1] and takes one from
    the bucket [ML]; the loop ends with counts whose sum is [2^ML] exactly,
    for as many symbols as before, none at the length 0.  And [build_tree]
    always returns lengths within the limit [ML] of its tree that fill the
    code space exactly, so they are the lengths of a prefix code. *)
Theorem gen_bitlen_repair_complete :
  forall (desc : tree_desc) (fuel : nat) (s : deflate_state)
         (blc : Z -> Z) (ov : Z),
    (573 <= fuel)%nat ->
    repair_pre (max_length (stat_desc desc)) blc ov ->
    ov <= 2 * Z.of_nat fuel ->
    let ML := max_length (stat_desc desc) in
    (exists bits blc1,
       gen_bitlen_scan fuel blc (ML - 1) = Some bits
       /\ 1 <= bits <= ML - 1 /\ blc bits <> 0
       /\ (forall b, bits < b <= ML - 1 -> blc b = 0)
       /\ (forall fuel',
             gen_bitlen_repair fuel (S fuel') ML blc ov
             = if ov - 2 >? 0
               then gen_bitlen_repair fuel fuel' ML blc1 (ov - 2)
               else Some blc1)
       /\ (forall b,
             blc1 b
             = blc b + (if b =? bits + 1 then 2 else 0)
               - (if b =? bits then 1 else 0) - (if b =? ML then 1 else 0)))
    /\ (exists blc',
          gen_bitlen_repair fuel fuel ML blc ov = Some blc'
          /\ kraft_sum ML blc' = 2 ^ ML
          /\ total ML blc' = total ML blc
          /\ blc' 0 = 0
          /\ (forall b, 0 <= b <= ML -> 0 <= blc' b))
    /\ (exists s',
          build_tree fuel s desc = Some s'
          /\ (forall n, 0 <= n <= max_code s' desc ->
                0 <= Len (dyn_tree s' desc n) <= ML)
          /\ sumf (fun n => if Len (dyn_tree s' desc n) =? 0 then 0
                            else 2 ^ (ML - Len (dyn_tree s' desc n)))
               (Zseq 0 (Z.to_nat (max_code s' desc + 1))) = 2 ^ ML
          /\ kraft_sum ML (bl_count s') = 2 ^ ML).
Proof.
  intros desc fuel s blc ov Hfuel Hpre Hov ML.
  pose proof (max_length_range desc) as [HML _]. fold ML in HML.
  unfold MAX_BITS in HML.
  split; [| split].
  - destruct (repair_pre_nonzero ML blc ov ltac:(lia) Hpre)
      as (b0 & Hb0 & Hnz0).
    destruct (gen_bitlen_scan_spec blc ltac:(apply Hpre) fuel (ML - 1))
      as (bits & Es & Hbits & Hnz & Hhi);
      [lia | exists b0; split; assumption |].
    destruct (repair_round ML blc ov bits Hpre ltac:(lia) Hbits Hnz)
      as (_ & _ & _ & _ & _ & _ & Hpt).
    cbv zeta in Hpt.
    eexists bits, _. split; [exact Es |]. split; [exact Hbits |].
    split; [exact Hnz |]. split; [exact Hhi |].
    split; [| exact Hpt].
    intros fuel'. cbn [gen_bitlen_repair]. rewrite Es. reflexivity.
  - destruct (gen_bitlen_repair_spec ML fuel ltac:(lia) ltac:(lia)
                fuel blc ov Hpre Hov)
      as (blc' & E & K & T & Z0 & N & _).
    exists blc'. repeat split; try assumption; apply N; assumption.
  - destruct (build_tree_spec fuel s desc Hfuel) as (s' & L0 & E & Hb).
    exists s'. split; [exact E |].
    destruct Hb as (Ho & Hnd & H2 & Hr & Hmc & Hfreq & Hlen & Hzero & Hk
                    & Hblc & _).
    cbv zeta in *. fold ML in Hlen, Hk.
    set (tree := dyn_tree s' desc) in *. set (mc := max_code s' desc) in *.
    split.
    { intros n Hn. destruct (in_dec Z.eq_dec n L0) as [Hin | Hnin].
      - apply Hlen in Hin. lia.
      - rewrite Hzero by (try exact Hnin; lia). lia. }
    split.
    { rewrite (sumf_incl _ L0); [| exact Hnd | apply NoDup_Zseq | |].
      - rewrite <- Hk. apply sumf_ext. intros x Hx. apply Hlen in Hx.
        destruct (Z.eqb_spec (Len (tree x)) 0); [lia | reflexivity].
      - intros x Hx. apply Hr in Hx. apply In_Zseq. lia.
      - intros n Hn Hnin. apply In_Zseq in Hn.
        rewrite Hzero by (try exact Hnin; lia). reflexivity. }
    destruct (kraft_sum_leaves (fun x => Len (tree x)) ML L0 (bl_count s')
                ltac:(lia)) as [KS _].
    + intros x Hx. apply Hlen in Hx. lia.
    + intros b Hb. apply Hblc. unfold MAX_BITS. lia.
    + rewrite KS. exact Hk.
Qed.

Lemma gen_bitlen_repair_complete_witness :
  (573 <= 573)%nat /\ repair_pre 7 bl_count_fib 2 /\ 2 <= 2 * Z.of_nat 573
  /\ (exists blc',
        gen_bitlen_repair 573 573 7 bl_count_fib 2 = Some blc'
        /\ kraft_sum 7 blc' = 2 ^ 7)
  /\ (exists s',
        build_tree 573 state_fib BL_DESC = Some s'
        /\ kraft_sum 7 (bl_count s') = 2 ^ 7).
Proof.
  split; [lia |]. split; [exact repair_pre_fib |]. split; [lia |].
  destruct (gen_bitlen_repair_complete BL_DESC 573 state_fib bl_count_fib 2
              ltac:(lia) repair_pre_fib ltac:(lia))
    as (_ & (blc' & E & K & _) & (s' & Es & _ & _ & Ks)).
  split.
  - exists blc'. split; [exact E | exact K].
  - exists s'. split; [exact Es | exact Ks].
Defined.

(** The round of the code on these counts against the round of the
    document: the code leaves the buckets 6 and 7 at 0 and 4, one symbol
    having gone from 6 to 7; by the document they would be at -2 and 5. *)
Lemma repair_round_not_as_described :
  exists blc',
    gen_bitlen_repair 573 573 7 bl_count_fib 2 = Some blc'
    /\ gen_bitlen_scan 573 bl_count_fib 6 = Some 6
    /\ map blc' (Zseq 0 8) = [0; 1; 1; 1; 1; 1; 0; 4]
    /\ map (repair_round_described 7 bl_count_fib 6) (Zseq 0 8)
       = [0; 1; 1; 1; 1; 1; -2; 5]
    /\ map blc' (Zseq 0 8)
       <> map (repair_round_described 7 bl_count_fib 6) (Zseq 0 8).
Proof.
  eexists. split; [vm_compute; reflexivity |].
  split; [reflexivity |]. split; [reflexivity |]. split; [reflexivity |].
  discriminate.
Qed.

(** The counts above are those of [build_tree] on [state_fib], and the
    lengths it ends with. *)
Example build_tree_fib :
  match build_tree 573 state_fib BL_DESC with
  | Some s' =>
      map (fun n => Len (bl_tree s' n)) (Zseq 0 9) = [7; 7; 7; 7; 5; 4; 3; 2; 1]
      /\ map (bl_count s') (Zseq 0 8) = [0; 1; 1; 1; 1; 1; 0; 4]
  | None => False
  end.
Proof. vm_compute. split; reflexivity. Qed.
(** *** _tr_flush_block: the choice of the encoding (C6) *)

Lemma others_settings desc s s' :
  others desc s' = others desc s ->
  strategy s' = strategy s /\ level s' = level s.
Proof.
  intros H. unfold others in H. inversion H. split; reflexivity.
Qed.

Lemma bump_settings s i by_ :
  strategy (bump s i by_) = strategy s /\ level (bump s i by_) = level s.
Proof. split; reflexivity. Qed.

Lemma scan_tree_round_settings tree n st :
  strategy (fst (scan_tree_round tree n st)) = strategy (fst st)
  /\ level (fst (scan_tree_round tree n st)) = level (fst st).
Proof.
  destruct st as [s r]. unfold scan_tree_round. cbn [fst].
  repeat match goal with
         | |- context [if ?c then _ else _] => destruct c
         end; cbn [fst]; split; reflexivity.
Qed.

Lemma scan_tree_settings s desc mc :
  strategy (scan_tree s desc mc) = strategy s
  /\ level (scan_tree s desc mc) = level s.
Proof.
  unfold scan_tree.
  match goal with
  | |- context [for_up ?n ?i ?b ?st] =>
      exact (for_up_ind
               (fun (_ : Z) st' =>
                  strategy (fst st') = strategy s /\ level (fst st') = level s)
               b n i st
               ltac:(cbn [fst]; destruct desc; split; reflexivity)
               ltac:(intros j t _ [H1 H2];
                     destruct (scan_tree_round_settings
                                 (upd (dyn_tree s desc) (mc + 1)
                                    (set_Len (dyn_tree s desc (mc + 1)) 65535))
                                 j t) as [E1 E2];
                     split; congruence))
  end.
Qed.

(** The costs in bytes of the dynamic and of the static encoding, from the
    lengths in bits that the three [build_tree] leave. *)
Definition dyn_lenb (s : deflate_state) : Z :=
  Z.shiftr (ulg (opt_len s + 3 + 7)) 3.

Definition stat_lenb (s : deflate_state) : Z :=
  Z.shiftr (ulg (static_len s + 3 + 7)) 3.

(** The static encoding is taken for the compressed block. *)
Definition fixed_wins (s : deflate_state) : bool :=
  (stat_lenb s <=? dyn_lenb s) || (strategy s =? Z_FIXED).

Definition has_buf (buf : option (list Z)) : bool :=
  match buf with Some _ => true | None => false end.

(** The first half of [_tr_flush_block] returns: the three trees are
    built, and [opt_len] then holds the cost of the header of the trees. *)
Lemma flush_block_costs_spec fuel s stored_len :
  (573 <= fuel)%nat -> level s > 0 ->
  exists s1 sb max_blindex,
    flush_block_costs fuel s stored_len
    = Some (s1, (if fixed_wins s1 then stat_lenb s1 else dyn_lenb s1),
            stat_lenb s1, max_blindex)
    /\ strategy s1 = strategy s
    /\ opt_len s1
       = ulg (opt_len sb + (3 * (ulg max_blindex + 1) + 5 + 5 + 4))
    /\ static_len s1 = static_len sb
    /\ exists sd,
         build_tree fuel
           (scan_tree (scan_tree sd L_DESC (l_max_code sd)) D_DESC
              (d_max_code (scan_tree sd L_DESC (l_max_code sd))))
           BL_DESC = Some sb
         /\ build_bl_tree fuel sd = Some (s1, max_blindex).
Proof.
  intros Hfuel Hlevel. unfold flush_block_costs.
  destruct (Z.gtb_spec (level s) 0) as [_ | Hle]; [| lia].
  set (s0 := if data_type s =? Z_UNKNOWN then _ else s).
  assert (S0 : strategy s0 = strategy s)
    by (unfold s0; destruct (data_type s =? Z_UNKNOWN); reflexivity).
  destruct (build_tree_spec fuel s0 L_DESC Hfuel) as (sl & Ll & El & Bl).
  destruct (build_tree_spec fuel sl D_DESC Hfuel) as (sd & Ld & Ed & Bd).
  rewrite El, Ed. unfold build_bl_tree.
  set (sc := scan_tree (scan_tree sd L_DESC (l_max_code sd)) D_DESC
               (d_max_code (scan_tree sd L_DESC (l_max_code sd)))).
  destruct (build_tree_spec fuel sc BL_DESC Hfuel) as (sb & Lb & Eb & Bb).
  cbv zeta. fold sc. rewrite Eb.
  set (mb := build_bl_tree_index (Z.to_nat BL_CODES) sb (BL_CODES - 1)).
  set (s1 := set_opt_len sb _).
  exists s1, sb, mb.
  split; [reflexivity |].
  split.
  { destruct Bl as (Ol & _). destruct Bd as (Od & _). destruct Bb as (Ob & _).
    apply others_settings in Ol, Od, Ob.
    destruct (scan_tree_settings (scan_tree sd L_DESC (l_max_code sd)) D_DESC
                (d_max_code (scan_tree sd L_DESC (l_max_code sd))))
      as [X1 _].
    destruct (scan_tree_settings sd L_DESC (l_max_code sd)) as [X2 _].
    fold sc in X1.
    change (strategy s1) with (strategy sb).
    destruct Ol as [Ol _], Od as [Od _], Ob as [Ob _]. congruence. }
  split; [reflexivity |]. split; [reflexivity |].
  exists sd. split; [exact Eb |]. fold sc. rewrite Eb. reflexivity.
Qed.

(** What [_tr_flush_block] writes for a block of the type [type]. *)
Definition emit_block (mt : match_tables) (s : deflate_state)
    (buf : option (list Z)) (stored_len last max_blindex type : Z)
  : deflate_state :=
  if type =? STORED_BLOCK then _tr_stored_block s buf stored_len last
  else if type =? STATIC_TREES then
    compress_block mt (send_bits s (Z.shiftl STATIC_TREES 1 + last) 3)
      static_ltree static_dtree
  else
    let s := send_bits s (Z.shiftl DYN_TREES 1 + last) 3 in
    let s :=
      send_all_trees s (l_max_code s + 1) (d_max_code s + 1)
        (max_blindex + 1) in
    compress_block mt s (dyn_ltree s) (dyn_dtree s).

(** The rule of the design document, read with the best cost as the
    smaller of the two: stored when [stored_len + 4] is at most the best of
    the dynamic and the static cost and there is a buffer, else static when
    its cost is at most the dynamic one or the strategy is [Z_FIXED], else
    dynamic. *)
Definition block_type_described (buf : option (list Z))
    (stored_len dyn static strategy : Z) : Z :=
  if (stored_len + 4 <=? Z.min dyn static) && has_buf buf then STORED_BLOCK
  else if (static <=? dyn) || (strategy =? Z_FIXED) then STATIC_TREES
  else DYN_TREES.

(** C6, as amended.  At a level above 0, [_tr_flush_block] builds the three
    trees, [opt_len] then holding the cost of the header that
    [build_bl_tree] adds, and writes a stored block when there is a buffer
    and [stored_len + 4] is at most the cost of the compressed block it
    would write otherwise, which is the static cost when that is at most
    the dynamic cost or the strategy is [Z_FIXED], and the dynamic cost if
    not; else it writes a static block in the first of these cases and a
    dynamic block in the second. *)
Theorem tr_flush_block_choice :
  forall (fuel : nat) (mt : match_tables) (s : deflate_state)
         (buf : option (list Z)) (stored_len last : Z),
    (573 <= fuel)%nat -> level s > 0 ->
    exists s1 sb max_blindex,
      let best := if fixed_wins s1 then stat_lenb s1 else dyn_lenb s1 in
      let type :=
        if (ulg (stored_len + 4) <=? best) && has_buf buf then STORED_BLOCK
        else if fixed_wins s1 then STATIC_TREES
        else DYN_TREES in
      flush_block_costs fuel s stored_len
      = Some (s1, best, stat_lenb s1, max_blindex)
      /\ strategy s1 = strategy s
      /\ opt_len s1
         = ulg (opt_len sb + (3 * (ulg max_blindex + 1) + 5 + 5 + 4))
      /\ (exists sd,
            build_tree fuel
              (scan_tree (scan_tree sd L_DESC (l_max_code sd)) D_DESC
                 (d_max_code (scan_tree sd L_DESC (l_max_code sd))))
              BL_DESC = Some sb
            /\ build_bl_tree fuel sd = Some (s1, max_blindex))
      /\ flush_block_type buf stored_len best (stat_lenb s1) = type
      /\ (strategy s <> Z_FIXED \/ stat_lenb s1 <= dyn_lenb s1 ->
          0 <= stored_len < 2 ^ 32 - 4 ->
          type
          = block_type_described buf stored_len (dyn_lenb s1) (stat_lenb s1)
              (strategy s))
      /\ _tr_flush_block fuel mt s buf stored_len last
         = Some
             (let se :=
                emit_block mt s1 buf stored_len last max_blindex type in
              if negb (last =? 0) then bi_windup (init_block se)
              else init_block se).
Proof.
  intros fuel mt s buf stored_len last Hfuel Hlevel.
  destruct (flush_block_costs_spec fuel s stored_len Hfuel Hlevel)
    as (s1 & sb & mb & Ec & Hs & Ho & _ & Hbl).
  exists s1, sb, mb. cbv zeta.
  split; [exact Ec |]. split; [exact Hs |]. split; [exact Ho |].
  split; [exact Hbl |].
  assert (Ht : flush_block_type buf stored_len
                 (if fixed_wins s1 then stat_lenb s1 else dyn_lenb s1)
                 (stat_lenb s1)
               = if (ulg (stored_len + 4)
                     <=? (if fixed_wins s1 then stat_lenb s1 else dyn_lenb s1))
                    && has_buf buf
                 then STORED_BLOCK
                 else if fixed_wins s1 then STATIC_TREES else DYN_TREES).
  { unfold flush_block_type. fold (has_buf buf).
    destruct ((ulg (stored_len + 4)
               <=? (if fixed_wins s1 then stat_lenb s1 else dyn_lenb s1))
              && has_buf buf); [reflexivity |].
    destruct (fixed_wins s1) eqn:Ef.
    - rewrite Z.eqb_refl. reflexivity.
    - unfold fixed_wins in Ef. apply orb_false_elim in Ef.
      destruct Ef as [Ef _].
      destruct (Z.leb_spec (stat_lenb s1) (dyn_lenb s1)); [discriminate |].
      destruct (Z.eqb_spec (stat_lenb s1) (dyn_lenb s1)); [lia | reflexivity]. }
  split; [exact Ht |].
  split.
  { intros Hc Hr. unfold block_type_described, fixed_wins. rewrite Hs.
    replace (ulg (stored_len + 4)) with (stored_len + 4)
      by (unfold ulg; rewrite Z.mod_small; lia).
    destruct (Z.leb_spec (stat_lenb s1) (dyn_lenb s1)) as [Hle | Hgt];
      cbn [orb].
    - rewrite Z.min_r by exact Hle. reflexivity.
    - destruct (Z.eqb_spec (strategy s) Z_FIXED) as [Hf | Hf]; [lia |].
      rewrite Z.min_l by lia. reflexivity. }
  unfold _tr_flush_block. rewrite Ec. unfold flush_block_emit. rewrite Ht.
  unfold emit_block. reflexivity.
Qed.

(** Sixteen literals, 200 to 215, four times each, through [_tr_tally]. *)
Definition no_tables : match_tables :=
  Match_tables (fun _ => 0) (fun _ => 0) (fun _ => 0) (fun _ => 0).

Definition literals : list Z := flat_map (fun n => [n; n; n; n]) (Zseq 200 16).

Definition state_literals (strategy : Z) : deflate_state :=
  fold_left (fun s lc => fst (_tr_tally no_tables s 0 lc)) literals
    (_tr_init (set_strategy (set_level state0 6) strategy)).

Lemma tr_flush_block_choice_witness :
  (573 <= 573)%nat /\ level (state_literals 0) > 0
  /\ exists s',
       _tr_flush_block 573 no_tables (state_literals 0) (Some literals) 64 1
       = Some s'.
Proof.
  split; [lia |]. split; [reflexivity |].
  destruct (tr_flush_block_choice 573 no_tables (state_literals 0)
              (Some literals) 64 1 ltac:(lia) eq_refl)
    as (s1 & sb & mb & _ & _ & _ & _ & _ & _ & E).
  eexists. exact E.
Defined.

(** With [Z_FIXED] and a static cost above [stored_len + 4] above the
    dynamic cost, the code writes a stored block, where the rule of the
    document gives a static one: the costs are 49 and 74 bytes for 64
    bytes of input. *)
Lemma tr_flush_block_fixed_stored :
  exists s1 max_blindex s',
    flush_block_costs 573 (state_literals Z_FIXED) 64
    = Some (s1, 74, 74, max_blindex)
    /\ dyn_lenb s1 = 49 /\ stat_lenb s1 = 74 /\ strategy s1 = Z_FIXED
    /\ flush_block_type (Some literals) 64 74 74 = STORED_BLOCK
    /\ block_type_described (Some literals) 64 49 74 Z_FIXED = STATIC_TREES
    /\ _tr_flush_block 573 no_tables (state_literals Z_FIXED) (Some literals)
         64 1 = Some s'
    /\ pending_buf s' = [1; 64; 0; 191; 255] ++ literals.
Proof.
  destruct (flush_block_costs 573 (state_literals Z_FIXED) 64)
    as [[[[s1 a] b] c] |] eqn:Ec; [| vm_compute in Ec; discriminate].
  assert (Ea : (a, b, dyn_lenb s1, stat_lenb s1, strategy s1)
               = (74, 74, 49, 74, Z_FIXED)).
  { apply (f_equal (fun o => match o with
                             | Some (s, x, y, _) =>
                                 (x, y, dyn_lenb s, stat_lenb s, strategy s)
                             | None => (0, 0, 0, 0, 0)
                             end)) in Ec.
    rewrite <- Ec. vm_compute. reflexivity. }
  injection Ea as -> -> Ed Es Ef.
  destruct (_tr_flush_block 573 no_tables (state_literals Z_FIXED)
              (Some literals) 64 1) as [s' |] eqn:Ef';
    [| vm_compute in Ef'; discriminate].
  exists s1, c, s'.
  split; [reflexivity |]. split; [exact Ed |]. split; [exact Es |].
  split; [exact Ef |]. split; [reflexivity |]. split; [reflexivity |].
  split; [reflexivity |].
  apply (f_equal (fun o => match o with
                           | Some s => pending_buf s
                           | None => []
                           end)) in Ef'.
  rewrite <- Ef'. vm_compute. reflexivity.
Qed.

(** *** _tr_flush_block: the counters after a block (C8) *)

(** The loops of [init_block], for one of the three arrays: [get] reads
    it in the state and [set] writes it. *)
Lemma init_block_loop {X} (get : deflate_state -> Z -> ct_data)
    (set : deflate_state -> (Z -> ct_data) -> deflate_state)
    (F : deflate_state -> X) :
  (forall s t, get (set s t) = t) ->
  (forall s t, F (set s t) = F s) ->
  forall (N : nat) (s : deflate_state),
    let s' :=
      for_up N 0 (fun n s => set s (upd (get s) n (set_Freq (get s n) 0))) s in
    F s' = F s
    /\ forall n,
         get s' n
         = if (0 <=? n) && (n <? Z.of_nat N) then set_Freq (get s n) 0
           else get s n.
Proof.
  intros Hget HF N s. cbv zeta.
  pose (P := fun (j : Z) (t : deflate_state) =>
               F t = F s
               /\ forall n,
                    get t n
                    = if (0 <=? n) && (n <? j) then set_Freq (get s n) 0
                      else get s n).
  assert (H : P (0 + Z.of_nat N)
                (for_up N 0
                   (fun n s => set s (upd (get s) n (set_Freq (get s n) 0)))
                   s)).
  { apply for_up_ind; unfold P.
    - split; [reflexivity |].
      intros n. destruct (Z.leb_spec 0 n), (Z.ltb_spec n 0);
        cbn [andb]; try reflexivity; lia.
    - intros j t Hj [H1 H2]. split; [rewrite HF; exact H1 |].
      intros n. rewrite Hget. unfold upd.
      destruct (Z.eqb_spec n j) as [-> | Hn]; rewrite H2.
      + destruct (Z.leb_spec 0 j), (Z.ltb_spec j j), (Z.ltb_spec j (j + 1));
          cbn [andb]; try reflexivity; lia.
      + destruct (Z.leb_spec 0 n), (Z.ltb_spec n j), (Z.ltb_spec n (j + 1));
          cbn [andb]; try reflexivity; lia. }
  rewrite Z.add_0_l in H. exact H.
Qed.

(** What [init_block] and [bi_windup] leave alone, the output apart. *)
Definition kept (s : deflate_state) :=
  (data_type s, level s, strategy s, (l_max_code s, d_max_code s, bl_max_code s),
   (bl_count s, heap s, heap_len s, heap_max s, depth s),
   (sym_buf s, sym_end s)).

(** The output: the bytes put and the bits held. *)
Definition output (s : deflate_state) := (pending_buf s, bi_buf s, bi_valid s).

(** The state [s'] is ready for a block: the counts of every symbol are 0,
    but for the end of block, counted once; no length, no match and no
    symbol is recorded. *)
Definition counters_reset (s' : deflate_state) : Prop :=
  (forall n, 0 <= n < L_CODES ->
     Freq (dyn_ltree s' n) = if n =? END_BLOCK then 1 else 0)
  /\ (forall n, 0 <= n < D_CODES -> Freq (dyn_dtree s' n) = 0)
  /\ (forall n, 0 <= n < BL_CODES -> Freq (bl_tree s' n) = 0)
  /\ opt_len s' = 0 /\ static_len s' = 0
  /\ matches s' = 0 /\ sym_next s' = 0.

(** The other half of every entry, and the entries beyond the symbols, are
    those of [s]. *)
Definition trees_kept (s s' : deflate_state) : Prop :=
  (forall n, dl (dyn_ltree s' n) = dl (dyn_ltree s n)
             /\ (~ 0 <= n < L_CODES -> dyn_ltree s' n = dyn_ltree s n))
  /\ (forall n, dl (dyn_dtree s' n) = dl (dyn_dtree s n)
                /\ (~ 0 <= n < D_CODES -> dyn_dtree s' n = dyn_dtree s n))
  /\ (forall n, dl (bl_tree s' n) = dl (bl_tree s n)
                /\ (~ 0 <= n < BL_CODES -> bl_tree s' n = bl_tree s n)).

Lemma reset_entry (t : Z -> ct_data) (N n : Z) :
  let c := if (0 <=? n) && (n <? N) then set_Freq (t n) 0 else t n in
  dl c = dl (t n)
  /\ (0 <= n < N -> Freq c = 0)
  /\ (~ 0 <= n < N -> c = t n).
Proof.
  cbv zeta.
  destruct (Z.leb_spec 0 n), (Z.ltb_spec n N); cbn [andb];
    repeat split; intros; lia.
Qed.

Lemma triple_eq {A B C} (a a' : A) (b b' : B) (c c' : C) :
  (a, b, c) = (a', b', c') -> a = a' /\ b = b' /\ c = c'.
Proof. intros H. inversion H. repeat split. Qed.

Lemma quad_eq {A B C D} (a a' : A) (b b' : B) (c c' : C) (d d' : D) :
  (a, b, c, d) = (a', b', c', d') -> a = a' /\ b = b' /\ c = c' /\ d = d'.
Proof. intros H. inversion H. repeat split. Qed.

(** The three loops of [init_block]. *)
Definition init_block_loops (s : deflate_state) : deflate_state :=
  let s :=
    for_up (Z.to_nat L_CODES) 0
      (fun n s => set_dyn_ltree s (upd (dyn_ltree s) n (set_Freq (dyn_ltree s n) 0)))
      s in
  let s :=
    for_up (Z.to_nat D_CODES) 0
      (fun n s => set_dyn_dtree s (upd (dyn_dtree s) n (set_Freq (dyn_dtree s n) 0)))
      s in
  for_up (Z.to_nat BL_CODES) 0
    (fun n s => set_bl_tree s (upd (bl_tree s) n (set_Freq (bl_tree s n) 0)))
    s.

Lemma init_block_loops_spec s :
  let s' := init_block_loops s in
  (forall n, dyn_ltree s' n
             = if (0 <=? n) && (n <? L_CODES)
               then set_Freq (dyn_ltree s n) 0 else dyn_ltree s n)
  /\ (forall n, dyn_dtree s' n
                = if (0 <=? n) && (n <? D_CODES)
                  then set_Freq (dyn_dtree s n) 0 else dyn_dtree s n)
  /\ (forall n, bl_tree s' n
                = if (0 <=? n) && (n <? BL_CODES)
                  then set_Freq (bl_tree s n) 0 else bl_tree s n)
  /\ kept s' = kept s /\ output s' = output s.
Proof.
  cbv zeta. unfold init_block_loops.
  destruct (init_block_loop dyn_ltree set_dyn_ltree
              (fun s => (kept s, output s, dyn_dtree s, bl_tree s))
              ltac:(reflexivity) ltac:(reflexivity) (Z.to_nat L_CODES) s)
    as [A1 A2].
  cbv zeta in A1, A2.
  set (s1 := for_up (Z.to_nat L_CODES) 0 _ s) in *.
  destruct (init_block_loop dyn_dtree set_dyn_dtree
              (fun s => (kept s, output s, dyn_ltree s, bl_tree s))
              ltac:(reflexivity) ltac:(reflexivity) (Z.to_nat D_CODES) s1)
    as [B1 B2].
  cbv zeta in B1, B2.
  set (s2 := for_up (Z.to_nat D_CODES) 0 _ s1) in *.
  destruct (init_block_loop bl_tree set_bl_tree
              (fun s => (kept s, output s, dyn_ltree s, dyn_dtree s))
              ltac:(reflexivity) ltac:(reflexivity) (Z.to_nat BL_CODES) s2)
    as [C1 C2].
  cbv zeta in C1, C2.
  set (s3 := for_up (Z.to_nat BL_CODES) 0 _ s2) in *.
  clearbody s3 s2 s1.
  change (Z.of_nat (Z.to_nat L_CODES)) with L_CODES in A2.
  change (Z.of_nat (Z.to_nat D_CODES)) with D_CODES in B2.
  change (Z.of_nat (Z.to_nat BL_CODES)) with BL_CODES in C2.
  apply quad_eq in A1, B1, C1.
  destruct A1 as (Ak & Ao & Ad & Ab), B1 as (Bk & Bo & Bl & Bb),
    C1 as (Ck & Co & Cl & Cd).
  split; [intros n; rewrite Cl, Bl; apply A2 |].
  split; [intros n; rewrite Cd, <- Ad; apply B2 |].
  split; [intros n; rewrite <- Ab, <- Bb; apply C2 |].
  split; congruence.
Qed.

(** The assignments that end [init_block]. *)
Definition init_block_end (s : deflate_state) : deflate_state :=
  let s :=
    set_dyn_ltree s (upd (dyn_ltree s) END_BLOCK (set_Freq (dyn_ltree s END_BLOCK) 1)) in
  let s := set_static_len s 0 in
  let s := set_opt_len s 0 in
  let s := set_matches s 0 in
  set_sym_next s 0.

Lemma init_block_eq s : init_block s = init_block_end (init_block_loops s).
Proof.
  unfold init_block, init_block_end, init_block_loops. cbv zeta. reflexivity.
Qed.

Lemma init_block_end_spec (s : deflate_state) :
  let s' := init_block_end s in
  dyn_ltree s'
  = upd (dyn_ltree s) END_BLOCK (set_Freq (dyn_ltree s END_BLOCK) 1)
  /\ dyn_dtree s' = dyn_dtree s /\ bl_tree s' = bl_tree s
  /\ (opt_len s' = 0 /\ static_len s' = 0 /\ matches s' = 0
      /\ sym_next s' = 0)
  /\ kept s' = kept s /\ output s' = output s.
Proof. repeat split; reflexivity. Qed.

Lemma init_block_spec s :
  let s' := init_block s in
  counters_reset s' /\ trees_kept s s'
  /\ kept s' = kept s /\ output s' = output s.
Proof.
  cbv zeta. rewrite init_block_eq.
  destruct (init_block_loops_spec s) as (EL & ED & EB & EK & EO).
  cbv zeta in EL, ED, EB, EK, EO.
  generalize dependent (init_block_loops s). intros s3 EL ED EB EK EO.
  destruct (init_block_end_spec s3) as (TL & TD & TB & T0 & TK & TO).
  cbv zeta in TL, TD, TB, T0, TK, TO.
  generalize dependent (init_block_end s3). intros s' TL TD TB T0 TK TO.
  unfold counters_reset, trees_kept. rewrite TL, TD, TB.
  split; [| split; [| split]].
  - split; [| split; [| split; [| exact T0]]].
    + intros n Hn. unfold upd.
      destruct (Z.eqb_spec n END_BLOCK) as [-> | Hne]; [reflexivity |].
      rewrite EL. apply (reset_entry (dyn_ltree s) L_CODES n). exact Hn.
    + intros n Hn. rewrite ED.
      apply (reset_entry (dyn_dtree s) D_CODES n). exact Hn.
    + intros n Hn. rewrite EB.
      apply (reset_entry (bl_tree s) BL_CODES n). exact Hn.
  - split; [| split].
    + intros n. unfold upd.
      destruct (Z.eqb_spec n END_BLOCK) as [-> | Hne].
      * split; [cbn [set_Freq dl]; rewrite EL;
                apply (reset_entry (dyn_ltree s) L_CODES END_BLOCK) |].
        unfold END_BLOCK, L_CODES, LITERALS, LENGTH_CODES. lia.
      * rewrite EL. split; apply (reset_entry (dyn_ltree s) L_CODES n).
    + intros n. rewrite ED. split; apply (reset_entry (dyn_dtree s) D_CODES n).
    + intros n. rewrite EB. split; apply (reset_entry (bl_tree s) BL_CODES n).
  - congruence.
  - congruence.
Qed.




(** [bi_ok], decided. *)
Definition bi_okb (s : deflate_state) : bool :=
  (0 <=? bi_valid s) && (bi_valid s <=? 16) && (0 <=? bi_buf s)
  && (bi_buf s <? 2 ^ bi_valid s).

Lemma bi_okb_ok s : bi_okb s = true -> bi_ok s.
Proof.
  unfold bi_okb, bi_ok. rewrite !andb_true_iff.
  intros [[[H1 H2] H3] H4].
  apply Z.leb_le in H1, H2, H3. apply Z.ltb_lt in H4. lia.
Qed.

(** *** The bit writer *)

(** [_tr_init] leaves the accumulator empty, and so in order. *)
Lemma tr_init_bi_ok s : bi_ok (_tr_init s).
Proof.
  unfold _tr_init. cbv zeta.
  destruct (init_block_spec (set_bi_valid (set_bi_buf s 0) 0))
    as (_ & _ & _ & Ho).
  cbv zeta in Ho. unfold output in Ho.
  pose proof (f_equal (fun p => snd (fst p)) Ho) as Eb.
  pose proof (f_equal snd Ho) as Ev.
  cbn [fst snd] in Eb, Ev.
  unfold bi_ok. rewrite Eb, Ev. fields. simpl. lia.
Qed.

(** C7.  When [bi_buf] holds no bit beyond its [bi_valid] bits, at most
    16, a call [send_bits(s, value, length)] with 1 <= length <= 16 and a
    [value] of at most [length] bits appends the [length] low bits of
    [value], low bit first, to the stream of the bytes put so far followed
    by the [bi_valid] bits of [bi_buf]: whole bytes leave through
    [put_short], low byte first; and [bi_buf] holds no bit beyond
    [bi_valid] afterwards, so the next call finds it so, as the first call
    does after [_tr_init].  [bi_windup] closes the stream at a byte
    boundary with zero bits, leaves [bi_buf] and [bi_valid] at 0 and takes
    nothing from the symbol buffer. *)
Theorem send_bits_appends_low_bits :
  forall (s : deflate_state) (value length : Z),
    bi_ok s -> 1 <= length <= 16 -> 0 <= value < 2 ^ length ->
    stream (send_bits s value length)
    = stream s ++ bits_of (Z.to_nat length) value
    /\ bi_ok (send_bits s value length)
    /\ bi_buf (bi_windup s) = 0 /\ bi_valid (bi_windup s) = 0
    /\ stream (bi_windup s)
       = stream s ++ repeat false (Z.to_nat ((- bi_valid s) mod 8))
    /\ stream (bi_windup s) = flat_map (bits_of 8) (pending_buf (bi_windup s))
    /\ sym_buf (bi_windup s) = sym_buf s
    /\ sym_next (bi_windup s) = sym_next s
    /\ bi_ok (bi_windup s)
    /\ (forall s0 : deflate_state, bi_ok (_tr_init s0)).
Proof.
  intros s value length Hok Hl Hval.
  destruct (send_bits_spec s value length Hok Hl) as [E1 [_ E2]].
  destruct (bi_windup_spec s Hok) as [E3 [E4 [E5 E6]]].
  split; [exact E1 |]. split; [exact (E2 Hval) |].
  split; [exact E3 |]. split; [exact E4 |].
  split; [exact E5 |]. split; [exact E6 |].
  split; [| split; [| split; [| exact tr_init_bi_ok]]].
  - unfold bi_windup.
    destruct (bi_valid s >? 8); [| destruct (bi_valid s >? 0)]; reflexivity.
  - unfold bi_windup.
    destruct (bi_valid s >? 8); [| destruct (bi_valid s >? 0)]; reflexivity.
  - unfold bi_ok. rewrite E3, E4. simpl. lia.
Qed.

Lemma send_bits_appends_low_bits_witness :
  bi_ok state0 /\ 1 <= 3 <= 16 /\ 0 <= 5 < 2 ^ 3
  /\ stream (send_bits state0 5 3) = stream state0 ++ bits_of 3 5
  /\ bi_ok (send_bits state0 5 3).
Proof.
  split; [exact bi_ok_state0 |]. split; [lia |]. split; [lia |].
  destruct (send_bits_appends_low_bits state0 5 3 bi_ok_state0
              ltac:(lia) ltac:(lia)) as (E & Hok & _).
  split; [exact E | exact Hok].
Defined.

(** A value wider than its length: after [_tr_init], [send_bits] of
    0xffff with the length 3 appends the bits 111, but leaves the 13 other
    bits of the value in [bi_buf] beyond [bi_valid]. *)
Definition state_wide : deflate_state := send_bits (_tr_init state0) 0xffff 3.

(** The next call, of the value 0 with the length 13, does not append 13
    zero bits: the bits left in [bi_buf] come out in their place, and the
    two bytes put are 255 and 255, not 7 and 0. *)
Lemma send_bits_wide_value_stays :
  bi_ok (_tr_init state0)
  /\ stream state_wide = stream (_tr_init state0) ++ bits_of 3 0xffff
  /\ bi_buf state_wide = 0xffff /\ bi_valid state_wide = 3
  /\ ~ bi_ok state_wide
  /\ stream (send_bits state_wide 0 13)
     <> stream state_wide ++ bits_of 13 0
  /\ flat_map (bits_of 8) [7; 0] = stream state_wide ++ bits_of 13 0
  /\ pending_buf (bi_windup (send_bits state_wide 0 13)) = [255; 255].
Proof.
  split; [apply tr_init_bi_ok |].
  split; [vm_compute; reflexivity |].
  split; [vm_compute; reflexivity |].
  split; [vm_compute; reflexivity |].
  split.
  { intros [_ [_ H]]. vm_compute in H. discriminate H. }
  split; [vm_compute; discriminate |].
  split; vm_compute; reflexivity.
Qed.
(** *** The bit buffer and the small blocks *)




Lemma bi_flush_valid s :
  0 <= bi_valid s <= 16 -> bi_valid (bi_flush s) = bi_valid s mod 8.
Proof.
  intros Hv. unfold bi_flush, put_short, put_byte.
  destruct (Z.eqb_spec (bi_valid s) 16) as [E | E]; fields.
  - rewrite E. reflexivity.
  - destruct (Z.geb_spec (bi_valid s) 8) as [H | H]; fields.
    + replace (bi_valid s) with (bi_valid s - 8 + 1 * 8) at 2 by lia.
      rewrite Z.mod_add by lia. symmetry. apply Z.mod_small. lia.
    + symmetry. apply Z.mod_small. lia.
Qed.

Lemma length_flat_bits (l : list Z) :
  Z.of_nat (length (flat_map (bits_of 8) l)) = 8 * Z.of_nat (length l).
Proof.
  induction l as [| b l IH]; [reflexivity |].
  cbn [flat_map]. rewrite length_app, length_bits_of. cbn [length]. lia.
Qed.

Lemma length_stream s :
  0 <= bi_valid s ->
  Z.of_nat (length (stream s))
  = 8 * Z.of_nat (length (pending_buf s)) + bi_valid s.
Proof.
  intros Hv. unfold stream.
  rewrite length_app, length_bits_of, Nat2Z.inj_add, length_flat_bits. lia.
Qed.

(** X10.  [bi_flush] (and so [_tr_flush_bits]) puts out the whole bytes
    held in the bit buffer and nothing else: the stream written is the
    same, one byte is put for 8 to 15 bits held and two for 16, fewer than 8
    bits stay, and a second [bi_flush] changes nothing. *)
Theorem bi_flush_keeps_stream :
  forall s : deflate_state,
    bi_ok s ->
    stream (bi_flush s) = stream s
    /\ bi_ok (bi_flush s)
    /\ bi_valid (bi_flush s) = bi_valid s mod 8
    /\ (exists bytes,
          pending_buf (bi_flush s) = pending_buf s ++ bytes
          /\ Z.of_nat (length bytes) = bi_valid s / 8)
    /\ bi_flush (bi_flush s) = bi_flush s
    /\ _tr_flush_bits s = bi_flush s.
Proof.
  intros s Hok. destruct (bi_flush_spec s Hok) as [E1 E2].
  split; [exact E1 |]. split; [exact E2 |].
  destruct Hok as [Hv Hb].
  pose proof (bi_flush_valid s Hv) as Hvalid.
  split; [exact Hvalid |].
  split.
  { unfold bi_flush, put_short, put_byte.
    destruct (Z.eqb_spec (bi_valid s) 16) as [E | E]; fields.
    - eexists. rewrite <- app_assoc. split; [reflexivity |].
      rewrite E. reflexivity.
    - destruct (Z.geb_spec (bi_valid s) 8) as [H | H]; fields.
      + eexists. split; [reflexivity |]. cbn [length].
        change (Z.of_nat 1) with 1.
        apply Z.div_unique with (r := bi_valid s - 8); lia.
      + exists []. rewrite app_nil_r. split; [reflexivity |].
        symmetry. apply Z.div_small. lia. }
  split; [| reflexivity].
  pose proof (Z.mod_pos_bound (bi_valid s) 8 ltac:(lia)) as Hm.
  rewrite <- Hvalid in Hm. clear - Hm.
  generalize dependent (bi_flush s). intros s' Hm.
  unfold bi_flush.
  destruct (Z.eqb_spec (bi_valid s') 16) as [E | E]; [lia |].
  destruct (Z.geb_spec (bi_valid s') 8) as [H | H]; [lia | reflexivity].
Qed.

Lemma bi_flush_keeps_stream_witness :
  bi_ok (send_bits state0 1000 10)
  /\ stream (bi_flush (send_bits state0 1000 10))
     = stream (send_bits state0 1000 10)
  /\ bi_valid (bi_flush (send_bits state0 1000 10)) = 2.
Proof.
  assert (H : bi_ok (send_bits state0 1000 10))
    by (apply bi_okb_ok; reflexivity).
  split; [exact H |].
  destruct (bi_flush_keeps_stream (send_bits state0 1000 10) H)
    as (E1 & _ & E2 & _).
  split; [exact E1 |]. rewrite E2. reflexivity.
Defined.

Lemma map_nth_seq (data : list Z) :
  Forall (fun b => 0 <= b < 256) data ->
  map (fun i => uch (nth i data 0)) (seq 0 (length data)) = data.
Proof.
  intros H.
  assert (E : map (fun i => uch (nth i data 0)) (seq 0 (length data))
              = map (fun i => nth i data 0) (seq 0 (length data))).
  { apply map_ext_in. intros i Hi. apply in_seq in Hi.
    rewrite Forall_forall in H.
    unfold uch. change (2 ^ 8) with 256. apply Z.mod_small, H, nth_In. lia. }
  rewrite E. clear E H.
  induction data as [| b data IH]; [reflexivity |].
  cbn [length seq map nth]. f_equal.
  rewrite <- seq_shift, map_map. exact IH.
Qed.

Lemma stream_bytes s :
  bi_valid s = 0 -> stream s = flat_map (bits_of 8) (pending_buf s).
Proof. intros E. unfold stream. rewrite E. apply app_nil_r. Qed.

Lemma bits_of_16_bytes w :
  0 <= w < 2 ^ 16 ->
  bits_of 8 (w mod 256) ++ bits_of 8 (w / 256) = bits_of 16 w.
Proof.
  intros Hw. change 16%nat with (8 + 8)%nat. rewrite bits_of_app.
  change 256 with (2 ^ 8). rewrite bits_of_mod by lia.
  rewrite Z.shiftr_div_pow2 by lia. reflexivity.
Qed.

Lemma put_short_bytes s w :
  0 <= w < 2 ^ 16 ->
  pending_buf (put_short s w) = pending_buf s ++ [w mod 256; w / 256]
  /\ bi_valid (put_short s w) = bi_valid s
  /\ bi_buf (put_short s w) = bi_buf s.
Proof.
  intros Hw. unfold put_short, put_byte. fields.
  split; [| split; reflexivity].
  assert (E1 : uch (uch (Z.land w 255)) = w mod 256).
  { change 255 with (Z.ones 8). rewrite Z.land_ones by lia.
    unfold uch. change (2 ^ 8) with 256.
    pose proof (Z.mod_pos_bound w 256 ltac:(lia)).
    rewrite (Z.mod_small (w mod 256) 256) by lia.
    apply Z.mod_small. lia. }
  assert (E2 : uch (uch (Z.shiftr (ush w) 8)) = w / 256).
  { rewrite ush_small_16 by exact Hw.
    rewrite Z.shiftr_div_pow2 by lia. change (2 ^ 8) with 256.
    change (2 ^ 16) with 65536 in Hw.
    assert (0 <= w / 256 < 256)
      by (split; [apply Z.div_pos; lia | apply Z.div_lt_upper_bound; lia]).
    unfold uch. change (2 ^ 8) with 256.
    rewrite (Z.mod_small (w / 256) 256) by lia.
    apply Z.mod_small. lia. }
  rewrite E1, E2, <- app_assoc. reflexivity.
Qed.

(** X11.  A stored block as [_tr_stored_block] writes it: the three bits
    of the header, [last] and the type 0, zero bits up to the end of the
    byte, the length in two bytes with the low byte first, its one's
    complement in two bytes, and the bytes of the buffer as they are; no
    bit stays in the bit buffer. *)
Theorem tr_stored_block_format :
  forall (s : deflate_state) (data : list Z) (last : Z),
    bi_ok s -> 0 <= last <= 1 ->
    Z.of_nat (length data) < 2 ^ 16 ->
    Forall (fun b => 0 <= b < 256) data ->
    let len := Z.of_nat (length data) in
    let s' := _tr_stored_block s (Some data) len last in
    exists (head : list Z) (pad : nat),
      (pad < 8)%nat
      /\ flat_map (bits_of 8) head
         = stream s ++ bits_of 3 last ++ repeat false pad
      /\ pending_buf s'
         = head
           ++ [len mod 256; len / 256;
               (65535 - len) mod 256; (65535 - len) / 256]
           ++ data
      /\ bi_valid s' = 0 /\ bi_buf s' = 0
      /\ stream s'
         = stream s ++ bits_of 3 last ++ repeat false pad
           ++ bits_of 16 len ++ bits_of 16 (65535 - len)
           ++ flat_map (bits_of 8) data.
Proof.
  intros s data last Hok Hlast Hlen Hdata len s'.
  change (2 ^ 16) with 65536 in Hlen.
  destruct (send_bits_spec s (Z.shiftl STORED_BLOCK 1 + last) 3 Hok
              ltac:(lia)) as (S1 & V1 & O1).
  change (Z.shiftl STORED_BLOCK 1 + last) with last in *.
  change (Z.to_nat 3) with 3%nat in S1.
  specialize (O1 ltac:(change (2 ^ 3) with 8; lia)).
  set (s1 := send_bits s last 3) in *.
  destruct (bi_windup_spec s1 O1) as (W0 & W1 & W2 & W3).
  cbv zeta in W0, W1, W2, W3.
  set (s2 := bi_windup s1) in *.
  set (pad := Z.to_nat ((- bi_valid s1) mod 8)) in *.
  assert (Hpad : (pad < 8)%nat).
  { pose proof (Z.mod_pos_bound (- bi_valid s1) 8 ltac:(lia)). unfold pad.
    lia. }
  assert (Hl16 : 0 <= len < 2 ^ 16) by (unfold len; lia).
  assert (Hn16 : 0 <= 65535 - len < 2 ^ 16)
    by (change (2 ^ 16) with 65536; unfold len; lia).
  assert (En : ush (Z.lnot len) = 65535 - len).
  { unfold Z.lnot, ush. change (2 ^ 16) with 65536.
    replace (Z.pred (- len)) with (65535 - len + (-1) * 65536) by lia.
    rewrite Z.mod_add by lia. apply Z.mod_small. unfold len. lia. }
  destruct (put_short_bytes s2 len Hl16) as (P1 & P2 & P3).
  set (s3 := put_short s2 len) in *.
  destruct (put_short_bytes s3 (65535 - len) Hn16) as (Q1 & Q2 & Q3).
  set (s4 := put_short s3 (65535 - len)) in *.
  assert (E4 : s' = if negb (len =? 0)
                    then set_pending_buf s4
                           (pending_buf s4
                            ++ map (fun i => uch (nth i data 0))
                                 (seq 0 (Z.to_nat len)))
                    else s4).
  { unfold s', _tr_stored_block. cbv zeta.
    change (Z.shiftl STORED_BLOCK 1 + last) with last.
    fold s1. fold s2. rewrite (ush_small_16 len Hl16). fold s3.
    rewrite En. fold s4. reflexivity. }
  assert (Ep : pending_buf s' = pending_buf s4 ++ data
               /\ bi_valid s' = 0 /\ bi_buf s' = 0).
  { rewrite E4. destruct (Z.eqb_spec len 0) as [E0 | E0]; cbn [negb]; fields.
    - assert (data = []) by (destruct data; [reflexivity | discriminate]).
      subst data. rewrite app_nil_r. repeat split; congruence.
    - unfold len. rewrite Nat2Z.id, (map_nth_seq data Hdata).
      repeat split; congruence. }
  destruct Ep as (Ep & Ev & Eb).
  exists (pending_buf s2), pad.
  split; [exact Hpad |].
  split; [rewrite <- W3, W2, S1, <- app_assoc; reflexivity |].
  assert (Epend : pending_buf s'
                  = pending_buf s2
                    ++ [len mod 256; len / 256;
                        (65535 - len) mod 256; (65535 - len) / 256]
                    ++ data).
  { rewrite Ep, Q1, P1, <- !app_assoc. reflexivity. }
  split; [exact Epend |]. split; [exact Ev |]. split; [exact Eb |].
  rewrite (stream_bytes s' Ev), Epend, !flat_map_app.
  rewrite <- W3, W2, S1, <- !app_assoc. do 3 f_equal.
  cbn [flat_map app]. rewrite <- !app_assoc.
  rewrite <- (bits_of_16_bytes len Hl16).
  rewrite <- (bits_of_16_bytes (65535 - len) Hn16).
  rewrite <- !app_assoc. reflexivity.
Qed.

Lemma tr_stored_block_format_witness :
  bi_ok state0 /\ 0 <= 1 <= 1 /\ Z.of_nat (length [104; 105]) < 2 ^ 16
  /\ Forall (fun b => 0 <= b < 256) [104; 105]
  /\ pending_buf (_tr_stored_block state0 (Some [104; 105]) 2 1)
     = [1; 2; 0; 253; 255; 104; 105].
Proof.
  assert (F : Forall (fun b => 0 <= b < 256) [104; 105])
    by (repeat constructor; lia).
  split; [exact bi_ok_state0 |]. split; [lia |].
  split; [simpl; lia |]. split; [exact F |].
  destruct (tr_stored_block_format state0 [104; 105] 1 bi_ok_state0
              ltac:(lia) ltac:(simpl; lia) F)
    as (head & pad & _ & _ & E & _).
  reflexivity.
Defined.

(** X12.  [_tr_align] writes the ten bits of an empty static block, the
    header 010 and the seven zero bits of the end-of-block code, and puts
    out the whole bytes it can: fewer than 8 bits stay in the bit buffer. *)
Theorem tr_align_ten_bits :
  forall s : deflate_state,
    bi_ok s ->
    stream (_tr_align s) = stream s ++ [false; true; false] ++ repeat false 7
    /\ bi_ok (_tr_align s)
    /\ bi_valid (_tr_align s) = (bi_valid s + 10) mod 8.
Proof.
  intros s Hok. unfold _tr_align, send_code.
  change (Z.shiftl STATIC_TREES 1) with 2.
  assert (Ee : static_ltree END_BLOCK = Ct_data 0 7)
    by (vm_compute; reflexivity).
  rewrite Ee. cbn [Code Len fc dl].
  destruct (send_bits_spec s 2 3 Hok ltac:(lia)) as (S1 & V1 & O1).
  specialize (O1 ltac:(change (2 ^ 3) with 8; lia)).
  set (s1 := send_bits s 2 3) in *.
  destruct (send_bits_spec s1 0 7 O1 ltac:(lia)) as (S2 & V2 & O2).
  specialize (O2 ltac:(change (2 ^ 7) with 128; lia)).
  set (s2 := send_bits s1 0 7) in *.
  destruct (bi_flush_spec s2 O2) as (S3 & O3).
  assert (Es : stream (bi_flush s2)
               = stream s ++ [false; true; false] ++ repeat false 7)
    by (rewrite S3, S2, S1, <- app_assoc; reflexivity).
  split; [exact Es |]. split; [exact O3 |].
  pose proof (bi_flush_valid s2 V2) as Hv3.
  pose proof (Z.mod_pos_bound (bi_valid s2) 8 ltac:(lia)) as Hm.
  rewrite <- Hv3 in Hm.
  pose proof (f_equal (fun l => Z.of_nat (length l)) Es) as El.
  cbv beta in El.
  rewrite length_stream, length_app, Nat2Z.inj_add, length_stream in El
    by (try apply Hok; lia).
  cbn [length app repeat] in El.
  apply Z.mod_unique with
    (q := Z.of_nat (length (pending_buf (bi_flush s2)))
          - Z.of_nat (length (pending_buf s))); lia.
Qed.

Lemma tr_align_ten_bits_witness :
  bi_ok state0
  /\ stream (_tr_align state0)
     = stream state0 ++ [false; true; false] ++ repeat false 7.
Proof.
  split; [exact bi_ok_state0 |].
  apply (tr_align_ten_bits state0 bi_ok_state0).
Defined.

(** *** detect_data_type *)

(** The bytes of the block list, which make the data binary, and those of
    the allow list, which make it text: the bits of [block_mask] below 32
    and the tests that follow the first loop. *)
Definition block_listed (n : Z) : bool :=
  ((0 <=? n) && (n <=? 6)) || ((14 <=? n) && (n <=? 25))
  || ((28 <=? n) && (n <=? 31)).

Definition allow_listed (n : Z) : bool :=
  (n =? 9) || (n =? 10) || (n =? 13) || ((32 <=? n) && (n <? LITERALS)).

(** The literal [n] was counted in the block. *)
Definition counted (s : deflate_state) (n : Z) : Prop :=
  Freq (dyn_ltree s n) <> 0.

Lemma block_mask_bits n :
  0 <= n < 32 -> Z.testbit 0xf3ffc07f n = block_listed n.
Proof.
  intros Hn.
  assert (H : forallb (fun n => Bool.eqb (Z.testbit 0xf3ffc07f n)
                                  (block_listed n)) (Zseq 0 32) = true)
    by (vm_compute; reflexivity).
  rewrite forallb_forall in H. apply Bool.eqb_prop, H, In_Zseq. lia.
Qed.

Lemma In_map_of_nat_seq x a n :
  In x (map Z.of_nat (seq a n)) <-> Z.of_nat a <= x < Z.of_nat a + Z.of_nat n.
Proof.
  rewrite in_map_iff. split.
  - intros (i & <- & Hi). apply in_seq in Hi. lia.
  - intros Hx. exists (Z.to_nat x). split; [lia |]. apply in_seq. lia.
Qed.

(** X13.  [detect_data_type] looks at the counts of the literals 0..255
    only and answers [Z_BINARY] or [Z_TEXT], never [Z_UNKNOWN]: binary as
    soon as one byte of the block list (0..6, 14..25, 28..31) was counted;
    else text when one byte of the allow list (9, 10, 13, 32..255) was;
    and binary when none of both was, as for an empty block. *)
Theorem detect_data_type_spec :
  forall s : deflate_state,
    (detect_data_type s = Z_BINARY \/ detect_data_type s = Z_TEXT)
    /\ ((exists n, block_listed n = true /\ counted s n) ->
        detect_data_type s = Z_BINARY)
    /\ ((forall n, block_listed n = true -> ~ counted s n) ->
        (exists n, allow_listed n = true /\ counted s n) ->
        detect_data_type s = Z_TEXT)
    /\ ((forall n, block_listed n = true -> ~ counted s n) ->
        (forall n, allow_listed n = true -> ~ counted s n) ->
        detect_data_type s = Z_BINARY).
Proof.
  intros s. pose (used := counted s). fold used. unfold detect_data_type.
  set (e1 := existsb _ (map Z.of_nat (seq 0 32))).
  set (e3 := existsb _ (map Z.of_nat (seq 32 (Z.to_nat LITERALS - 32)))).
  set (e2 := _ || _ || _).
  assert (H1 : e1 = true <-> exists n, block_listed n = true /\ used n).
  { unfold e1. rewrite existsb_exists. split.
    - intros (n & Hin & Hn). apply In_map_of_nat_seq in Hin.
      apply andb_true_iff in Hn. destruct Hn as [Hb Hf].
      rewrite block_mask_bits in Hb by lia.
      exists n. split; [exact Hb |]. unfold used, counted.
      destruct (Z.eqb_spec (Freq (dyn_ltree s n)) 0); [discriminate | assumption].
    - intros (n & Hb & Hf). unfold used, counted in Hf. exists n.
      assert (Hr : 0 <= n < 32).
      { unfold block_listed in Hb.
        repeat match goal with
               | H : _ || _ = true |- _ => apply orb_true_iff in H; destruct H
               | H : _ && _ = true |- _ => apply andb_true_iff in H; destruct H
               | H : (_ <=? _) = true |- _ => apply Z.leb_le in H
               end; lia. }
      split; [apply In_map_of_nat_seq; lia |].
      rewrite block_mask_bits, Hb by lia. cbn [andb].
      destruct (Z.eqb_spec (Freq (dyn_ltree s n)) 0); [contradiction |
                                                        reflexivity]. }
  assert (H23 : e2 || e3 = true <-> exists n, allow_listed n = true /\ used n).
  { unfold e2, e3. rewrite !orb_true_iff, existsb_exists.
    unfold used, counted. split.
    - intros [[[H | H] | H] | (n & Hin & Hn)].
      + exists 9. split; [reflexivity |].
        destruct (Z.eqb_spec (Freq (dyn_ltree s 9)) 0); [discriminate |
                                                          assumption].
      + exists 10. split; [reflexivity |].
        destruct (Z.eqb_spec (Freq (dyn_ltree s 10)) 0); [discriminate |
                                                           assumption].
      + exists 13. split; [reflexivity |].
        destruct (Z.eqb_spec (Freq (dyn_ltree s 13)) 0); [discriminate |
                                                           assumption].
      + apply In_map_of_nat_seq in Hin.
        change (Z.of_nat (Z.to_nat LITERALS - 32)) with 224 in Hin.
        change (Z.of_nat 32) with 32 in Hin.
        exists n. split.
        * unfold allow_listed, LITERALS.
          destruct (Z.leb_spec 32 n), (Z.ltb_spec n 256); try lia;
            rewrite ?orb_true_r; reflexivity.
        * destruct (Z.eqb_spec (Freq (dyn_ltree s n)) 0); [discriminate |
                                                           assumption].
    - intros (n & Ha & Hf). unfold allow_listed, LITERALS in Ha.
      apply orb_true_iff in Ha. destruct Ha as [Ha | Ha].
      + apply orb_true_iff in Ha. destruct Ha as [Ha | Ha];
          [apply orb_true_iff in Ha; destruct Ha as [Ha | Ha] |];
          apply Z.eqb_eq in Ha; subst n; left;
          [left; left | left; right | right];
          match goal with
          | |- negb (?x =? 0) = true =>
              destruct (Z.eqb_spec x 0); [contradiction | reflexivity]
          end.
      + right. apply andb_true_iff in Ha. destruct Ha as [Ha1 Ha2].
        apply Z.leb_le in Ha1. apply Z.ltb_lt in Ha2.
        exists n. split.
        * apply In_map_of_nat_seq.
          change (Z.of_nat (Z.to_nat Trees.LITERALS - 32)) with 224.
          change (Z.of_nat 32) with 32. lia.
        * destruct (Z.eqb_spec (Freq (dyn_ltree s n)) 0); [contradiction |
                                                           reflexivity]. }
  assert (E23 : (if e2 then Z_TEXT else if e3 then Z_TEXT else Z_BINARY)
                = if e2 || e3 then Z_TEXT else Z_BINARY)
    by (destruct e2, e3; reflexivity).
  rewrite E23. clearbody e1 e2 e3.
  split; [destruct e1, (e2 || e3); auto |].
  split; [intros Hx; apply H1 in Hx; rewrite Hx; reflexivity |].
  split.
  - intros Hb Ha. apply H23 in Ha. rewrite Ha.
    destruct e1; [| reflexivity].
    destruct (proj1 H1 eq_refl) as (n & Hn & Hu). destruct (Hb n Hn Hu).
  - intros Hb Ha.
    destruct e1; [reflexivity |].
    destruct (e2 || e3); [| reflexivity].
    destruct (proj1 H23 eq_refl) as (n & Hn & Hu). destruct (Ha n Hn Hu).
Qed.

(** *** _tr_flush_block at the level 0 *)

(** X14.  At a level of 0 or less [_tr_flush_block] builds no tree and
    asks for no fuel: with a buffer the block is stored, for every length
    below 2^32 - 5, and with none it is a static block; the counters are
    reset after. *)
Theorem tr_flush_block_level0 :
  forall (fuel : nat) (mt : match_tables) (s : deflate_state)
         (buf : option (list Z)) (stored_len last : Z),
    level s <= 0 -> 0 <= stored_len < 2 ^ 32 - 5 ->
    let se :=
      match buf with
      | Some _ => _tr_stored_block s buf stored_len last
      | None =>
          compress_block mt (send_bits s (Z.shiftl STATIC_TREES 1 + last) 3)
            static_ltree static_dtree
      end in
    flush_block_costs fuel s stored_len
    = Some (s, stored_len + 5, stored_len + 5, 0)
    /\ _tr_flush_block fuel mt s buf stored_len last
       = Some (if negb (last =? 0) then bi_windup (init_block se)
               else init_block se).
Proof.
  intros fuel mt s buf stored_len last Hl Hs se.
  change (2 ^ 32) with 4294967296 in Hs.
  assert (Ec : flush_block_costs fuel s stored_len
               = Some (s, stored_len + 5, stored_len + 5, 0)).
  { unfold flush_block_costs.
    destruct (Z.gtb_spec (level s) 0) as [Hg | _]; [lia |].
    unfold ulg. change (2 ^ 32) with 4294967296.
    rewrite Z.mod_small by lia. reflexivity. }
  split; [exact Ec |].
  unfold _tr_flush_block. rewrite Ec.
  unfold flush_block_emit, flush_block_type.
  unfold ulg. change (2 ^ 32) with 4294967296.
  rewrite Z.mod_small by lia.
  destruct (Z.leb_spec (stored_len + 4) (stored_len + 5)) as [_ | H]; [| lia].
  rewrite Z.eqb_refl. unfold se.
  destruct buf as [data |]; reflexivity.
Qed.

Lemma tr_flush_block_level0_witness :
  level (set_level state0 0) <= 0 /\ 0 <= 2 < 2 ^ 32 - 5
  /\ exists s',
       _tr_flush_block 0 no_tables (set_level state0 0) (Some [104; 105]) 2 1
       = Some s'
       /\ pending_buf s' = [1; 2; 0; 253; 255; 104; 105].
Proof.
  split; [simpl; lia |]. split; [lia |].
  destruct (tr_flush_block_level0 0 no_tables (set_level state0 0)
              (Some [104; 105]) 2 1 ltac:(simpl; lia) ltac:(lia))
    as (_ & E).
  eexists. split; [exact E |]. vm_compute. reflexivity.
Defined.

(** *** build_bl_tree *)

Lemma build_bl_tree_index_spec s rounds :
  forall mb,
    2 <= mb <= 18 -> (Z.to_nat (mb - 2) <= rounds)%nat ->
    (forall rank, mb < rank < BL_CODES ->
       Len (bl_tree s (at_ bl_order rank)) = 0) ->
    let r := build_bl_tree_index rounds s mb in
    2 <= r <= 18
    /\ (forall rank, r < rank < BL_CODES ->
          Len (bl_tree s (at_ bl_order rank)) = 0)
    /\ (3 <= r -> Len (bl_tree s (at_ bl_order r)) <> 0)
    /\ (r = 2 ->
        forall rank, 3 <= rank < BL_CODES ->
          Len (bl_tree s (at_ bl_order rank)) = 0).
Proof.
  induction rounds as [| rounds IH]; intros mb Hmb Hr Hz; cbv zeta.
  - assert (mb = 2) by lia. subst mb. cbn [build_bl_tree_index].
    split; [lia |]. split; [exact Hz |]. split; [lia |].
    intros _ rank Hrank. apply Hz. lia.
  - cbn [build_bl_tree_index].
    destruct (Z.geb_spec mb 3) as [H3 | H3].
    + destruct (Z.eqb_spec (Len (bl_tree s (at_ bl_order mb))) 0) as [E | E];
        cbn [negb].
      * apply IH; [lia | lia |].
        intros rank Hrank. destruct (Z.eq_dec rank mb) as [-> | Hne];
          [exact E | apply Hz; lia].
      * split; [lia |]. split; [exact Hz |]. split; [intros _; exact E |].
        lia.
    + assert (mb = 2) by lia. subst mb.
      split; [lia |]. split; [exact Hz |]. split; [lia |].
      intros _ rank Hrank. apply Hz. lia.
Qed.

(** X15.  [build_bl_tree] returns: the index [max_blindex] it gives is
    between 2 and 18, every code length code after it in the order
    [bl_order] has the length 0, so that only zeros are left out of the
    header, the one at the index has a length when the index is 3 or more,
    and the cost of the header, [3 * (max_blindex + 1) + 14] bits, is
    added to [opt_len]. *)
Theorem build_bl_tree_index_range :
  forall (fuel : nat) (s : deflate_state),
    (573 <= fuel)%nat ->
    exists s' sb max_blindex,
      build_bl_tree fuel s = Some (s', max_blindex)
      /\ build_tree fuel
           (scan_tree (scan_tree s L_DESC (l_max_code s)) D_DESC
              (d_max_code (scan_tree s L_DESC (l_max_code s))))
           BL_DESC = Some sb
      /\ 2 <= max_blindex <= 18
      /\ (forall rank, max_blindex < rank < BL_CODES ->
            Len (bl_tree s' (at_ bl_order rank)) = 0)
      /\ (3 <= max_blindex ->
          Len (bl_tree s' (at_ bl_order max_blindex)) <> 0)
      /\ bl_tree s' = bl_tree sb
      /\ opt_len s' = ulg (opt_len sb + (3 * (max_blindex + 1) + 14)).
Proof.
  intros fuel s Hfuel. unfold build_bl_tree. cbv zeta.
  set (sc := scan_tree (scan_tree s L_DESC (l_max_code s)) D_DESC
               (d_max_code (scan_tree s L_DESC (l_max_code s)))).
  destruct (build_tree_spec fuel sc BL_DESC Hfuel) as (sb & L0 & Eb & _).
  rewrite Eb.
  destruct (build_bl_tree_index_spec sb (Z.to_nat BL_CODES) (BL_CODES - 1))
    as (R1 & R2 & R3 & _).
  { unfold BL_CODES. lia. }
  { unfold BL_CODES. lia. }
  { intros rank Hrank. lia. }
  cbv zeta in R1, R2, R3.
  set (mb := build_bl_tree_index (Z.to_nat BL_CODES) sb (BL_CODES - 1)) in *.
  eexists _, sb, mb. split; [reflexivity |]. split; [reflexivity |].
  fields. split; [exact R1 |]. split; [exact R2 |]. split; [exact R3 |].
  split; [reflexivity |].
  unfold ulg at 2. change (2 ^ 32) with 4294967296.
  rewrite (Z.mod_small mb) by lia. f_equal. lia.
Qed.

Lemma build_bl_tree_index_range_witness :
  (573 <= 573)%nat
  /\ exists s' max_blindex,
       build_bl_tree 573 state0 = Some (s', max_blindex)
       /\ 2 <= max_blindex <= 18.
Proof.
  split; [lia |].
  destruct (build_bl_tree_index_range 573 state0 ltac:(lia))
    as (s' & sb & mb & E & _ & R & _).
  exists s', mb. split; [exact E | exact R].
Defined.
(** *** _tr_tally and compress_block *)

(** A run of literals through [_tr_tally]. *)
Definition tally_literals (mt : match_tables) (s : deflate_state)
    (lits : list Z) : deflate_state :=
  fold_left (fun s lc => fst (_tr_tally mt s 0 lc)) lits s.

Lemma tally_literal_step mt s lc :
  let s' := fst (_tr_tally mt s 0 lc) in
  sym_next s' = sym_next s + 3
  /\ sym_buf s'
     = upd (upd (upd (sym_buf s) (sym_next s) 0) (sym_next s + 1) 0)
         (sym_next s + 2) (uch lc)
  /\ dyn_ltree s'
     = upd (dyn_ltree s) lc
         (set_Freq (dyn_ltree s lc) (ush (Freq (dyn_ltree s lc) + 1)))
  /\ dyn_dtree s' = dyn_dtree s /\ bl_tree s' = bl_tree s
  /\ matches s' = matches s /\ sym_end s' = sym_end s
  /\ output s' = output s
  /\ snd (_tr_tally mt s 0 lc) = (sym_next s + 3 =? sym_end s).
Proof.
  cbv zeta. unfold _tr_tally, output. cbv zeta. rewrite Z.eqb_refl.
  cbn [fst snd]. fields.
  replace (sym_next s + 1 + 1) with (sym_next s + 2) by lia.
  replace (sym_next s + 2 + 1) with (sym_next s + 3) by lia.
  repeat split; reflexivity.
Qed.

Lemma ush_succ a k : ush (ush (a + k) + 1) = ush (a + (k + 1)).
Proof. rewrite ush_add_l. f_equal. lia. Qed.

(** What a run of literals leaves in the state. *)
Lemma tally_literals_spec mt lits :
  forall s,
    let s' := tally_literals mt s lits in
    sym_next s' = sym_next s + 3 * Z.of_nat (length lits)
    /\ (forall c,
          dl (dyn_ltree s' c) = dl (dyn_ltree s c)
          /\ (count_occ Z.eq_dec lits c = 0%nat ->
              dyn_ltree s' c = dyn_ltree s c)
          /\ (count_occ Z.eq_dec lits c <> 0%nat ->
              Freq (dyn_ltree s' c)
              = ush (Freq (dyn_ltree s c)
                     + Z.of_nat (count_occ Z.eq_dec lits c))))
    /\ (forall i, (i < length lits)%nat ->
          sym_buf s' (sym_next s + 3 * Z.of_nat i) = 0
          /\ sym_buf s' (sym_next s + 3 * Z.of_nat i + 1) = 0
          /\ sym_buf s' (sym_next s + 3 * Z.of_nat i + 2)
             = uch (nth i lits 0))
    /\ (forall j, j < sym_next s -> sym_buf s' j = sym_buf s j)
    /\ dyn_dtree s' = dyn_dtree s /\ bl_tree s' = bl_tree s
    /\ matches s' = matches s /\ sym_end s' = sym_end s
    /\ output s' = output s.
Proof.
  induction lits as [| lc lits IH]; intros s; cbv zeta.
  - cbn [tally_literals fold_left length count_occ].
    split; [lia |]. split; [intros c; repeat split; intros; congruence |].
    split; [intros i Hi; cbn [length] in Hi; lia |].
    repeat split; reflexivity.
  - cbn [tally_literals fold_left].
    destruct (tally_literal_step mt s lc)
      as (N1 & B1 & L1 & D1 & T1 & M1 & E1 & O1 & _).
    cbv zeta in N1, B1, L1, D1, T1, M1, E1, O1.
    set (s1 := fst (_tr_tally mt s 0 lc)) in *.
    fold (tally_literals mt s1 lits).
    destruct (IH s1) as (N2 & L2 & B2 & K2 & D2 & T2 & M2 & E2 & O2).
    cbv zeta in N2, L2, B2, K2, D2, T2, M2, E2, O2.
    set (s' := tally_literals mt s1 lits) in *.
    split; [cbn [length]; lia |].
    split.
    { intros c. destruct (L2 c) as (Ld & L0 & Ln). rewrite L1 in Ld, L0, Ln.
      cbn [count_occ]. unfold upd in *.
      destruct (Z.eq_dec lc c) as [Heq | Hne].
      - subst c. rewrite Z.eqb_refl in *. cbn [set_Freq dl Freq fc] in *.
        split; [exact Ld |]. split; [intros H; discriminate |].
        intros _.
        destruct (Nat.eq_dec (count_occ Z.eq_dec lits lc) 0) as [E0 | E0].
        + rewrite E0. rewrite (L0 E0). cbn [fc]. reflexivity.
        + rewrite (Ln E0). unfold Freq. cbn [fc].
          rewrite ush_add_l. f_equal. lia.
      - destruct (Z.eqb_spec c lc) as [Heq | _]; [congruence |].
        split; [exact Ld |]. split; [exact L0 | exact Ln]. }
    split.
    { intros i Hi. destruct i as [| i].
      - cbn [nth]. change (Z.of_nat 0) with 0.
        rewrite Z.mul_0_r, Z.add_0_r.
        rewrite !K2 by lia. rewrite B1. unfold upd.
        rewrite Z.eqb_refl.
        destruct (Z.eqb_spec (sym_next s) (sym_next s + 2)); [lia |].
        destruct (Z.eqb_spec (sym_next s) (sym_next s + 1)); [lia |].
        destruct (Z.eqb_spec (sym_next s + 1) (sym_next s + 2)); [lia |].
        rewrite !Z.eqb_refl. repeat split; reflexivity.
      - cbn [length] in Hi. cbn [nth].
        destruct (B2 i ltac:(lia)) as (X0 & X1 & X2).
        rewrite N1 in X0, X1, X2.
        replace (sym_next s + 3 * Z.of_nat (S i))
          with (sym_next s + 3 + 3 * Z.of_nat i) by lia.
        split; [exact X0 |]. split; [exact X1 | exact X2]. }
    split.
    { intros j Hj. rewrite K2 by lia. rewrite B1. unfold upd.
      destruct (Z.eqb_spec j (sym_next s + 2)); [lia |].
      destruct (Z.eqb_spec j (sym_next s + 1)); [lia |].
      destruct (Z.eqb_spec j (sym_next s)); [lia |].
      reflexivity. }
    repeat split; congruence.
Qed.


(** The bits [send_code] writes for the symbol [c]. *)
Definition code_bits (tree : Z -> ct_data) (c : Z) : list bool :=
  bits_of (Z.to_nat (Len (tree c))) (Code (tree c)).

(** The code of [c] can be sent: it has a length, and no bit beyond it. *)
Definition sendable (tree : Z -> ct_data) (c : Z) : Prop :=
  1 <= Len (tree c) <= MAX_BITS /\ 0 <= Code (tree c) < 2 ^ Len (tree c).

Lemma send_code_spec s c tree :
  bi_ok s -> sendable tree c ->
  stream (send_code s c tree) = stream s ++ code_bits tree c
  /\ bi_ok (send_code s c tree)
  /\ sym_buf (send_code s c tree) = sym_buf s
  /\ sym_next (send_code s c tree) = sym_next s.
Proof.
  intros Hok [Hl Hc]. unfold send_code, code_bits. unfold MAX_BITS in Hl.
  destruct (send_bits_spec s (Code (tree c)) (Len (tree c)) Hok ltac:(lia))
    as (S1 & _ & O1).
  destruct (send_bits_frame s (Code (tree c)) (Len (tree c)))
    as (_ & _ & _ & F1 & F2).
  split; [exact S1 |]. split; [exact (O1 Hc) |]. split; assumption.
Qed.

Lemma compress_block_loop_literals mt ltree dtree :
  forall rest rounds s sx,
    rest <> [] -> (length rest <= rounds)%nat ->
    bi_ok s ->
    sym_next s = sx + 3 * Z.of_nat (length rest) ->
    (forall i, (i < length rest)%nat ->
       sym_buf s (sx + 3 * Z.of_nat i) = 0
       /\ sym_buf s (sx + 3 * Z.of_nat i + 1) = 0
       /\ sym_buf s (sx + 3 * Z.of_nat i + 2) = nth i rest 0) ->
    (forall c, In c rest -> sendable ltree c) ->
    let s' := compress_block_loop rounds mt s ltree dtree sx in
    stream s' = stream s ++ flat_map (code_bits ltree) rest
    /\ bi_ok s'.
Proof.
  induction rest as [| c rest IH]; intros rounds s sx Hne Hr Hok Hn Hb Hs;
    [congruence |].
  destruct rounds as [| rounds]; [cbn [length] in Hr; lia |].
  cbv zeta. cbn [compress_block_loop].
  destruct (Hb 0%nat ltac:(cbn [length]; lia)) as (B0 & B1 & B2).
  change (Z.of_nat 0) with 0 in B0, B1, B2.
  rewrite Z.mul_0_r, Z.add_0_r in B0, B1, B2. cbn [nth] in B2.
  rewrite B0, B1, B2. cbv zeta.
  change (Z.land 0 255) with 0. change (Z.shiftl 0 8) with 0.
  change (uns (0 + 0)) with 0. change (0 =? 0) with true. cbv iota.
  destruct (send_code_spec s c ltree Hok (Hs c (or_introl eq_refl)))
    as (S1 & O1 & F1 & F2).
  set (s1 := send_code s c ltree) in *.
  rewrite F2, Hn. cbn [length flat_map].
  destruct rest as [| c' rest'].
  - cbn [length]. change (Z.of_nat 1) with 1.
    destruct (Z.ltb_spec (sx + 3) (sx + 3 * 1)) as [H | _]; [lia |].
    cbn [flat_map]. rewrite app_nil_r. split; [exact S1 | exact O1].
  - destruct (Z.ltb_spec (sx + 3) (sx + 3 * Z.of_nat (S (length (c' :: rest')))))
      as [_ | H]; [| cbn [length] in H; lia].
    destruct (IH rounds s1 (sx + 3)) as (S2 & O2).
    + discriminate.
    + cbn [length] in *. lia.
    + exact O1.
    + rewrite F2, Hn. cbn [length]. lia.
    + intros i Hi. rewrite F1.
      destruct (Hb (S i) ltac:(cbn [length] in *; lia)) as (X0 & X1 & X2).
      cbn [nth] in X2.
      replace (sx + 3 + 3 * Z.of_nat i) with (sx + 3 * Z.of_nat (S i)) by lia.
      split; [exact X0 |]. split; [exact X1 | exact X2].
    + intros x Hx. apply Hs. right. exact Hx.
    + cbv zeta in S2. rewrite S2, S1, <- app_assoc.
      split; [reflexivity | exact O2].
Qed.

(** X17.  What [_tr_tally] records [compress_block] writes: after a run of
    literals, from a state with no symbol recorded, [compress_block] with
    a tree whose codes for these literals and for the end of block can be
    sent appends the code of each literal, in the order they came, and
    then the code of the end of block; for no literal it is the end of
    block alone. *)
Theorem compress_block_writes_tallied :
  forall (mt : match_tables) (s : deflate_state) (lits : list Z)
         (ltree dtree : Z -> ct_data),
    bi_ok s -> sym_next s = 0 ->
    Forall (fun c => 0 <= c < 256) lits ->
    (forall c, In c (lits ++ [END_BLOCK]) -> sendable ltree c) ->
    let s' := compress_block mt (tally_literals mt s lits) ltree dtree in
    stream s'
    = stream s ++ flat_map (code_bits ltree) (lits ++ [END_BLOCK])
    /\ bi_ok s'.
Proof.
  intros mt s lits ltree dtree Hok Hn Hl Hs s'.
  destruct (tally_literals_spec mt lits s)
    as (N & _ & B & _ & _ & _ & _ & _ & O).
  cbv zeta in N, B, O.
  set (st := tally_literals mt s lits) in *.
  apply triple_eq in O. destruct O as (Op & Ob & Ov).
  assert (Est : stream st = stream s)
    by (unfold stream; rewrite Op, Ob, Ov; reflexivity).
  assert (Okt : bi_ok st) by (unfold bi_ok in *; rewrite Ob, Ov; exact Hok).
  rewrite Hn, Z.add_0_l in N.
  assert (Hloop :
            let sl :=
              if negb (sym_next st =? 0)
              then compress_block_loop (Z.to_nat (sym_next st)) mt st ltree
                     dtree 0
              else st in
            stream sl = stream s ++ flat_map (code_bits ltree) lits
            /\ bi_ok sl).
  { cbv zeta. destruct lits as [| c lits].
    - cbn [length] in N. change (3 * Z.of_nat 0) with 0 in N. rewrite N.
      cbn [Z.eqb negb flat_map]. rewrite app_nil_r.
      split; [exact Est | exact Okt].
    - destruct (Z.eqb_spec (sym_next st) 0) as [E0 | _];
        [cbn [length] in N; lia |].
      cbn [negb].
      destruct (compress_block_loop_literals mt ltree dtree (c :: lits)
                  (Z.to_nat (sym_next st)) st 0) as (S1 & O1).
      + discriminate.
      + rewrite N. lia.
      + exact Okt.
      + rewrite N. lia.
      + intros i Hi. destruct (B i Hi) as (X0 & X1 & X2).
        rewrite Hn in X0, X1, X2.
        split; [exact X0 |]. split; [exact X1 |].
        rewrite X2. unfold uch. change (2 ^ 8) with 256.
        apply Z.mod_small.
        rewrite Forall_forall in Hl. apply Hl, nth_In, Hi.
      + intros x Hx. apply Hs. apply in_or_app. left. exact Hx.
      + cbv zeta in S1. rewrite S1, Est. split; [reflexivity | exact O1]. }
  cbv zeta in Hloop. destruct Hloop as (S1 & O1).
  unfold s', compress_block.
  destruct (send_code_spec _ END_BLOCK ltree O1
              (Hs END_BLOCK ltac:(apply in_or_app; right; left; reflexivity)))
    as (S2 & O2 & _).
  split; [| exact O2].
  rewrite S2, S1, flat_map_app, <- app_assoc. cbn [flat_map].
  rewrite app_nil_r. reflexivity.
Qed.

Lemma compress_block_writes_tallied_witness :
  bi_ok state0 /\ sym_next state0 = 0
  /\ Forall (fun c => 0 <= c < 256) [104; 105]
  /\ (forall c, In c ([104; 105] ++ [END_BLOCK]) -> sendable static_ltree c)
  /\ stream (compress_block no_tables (tally_literals no_tables state0
                                         [104; 105])
               static_ltree static_dtree)
     = stream state0
       ++ flat_map (code_bits static_ltree) ([104; 105] ++ [END_BLOCK]).
Proof.
  assert (F : Forall (fun c => 0 <= c < 256) [104; 105])
    by (repeat constructor; lia).
  assert (S : forall c, In c ([104; 105] ++ [END_BLOCK]) ->
                sendable static_ltree c).
  { intros c Hc. cbn [app In] in Hc.
    destruct Hc as [<- | [<- | [<- | []]]]; vm_compute;
      repeat split; discriminate. }
  split; [exact bi_ok_state0 |]. split; [reflexivity |].
  split; [exact F |]. split; [exact S |].
  apply (compress_block_writes_tallied no_tables state0 [104; 105]
           static_ltree static_dtree bi_ok_state0 eq_refl F S).
Defined.
(** *** The codes of gen_codes are a prefix code *)

(** A list of bits begins another. *)
Definition is_prefix (p l : list bool) : Prop := exists r, l = p ++ r.

Lemma nth_Zseq n : forall lo i, (i < n)%nat -> nth i (Zseq lo n) 0 = lo + Z.of_nat i.
Proof.
  induction n as [| n IH]; intros lo i Hi; [lia |].
  cbn [Zseq]. destruct i as [| i]; cbn [nth]; [lia |].
  rewrite IH by lia. lia.
Qed.

Lemma nth_bits_of k v i :
  (i < k)%nat -> nth i (bits_of k v) false = Z.testbit v (Z.of_nat i).
Proof.
  intros Hi. unfold bits_of.
  rewrite (nth_indep _ false ((fun i => Z.testbit v i) 0))
    by (rewrite length_map, length_Zseq; exact Hi).
  rewrite (map_nth (fun i => Z.testbit v i) (Zseq 0 k) 0 i).
  rewrite nth_Zseq by exact Hi. reflexivity.
Qed.

Lemma sumf_single (w : Z -> Z) (n : Z) (l : list Z) :
  NoDup l -> In n l -> sumf (fun x => if x =? n then w x else 0) l = w n.
Proof.
  induction l as [| y l IH]; intros Hnd Hin; [contradiction |].
  apply NoDup_cons_iff in Hnd. destruct Hnd as [Hy Hnd]. cbn [sumf].
  destruct Hin as [Heq | Hin].
  - subst y. rewrite Z.eqb_refl.
    rewrite sumf_zero; [lia |].
    intros x Hx. destruct (Z.eqb_spec x n); [subst; contradiction |
                                              reflexivity].
  - destruct (Z.eqb_spec y n) as [E | E]; [subst; contradiction |].
    rewrite IH by assumption. lia.
Qed.

Section Canonical.

Variable tree : Z -> ct_data.
Variable mc : Z.
Variable blc : Z -> Z.
Variable L0 : list Z.

Hypothesis H_nd : NoDup L0.
Hypothesis H_mc : mc < 1000.
Hypothesis H_r : forall x, In x L0 -> 0 <= x <= mc.
Hypothesis H_len : forall x, In x L0 -> 1 <= Len (tree x) <= 15.
Hypothesis H_zero :
  forall n, 0 <= n <= mc -> ~ In n L0 -> Len (tree n) = 0.
Hypothesis H_blc :
  forall b, 0 <= b <= 15 -> blc b = countf (fun x => Len (tree x) =? b) L0.
Hypothesis H_kraft :
  sumf (fun x => 2 ^ (15 - Len (tree x))) L0 <= 2 ^ 15.

(** The code of the symbol [n] before its bits are reversed. *)
Definition canon (n : Z) : Z :=
  first_code blc (Z.to_nat (Len (tree n)))
  + count_before tree (Len (tree n)) n.

(** The symbol [x] gets its code before the symbol [n]: it is shorter, or
    as long and smaller. *)
Definition before (n x : Z) : bool :=
  (Len (tree x) <? Len (tree n))
  || ((Len (tree x) =? Len (tree n)) && (x <? n)).

(** The part of the code space taken by the symbols before [n]. *)
Definition pos (n : Z) : Z :=
  sumf (fun x => if before n x then 2 ^ (15 - Len (tree x)) else 0) L0.

Lemma blc_bound b : 0 <= b <= 15 -> 0 <= blc b <= 1000.
Proof.
  intros Hb. rewrite H_blc by exact Hb.
  pose proof (countf_nonneg (fun x => Len (tree x) =? b) L0).
  pose proof (countf_le_length (fun x => Len (tree x) =? b) L0).
  pose proof (length_leaves L0 (mc + 1) H_nd
                ltac:(intros x Hx; apply H_r in Hx; lia)).
  lia.
Qed.

Lemma weight_nonneg x : 0 <= 2 ^ (15 - Len (tree x)).
Proof. apply Z.pow_nonneg. lia. Qed.

Lemma weight_pos x : In x L0 -> 0 < 2 ^ (15 - Len (tree x)).
Proof. intros Hx. apply H_len in Hx. apply Z.pow_pos_nonneg; lia. Qed.

(** The first code of a length, in the code space. *)
Lemma first_code_pos k :
  (k <= 15)%nat ->
  first_code blc k * 2 ^ (15 - Z.of_nat k)
  = sumf (fun x => if Len (tree x) <? Z.of_nat k
                   then 2 ^ (15 - Len (tree x)) else 0) L0.
Proof.
  intros Hk.
  destruct (first_code_sum blc ltac:(intros b Hb; apply blc_bound; lia) k Hk)
    as [E _].
  rewrite E, Z.mul_comm, <- sumf_scale.
  rewrite (sumf_ext _ (fun b => blc b * 2 ^ (15 - b))).
  2:{ intros b Hb. apply In_Zseq in Hb.
      rewrite Z.mul_comm, <- Z.mul_assoc, <- Z.pow_add_r by lia.
      do 2 f_equal. lia. }
  rewrite (sumf_by_value (fun x => Len (tree x))
             (fun b => if b <? Z.of_nat k then 2 ^ (15 - b) else 0) L0 0 16).
  2:{ intros x Hx. apply H_len in Hx. lia. }
  replace 16%nat with (k + (16 - k))%nat by lia.
  rewrite Zseq_app, sumf_app.
  rewrite (sumf_zero _ (Zseq (0 + Z.of_nat k) (16 - k))).
  2:{ intros b Hb. apply In_Zseq in Hb.
      destruct (Z.ltb_spec b (Z.of_nat k)); [lia |]. apply Z.mul_0_r. }
  rewrite Z.add_0_r. apply sumf_ext. intros b Hb. apply In_Zseq in Hb.
  destruct (Z.ltb_spec b (Z.of_nat k)); [| lia].
  rewrite H_blc by lia. reflexivity.
Qed.

(** The rank of a symbol among those of its length, counted in [L0]. *)
Lemma count_before_leaves n l :
  1 <= l -> 0 <= n <= mc + 1 ->
  count_before tree l n
  = countf (fun x => (Len (tree x) =? l) && (x <? n)) L0.
Proof.
  intros Hl Hn. unfold count_before. rewrite <- countf_filter.
  unfold countf.
  rewrite <- (sumf_incl _ L0 (Zseq 0 (Z.to_nat (mc + 1))) H_nd
                (NoDup_Zseq _ _)).
  - replace (Z.to_nat (mc + 1))
      with (Z.to_nat n + (Z.to_nat (mc + 1) - Z.to_nat n))%nat by lia.
    rewrite Zseq_app, sumf_app.
    rewrite (sumf_zero _ (Zseq _ (Z.to_nat (mc + 1) - Z.to_nat n))).
    + rewrite Z.add_0_r. apply sumf_ext. intros x Hx. apply In_Zseq in Hx.
      destruct (Z.ltb_spec x n); [| lia]. rewrite andb_true_r. reflexivity.
    + intros x Hx. apply In_Zseq in Hx.
      destruct (Z.ltb_spec x n); [lia |]. rewrite andb_false_r. reflexivity.
  - intros x Hx. apply H_r in Hx. apply In_Zseq. lia.
  - intros x Hx Hnin. apply In_Zseq in Hx.
    rewrite (H_zero x) by (try exact Hnin; lia).
    destruct (Z.eqb_spec 0 l); [lia | reflexivity].
Qed.

Lemma pos_canon n :
  In n L0 -> pos n = canon n * 2 ^ (15 - Len (tree n)).
Proof.
  intros Hn. pose proof (H_len n Hn) as Hl. pose proof (H_r n Hn) as Hr.
  unfold pos, canon. rewrite Z.mul_add_distr_r.
  rewrite <- (Z2Nat.id (Len (tree n))) at 2 by lia.
  rewrite first_code_pos by lia. rewrite Z2Nat.id by lia.
  rewrite count_before_leaves by lia.
  unfold countf. rewrite Z.mul_comm, <- sumf_scale, <- sumf_plus.
  apply sumf_ext. intros x Hx. unfold before.
  destruct (Z.ltb_spec (Len (tree x)) (Len (tree n))) as [H1 | H1];
    destruct (Z.eqb_spec (Len (tree x)) (Len (tree n))) as [H2 | H2];
    try lia; cbn [orb andb].
  - lia.
  - destruct (x <? n); [rewrite H2 |]; lia.
  - lia.
Qed.

Lemma before_irrefl n : before n n = false.
Proof.
  unfold before. rewrite Z.ltb_irrefl, Z.ltb_irrefl, andb_false_r.
  reflexivity.
Qed.

Lemma before_trans n m x :
  before n x = true -> before m n = true -> before m x = true.
Proof. unfold before. lia. Qed.

Lemma before_total n m : n <> m -> before n m = true \/ before m n = true.
Proof. unfold before. lia. Qed.

(** The symbols take their parts of the code space one after the other. *)
Lemma pos_next n m :
  In n L0 -> In m L0 -> before m n = true ->
  pos n + 2 ^ (15 - Len (tree n)) <= pos m.
Proof.
  intros Hn Hm Hb.
  rewrite <- (sumf_single (fun x => 2 ^ (15 - Len (tree x))) n L0 H_nd Hn).
  unfold pos. rewrite <- sumf_plus. apply sumf_le. intros x Hx.
  pose proof (weight_nonneg x).
  destruct (Z.eqb_spec x n) as [-> | Hne].
  - rewrite before_irrefl, Hb. lia.
  - destruct (before n x) eqn:E.
    + rewrite (before_trans n m x E Hb). lia.
    + destruct (before m x); lia.
Qed.

Lemma pos_top n : In n L0 -> pos n + 2 ^ (15 - Len (tree n)) <= 2 ^ 15.
Proof.
  intros Hn. eapply Z.le_trans; [| exact H_kraft].
  rewrite <- (sumf_single (fun x => 2 ^ (15 - Len (tree x))) n L0 H_nd Hn).
  unfold pos. rewrite <- sumf_plus. apply sumf_le. intros x Hx.
  pose proof (weight_nonneg x).
  destruct (Z.eqb_spec x n) as [-> | Hne].
  - rewrite before_irrefl. lia.
  - destruct (before n x); lia.
Qed.

Lemma canon_range n : In n L0 -> 0 <= canon n < 2 ^ Len (tree n).
Proof.
  intros Hn. pose proof (H_len n Hn) as Hl.
  split.
  - unfold canon, count_before.
    destruct (first_code_sum blc ltac:(intros b Hb; apply blc_bound; lia)
                (Z.to_nat (Len (tree n))) ltac:(lia)) as [_ H].
    lia.
  - pose proof (pos_top n Hn) as Ht. rewrite (pos_canon n Hn) in Ht.
    pose proof (weight_pos n Hn) as Hw.
    assert (E : 2 ^ 15 = 2 ^ Len (tree n) * 2 ^ (15 - Len (tree n))).
    { rewrite <- Z.pow_add_r by lia. f_equal. lia. }
    rewrite E in Ht.
    assert (H : (canon n + 1) * 2 ^ (15 - Len (tree n))
                <= 2 ^ Len (tree n) * 2 ^ (15 - Len (tree n))) by lia.
    apply Z.mul_le_mono_pos_r in H; [lia | exact Hw].
Qed.

(** The code that [gen_codes] stores for a symbol of [L0]. *)
Lemma gen_codes_code n :
  In n L0 ->
  Code (gen_codes tree mc blc n) = bi_reverse (canon n) (Len (tree n))
  /\ Len (gen_codes tree mc blc n) = Len (tree n).
Proof.
  intros Hn. pose proof (H_len n Hn) as Hl. pose proof (H_r n Hn) as Hr.
  destruct (gen_codes_next_spec blc) as [_ Hnext].
  pose proof (gen_codes_next_ush blc) as Hush.
  unfold gen_codes.
  destruct (gen_codes_next blc) as [code0 nc0] eqn:Enext.
  cbn [snd] in *.
  destruct (gen_codes_assign_spec tree nc0 (Z.to_nat (mc + 1)) Hush)
    as (Hd & _ & _ & Hc).
  split; [| apply Hd].
  rewrite Hc by lia.
  rewrite Hnext, ush_add_l by (unfold MAX_BITS; lia).
  fold (canon n).
  pose proof (canon_range n Hn) as Hcr.
  assert (Hp : 2 ^ Len (tree n) <= 2 ^ 15) by (apply Z.pow_le_mono_r; lia).
  change (2 ^ 15) with 32768 in Hp.
  rewrite (ush_small_16 (canon n)) by (change (2 ^ 16) with 65536; lia).
  apply ush_small_16.
  pose proof (bi_reverse_range (canon n) (Len (tree n)) ltac:(lia)).
  change (2 ^ 16) with 65536. lia.
Qed.

(** The bits of a code as they are sent: the bits of [canon], the most
    significant first. *)
Lemma canon_bit n i :
  In n L0 -> 0 <= i < Len (tree n) ->
  nth (Z.to_nat i)
    (bits_of (Z.to_nat (Len (tree n)))
       (bi_reverse (canon n) (Len (tree n)))) false
  = Z.testbit (canon n) (Len (tree n) - 1 - i).
Proof.
  intros Hn Hi. pose proof (H_len n Hn) as Hl.
  rewrite nth_bits_of by lia. rewrite Z2Nat.id by lia.
  rewrite bi_reverse_bits by lia.
  destruct (Z.ltb_spec i (Len (tree n))); [reflexivity | lia].
Qed.

(** No code begins another. *)
Lemma canon_no_prefix n m :
  In n L0 -> In m L0 -> n <> m ->
  ~ is_prefix
      (bits_of (Z.to_nat (Len (tree n))) (bi_reverse (canon n) (Len (tree n))))
      (bits_of (Z.to_nat (Len (tree m))) (bi_reverse (canon m) (Len (tree m)))).
Proof.
  intros Hn Hm Hne [r Hr].
  pose proof (H_len n Hn) as Hln. pose proof (H_len m Hm) as Hlm.
  pose proof (canon_range n Hn) as Hcn. pose proof (canon_range m Hm) as Hcm.
  set (ln := Len (tree n)) in *. set (lm := Len (tree m)) in *.
  assert (Hle : ln <= lm).
  { apply (f_equal (@length bool)) in Hr.
    rewrite length_app, !length_bits_of in Hr. lia. }
  assert (Hbits : forall i, 0 <= i < ln ->
            Z.testbit (canon n) (ln - 1 - i)
            = Z.testbit (canon m) (lm - 1 - i)).
  { intros i Hi.
    pose proof (canon_bit n i Hn Hi) as Bn.
    pose proof (canon_bit m i Hm ltac:(unfold ln, lm in *; lia)) as Bm.
    fold ln in Bn. fold lm in Bm. rewrite <- Bn, <- Bm, Hr.
    symmetry. apply app_nth1. rewrite length_bits_of. lia. }
  assert (E : canon n = Z.shiftr (canon m) (lm - ln)).
  { apply Z.bits_inj'. intros j Hj. rewrite Z.shiftr_spec by exact Hj.
    destruct (Z.lt_ge_cases j ln) as [Hlt | Hge].
    - replace j with (ln - 1 - (ln - 1 - j)) at 1 by lia.
      rewrite Hbits by lia. f_equal. lia.
    - rewrite (small_testbit (canon n) ln j) by lia.
      symmetry. apply (small_testbit (canon m) lm). { lia. } lia. }
  rewrite Z.shiftr_div_pow2 in E by lia.
  assert (Hd : 0 < 2 ^ (lm - ln)) by (apply Z.pow_pos_nonneg; lia).
  pose proof (Z.mul_div_le (canon m) (2 ^ (lm - ln)) Hd) as D1.
  pose proof (Z.mul_succ_div_gt (canon m) (2 ^ (lm - ln)) Hd) as D2.
  rewrite <- E in D1, D2.
  pose proof (weight_pos m Hm) as Hw. fold lm in Hw.
  assert (Ew : 2 ^ (15 - ln) = 2 ^ (lm - ln) * 2 ^ (15 - lm)).
  { rewrite <- Z.pow_add_r by lia. f_equal. lia. }
  pose proof (pos_canon n Hn) as Pn. pose proof (pos_canon m Hm) as Pm.
  fold ln in Pn. fold lm in Pm. rewrite Ew in Pn.
  destruct (before_total n m Hne) as [B | B].
  - (* m comes before n *)
    pose proof (pos_next m n Hm Hn B) as Hs. fold lm in Hs.
    rewrite Pn, Pm in Hs.
    assert (H : (canon m + 1) * 2 ^ (15 - lm)
                <= (canon n * 2 ^ (lm - ln)) * 2 ^ (15 - lm)) by lia.
    apply Z.mul_le_mono_pos_r in H; [lia | exact Hw].
  - (* n comes before m *)
    pose proof (pos_next n m Hn Hm B) as Hs. fold ln in Hs.
    rewrite Pn, Pm, Ew in Hs.
    assert (H : (2 ^ (lm - ln) * Z.succ (canon n)) * 2 ^ (15 - lm)
                <= canon m * 2 ^ (15 - lm)) by lia.
    apply Z.mul_le_mono_pos_r in H; [lia | exact Hw].
Qed.

End Canonical.

Lemma sumf_filter {A} (f : A -> Z) (q : A -> bool) l :
  sumf f (filter q l) = sumf (fun x => if q x then f x else 0) l.
Proof.
  induction l as [| x l IH]; [reflexivity |].
  cbn [filter sumf]. destruct (q x); cbn [sumf]; rewrite IH; lia.
Qed.

(** The codes of the symbols of [L0]: each can be sent, and none begins
    another. *)
Lemma prefix_code_of_leaves tree mc blc L0 :
  NoDup L0 -> mc < 1000 ->
  (forall x, In x L0 -> 0 <= x <= mc) ->
  (forall x, In x L0 -> 1 <= Len (tree x) <= 15) ->
  (forall n, 0 <= n <= mc -> ~ In n L0 -> Len (tree n) = 0) ->
  (forall b, 0 <= b <= 15 ->
     blc b = countf (fun x => Len (tree x) =? b) L0) ->
  sumf (fun x => 2 ^ (15 - Len (tree x))) L0 <= 2 ^ 15 ->
  forall n m, In n L0 -> In m L0 -> n <> m ->
    sendable (gen_codes tree mc blc) n
    /\ ~ is_prefix (code_bits (gen_codes tree mc blc) n)
           (code_bits (gen_codes tree mc blc) m).
Proof.
  intros Hnd Hmc Hr Hlen Hzero Hblc Hk n m Hn Hm Hne.
  destruct (gen_codes_code tree mc blc L0 Hnd Hmc Hr Hlen Hzero Hblc Hk n Hn)
    as [Cn Ln].
  destruct (gen_codes_code tree mc blc L0 Hnd Hmc Hr Hlen Hzero Hblc Hk m Hm)
    as [Cm Lm].
  pose proof (Hlen n Hn) as Hl.
  unfold sendable, code_bits. rewrite Cn, Ln, Cm, Lm.
  split.
  - split; [unfold MAX_BITS; lia |]. apply bi_reverse_range. lia.
  - apply (canon_no_prefix tree mc blc L0); assumption.
Qed.

(** X18.  [gen_codes] gives a prefix code: when [bl_count] holds the
    number of symbols of each length, the lengths are at most [MAX_BITS]
    and Kraft's sum of the lengths is at most 1, the code of every symbol
    with a length has that many bits and no more, and the bits sent for one
    symbol never begin the bits sent for another. *)
Theorem gen_codes_prefix_code :
  forall (tree : Z -> ct_data) (max_code : Z) (bl_count : Z -> Z),
    max_code < 1000 ->
    (forall n, 0 <= n <= max_code -> 0 <= Len (tree n) <= MAX_BITS) ->
    bl_count 0 = 0 ->
    (forall b, 1 <= b <= MAX_BITS ->
       bl_count b = count_before tree b (max_code + 1)) ->
    sumf (fun n => if Len (tree n) =? 0 then 0
                   else 2 ^ (MAX_BITS - Len (tree n)))
      (Zseq 0 (Z.to_nat (max_code + 1))) <= 2 ^ MAX_BITS ->
    forall n m,
      0 <= n <= max_code -> 0 <= m <= max_code -> n <> m ->
      Len (tree n) <> 0 -> Len (tree m) <> 0 ->
      sendable (gen_codes tree max_code bl_count) n
      /\ ~ is_prefix (code_bits (gen_codes tree max_code bl_count) n)
             (code_bits (gen_codes tree max_code bl_count) m).
Proof.
  intros tree mc blc Hmc Hlen Hb0 Hblc Hk n m Hn Hm Hne Hln Hlm.
  unfold MAX_BITS in *.
  set (q := fun x => negb (Len (tree x) =? 0)).
  set (L0 := filter q (Zseq 0 (Z.to_nat (mc + 1)))).
  assert (HL : forall x, In x L0 <-> 0 <= x <= mc /\ Len (tree x) <> 0).
  { intros x. unfold L0, q. rewrite filter_In, In_Zseq.
    destruct (Z.eqb_spec (Len (tree x)) 0); cbn [negb];
      intuition (try lia; try discriminate). }
  apply (prefix_code_of_leaves tree mc blc L0).
  - apply NoDup_filter, NoDup_Zseq.
  - exact Hmc.
  - intros x Hx. apply HL in Hx. lia.
  - intros x Hx. apply HL in Hx. destruct Hx as [Hx Hx0].
    specialize (Hlen x Hx). lia.
  - intros x Hx Hnin.
    destruct (Z.eq_dec (Len (tree x)) 0) as [E | E]; [exact E |].
    exfalso. apply Hnin, HL. split; assumption.
  - intros b Hb. unfold L0. unfold countf. rewrite sumf_filter.
    destruct (Z.eq_dec b 0) as [-> | Hb0'].
    + rewrite Hb0. symmetry. apply sumf_zero. intros x _. unfold q.
      destruct (Z.eqb_spec (Len (tree x)) 0); reflexivity.
    + rewrite Hblc by lia. unfold count_before.
      rewrite <- countf_filter. unfold countf.
      apply sumf_ext. intros x _. unfold q.
      destruct (Z.eqb_spec (Len (tree x)) b) as [E | E];
        destruct (Z.eqb_spec (Len (tree x)) 0); cbn [negb]; try reflexivity.
      lia.
  - unfold L0. rewrite sumf_filter.
    rewrite (sumf_ext _ (fun n => if Len (tree n) =? 0 then 0
                                  else 2 ^ (15 - Len (tree n))));
      [exact Hk |].
    intros x _. unfold q. destruct (Len (tree x) =? 0); reflexivity.
  - apply HL. split; assumption.
  - apply HL. split; assumption.
  - exact Hne.
Qed.

(** Four symbols of the lengths 2, 1, 3, 3 and the counts of these
    lengths. *)
Definition tree_2133 : Z -> ct_data := tree_of_lengths [2; 1; 3; 3].

Definition bl_count_2133 : Z -> Z :=
  fun b => if b <? 0 then 0 else at_ [0; 1; 1; 2] b.

Lemma gen_codes_prefix_code_witness :
  3 < 1000
  /\ (forall n, 0 <= n <= 3 -> 0 <= Len (tree_2133 n) <= MAX_BITS)
  /\ bl_count_2133 0 = 0
  /\ (forall b, 1 <= b <= MAX_BITS ->
        bl_count_2133 b = count_before tree_2133 b (3 + 1))
  /\ sumf (fun n => if Len (tree_2133 n) =? 0 then 0
                    else 2 ^ (MAX_BITS - Len (tree_2133 n)))
       (Zseq 0 (Z.to_nat (3 + 1))) <= 2 ^ MAX_BITS
  /\ 0 <= 0 <= 3 /\ 0 <= 2 <= 3 /\ 0 <> 2
  /\ Len (tree_2133 0) <> 0 /\ Len (tree_2133 2) <> 0
  /\ ~ is_prefix (code_bits (gen_codes tree_2133 3 bl_count_2133) 0)
         (code_bits (gen_codes tree_2133 3 bl_count_2133) 2).
Proof.
  pose (tree := tree_2133). pose (blc := bl_count_2133).
  fold tree blc.
  assert (H1 : forall n, 0 <= n <= 3 -> 0 <= Len (tree n) <= MAX_BITS).
  { intros n Hn.
    assert (E : n = 0 \/ n = 1 \/ n = 2 \/ n = 3) by lia.
    destruct E as [-> | [-> | [-> | ->]]]; vm_compute; split; discriminate. }
  assert (H2 : forall b, 1 <= b <= MAX_BITS ->
                 blc b = count_before tree b (3 + 1)).
  { intros b Hb. unfold MAX_BITS in Hb.
    assert (E : b = 1 \/ b = 2 \/ b = 3 \/ b = 4 \/ b = 5 \/ b = 6 \/ b = 7
                \/ b = 8 \/ b = 9 \/ b = 10 \/ b = 11 \/ b = 12 \/ b = 13
                \/ b = 14 \/ b = 15) by lia.
    repeat (destruct E as [-> | E]; [vm_compute; reflexivity |]).
    subst b. vm_compute. reflexivity. }
  assert (H3 : sumf (fun n => if Len (tree n) =? 0 then 0
                              else 2 ^ (MAX_BITS - Len (tree n)))
                 (Zseq 0 (Z.to_nat (3 + 1))) <= 2 ^ MAX_BITS)
    by (vm_compute; discriminate).
  assert (H4 : Len (tree 0) <> 0) by (vm_compute; discriminate).
  assert (H5 : Len (tree 2) <> 0) by (vm_compute; discriminate).
  split; [lia |]. split; [exact H1 |]. split; [reflexivity |].
  split; [exact H2 |]. split; [exact H3 |].
  split; [lia |]. split; [lia |]. split; [lia |].
  split; [exact H4 |]. split; [exact H5 |].
  apply (gen_codes_prefix_code tree 3 blc ltac:(lia) H1 eq_refl H2 H3 0 2
           ltac:(lia) ltac:(lia) ltac:(lia) H4 H5).
Defined.

(** X19.  The codes of [build_tree] are a prefix code, for every state and
    each of the three trees: [build_tree] returns, the code of every
    symbol up to [max_code] with a length has that many bits, at most
    [MAX_BITS], and the bits that [send_code] writes for one such symbol
    never begin the bits it writes for another, so that a stream of codes
    reads in one way only. *)
Theorem build_tree_prefix_code :
  forall (fuel : nat) (s : deflate_state) (desc : tree_desc),
    (573 <= fuel)%nat ->
    exists s',
      build_tree fuel s desc = Some s'
      /\ forall n m,
           0 <= n <= max_code s' desc -> 0 <= m <= max_code s' desc ->
           n <> m ->
           Len (dyn_tree s' desc n) <> 0 -> Len (dyn_tree s' desc m) <> 0 ->
           sendable (dyn_tree s' desc) n
           /\ ~ is_prefix (code_bits (dyn_tree s' desc) n)
                  (code_bits (dyn_tree s' desc) m).
Proof.
  intros fuel s desc Hfuel.
  destruct (build_tree_spec fuel s desc Hfuel) as (s' & L0 & E & Hb).
  exists s'. split; [exact E |].
  destruct Hb as (Ho & Hnd & H2 & Hr & Hmc & Hfreq & Hlen & Hzero & Hk
                  & Hblc & t6 & Ht & Hl6).
  cbv zeta in *.
  pose proof (max_length_range desc) as [HML _]. unfold MAX_BITS in *.
  pose proof (elems_range desc) as HE.
  set (mc := max_code s' desc) in *.
  set (ML := max_length (stat_desc desc)) in *.
  intros n m Hn Hm Hne Hln Hlm.
  assert (Hin : forall x, 0 <= x <= mc -> Len (dyn_tree s' desc x) <> 0 ->
            In x L0).
  { intros x Hx Hl. destruct (in_dec Z.eq_dec x L0) as [H | H]; [exact H |].
    exfalso. apply Hl, Hzero; [lia | exact H]. }
  assert (G : sendable (gen_codes t6 mc (bl_count s')) n
              /\ ~ is_prefix (code_bits (gen_codes t6 mc (bl_count s')) n)
                     (code_bits (gen_codes t6 mc (bl_count s')) m)).
  { apply (prefix_code_of_leaves t6 mc (bl_count s') L0).
    - exact Hnd.
    - lia.
    - exact Hr.
    - intros x Hx. rewrite Hl6. apply Hlen in Hx. lia.
    - intros x Hx Hnin. rewrite Hl6. apply Hzero; [lia | exact Hnin].
    - intros b Hb. rewrite Hblc by exact Hb. apply countf_ext.
      intros x _. rewrite Hl6. reflexivity.
    - rewrite (sumf_ext _ (fun x => 2 ^ (15 - Len (dyn_tree s' desc x))))
        by (intros x _; rewrite Hl6; reflexivity).
      rewrite (sumf_leaves_pow (fun x => Len (dyn_tree s' desc x)) ML L0);
        [lia | lia | exact Hlen | exact Hk].
    - apply Hin; assumption.
    - apply Hin; assumption.
    - exact Hne. }
  unfold sendable, code_bits in *. rewrite !Ht. exact G.
Qed.

Lemma build_tree_prefix_code_witness :
  (573 <= 573)%nat
  /\ exists s',
       build_tree 573 state_fib BL_DESC = Some s'
       /\ ~ is_prefix (code_bits (bl_tree s') 8) (code_bits (bl_tree s') 0).
Proof.
  split; [lia |].
  destruct (build_tree_prefix_code 573 state_fib BL_DESC ltac:(lia))
    as (s' & E & H).
  exists s'. split; [exact E |].
  assert (Ev : (max_code s' BL_DESC, Len (bl_tree s' 8), Len (bl_tree s' 0))
               = (8, 1, 7)).
  { apply (f_equal (fun o => match o with
                             | Some s' =>
                                 (max_code s' BL_DESC, Len (bl_tree s' 8),
                                  Len (bl_tree s' 0))
                             | None => (0, 0, 0)
                             end)) in E.
    rewrite <- E. vm_compute. reflexivity. }
  apply triple_eq in Ev. destruct Ev as (E1 & E2 & E3).
  apply (H 8 0).
  - rewrite E1. lia.
  - rewrite E1. lia.
  - lia.
  - change (dyn_tree s' BL_DESC) with (bl_tree s'). rewrite E2. lia.
  - change (dyn_tree s' BL_DESC) with (bl_tree s'). rewrite E3. lia.
Defined.
(** *** The symbols that get a code *)

(** [build_tree] from the leaves that its first two loops have put in the
    heap. *)
Lemma build_tree_from_leaves fuel s desc L0 :
  (573 <= fuel)%nat ->
  let E := elems (stat_desc desc) in
  let s0 := set_heap_max (set_heap_len s 0) HEAP_SIZE in
  let r :=
    build_tree_force 2 desc
      (for_up (Z.to_nat E) 0 (build_tree_collect desc) (s0, -1)) in
  leaves_ok (fst r) (snd r) L0 -> (2 <= length L0)%nat ->
  snd r < E ->
  (forall n, 0 <= n < E -> Freq (dyn_tree s desc n) <> 0 -> In n L0) ->
  (forall n, 0 <= n < E -> ~ In n L0 -> dl (dyn_tree (fst r) desc n) = 0) ->
  heap_max (fst r) = HEAP_SIZE ->
  others desc (fst r) = others desc s ->
  exists s',
    build_tree fuel s desc = Some s' /\ built desc s s' L0
    /\ max_code s' desc = snd r.
Proof.
  intros Hfuel. cbv zeta. intros HL H2 Hmc Hfreq Hzero Hmax Ho1.
  unfold build_tree. cbv zeta.
  pose proof (elems_range desc) as HE.
  set (E := elems (stat_desc desc)) in *.
  destruct (for_up (Z.to_nat E) 0 (build_tree_collect desc)
              (set_heap_max (set_heap_len s 0) HEAP_SIZE, -1))
    as [sc mcc].
  destruct (build_tree_force 2 desc (sc, mcc)) as [s1 mc].
  cbn [fst snd] in *.
  destruct HL as (Hl1 & Hz1 & Hnd & Hr1 & _).
  assert (HLE : forall x, In x L0 -> 0 <= x < E)
    by (intros x Hx; apply Hr1 in Hx; lia).
  pose proof (length_leaves L0 E Hnd HLE) as HlenL.
  set (s2 := set_max_code s1 desc mc).
  assert (F2 : heap s2 = heap s1 /\ heap_len s2 = heap_len s1
               /\ heap_max s2 = heap_max s1
               /\ dyn_tree s2 desc = dyn_tree s1 desc
               /\ max_code s2 desc = mc
               /\ others desc s2 = others desc s1)
    by (destruct desc; repeat split; reflexivity).
  destruct F2 as (Hh2 & Hl2 & Hm2 & Ht2 & Hc2 & Ho2).
  destruct (build_tree_heapify_spec fuel s2 desc)
    as (s3 & E3 & Hu3 & Hp3 & Hout3); [lia | lia |].
  rewrite E3.
  pose proof (unheap_heap_len _ _ Hu3) as Hl3.
  pose proof (unheap_heap_max _ _ Hu3) as Hm3.
  pose proof (unheap_dyn_tree desc _ _ Hu3) as Ht3.
  pose proof (unheap_max_code desc _ _ Hu3) as Hc3.
  pose proof (unheap_others desc _ _ Hu3) as Ho3.
  assert (J3 : join_ok desc L0 (dyn_tree s3 desc) s3 0).
  { exists (length L0). split; [lia |]. split; [lia |].
    split; [change (Z.of_nat (2 * 0)) with 0; lia |].
    cbn [Nat.mul zone Zseq map dbl_desc].
    rewrite !app_nil_r.
    split.
    { rewrite Hl2, Hl1, Nat2Z.id, Hh2, Hz1 in Hp3. exact Hp3. }
    split; [reflexivity |]. split; [constructor |].
    intros x _. reflexivity. }
  destruct (build_tree_join_spec desc L0 (dyn_tree s3 desc) fuel Hnd HLE
              ltac:(lia) fuel s3 0 J3 ltac:(lia) ltac:(lia))
    as (s4 & k & E4 & J4 & Hl4 & Hc4 & Ho4).
  rewrite Z.add_0_r in E4. fold E in E4. rewrite E4.
  destruct (join_ok_heap_len _ _ _ _ _ J4) as [Hk4 _].
  destruct (join_ok_tree_ok desc L0 (dyn_tree s3 desc) s4 k J4 Hl4)
    as (root & rest & TK).
  cbv zeta in TK.
  set (s5 := set_heap (set_heap_max s4 (heap_max s4 - 1)) _) in *.
  assert (F5 : max_code s5 desc = max_code s4 desc
               /\ others desc s5 = others desc s4)
    by (destruct desc; split; reflexivity).
  destruct F5 as (Hc5 & Ho5).
  assert (Hmc5 : max_code s5 desc = mc) by congruence.
  destruct (gen_bitlen_spec desc L0 (dyn_tree s3 desc) s5 k root rest fuel TK
              Hnd)
    as (s6 & E6 & Ho6 & Hc6 & G1 & G2 & G3 & G4).
  { rewrite Hmc5. exact Hr1. }
  { rewrite Hmc5. exact Hmc. }
  { lia. }
  { exact Hfuel. }
  rewrite E6. rewrite Hmc5 in Hc6.
  set (t6 := dyn_tree s6 desc) in *.
  set (s7 := set_dyn_tree s6 desc (gen_codes t6 mc (bl_count s6))).
  assert (F7 : dyn_tree s7 desc = gen_codes t6 mc (bl_count s6)
               /\ max_code s7 desc = max_code s6 desc
               /\ bl_count s7 = bl_count s6
               /\ others desc s7 = others desc s6)
    by (destruct desc; repeat split; reflexivity).
  destruct F7 as (Ht7 & Hc7 & Hb7 & Ho7).
  exists s7. split; [reflexivity |].
  split; [| rewrite Hc7, Hc6; reflexivity].
  unfold built. rewrite Ht7, Hc7, Hc6, Hb7. fold E.
  unfold Len.
  split; [congruence |]. split; [exact Hnd |]. split; [exact H2 |].
  split; [exact Hr1 |]. split; [exact Hmc |]. split; [exact Hfreq |].
  split; [intros x Hx; rewrite gen_codes_dl; apply G1; exact Hx |].
  split.
  { intros n Hn Hnin. rewrite gen_codes_dl. unfold t6. rewrite G2.
    - destruct TK as (_ & _ & _ & Hp & _ & _ & Hfr).
      rewrite Hfr.
      + rewrite Ht3, Ht2. apply Hzero; assumption.
      + intros Hin. apply (Permutation_in _ Hp) in Hin.
        apply in_app_or in Hin. destruct Hin as [Hin | Hin];
          [contradiction |].
        apply In_Zseq in Hin. fold E in Hin. lia.
    - destruct TK as (_ & _ & _ & Hp & _).
      intros Hin. apply (Permutation_in _ Hp) in Hin.
      apply in_app_or in Hin. destruct Hin as [Hin | Hin];
        [contradiction |].
      apply In_Zseq in Hin. fold E in Hin. lia. }
  split.
  { rewrite <- G3. apply sumf_ext. intros x _. rewrite gen_codes_dl.
    reflexivity. }
  split.
  { intros b Hb. rewrite G4 by exact Hb. apply countf_ext. intros x _.
    rewrite gen_codes_dl. reflexivity. }
  exists t6. split; [intros n; reflexivity |].
  intros n. rewrite gen_codes_dl. reflexivity.
Qed.

(** With two symbols in the heap the second loop of [build_tree] does
    nothing: the leaves are the symbols with a frequency. *)
Lemma build_tree_leaves_used desc s :
  let E := elems (stat_desc desc) in
  let s0 := set_heap_max (set_heap_len s 0) HEAP_SIZE in
  let r :=
    build_tree_force 2 desc
      (for_up (Z.to_nat E) 0 (build_tree_collect desc) (s0, -1)) in
  let F := used (dyn_tree s desc) (Z.to_nat E) in
  (2 <= length F)%nat ->
  leaves_ok (fst r) (snd r) F
  /\ snd r < E
  /\ (forall n, 0 <= n < E -> ~ In n F -> dl (dyn_tree (fst r) desc n) = 0)
  /\ heap_max (fst r) = HEAP_SIZE
  /\ others desc (fst r) = others desc s
  /\ In (snd r) F
  /\ (forall x, In x F -> x <= snd r).
Proof.
  cbv zeta. intros H2. pose proof (elems_range desc) as HE.
  set (E := elems (stat_desc desc)) in *.
  set (s0 := set_heap_max (set_heap_len s 0) HEAP_SIZE).
  assert (T0 : dyn_tree s0 desc = dyn_tree s desc) by (destruct desc; reflexivity).
  destruct (build_tree_collect_spec desc s0 (Z.to_nat E) eq_refl)
    as (Ho & Hm & Hl & Hz & Hf & Hd & Hd' & Hmc & Hle).
  rewrite T0 in *.
  destruct (for_up (Z.to_nat E) 0 (build_tree_collect desc) (s0, -1))
    as [s1 mc1]. cbn [fst snd] in *.
  set (F := used (dyn_tree s desc) (Z.to_nat E)) in *.
  assert (Hin : In mc1 F).
  { destruct Hmc as [[E0 _] | Hin]; [| exact Hin].
    rewrite E0 in H2. cbn [length] in H2. lia. }
  rewrite build_tree_force_S.
  destruct (Z.ltb_spec (heap_len s1) 2) as [Hlt | _]; [lia |].
  cbn [fst snd].
  split.
  { split; [exact Hl |]. split; [exact Hz |].
    split; [apply NoDup_used |]. split; [| right; exact Hin].
    intros x Hx. split; [| apply Hle; exact Hx].
    apply In_used in Hx. lia. }
  split; [apply In_used in Hin; lia |].
  split.
  { intros n Hn Hnin. apply Hd; [lia |].
    destruct (Z.eq_dec (Freq (dyn_tree s desc n)) 0) as [E0 | E0];
      [exact E0 |].
    exfalso. apply Hnin. apply In_used. split; [lia | exact E0]. }
  split; [rewrite Hm; reflexivity |].
  split; [rewrite Ho; destruct desc; reflexivity |].
  split; [exact Hin | exact Hle].
Qed.

Lemma two_in_length (l : list Z) (a b : Z) :
  In a l -> In b l -> a <> b -> (2 <= length l)%nat.
Proof.
  intros Ha Hb Hab. destruct l as [| x [| y l']]; cbn [length]; try lia.
  - destruct Ha.
  - destruct Ha as [<- | []]. destruct Hb as [<- | []]. contradiction.
Qed.

(** X20. When at least two symbols of the alphabet have a frequency,
    [build_tree] returns, it gives a code length other than zero to
    exactly the symbols with a frequency, and [max_code] is the largest
    of them. *)
Theorem build_tree_used_symbols :
  forall (fuel : nat) (s : deflate_state) (desc : tree_desc) (n1 n2 : Z),
    (573 <= fuel)%nat ->
    0 <= n1 < elems (stat_desc desc) -> 0 <= n2 < elems (stat_desc desc) ->
    n1 <> n2 ->
    Freq (dyn_tree s desc n1) <> 0 -> Freq (dyn_tree s desc n2) <> 0 ->
    exists s',
      build_tree fuel s desc = Some s'
      /\ (forall n, 0 <= n < elems (stat_desc desc) ->
            (Len (dyn_tree s' desc n) <> 0 <-> Freq (dyn_tree s desc n) <> 0))
      /\ 0 <= max_code s' desc < elems (stat_desc desc)
      /\ Freq (dyn_tree s desc (max_code s' desc)) <> 0
      /\ (forall n, 0 <= n < elems (stat_desc desc) ->
            Freq (dyn_tree s desc n) <> 0 -> n <= max_code s' desc).
Proof.
  intros fuel s desc n1 n2 Hfuel Hn1 Hn2 Hne Hf1 Hf2.
  set (E := elems (stat_desc desc)) in *.
  set (F := used (dyn_tree s desc) (Z.to_nat E)).
  assert (HinF : forall n, In n F <-> 0 <= n < E /\ Freq (dyn_tree s desc n) <> 0).
  { intros n. unfold F. rewrite In_used. rewrite Z2Nat.id by lia. tauto. }
  assert (H2 : (2 <= length F)%nat).
  { apply (two_in_length F n1 n2); [apply HinF | apply HinF | exact Hne]; tauto. }
  destruct (build_tree_leaves_used desc s H2)
    as (HL & Hmc & Hzero & Hmax & Ho & Hin & Hle).
  destruct (build_tree_from_leaves fuel s desc F Hfuel HL H2 Hmc
              ltac:(intros n Hn Hfr; apply HinF; tauto) Hzero Hmax Ho)
    as (s' & Eb & B & Emc).
  exists s'. split; [exact Eb |].
  destruct B as (_ & _ & _ & _ & _ & _ & Hlen & Hz & _).
  fold E in Hz. rewrite Emc.
  split.
  { intros n Hn. split.
    - intros Hl. destruct (Z.eq_dec (Freq (dyn_tree s desc n)) 0) as [E0 | E0];
        [| exact E0].
      exfalso. apply Hl. apply Hz; [exact Hn |]. rewrite HinF. tauto.
    - intros Hfr. assert (Hi : In n F) by (apply HinF; tauto).
      apply Hlen in Hi. lia. }
  apply HinF in Hin as Hin'.
  split; [tauto |]. split; [tauto |].
  intros n Hn Hfr. apply Hle. apply HinF. tauto.
Qed.

Lemma build_tree_used_symbols_witness :
  exists s',
    build_tree 573 state_fib BL_DESC = Some s'
    /\ (forall n, 0 <= n < elems (stat_desc BL_DESC) ->
          (Len (dyn_tree s' BL_DESC n) <> 0
           <-> Freq (dyn_tree state_fib BL_DESC n) <> 0))
    /\ 0 <= max_code s' BL_DESC < elems (stat_desc BL_DESC)
    /\ Freq (dyn_tree state_fib BL_DESC (max_code s' BL_DESC)) <> 0
    /\ (forall n, 0 <= n < elems (stat_desc BL_DESC) ->
          Freq (dyn_tree state_fib BL_DESC n) <> 0 ->
          n <= max_code s' BL_DESC).
Proof.
  apply (build_tree_used_symbols 573 state_fib BL_DESC 0 8).
  - lia.
  - vm_compute. split; [discriminate | reflexivity].
  - vm_compute. split; [discriminate | reflexivity].
  - discriminate.
  - vm_compute. discriminate.
  - vm_compute. discriminate.
Defined.

(** *** Fewer than two symbols with a frequency *)

(** The symbol that a round of [while (s->heap_len < 2)] adds. *)
Lemma force_round_node desc s mc F :
  leaves_ok s mc F -> (length F < 2)%nat ->
  let r := force_round desc s mc in
  leaves_ok (fst r) (snd r) (F ++ [if mc <? 2 then mc + 1 else 0])
  /\ snd r = (if mc <? 2 then mc + 1 else mc)
  /\ (forall n, dl (dyn_tree (fst r) desc n) = dl (dyn_tree s desc n))
  /\ heap_max (fst r) = heap_max s
  /\ others desc (fst r) = others desc s.
Proof.
  intros HF Hlt. cbv zeta.
  destruct (force_round_spec desc s mc F HF Hlt)
    as (node & HL & _ & _ & Hd & Hm & Ho).
  cbv zeta in HL, Hd, Hm, Ho.
  assert (Hh : heap (fst (force_round desc s mc)) (heap_len s + 1)
               = if mc <? 2 then mc + 1 else 0).
  { unfold force_round.
    destruct desc; destruct (static_tree _); trees_all; apply upd_same. }
  assert (Hs : snd (force_round desc s mc) = if mc <? 2 then mc + 1 else mc)
    by reflexivity.
  assert (En : node = if mc <? 2 then mc + 1 else 0).
  { destruct HL as (_ & Hz & _). destruct HF as (Hl & _).
    rewrite length_app in Hz. cbn [length] in Hz.
    replace (length F + 1)%nat with (S (length F)) in Hz by lia.
    rewrite zone_snoc in Hz. apply app_inj_tail in Hz.
    destruct Hz as [_ Hz]. rewrite <- Hz, <- Hh. f_equal. lia. }
  rewrite <- En.
  split; [exact HL |]. split; [exact Hs |]. split; [exact Hd |].
  split; [exact Hm | exact Ho].
Qed.

(** The heap after the first loop of [build_tree]. *)
Lemma build_tree_collected desc s :
  let E := elems (stat_desc desc) in
  let s0 := set_heap_max (set_heap_len s 0) HEAP_SIZE in
  let c := for_up (Z.to_nat E) 0 (build_tree_collect desc) (s0, -1) in
  let F := used (dyn_tree s desc) (Z.to_nat E) in
  leaves_ok (fst c) (snd c) F
  /\ (forall n, 0 <= n < E -> Freq (dyn_tree s desc n) = 0 ->
        dl (dyn_tree (fst c) desc n) = 0)
  /\ heap_max (fst c) = HEAP_SIZE
  /\ others desc (fst c) = others desc s.
Proof.
  cbv zeta. pose proof (elems_range desc) as HE.
  set (E := elems (stat_desc desc)) in *.
  set (s0 := set_heap_max (set_heap_len s 0) HEAP_SIZE).
  assert (T0 : dyn_tree s0 desc = dyn_tree s desc) by (destruct desc; reflexivity).
  destruct (build_tree_collect_spec desc s0 (Z.to_nat E) eq_refl)
    as (Ho & Hm & Hl & Hz & Hf & Hd & Hd' & Hmc & Hle).
  rewrite T0 in *.
  destruct (for_up (Z.to_nat E) 0 (build_tree_collect desc) (s0, -1))
    as [s1 mc1]. cbn [fst snd] in *.
  split.
  { split; [exact Hl |]. split; [exact Hz |].
    split; [apply NoDup_used |]. split; [| exact Hmc].
    intros x Hx. split; [| apply Hle; exact Hx].
    apply In_used in Hx. lia. }
  split; [intros n Hn Hfr; apply Hd; [lia | exact Hfr] |].
  split; [rewrite Hm; reflexivity |].
  rewrite Ho. destruct desc; reflexivity.
Qed.

(** A tree of two leaves: both get one bit, the smaller symbol the code 0
    and the larger one the code 1. *)
Lemma built_two_leaves desc s s' a b :
  built desc s s' [a; b] ->
  Len (dyn_tree s' desc a) = 1 /\ Len (dyn_tree s' desc b) = 1
  /\ (forall n, 0 <= n < elems (stat_desc desc) -> n <> a -> n <> b ->
        Len (dyn_tree s' desc n) = 0)
  /\ Code (dyn_tree s' desc a) = (if b <? a then 1 else 0)
  /\ Code (dyn_tree s' desc b) = (if a <? b then 1 else 0).
Proof.
  intros (Ho & Hnd & H2 & Hr & Hmc & Hfreq & Hlen & Hzero & Hk
          & Hblc & t6 & Ht & Hl6).
  cbv zeta in *.
  pose proof (max_length_range desc) as [HML _]. unfold MAX_BITS in *.
  pose proof (elems_range desc) as HE.
  set (mc := max_code s' desc) in *.
  set (ML := max_length (stat_desc desc)) in *.
  set (E := elems (stat_desc desc)) in *.
  assert (Hab : a <> b).
  { inversion Hnd as [| ? ? Hn _]. intros ->. apply Hn. left. reflexivity. }
  pose proof (Hlen a ltac:(left; reflexivity)) as Ha.
  pose proof (Hlen b ltac:(right; left; reflexivity)) as Hb.
  cbn [sumf] in Hk.
  set (la := Len (dyn_tree s' desc a)) in *.
  set (lb := Len (dyn_tree s' desc b)) in *.
  assert (P2 : 2 ^ ML = 4 * 2 ^ (ML - 2)).
  { replace ML with (2 + (ML - 2)) at 1 by lia.
    rewrite Z.pow_add_r by lia. reflexivity. }
  assert (P1 : 2 ^ (ML - 1) = 2 * 2 ^ (ML - 2)).
  { replace (ML - 1) with (1 + (ML - 2)) by lia.
    rewrite Z.pow_add_r by lia. reflexivity. }
  assert (P0 : 0 < 2 ^ (ML - 2)) by (apply Z.pow_pos_nonneg; lia).
  assert (Q : forall l, 1 <= l <= ML ->
            2 ^ (ML - l) <= 2 ^ (ML - 1)
            /\ (2 <= l -> 2 ^ (ML - l) <= 2 ^ (ML - 2))).
  { intros l Hl. split; [| intros Hl2]; apply Z.pow_le_mono_r; lia. }
  destruct (Q la Ha) as [Qa Qa']. destruct (Q lb Hb) as [Qb Qb'].
  assert (La : la = 1).
  { destruct (Z.eq_dec la 1) as [H | H]; [exact H |].
    specialize (Qa' ltac:(lia)). lia. }
  assert (Lb : lb = 1).
  { destruct (Z.eq_dec lb 1) as [H | H]; [exact H |].
    specialize (Qb' ltac:(lia)). lia. }
  split; [exact La |]. split; [exact Lb |].
  split.
  { intros n Hn Hna Hnb. apply Hzero; [exact Hn |].
    intros [H | [H | []]]; congruence. }
  assert (G : forall n, In n [a; b] ->
            Code (gen_codes t6 mc (bl_count s') n)
            = bi_reverse (canon t6 (bl_count s') n) (Len (t6 n))).
  { intros n Hn.
    apply (gen_codes_code t6 mc (bl_count s') [a; b]).
    - exact Hnd.
    - lia.
    - exact Hr.
    - intros x Hx. rewrite Hl6. apply Hlen in Hx. lia.
    - intros x Hx Hnin. rewrite Hl6. apply Hzero; [lia | exact Hnin].
    - intros c Hc. rewrite Hblc by exact Hc. apply countf_ext.
      intros x _. rewrite Hl6. reflexivity.
    - rewrite (sumf_ext _ (fun x => 2 ^ (15 - Len (dyn_tree s' desc x))))
        by (intros x _; rewrite Hl6; reflexivity).
      rewrite (sumf_leaves_pow (fun x => Len (dyn_tree s' desc x)) ML [a; b]);
        [lia | lia | exact Hlen | cbn [sumf]; exact Hk].
    - exact Hn. }
  assert (B0 : bl_count s' 0 = 0).
  { rewrite Hblc by lia. unfold countf. cbn [sumf]. fold la lb.
    rewrite La, Lb. reflexivity. }
  assert (CB : forall n, In n [a; b] ->
            count_before t6 1 n
            = countf (fun x => (Len (t6 x) =? 1) && (x <? n)) [a; b]).
  { intros n Hn.
    apply (count_before_leaves t6 mc [a; b] Hnd Hr).
    - intros x Hx Hnin. rewrite Hl6. apply Hzero; [lia | exact Hnin].
    - lia.
    - apply Hr in Hn. lia. }
  assert (C : forall n, In n [a; b] ->
            canon t6 (bl_count s') n
            = countf (fun x => (Len (t6 x) =? 1) && (x <? n)) [a; b]).
  { intros n Hn. unfold canon.
    assert (L1 : Len (t6 n) = 1).
    { rewrite Hl6. destruct Hn as [<- | [<- | []]]; assumption. }
    rewrite L1. change (Z.to_nat 1) with 1%nat. cbn [first_code].
    change (Z.of_nat 0) with 0. rewrite B0.
    change (uns (Z.shiftl (0 + 0) 1)) with 0.
    rewrite CB by exact Hn. reflexivity. }
  assert (T6a : Len (t6 a) = 1) by (rewrite Hl6; exact La).
  assert (T6b : Len (t6 b) = 1) by (rewrite Hl6; exact Lb).
  split.
  - rewrite Ht, G, C by (left; reflexivity).
    unfold countf. cbn [sumf]. rewrite T6a, T6b, Z.ltb_irrefl.
    cbn [Z.eqb Pos.eqb andb].
    destruct (b <? a); reflexivity.
  - rewrite Ht, G, C by (right; left; reflexivity).
    unfold countf. cbn [sumf]. rewrite T6a, T6b, Z.ltb_irrefl.
    cbn [Z.eqb Pos.eqb andb].
    destruct (a <? b); reflexivity.
Qed.

(** The second loop of [build_tree] on an empty heap: the symbols 0 and 1
    are added. *)
Lemma build_tree_force_none desc s1 mc1 :
  leaves_ok s1 mc1 [] ->
  let r := build_tree_force 2 desc (s1, mc1) in
  leaves_ok (fst r) (snd r) [0; 1] /\ snd r = 1
  /\ (forall n, dl (dyn_tree (fst r) desc n) = dl (dyn_tree s1 desc n))
  /\ heap_max (fst r) = heap_max s1
  /\ others desc (fst r) = others desc s1.
Proof.
  intros HF. cbv zeta.
  assert (Emc : mc1 = -1).
  { destruct HF as (_ & _ & _ & _ & [[_ H] | []]). exact H. }
  subst mc1.
  destruct (force_round_node desc s1 (-1) [] HF ltac:(cbn [length]; lia))
    as (H1 & Hs1 & Hd1 & Hm1 & Ho1).
  rewrite build_tree_force_S.
  destruct (Z.ltb_spec (heap_len s1) 2) as [_ | Hge];
    [| destruct HF as (Hl & _); cbn [length] in Hl; lia].
  destruct (force_round desc s1 (-1)) as [s2 mc2]. cbn [fst snd] in *.
  change ([] ++ [if -1 <? 2 then -1 + 1 else 0]) with [0] in H1.
  change (if -1 <? 2 then -1 + 1 else -1) with 0 in Hs1. subst mc2.
  destruct (force_round_node desc s2 0 [0] H1 ltac:(cbn [length]; lia))
    as (H2 & Hs2 & Hd2 & Hm2 & Ho2).
  rewrite build_tree_force_S.
  destruct (Z.ltb_spec (heap_len s2) 2) as [_ | Hge];
    [| destruct H1 as (Hl & _); cbn [length] in Hl; lia].
  destruct (force_round desc s2 0) as [s3 mc3]. cbn [fst snd] in *.
  change ([0] ++ [if 0 <? 2 then 0 + 1 else 0]) with [0; 1] in H2.
  change (if 0 <? 2 then 0 + 1 else 0) with 1 in Hs2. subst mc3.
  cbn [build_tree_force fst snd].
  split; [exact H2 |]. split; [reflexivity |].
  split; [intros n; rewrite Hd2; apply Hd1 |].
  split; congruence.
Qed.

(** The symbol that [while (s->heap_len < 2)] adds to the single symbol
    [u] of the heap: [(max_code < 2 ? ++max_code : 0)]. *)
Definition forced_symbol (u : Z) : Z := if u <? 2 then u + 1 else 0.

Lemma build_tree_force_one desc s1 mc1 u :
  leaves_ok s1 mc1 [u] ->
  let r := build_tree_force 2 desc (s1, mc1) in
  leaves_ok (fst r) (snd r) [u; forced_symbol u]
  /\ snd r = (if u <? 2 then u + 1 else u)
  /\ (forall n, dl (dyn_tree (fst r) desc n) = dl (dyn_tree s1 desc n))
  /\ heap_max (fst r) = heap_max s1
  /\ others desc (fst r) = others desc s1.
Proof.
  intros HF. cbv zeta.
  assert (Emc : mc1 = u).
  { destruct HF as (_ & _ & _ & _ & [[H _] | [H | []]]);
      [discriminate | symmetry; exact H]. }
  subst mc1.
  destruct (force_round_node desc s1 u [u] HF ltac:(cbn [length]; lia))
    as (H1 & Hs1 & Hd1 & Hm1 & Ho1).
  rewrite build_tree_force_S.
  destruct (Z.ltb_spec (heap_len s1) 2) as [_ | Hge];
    [| destruct HF as (Hl & _); cbn [length] in Hl; lia].
  destruct (force_round desc s1 u) as [s2 mc2]. cbn [fst snd] in *.
  rewrite build_tree_force_S.
  destruct (Z.ltb_spec (heap_len s2) 2) as [Hlt | _];
    [destruct H1 as (Hl & _); cbn [length app] in Hl; lia |].
  cbn [fst snd].
  split; [exact H1 |]. split; [exact Hs1 |].
  split; [exact Hd1 |]. split; assumption.
Qed.

Lemma used_nil tree j :
  (forall n, 0 <= n < Z.of_nat j -> Freq (tree n) = 0) -> used tree j = [].
Proof.
  intros H. destruct (used tree j) as [| x l] eqn:E; [reflexivity |].
  assert (Hx : In x (used tree j)) by (rewrite E; left; reflexivity).
  apply In_used in Hx. destruct Hx as [Hx Hf]. exfalso. apply Hf, H, Hx.
Qed.

Lemma used_single tree j u :
  0 <= u < Z.of_nat j -> Freq (tree u) <> 0 ->
  (forall n, 0 <= n < Z.of_nat j -> n <> u -> Freq (tree n) = 0) ->
  used tree j = [u].
Proof.
  intros Hu Hfu H.
  pose proof (NoDup_used tree j) as Hnd.
  assert (Hin : In u (used tree j)) by (apply In_used; tauto).
  assert (Hall : forall x, In x (used tree j) -> x = u).
  { intros x Hx. apply In_used in Hx. destruct Hx as [Hx Hf].
    destruct (Z.eq_dec x u) as [E | E]; [exact E |].
    exfalso. apply Hf, H; assumption. }
  destruct (used tree j) as [| x [| y l]].
  - destruct Hin.
  - f_equal. apply Hall. left. reflexivity.
  - exfalso. inversion Hnd as [| ? ? Hn _]. apply Hn.
    rewrite (Hall x) by (left; reflexivity).
    rewrite <- (Hall y) by (right; left; reflexivity).
    left. reflexivity.
Qed.

(** X21. When no symbol of the alphabet has a frequency, [build_tree]
    returns a tree of the two symbols 0 and 1: both have the length 1,
    the codes are 0 and 1, every other symbol has the length 0 and
    [max_code] is 1. *)
Theorem build_tree_no_symbol :
  forall (fuel : nat) (s : deflate_state) (desc : tree_desc),
    (573 <= fuel)%nat ->
    (forall n, 0 <= n < elems (stat_desc desc) ->
       Freq (dyn_tree s desc n) = 0) ->
    exists s',
      build_tree fuel s desc = Some s'
      /\ max_code s' desc = 1
      /\ dyn_tree s' desc 0 = Ct_data 0 1
      /\ dyn_tree s' desc 1 = Ct_data 1 1
      /\ (forall n, 2 <= n < elems (stat_desc desc) ->
            Len (dyn_tree s' desc n) = 0).
Proof.
  intros fuel s desc Hfuel Hnone.
  pose proof (elems_range desc) as HE.
  destruct (build_tree_collected desc s) as (HF & Hd & Hm & Ho).
  cbv zeta in HF, Hd, Hm, Ho.
  rewrite (used_nil (dyn_tree s desc)) in HF
    by (intros n Hn; apply Hnone; lia).
  pose proof (build_tree_from_leaves fuel s desc [0; 1] Hfuel) as B.
  cbv zeta in B.
  set (E := elems (stat_desc desc)) in *.
  destruct (for_up (Z.to_nat E) 0 (build_tree_collect desc)
              (set_heap_max (set_heap_len s 0) HEAP_SIZE, -1))
    as [s1 mc1].
  cbn [fst snd] in HF, Hd, Hm, Ho.
  destruct (build_tree_force_none desc s1 mc1 HF)
    as (HL & Hs & Hd2 & Hm2 & Ho2).
  cbv zeta in HL, Hs, Hd2, Hm2, Ho2.
  destruct (build_tree_force 2 desc (s1, mc1)) as [s2 mc2].
  cbn [fst snd] in *.
  destruct B as (s' & Eb & Hb & Emc).
  - exact HL.
  - cbn [length]. lia.
  - lia.
  - intros n Hn Hfr. exfalso. apply Hfr, Hnone, Hn.
  - intros n Hn _. rewrite Hd2. apply Hd; [exact Hn | apply Hnone, Hn].
  - congruence.
  - congruence.
  - exists s'. split; [exact Eb |]. split; [congruence |].
    destruct (built_two_leaves desc s s' 0 1 Hb)
      as (L0 & L1 & Lz & C0 & C1).
    fold E in Lz.
    change (1 <? 0) with false in C0. change (0 <? 1) with true in C1.
    split.
    { destruct (dyn_tree s' desc 0) as [c l]. unfold Len, Code in *.
      cbn [fc dl] in *. congruence. }
    split.
    { destruct (dyn_tree s' desc 1) as [c l]. unfold Len, Code in *.
      cbn [fc dl] in *. congruence. }
    intros n Hn. apply Lz; lia.
Qed.

Lemma build_tree_no_symbol_witness :
  exists s',
    build_tree 573 state0 D_DESC = Some s'
    /\ max_code s' D_DESC = 1
    /\ dyn_tree s' D_DESC 0 = Ct_data 0 1
    /\ dyn_tree s' D_DESC 1 = Ct_data 1 1
    /\ (forall n, 2 <= n < elems (stat_desc D_DESC) ->
          Len (dyn_tree s' D_DESC n) = 0).
Proof.
  apply (build_tree_no_symbol 573 state0 D_DESC).
  - lia.
  - intros n _. reflexivity.
Defined.

(** X22. When a single symbol [u] of the alphabet has a frequency,
    [build_tree] adds the symbol [u + 1] if [u] is 0 or 1 and the symbol 0
    otherwise: both get the length 1, the smaller one the code 0 and the
    larger one the code 1, every other symbol has the length 0, and
    [max_code] is the larger of the two. *)
Theorem build_tree_one_symbol :
  forall (fuel : nat) (s : deflate_state) (desc : tree_desc) (u : Z),
    (573 <= fuel)%nat ->
    0 <= u < elems (stat_desc desc) ->
    Freq (dyn_tree s desc u) <> 0 ->
    (forall n, 0 <= n < elems (stat_desc desc) -> n <> u ->
       Freq (dyn_tree s desc n) = 0) ->
    exists s',
      build_tree fuel s desc = Some s'
      /\ max_code s' desc = Z.max u (forced_symbol u)
      /\ dyn_tree s' desc u
         = Ct_data (if forced_symbol u <? u then 1 else 0) 1
      /\ dyn_tree s' desc (forced_symbol u)
         = Ct_data (if u <? forced_symbol u then 1 else 0) 1
      /\ (forall n, 0 <= n < elems (stat_desc desc) ->
            n <> u -> n <> forced_symbol u ->
            Len (dyn_tree s' desc n) = 0).
Proof.
  intros fuel s desc u Hfuel Hu Hfu Hone.
  pose proof (elems_range desc) as HE.
  destruct (build_tree_collected desc s) as (HF & Hd & Hm & Ho).
  cbv zeta in HF, Hd, Hm, Ho.
  rewrite (used_single (dyn_tree s desc) _ u) in HF;
    [| lia | exact Hfu | intros n Hn; apply Hone; lia].
  pose proof (build_tree_from_leaves fuel s desc [u; forced_symbol u] Hfuel)
    as B.
  cbv zeta in B.
  set (E := elems (stat_desc desc)) in *.
  destruct (for_up (Z.to_nat E) 0 (build_tree_collect desc)
              (set_heap_max (set_heap_len s 0) HEAP_SIZE, -1))
    as [s1 mc1].
  cbn [fst snd] in HF, Hd, Hm, Ho.
  destruct (build_tree_force_one desc s1 mc1 u HF)
    as (HL & Hs & Hd2 & Hm2 & Ho2).
  cbv zeta in HL, Hs, Hd2, Hm2, Ho2.
  destruct (build_tree_force 2 desc (s1, mc1)) as [s2 mc2].
  cbn [fst snd] in *.
  assert (Hmax : mc2 = Z.max u (forced_symbol u)).
  { rewrite Hs. unfold forced_symbol. destruct (Z.ltb_spec u 2); lia. }
  destruct B as (s' & Eb & Hb & Emc).
  - exact HL.
  - cbn [length]. lia.
  - rewrite Hs. destruct (Z.ltb_spec u 2); lia.
  - intros n Hn Hfr. left.
    destruct (Z.eq_dec u n) as [e | e]; [exact e |].
    exfalso. apply Hfr, Hone; [exact Hn | congruence].
  - intros n Hn Hnin. rewrite Hd2. apply Hd; [exact Hn |].
    apply Hone; [exact Hn |]. intros ->. apply Hnin. left. reflexivity.
  - congruence.
  - congruence.
  - exists s'. split; [exact Eb |]. split; [congruence |].
    destruct (built_two_leaves desc s s' u (forced_symbol u) Hb)
      as (L0 & L1 & Lz & C0 & C1).
    fold E in Lz.
    split.
    { destruct (dyn_tree s' desc u) as [c l]. unfold Len, Code in *.
      cbn [fc dl] in *. congruence. }
    split.
    { destruct (dyn_tree s' desc (forced_symbol u)) as [c l].
      unfold Len, Code in *. cbn [fc dl] in *. congruence. }
    exact Lz.
Qed.

(** A state where the symbol 5 alone of the bit-length alphabet has a
    frequency. *)
Definition state_one : deflate_state :=
  set_bl_tree state0 (fun n => Ct_data (if n =? 5 then 3 else 0) 0).

Lemma build_tree_one_symbol_witness :
  exists s',
    build_tree 573 state_one BL_DESC = Some s'
    /\ max_code s' BL_DESC = Z.max 5 (forced_symbol 5)
    /\ dyn_tree s' BL_DESC 5
       = Ct_data (if forced_symbol 5 <? 5 then 1 else 0) 1
    /\ dyn_tree s' BL_DESC (forced_symbol 5)
       = Ct_data (if 5 <? forced_symbol 5 then 1 else 0) 1
    /\ (forall n, 0 <= n < elems (stat_desc BL_DESC) ->
          n <> 5 -> n <> forced_symbol 5 ->
          Len (dyn_tree s' BL_DESC n) = 0).
Proof.
  apply (build_tree_one_symbol 573 state_one BL_DESC 5).
  - lia.
  - vm_compute. split; [discriminate | reflexivity].
  - vm_compute. discriminate.
  - intros n _ Hn.
    change (Freq (Ct_data (if n =? 5 then 3 else 0) 0) = 0).
    destruct (Z.eqb_spec n 5); [contradiction | reflexivity].
Defined.
(** *** The code lengths in a block header: scan_tree and send_tree *)

(** What [send_tree] sends for a tree: symbols of the bit-length alphabet,
    each with the value of the extra bits that follow it. *)
Definition rl_bits (bl : Z -> ct_data) (x : Z * Z) : list bool :=
  code_bits bl (fst x)
  ++ bits_of (Z.to_nat (at_ extra_blbits (fst x))) (snd x).

(** The lengths one symbol stands for after the length [prev]: [REP_3_6]
    repeats the previous length 3 to 6 times, [REPZ_3_10] and
    [REPZ_11_138] repeat a zero length 3 to 10 and 11 to 138 times, any
    other symbol is a length. *)
Definition rl_lengths (prev : Z) (x : Z * Z) : list Z :=
  if fst x =? REP_3_6 then repeat prev (Z.to_nat (3 + snd x))
  else if fst x =? REPZ_3_10 then repeat 0 (Z.to_nat (3 + snd x))
  else if fst x =? REPZ_11_138 then repeat 0 (Z.to_nat (11 + snd x))
  else [fst x].

(** The lengths a list of symbols stands for. *)
Fixpoint expand (prev : Z) (l : list (Z * Z)) : list Z :=
  match l with
  | [] => []
  | x :: l' =>
      rl_lengths prev x ++ expand (last (rl_lengths prev x) prev) l'
  end.

(** A symbol of the bit-length alphabet with extra bits of its size. *)
Definition rl_ok (x : Z * Z) : Prop :=
  0 <= fst x < BL_CODES /\ 0 <= snd x < 2 ^ at_ extra_blbits (fst x).

(** The symbols of a round of [send_tree] that ends a run: [r] holds the
    variables before the round. *)
Definition round_codes (r : run) : list (Z * Z) :=
  let count := count r + 1 in
  let curlen := nextlen r in
  if count <? min_count r then repeat (curlen, 0) (Z.to_nat count)
  else if negb (curlen =? 0) then
    if negb (curlen =? prevlen r)
    then [(curlen, 0); (REP_3_6, count - 1 - 3)]
    else [(REP_3_6, count - 3)]
  else if count <=? 10 then [(REPZ_3_10, count - 3)]
  else [(REPZ_11_138, count - 11)].

(** Whether the round goes on with the run. *)
Definition round_goes_on (r : run) (nextlen' : Z) : bool :=
  (count r + 1 <? max_count r) && (nextlen r =? nextlen').

(** The variables after a round. *)
Definition round_run (r : run) (nextlen' : Z) : run :=
  if round_goes_on r nextlen'
  then Run (prevlen r) nextlen' (count r + 1) (max_count r) (min_count r)
  else next_run (nextlen r) nextlen'.

(** The limits of a run of the length [nextlen r] after [prevlen r]. *)
Definition limits_ok (r : run) : Prop :=
  if nextlen r =? 0 then max_count r = 138 /\ min_count r = 3
  else if prevlen r =? nextlen r then max_count r = 6 /\ min_count r = 3
  else max_count r = 7 /\ min_count r = 4.

Lemma last_cons_default {A} (x : A) l d d' :
  last (x :: l) d = last (x :: l) d'.
Proof.
  revert x. induction l as [| y l IH]; intros x; [reflexivity |].
  change (last (y :: l) d = last (y :: l) d'). apply IH.
Qed.

Lemma last_app_default {A} (l1 l2 : list A) d :
  last (l1 ++ l2) d = last l2 (last l1 d).
Proof.
  induction l1 as [| x l1 IH]; [reflexivity |].
  destruct l1 as [| y l1].
  - destruct l2 as [| z l2]; [reflexivity |].
    change (last (z :: l2) d = last (z :: l2) x). apply last_cons_default.
  - change (last ((y :: l1) ++ l2) d = last l2 (last (y :: l1) d)).
    exact IH.
Qed.

Lemma expand_app prev l1 l2 :
  expand prev (l1 ++ l2)
  = expand prev l1 ++ expand (last (expand prev l1) prev) l2.
Proof.
  revert prev. induction l1 as [| x l1 IH]; intros prev; [reflexivity |].
  cbn [app expand]. rewrite IH, <- app_assoc, last_app_default.
  reflexivity.
Qed.

Lemma last_repeat {A} (x d : A) n : (0 < n)%nat -> last (repeat x n) d = x.
Proof.
  induction n as [| n IH]; intros H; [lia |].
  destruct n; [reflexivity |].
  change (last (repeat x (S n)) d = x). apply IH. lia.
Qed.

Lemma rl_lengths_literal prev c :
  0 <= c <= MAX_BITS -> rl_lengths prev (c, 0) = [c].
Proof.
  intros Hc. unfold rl_lengths, REP_3_6, REPZ_3_10, REPZ_11_138, MAX_BITS in *.
  cbn [fst snd].
  destruct (Z.eqb_spec c 16); [lia |].
  destruct (Z.eqb_spec c 17); [lia |].
  destruct (Z.eqb_spec c 18); [lia | reflexivity].
Qed.

Lemma expand_literals prev c n :
  0 <= c <= MAX_BITS -> expand prev (repeat (c, 0) n) = repeat c n.
Proof.
  intros Hc. revert prev. induction n as [| n IH]; intros prev; [reflexivity |].
  cbn [repeat expand]. rewrite rl_lengths_literal by exact Hc.
  rewrite IH. reflexivity.
Qed.

Lemma countf_repeat {A} (p : A -> bool) x n :
  countf p (repeat x n) = if p x then Z.of_nat n else 0.
Proof.
  unfold countf. induction n as [| n IH]; cbn [repeat sumf].
  - destruct (p x); reflexivity.
  - rewrite IH. destruct (p x); lia.
Qed.

Lemma extra_blbits_literal c :
  0 <= c <= MAX_BITS -> at_ extra_blbits c = 0.
Proof.
  unfold MAX_BITS. intros Hc.
  assert (E : c = 0 \/ c = 1 \/ c = 2 \/ c = 3 \/ c = 4 \/ c = 5 \/ c = 6
              \/ c = 7 \/ c = 8 \/ c = 9 \/ c = 10 \/ c = 11 \/ c = 12
              \/ c = 13 \/ c = 14 \/ c = 15) by lia.
  repeat (destruct E as [-> | E]; [reflexivity |]). subst c. reflexivity.
Qed.

Lemma rl_bits_literal bl c :
  0 <= c <= MAX_BITS -> rl_bits bl (c, 0) = code_bits bl c.
Proof.
  intros Hc. unfold rl_bits. cbn [fst snd].
  rewrite extra_blbits_literal by exact Hc. apply app_nil_r.
Qed.

Lemma rl_ok_literal c : 0 <= c <= MAX_BITS -> rl_ok (c, 0).
Proof.
  intros Hc. unfold rl_ok. cbn [fst snd].
  rewrite extra_blbits_literal by exact Hc.
  unfold MAX_BITS, BL_CODES in *. lia.
Qed.

(** [bump] raises one frequency of the bit-length tree and nothing else. *)
Lemma bump_Freq s i by_ c :
  Freq (bl_tree (bump s i by_) c)
  = if c =? i then ush (Freq (bl_tree s i) + by_) else Freq (bl_tree s c).
Proof.
  unfold bump. trees_all.
  destruct (Z.eqb_spec c i) as [-> | Hne].
  - rewrite upd_same. reflexivity.
  - rewrite upd_other by exact Hne. reflexivity.
Qed.

(** What [scan_tree] leaves alone: all but the bit-length tree. *)
Lemma others_BL_dyn_tree s s' desc :
  others BL_DESC s' = others BL_DESC s -> desc <> BL_DESC ->
  dyn_tree s' desc = dyn_tree s desc.
Proof.
  intros H Hd. unfold others in H.
  destruct desc; [| | contradiction].
  - exact (f_equal (fun o => fst (fst (fst (snd (fst o))))) H).
  - exact (f_equal (fun o => snd (fst (fst (snd (fst o))))) H).
Qed.

(** A round of [scan_tree]: the symbols of the round are counted. *)
Lemma scan_tree_round_spec tree n s r :
  0 <= nextlen r <= MAX_BITS -> 0 <= count r ->
  let st := scan_tree_round tree n (s, r) in
  snd st = round_run r (Len (tree (n + 1)))
  /\ others BL_DESC (fst st) = others BL_DESC s
  /\ forall F0 k c,
       Freq (bl_tree s c) = ush (F0 + k) ->
       Freq (bl_tree (fst st) c)
       = ush (F0 + (k + if round_goes_on r (Len (tree (n + 1))) then 0
                        else countf (fun x => fst x =? c) (round_codes r))).
Proof.
  intros Hn Hc. cbv zeta.
  unfold scan_tree_round, round_run, round_goes_on, round_codes.
  unfold MAX_BITS, REP_3_6, REPZ_3_10, REPZ_11_138 in *.
  destruct ((count r + 1 <? max_count r)
            && (nextlen r =? Len (tree (n + 1)))).
  { cbn [fst snd]. split; [reflexivity |]. split; [reflexivity |].
    intros F0 k c E. rewrite E. f_equal. lia. }
  cbn [fst snd]. split; [reflexivity |].
  destruct (count r + 1 <? min_count r).
  { split; [reflexivity |].
    intros F0 k c E. rewrite bump_Freq, countf_repeat. cbn [fst].
    rewrite (Z.eqb_sym c). destruct (Z.eqb_spec (nextlen r) c) as [<- | _].
    - rewrite E, ush_add_l. f_equal. lia.
    - rewrite E. f_equal. lia. }
  destruct (Z.eqb_spec (nextlen r) 0) as [E0 | E0]; cbn [negb].
  - destruct (count r + 1 <=? 10).
    + split; [reflexivity |].
      intros F0 k c E. rewrite bump_Freq. unfold countf. cbn [sumf fst].
      rewrite (Z.eqb_sym c). destruct (Z.eqb_spec 17 c) as [<- | _].
      * rewrite E, ush_add_l. f_equal. lia.
      * rewrite E. f_equal. lia.
    + split; [reflexivity |].
      intros F0 k c E. rewrite bump_Freq. unfold countf. cbn [sumf fst].
      rewrite (Z.eqb_sym c). destruct (Z.eqb_spec 18 c) as [<- | _].
      * rewrite E, ush_add_l. f_equal. lia.
      * rewrite E. f_equal. lia.
  - destruct (Z.eqb_spec (nextlen r) (prevlen r)) as [Ep | Ep]; cbn [negb].
    + split; [reflexivity |].
      intros F0 k c E. rewrite bump_Freq. unfold countf. cbn [sumf fst].
      rewrite (Z.eqb_sym c). destruct (Z.eqb_spec 16 c) as [<- | _].
      * rewrite E, ush_add_l. f_equal. lia.
      * rewrite E. f_equal. lia.
    + split; [reflexivity |].
      intros F0 k c E. rewrite bump_Freq. unfold countf. cbn [sumf fst].
      rewrite (Z.eqb_sym c). destruct (Z.eqb_spec 16 c) as [<- | N16].
      * rewrite bump_Freq.
        destruct (Z.eqb_spec 16 (nextlen r)) as [E16 | _]; [lia |].
        destruct (Z.eqb_spec (nextlen r) 16) as [E16 | _]; [lia |].
        rewrite E, ush_add_l. f_equal. lia.
      * rewrite bump_Freq. rewrite (Z.eqb_sym c).
        destruct (Z.eqb_spec (nextlen r) c) as [<- | _].
        -- rewrite E, ush_add_l. f_equal. lia.
        -- rewrite E. f_equal. lia.
Qed.

Lemma send_code_bl_tree s c tree :
  bl_tree (send_code s c tree) = bl_tree s.
Proof. unfold send_code. apply send_bits_frame. Qed.

(** [do { send_code(s, curlen, s->bl_tree); } while (--count != 0)]. *)
Lemma send_tree_repeat_spec k :
  forall s c,
    bi_ok s -> sendable (bl_tree s) c ->
    stream (send_tree_repeat k s c)
    = stream s ++ flat_map (code_bits (bl_tree s)) (repeat c k)
    /\ bi_ok (send_tree_repeat k s c)
    /\ bl_tree (send_tree_repeat k s c) = bl_tree s.
Proof.
  induction k as [| k IH]; intros s c Hok Hs.
  - cbn [send_tree_repeat repeat flat_map]. rewrite app_nil_r.
    repeat split; try reflexivity; apply Hok.
  - cbn [send_tree_repeat repeat flat_map].
    destruct (send_code_spec s c (bl_tree s) Hok Hs) as (E1 & Hok1 & _).
    pose proof (send_code_bl_tree s c (bl_tree s)) as Eb.
    destruct (IH (send_code s c (bl_tree s)) c Hok1) as (E2 & Hok2 & Eb2).
    { rewrite Eb. exact Hs. }
    rewrite E2, E1, Eb, <- app_assoc.
    split; [reflexivity |]. split; [exact Hok2 | congruence].
Qed.

Lemma flat_map_repeat_literal bl c k :
  0 <= c <= MAX_BITS ->
  flat_map (rl_bits bl) (repeat (c, 0) k)
  = flat_map (code_bits bl) (repeat c k).
Proof.
  intros Hc. induction k as [| k IH]; [reflexivity |].
  cbn [repeat flat_map]. rewrite IH, rl_bits_literal by exact Hc.
  reflexivity.
Qed.

(** A symbol with extra bits, as [send_tree] sends it. *)
Lemma send_code_extra s bl c v len :
  bi_ok s -> bl_tree s = bl -> sendable bl c ->
  at_ extra_blbits c = len -> 1 <= len <= 16 -> 0 <= v < 2 ^ len ->
  let s' := send_bits (send_code s c (bl_tree s)) v len in
  stream s' = stream s ++ rl_bits bl (c, v) /\ bi_ok s' /\ bl_tree s' = bl.
Proof.
  intros Hok Eb Hs El Hl Hv. cbv zeta. subst bl.
  destruct (send_code_spec s c (bl_tree s) Hok Hs) as (E1 & Hok1 & _).
  destruct (send_bits_spec (send_code s c (bl_tree s)) v len Hok1 Hl)
    as (E2 & _ & Hok2).
  rewrite E2, E1, <- app_assoc. unfold rl_bits. cbn [fst snd]. rewrite El.
  split; [reflexivity |]. split; [apply Hok2, Hv |].
  destruct (send_bits_frame (send_code s c (bl_tree s)) v len)
    as (_ & _ & Eb2 & _).
  cbv zeta in Eb2. rewrite Eb2. apply send_code_bl_tree.
Qed.

Lemma send_tree_round_run tree n s r :
  snd (send_tree_round tree n (s, r)) = round_run r (Len (tree (n + 1)))
  /\ (round_goes_on r (Len (tree (n + 1))) = true ->
      fst (send_tree_round tree n (s, r)) = s).
Proof.
  unfold send_tree_round, round_run, round_goes_on.
  destruct ((count r + 1 <? max_count r)
            && (nextlen r =? Len (tree (n + 1)))); cbn [fst snd].
  - split; reflexivity.
  - split; [reflexivity | discriminate].
Qed.

(** A round of [send_tree] that ends a run sends the symbols of the
    round. *)
Lemma send_tree_round_spec tree n s r bl :
  round_goes_on r (Len (tree (n + 1))) = false ->
  0 <= nextlen r <= MAX_BITS -> 0 <= count r ->
  Forall rl_ok (round_codes r) ->
  bi_ok s -> bl_tree s = bl ->
  (forall x, In x (round_codes r) -> sendable bl (fst x)) ->
  let s' := fst (send_tree_round tree n (s, r)) in
  stream s' = stream s ++ flat_map (rl_bits bl) (round_codes r)
  /\ bi_ok s' /\ bl_tree s' = bl.
Proof.
  intros Hgo Hn Hc Hrl Hok Eb Hs. cbv zeta. subst bl.
  unfold send_tree_round. unfold round_goes_on in Hgo. rewrite Hgo.
  cbn [fst]. unfold round_codes in Hrl, Hs |- *.
  unfold REP_3_6, REPZ_3_10, REPZ_11_138 in *.
  rewrite Forall_forall in Hrl.
  destruct (count r + 1 <? min_count r).
  { assert (Hin : In (nextlen r, 0)
                    (repeat (nextlen r, 0) (Z.to_nat (count r + 1)))).
    { destruct (Z.to_nat (count r + 1)) eqn:E; [lia |]. left. reflexivity. }
    destruct (send_tree_repeat_spec (Z.to_nat (count r + 1)) s (nextlen r)
                Hok) as (E1 & Hok1 & Eb1).
    { apply (Hs _ Hin). }
    rewrite E1, flat_map_repeat_literal by exact Hn.
    split; [reflexivity |]. split; [exact Hok1 | exact Eb1]. }
  destruct (Z.eqb_spec (nextlen r) 0) as [E0 | E0]; cbn [negb].
  - destruct (count r + 1 <=? 10).
    + pose proof (Hrl _ ltac:(left; reflexivity)) as [_ Hv].
      cbn [fst snd] in Hv. change (at_ extra_blbits 17) with 3 in Hv.
      cbn [flat_map]. rewrite app_nil_r.
      apply send_code_extra; try assumption; try reflexivity; try lia.
      apply (Hs (17, count r + 1 - 3)). left. reflexivity.
    + pose proof (Hrl _ ltac:(left; reflexivity)) as [_ Hv].
      cbn [fst snd] in Hv. change (at_ extra_blbits 18) with 7 in Hv.
      cbn [flat_map]. rewrite app_nil_r.
      apply send_code_extra; try assumption; try reflexivity; try lia.
      apply (Hs (18, count r + 1 - 11)). left. reflexivity.
  - destruct (Z.eqb_spec (nextlen r) (prevlen r)) as [Ep | Ep]; cbn [negb].
    + pose proof (Hrl _ ltac:(left; reflexivity)) as [_ Hv].
      cbn [fst snd] in Hv. change (at_ extra_blbits 16) with 2 in Hv.
      cbn [flat_map]. rewrite app_nil_r.
      apply send_code_extra; try assumption; try reflexivity; try lia.
      apply (Hs (16, count r + 1 - 3)). left. reflexivity.
    + pose proof (Hrl _ ltac:(right; left; reflexivity)) as [_ Hv].
      cbn [fst snd] in Hv. change (at_ extra_blbits 16) with 2 in Hv.
      cbn [flat_map]. rewrite app_nil_r.
      destruct (send_code_spec s (nextlen r) (bl_tree s) Hok)
        as (E1 & Hok1 & _).
      { apply (Hs (nextlen r, 0)). left. reflexivity. }
      pose proof (send_code_bl_tree s (nextlen r) (bl_tree s)) as Eb1.
      destruct (send_code_extra (send_code s (nextlen r) (bl_tree s))
                  (bl_tree s) 16
                  (count r + 1 - 1 - 3) 2 Hok1 Eb1)
        as (E2 & Hok2 & Eb2); try reflexivity; try lia.
      { apply (Hs (16, count r + 1 - 1 - 3)). right. left. reflexivity. }
      cbv zeta in E2, Hok2, Eb2.
      rewrite E2, E1, <- app_assoc, rl_bits_literal by exact Hn.
      split; [reflexivity |]. split; assumption.
Qed.

Lemma Forall_repeat {A} (P : A -> Prop) x n : P x -> Forall P (repeat x n).
Proof. intros H. induction n; cbn [repeat]; constructor; assumption. Qed.

(** The symbols of a round stand for the run they end, and their extra
    bits are of the size for the symbol: the [Assert] of [send_tree]. *)
Lemma round_codes_expand r :
  0 <= nextlen r <= MAX_BITS -> 0 <= count r < max_count r -> limits_ok r ->
  expand (prevlen r) (round_codes r)
  = repeat (nextlen r) (Z.to_nat (count r + 1))
  /\ Forall rl_ok (round_codes r).
Proof.
  intros Hn Hc Hl. unfold round_codes.
  destruct (Z.ltb_spec (count r + 1) (min_count r)) as [Hmin | Hmin].
  { split; [apply expand_literals; exact Hn |].
    apply Forall_repeat, rl_ok_literal. exact Hn. }
  unfold limits_ok in Hl. unfold MAX_BITS, REP_3_6, REPZ_3_10, REPZ_11_138 in *.
  destruct (Z.eqb_spec (nextlen r) 0) as [E0 | E0]; cbn [negb].
  - destruct Hl as [Hmax Hmn].
    destruct (Z.leb_spec (count r + 1) 10) as [H10 | H10].
    + split.
      * cbn [expand]. unfold rl_lengths, REP_3_6, REPZ_3_10, REPZ_11_138.
        cbn [fst snd Z.eqb Pos.eqb].
        rewrite app_nil_r, E0. f_equal. lia.
      * repeat constructor; cbn [fst snd]; try (unfold BL_CODES; lia).
        change (at_ extra_blbits 17) with 3. lia.
    + split.
      * cbn [expand]. unfold rl_lengths, REP_3_6, REPZ_3_10, REPZ_11_138.
        cbn [fst snd Z.eqb Pos.eqb].
        rewrite app_nil_r, E0. f_equal. lia.
      * repeat constructor; cbn [fst snd]; try (unfold BL_CODES; lia).
        change (at_ extra_blbits 18) with 7. lia.
  - rewrite (Z.eqb_sym (prevlen r)) in Hl.
    destruct (Z.eqb_spec (nextlen r) (prevlen r)) as [Ep | Ep]; cbn [negb];
      destruct Hl as [Hmax Hmn].
    + split.
      * cbn [expand]. unfold rl_lengths, REP_3_6, REPZ_3_10, REPZ_11_138.
        cbn [fst snd Z.eqb Pos.eqb].
        rewrite app_nil_r, <- Ep. f_equal. lia.
      * repeat constructor; cbn [fst snd]; try (unfold BL_CODES; lia).
        change (at_ extra_blbits 16) with 2. lia.
    + split.
      * cbn [expand]. rewrite rl_lengths_literal by (unfold MAX_BITS; lia).
        cbn [last]. unfold rl_lengths, REP_3_6, REPZ_3_10, REPZ_11_138.
        cbn [fst snd Z.eqb Pos.eqb].
        rewrite app_nil_r.
        replace (Z.to_nat (count r + 1))
          with (S (Z.to_nat (3 + (count r + 1 - 1 - 3)))) by lia.
        reflexivity.
      * constructor; [apply rl_ok_literal; unfold MAX_BITS; lia |].
        repeat constructor; cbn [fst snd]; try (unfold BL_CODES; lia).
        change (at_ extra_blbits 16) with 2. lia.
Qed.

(** The variables of the two loops before the round [j], [codes] being
    the symbols sent so far: they stand for the lengths before the run that
    is going on. *)
Definition run_inv (lens : Z -> Z) (j : Z) (r : run) (codes : list (Z * Z))
  : Prop :=
  expand (-1) codes = map lens (Zseq 0 (Z.to_nat (j - count r)))
  /\ prevlen r = last (expand (-1) codes) (-1)
  /\ nextlen r = lens j
  /\ 0 <= count r <= j /\ count r < max_count r
  /\ (forall k, j - count r <= k < j -> lens k = lens j)
  /\ limits_ok r
  /\ Forall rl_ok codes.

Lemma map_Zseq_const (lens : Z -> Z) v n :
  forall lo,
    (forall k, lo <= k < lo + Z.of_nat n -> lens k = v) ->
    map lens (Zseq lo n) = repeat v n.
Proof.
  induction n as [| n IH]; intros lo H; [reflexivity |].
  cbn [Zseq map repeat]. rewrite H by lia. rewrite IH; [reflexivity |].
  intros k Hk. apply H. lia.
Qed.

Lemma limits_ok_next_run curlen nextlen' : limits_ok (next_run curlen nextlen').
Proof.
  unfold limits_ok, next_run.
  destruct (nextlen' =? 0) eqn:E0; cbn [nextlen prevlen max_count min_count];
    rewrite ?E0; [split; reflexivity |].
  destruct (curlen =? nextlen') eqn:E1;
    cbn [nextlen prevlen max_count min_count]; rewrite ?E0, ?E1;
    split; reflexivity.
Qed.

Lemma next_run_fields curlen nextlen' :
  prevlen (next_run curlen nextlen') = curlen
  /\ nextlen (next_run curlen nextlen') = nextlen'
  /\ count (next_run curlen nextlen') = 0
  /\ 0 < max_count (next_run curlen nextlen').
Proof.
  unfold next_run.
  destruct (nextlen' =? 0); [repeat split |].
  destruct (curlen =? nextlen'); repeat split.
Qed.

(** A round keeps [run_inv]. *)
Lemma run_inv_step lens j r codes :
  0 <= j -> 0 <= lens j <= MAX_BITS -> run_inv lens j r codes ->
  run_inv lens (j + 1) (round_run r (lens (j + 1)))
    (if round_goes_on r (lens (j + 1)) then codes
     else codes ++ round_codes r).
Proof.
  intros Hj Hlj (He & Hp & Hn & Hc & Hm & Hk & Hl & Hrl).
  unfold round_run.
  destruct (round_goes_on r (lens (j + 1))) eqn:Hgo.
  - unfold round_goes_on in Hgo. apply andb_true_iff in Hgo.
    destruct Hgo as [H1 H2]. apply Z.ltb_lt in H1. apply Z.eqb_eq in H2.
    unfold run_inv. cbn [prevlen nextlen count max_count min_count].
    split; [rewrite He; do 3 f_equal; lia |].
    split; [exact Hp |]. split; [reflexivity |].
    split; [lia |]. split; [exact H1 |].
    split.
    { intros k Hkk. destruct (Z.eq_dec k j) as [-> | Hne]; [congruence |].
      rewrite Hk by lia. congruence. }
    split; [| exact Hrl].
    unfold limits_ok in *. cbn [prevlen nextlen count max_count min_count].
    rewrite <- H2. exact Hl.
  - destruct (round_codes_expand r) as [Ex Hrl'];
      [rewrite Hn; exact Hlj | lia | exact Hl |].
    destruct (next_run_fields (nextlen r) (lens (j + 1)))
      as (F1 & F2 & F3 & F4).
    unfold run_inv. rewrite F1, F2, F3.
    assert (Ee : expand (-1) (codes ++ round_codes r)
                 = map lens (Zseq 0 (Z.to_nat (j + 1)))).
    { rewrite expand_app, <- Hp, Ex, He.
      replace (Z.to_nat (j + 1))
        with (Z.to_nat (j - count r) + Z.to_nat (count r + 1))%nat by lia.
      rewrite Zseq_app, map_app. f_equal.
      symmetry. apply map_Zseq_const. intros k Hkk.
      destruct (Z.eq_dec k j) as [-> | Hne]; [congruence |].
      rewrite Hk by lia. congruence. }
    split; [rewrite Z.sub_0_r; exact Ee |].
    split.
    { rewrite expand_app, <- Hp, Ex, last_app_default.
      symmetry. apply last_repeat. lia. }
    split; [reflexivity |]. split; [lia |]. split; [exact F4 |].
    split; [intros k Hkk; lia |].
    split; [apply limits_ok_next_run |].
    apply Forall_app. split; assumption.
Qed.

(** The loops of [scan_tree] and [send_tree] over the same tree [g], round
    by round: what one counts the other sends. *)
Lemma scan_send_rounds g sa0 F0 r0 (j : nat) :
  (forall n, 0 <= n < Z.of_nat j -> 0 <= Len (g n) <= MAX_BITS) ->
  run_inv (fun n => Len (g n)) 0 r0 [] ->
  let a := for_up j 0 (scan_tree_round g) (sa0, r0) in
  exists codes,
    run_inv (fun n => Len (g n)) (Z.of_nat j) (snd a) codes
    /\ (forall c, Freq (bl_tree sa0 c) = ush (F0 c + 0) ->
                  Freq (bl_tree (fst a) c)
                  = ush (F0 c + countf (fun x => fst x =? c) codes))
    /\ others BL_DESC (fst a) = others BL_DESC sa0
    /\ forall s,
         bi_ok s ->
         (forall x, In x codes -> sendable (bl_tree s) (fst x)) ->
         let b := for_up j 0 (send_tree_round g) (s, r0) in
         snd b = snd a
         /\ stream (fst b) = stream s ++ flat_map (rl_bits (bl_tree s)) codes
         /\ bi_ok (fst b) /\ bl_tree (fst b) = bl_tree s.
Proof.
  intros Hlens H0. cbv zeta.
  induction j as [| j IH].
  - exists []. cbn [for_up fst snd flat_map].
    split; [exact H0 |]. split; [intros c HF; exact HF |].
    split; [reflexivity |].
    intros s Hok _. rewrite app_nil_r. repeat split; apply Hok.
  - destruct IH as (codes & Hinv & Hfr & Hdt & Hsend).
    { intros n Hn. apply Hlens. lia. }
    rewrite !for_up_S_end, !Z.add_0_l.
    destruct (for_up j 0 (scan_tree_round g) (sa0, r0)) as [sa r].
    cbn [fst snd] in Hinv, Hfr, Hdt, Hsend.
    set (n := Z.of_nat j) in *.
    assert (Hn : 0 <= n) by (unfold n; lia).
    assert (Hln : 0 <= Len (g n) <= MAX_BITS) by (apply Hlens; lia).
    pose proof Hinv as (_ & _ & Enl & Hc & Hm & _ & Hl & _).
    cbv beta in Enl.
    assert (Hnl : 0 <= nextlen r <= MAX_BITS) by (rewrite Enl; exact Hln).
    destruct (scan_tree_round_spec g n sa r Hnl ltac:(lia))
      as (Ea & Hda & Hfa).
    destruct (round_codes_expand r Hnl ltac:(lia) Hl) as [_ Hrl].
    pose proof (run_inv_step (fun n => Len (g n)) n r codes Hn Hln Hinv)
      as Hstep.
    cbv beta in Hstep.
    exists (if round_goes_on r (Len (g (n + 1))) then codes
            else codes ++ round_codes r).
    split.
    { rewrite Ea. replace (Z.of_nat (S j)) with (n + 1) by (unfold n; lia).
      exact Hstep. }
    split.
    { intros c HF. rewrite (Hfa (F0 c) _ c (Hfr c HF)). f_equal. f_equal.
      destruct (round_goes_on r (Len (g (n + 1)))); [lia |].
      rewrite countf_app. reflexivity. }
    split; [rewrite Hda; exact Hdt |].
    intros s Hok Hs. rewrite for_up_S_end, Z.add_0_l. fold n.
    specialize (Hsend s Hok).
    destruct (for_up j 0 (send_tree_round g) (s, r0)) as [sb rb].
    cbn [fst snd] in Hsend.
    destruct (send_tree_round_run g n sb rb) as (Eb' & Hsame).
    destruct (round_goes_on r (Len (g (n + 1)))) eqn:Hgo.
    + destruct (Hsend Hs) as (Erb & E1 & Hok1 & Eb1). subst rb.
      rewrite Hsame by exact Hgo.
      split; [congruence |]. split; [exact E1 |]. split; assumption.
    + destruct Hsend as (Erb & E1 & Hok1 & Eb1).
      { intros x Hx. apply Hs, in_or_app. left. exact Hx. }
      subst rb.
      destruct (send_tree_round_spec g n sb r (bl_tree s) Hgo Hnl ltac:(lia)
                  Hrl Hok1 Eb1) as (E2 & Hok2 & Eb2).
      { intros x Hx. apply Hs, in_or_app. right. exact Hx. }
      cbv zeta in E2, Hok2, Eb2.
      split; [congruence |].
      rewrite E2, E1, flat_map_app, <- app_assoc.
      split; [reflexivity |]. split; assumption.
Qed.

Lemma run_inv_start tree :
  0 <= Len (tree 0) <= MAX_BITS ->
  run_inv (fun n => Len (tree n)) 0
    (if Len (tree 0) =? 0 then Run (-1) (Len (tree 0)) 0 138 3
     else Run (-1) (Len (tree 0)) 0 7 4) [].
Proof.
  intros H0. unfold run_inv, limits_ok.
  destruct (Z.eqb_spec (Len (tree 0)) 0) as [Ez | Ez];
    cbn [prevlen nextlen count max_count min_count expand last map Zseq
         Z.to_nat Z.sub Z.opp].
  - rewrite Ez. cbn [Z.eqb].
    repeat split; try reflexivity; try lia. constructor.
  - destruct (Z.eqb_spec (Len (tree 0)) 0) as [| _]; [contradiction |].
    destruct (Z.eqb_spec (-1) (Len (tree 0))) as [Em | _]; [lia |].
    repeat split; try reflexivity; try lia. constructor.
Qed.

(** [send_tree] on [tree] up to [mc] sends the list [codes]: their codes in
    the bit-length tree and their extra bits, in order. *)
Definition sends (tree : Z -> ct_data) (mc : Z) (codes : list (Z * Z))
  : Prop :=
  forall s,
    bi_ok s ->
    (forall x, In x codes -> sendable (bl_tree s) (fst x)) ->
    stream (send_tree s tree mc)
    = stream s ++ flat_map (rl_bits (bl_tree s)) codes
    /\ bi_ok (send_tree s tree mc).

(** [scan_tree] and the symbols it counts. *)
Lemma scan_tree_codes s0 desc mc :
  desc <> BL_DESC -> 0 <= mc ->
  (forall n, 0 <= n <= mc -> 0 <= Len (dyn_tree s0 desc n) <= MAX_BITS) ->
  let g := upd (dyn_tree s0 desc) (mc + 1)
             (set_Len (dyn_tree s0 desc (mc + 1)) 0xffff) in
  exists codes,
    Forall rl_ok codes
    /\ expand (-1) codes
       = map (fun n => Len (dyn_tree s0 desc n)) (Zseq 0 (Z.to_nat (mc + 1)))
    /\ (forall c,
          0 <= Freq (bl_tree s0 c) < 2 ^ 16 ->
          Freq (bl_tree (scan_tree s0 desc mc) c)
          = ush (Freq (bl_tree s0 c) + countf (fun x => fst x =? c) codes))
    /\ others BL_DESC (scan_tree s0 desc mc)
       = others BL_DESC (set_dyn_tree s0 desc g)
    /\ dyn_tree (scan_tree s0 desc mc) desc = g
    /\ sends g mc codes.
Proof.
  intros Hd Hmc Hlen. cbv zeta.
  set (tree0 := dyn_tree s0 desc) in *.
  set (g := upd tree0 (mc + 1) (set_Len (tree0 (mc + 1)) 0xffff)).
  set (sa0 := set_dyn_tree s0 desc g).
  set (r0 := if Len (tree0 0) =? 0 then Run (-1) (Len (tree0 0)) 0 138 3
             else Run (-1) (Len (tree0 0)) 0 7 4).
  assert (Hg : forall n, n <> mc + 1 -> g n = tree0 n)
    by (intros n Hn; unfold g; apply upd_other; exact Hn).
  assert (Hgg : Len (g (mc + 1)) = 0xffff)
    by (unfold g; rewrite upd_same; reflexivity).
  assert (Hsa : dyn_tree sa0 desc = g /\ bl_tree sa0 = bl_tree s0).
  { unfold sa0. destruct desc; [split; reflexivity | split; reflexivity |].
    contradiction. }
  destruct Hsa as [Hsa1 Hsa2].
  assert (E0 : tree0 0 = g 0) by (symmetry; apply Hg; lia).
  assert (Hr0 : run_inv (fun n => Len (g n)) 0 r0 []).
  { unfold r0. rewrite E0. apply run_inv_start. rewrite <- E0.
    apply Hlen. lia. }
  destruct (scan_send_rounds g sa0 (fun c => Freq (bl_tree s0 c)) r0
              (Z.to_nat (mc + 1)))
    as (codes & Hinv & Hfr & Hdt & Hsend).
  { intros n Hn. rewrite Hg by lia. apply Hlen. lia. }
  { exact Hr0. }
  assert (Escan : scan_tree s0 desc mc
                  = fst (for_up (Z.to_nat (mc + 1)) 0 (scan_tree_round g)
                           (sa0, r0))) by reflexivity.
  assert (Esend : forall s,
            send_tree s g mc
            = fst (for_up (Z.to_nat (mc + 1)) 0 (send_tree_round g)
                     (s, r0))).
  { intros s. unfold send_tree. rewrite <- E0. reflexivity. }
  rewrite Escan.
  destruct (for_up (Z.to_nat (mc + 1)) 0 (scan_tree_round g) (sa0, r0))
    as [sa r].
  cbn [fst snd] in *.
  destruct Hinv as (He & _ & Enl & Hc & _ & Hk & _ & Hrl).
  rewrite Z2Nat.id in He, Enl, Hc, Hk by lia. cbv beta in Enl, Hk.
  assert (Hc0 : count r = 0).
  { destruct (Z.eq_dec (count r) 0) as [E | E]; [exact E |].
    exfalso. pose proof (Hk mc ltac:(lia)) as Hkm.
    rewrite Hgg, Hg in Hkm by lia.
    pose proof (Hlen mc ltac:(lia)) as Hm. fold tree0 in Hm.
    unfold MAX_BITS in Hm. lia. }
  exists codes.
  split; [exact Hrl |].
  split.
  { rewrite He, Hc0, Z.sub_0_r. apply map_ext_in. intros n Hn.
    apply In_Zseq in Hn. rewrite Hg by lia. reflexivity. }
  split.
  { intros c HF. apply Hfr. rewrite Hsa2, Z.add_0_r. symmetry.
    apply ush_small_16, HF. }
  split; [exact Hdt |].
  split.
  { rewrite (others_BL_dyn_tree sa0 sa desc Hdt Hd). exact Hsa1. }
  intros s Hok Hs. rewrite Esend.
  destruct (Hsend s Hok Hs) as (_ & E1 & Hok1 & _). split; assumption.
Qed.

(** X23.  [send_tree] sends what [scan_tree] has counted, and what it
    sends stands for the code lengths of the tree.  For a tree of lengths
    0 to 15 up to [max_code] there is a list of symbols of the bit-length
    alphabet with their extra bits such that [scan_tree] has raised the
    frequency of each symbol by its number of occurrences in the list;
    the symbols 16, 17 and 18 read as repeats, the list stands for the
    lengths of the symbols 0 to [max_code]; and [send_tree], from any
    state whose bit-length tree has a code for each symbol of the list,
    appends the codes and extra bits of the list to the bit stream, in
    order. *)
Theorem send_tree_sends_lengths :
  forall (s0 : deflate_state) (desc : tree_desc) (max_code : Z),
    desc <> BL_DESC -> 0 <= max_code ->
    (forall n, 0 <= n <= max_code ->
       0 <= Len (dyn_tree s0 desc n) <= MAX_BITS) ->
    (forall c, 0 <= Freq (bl_tree s0 c) < 2 ^ 16) ->
    exists codes,
      Forall rl_ok codes
      /\ expand (-1) codes
         = map (fun n => Len (dyn_tree s0 desc n))
             (Zseq 0 (Z.to_nat (max_code + 1)))
      /\ (forall c,
            Freq (bl_tree (scan_tree s0 desc max_code) c)
            = ush (Freq (bl_tree s0 c)
                   + countf (fun x => fst x =? c) codes))
      /\ forall s,
           bi_ok s ->
           (forall x, In x codes -> sendable (bl_tree s) (fst x)) ->
           stream (send_tree s (dyn_tree (scan_tree s0 desc max_code) desc)
                     max_code)
           = stream s ++ flat_map (rl_bits (bl_tree s)) codes
           /\ bi_ok (send_tree s
                       (dyn_tree (scan_tree s0 desc max_code) desc)
                       max_code).
Proof.
  intros s0 desc mc Hd Hmc Hlen HF.
  destruct (scan_tree_codes s0 desc mc Hd Hmc Hlen)
    as (codes & Hrl & He & Hfr & _ & Edt & Hsend).
  cbv zeta in Edt, Hsend.
  exists codes.
  split; [exact Hrl |]. split; [exact He |].
  split; [intros c; apply Hfr, HF |].
  intros s Hok Hs. rewrite Edt. apply Hsend; assumption.
Qed.

Lemma at_Forall_range (l : list Z) lo hi n :
  lo <= 0 <= hi -> Forall (fun v => lo <= v <= hi) l -> lo <= at_ l n <= hi.
Proof.
  intros H0 Hl. unfold at_. generalize (Z.to_nat n). intros k. revert k.
  induction Hl as [| v l Hv _ IH]; intros k.
  - destruct k; exact H0.
  - destruct k; [exact Hv | apply IH].
Qed.

(** A state whose distance tree has the lengths 4, 4, 4, 4, 4, 0, 0, 0, 2,
    2. *)
Definition state_runs : deflate_state :=
  set_dyn_dtree state0
    (fun n =>
       Ct_data 0 (if n <? 0 then 0 else at_ [4; 4; 4; 4; 4; 0; 0; 0; 2; 2] n)).

Lemma send_tree_sends_lengths_witness :
  exists codes,
    Forall rl_ok codes
    /\ expand (-1) codes
       = map (fun n => Len (dyn_tree state_runs D_DESC n))
           (Zseq 0 (Z.to_nat (9 + 1)))
    /\ (forall c,
          Freq (bl_tree (scan_tree state_runs D_DESC 9) c)
          = ush (Freq (bl_tree state_runs c)
                 + countf (fun x => fst x =? c) codes))
    /\ forall s,
         bi_ok s ->
         (forall x, In x codes -> sendable (bl_tree s) (fst x)) ->
         stream (send_tree s
                   (dyn_tree (scan_tree state_runs D_DESC 9) D_DESC) 9)
         = stream s ++ flat_map (rl_bits (bl_tree s)) codes
         /\ bi_ok (send_tree s
                     (dyn_tree (scan_tree state_runs D_DESC 9) D_DESC) 9).
Proof.
  apply (send_tree_sends_lengths state_runs D_DESC 9).
  - discriminate.
  - lia.
  - intros n Hn.
    change (0 <= (if n <? 0 then 0
                  else at_ [4; 4; 4; 4; 4; 0; 0; 0; 2; 2] n) <= MAX_BITS).
    destruct (n <? 0); [unfold MAX_BITS; lia |].
    apply at_Forall_range; [unfold MAX_BITS; lia |].
    unfold MAX_BITS. repeat constructor; lia.
  - intros c. vm_compute. split; [discriminate | reflexivity].
Defined.

(** *** The header of a dynamic block: send_all_trees *)

Lemma send_code_frame s c tree :
  dyn_ltree (send_code s c tree) = dyn_ltree s
  /\ dyn_dtree (send_code s c tree) = dyn_dtree s
  /\ bl_tree (send_code s c tree) = bl_tree s.
Proof.
  unfold send_code.
  destruct (send_bits_frame s (Code (tree c)) (Len (tree c)))
    as (H1 & H2 & H3 & _).
  repeat split; assumption.
Qed.

Lemma send_tree_repeat_frame k :
  forall s c,
    dyn_ltree (send_tree_repeat k s c) = dyn_ltree s
    /\ dyn_dtree (send_tree_repeat k s c) = dyn_dtree s
    /\ bl_tree (send_tree_repeat k s c) = bl_tree s.
Proof.
  induction k as [| k IH]; intros s c; [repeat split |].
  cbn [send_tree_repeat].
  destruct (IH (send_code s c (bl_tree s)) c) as (H1 & H2 & H3).
  destruct (send_code_frame s c (bl_tree s)) as (G1 & G2 & G3).
  repeat split; congruence.
Qed.

(** [send_tree] writes to the output only. *)
Lemma send_tree_frame s tree mc :
  dyn_ltree (send_tree s tree mc) = dyn_ltree s
  /\ dyn_dtree (send_tree s tree mc) = dyn_dtree s
  /\ bl_tree (send_tree s tree mc) = bl_tree s.
Proof.
  unfold send_tree.
  set (r0 := if Len (tree 0) =? 0 then _ else _).
  pose (P := fun (_ : Z) (st : deflate_state * run) =>
    dyn_ltree (fst st) = dyn_ltree s /\ dyn_dtree (fst st) = dyn_dtree s
    /\ bl_tree (fst st) = bl_tree s).
  apply (for_up_ind P (send_tree_round tree) (Z.to_nat (mc + 1)) 0 (s, r0)).
  - repeat split.
  - intros j [t r] _ (H1 & H2 & H3). unfold P in *. cbn [fst] in *.
    unfold send_tree_round.
    destruct ((count r + 1 <? max_count r)
              && (nextlen r =? Len (tree (j + 1)))); cbn [fst];
      [repeat split; assumption |].
    destruct (count r + 1 <? min_count r).
    { destruct (send_tree_repeat_frame (Z.to_nat (count r + 1)) t (nextlen r))
        as (G1 & G2 & G3). repeat split; congruence. }
    assert (X : forall t' c v len,
              dyn_ltree t' = dyn_ltree s /\ dyn_dtree t' = dyn_dtree s
              /\ bl_tree t' = bl_tree s ->
              dyn_ltree (send_bits (send_code t' c (bl_tree t')) v len)
              = dyn_ltree s
              /\ dyn_dtree (send_bits (send_code t' c (bl_tree t')) v len)
                 = dyn_dtree s
              /\ bl_tree (send_bits (send_code t' c (bl_tree t')) v len)
                 = bl_tree s).
    { intros t' c v len (K1 & K2 & K3).
      destruct (send_bits_frame (send_code t' c (bl_tree t')) v len)
        as (G1 & G2 & G3 & _). cbv zeta in G1, G2, G3.
      destruct (send_code_frame t' c (bl_tree t')) as (G4 & G5 & G6).
      repeat split; congruence. }
    destruct (negb (nextlen r =? 0)).
    + destruct (negb (nextlen r =? prevlen r)).
      * apply X. destruct (send_code_frame t (nextlen r) (bl_tree t))
          as (G4 & G5 & G6). repeat split; congruence.
      * apply X. repeat split; assumption.
    + destruct (count r + 1 <=? 10); apply X; repeat split; assumption.
Qed.

(** [send_tree] on a tree with a length after [max_code] that is none of
    0 to 15, as [scan_tree] has left it. *)
Lemma send_tree_spec tree mc :
  0 <= mc ->
  (forall n, 0 <= n <= mc -> 0 <= Len (tree n) <= MAX_BITS) ->
  ~ 0 <= Len (tree (mc + 1)) <= MAX_BITS ->
  exists codes,
    Forall rl_ok codes
    /\ expand (-1) codes
       = map (fun n => Len (tree n)) (Zseq 0 (Z.to_nat (mc + 1)))
    /\ sends tree mc codes.
Proof.
  intros Hmc Hlen Hg.
  set (r0 := if Len (tree 0) =? 0 then Run (-1) (Len (tree 0)) 0 138 3
             else Run (-1) (Len (tree 0)) 0 7 4).
  destruct (scan_send_rounds tree state0 (fun _ => 0) r0
              (Z.to_nat (mc + 1)))
    as (codes & Hinv & _ & _ & Hsend).
  { intros n Hn. apply Hlen. lia. }
  { apply run_inv_start. apply Hlen. lia. }
  destruct (for_up (Z.to_nat (mc + 1)) 0 (scan_tree_round tree) (state0, r0))
    as [sa r].
  cbn [fst snd] in *.
  destruct Hinv as (He & _ & Enl & Hc & _ & Hk & _ & Hrl).
  rewrite Z2Nat.id in He, Enl, Hc, Hk by lia. cbv beta in Enl, Hk.
  assert (Hc0 : count r = 0).
  { destruct (Z.eq_dec (count r) 0) as [E | E]; [exact E |].
    exfalso. pose proof (Hk mc ltac:(lia)) as Hkm.
    apply Hg. rewrite <- Hkm. apply Hlen. lia. }
  exists codes.
  split; [exact Hrl |].
  split; [rewrite He, Hc0, Z.sub_0_r; reflexivity |].
  intros s Hok Hs.
  destruct (Hsend s Hok Hs) as (_ & E1 & Hok1 & _). split; assumption.
Qed.

(** The lengths of the bit-length codes, three bits each, in the order
    [bl_order]. *)
Lemma send_bl_lengths s k :
  bi_ok s ->
  (forall rank, 0 <= rank < Z.of_nat k ->
     0 <= Len (bl_tree s (at_ bl_order rank)) <= MAX_BL_BITS) ->
  let s' :=
    for_up k 0
      (fun rank s => send_bits s (Len (bl_tree s (at_ bl_order rank))) 3) s in
  stream s'
  = stream s
    ++ flat_map (fun rank => bits_of 3 (Len (bl_tree s (at_ bl_order rank))))
         (Zseq 0 k)
  /\ bi_ok s'
  /\ dyn_ltree s' = dyn_ltree s /\ dyn_dtree s' = dyn_dtree s
  /\ bl_tree s' = bl_tree s.
Proof.
  intros Hok Hlen. cbv zeta. induction k as [| k IH].
  - cbn [for_up Zseq flat_map]. rewrite app_nil_r. repeat split; apply Hok.
  - destruct IH as (E1 & Hok1 & F1 & F2 & F3).
    { intros rank Hr. apply Hlen. lia. }
    rewrite for_up_S_end, Z.add_0_l.
    set (s1 := for_up k 0 _ s) in *.
    pose proof (Hlen (Z.of_nat k) ltac:(lia)) as Hl.
    unfold MAX_BL_BITS in Hl. rewrite <- F3 in Hl.
    destruct (send_bits_spec s1 (Len (bl_tree s1 (at_ bl_order (Z.of_nat k))))
                3 Hok1 ltac:(lia)) as (E2 & _ & Hok2).
    destruct (send_bits_frame s1
                (Len (bl_tree s1 (at_ bl_order (Z.of_nat k)))) 3)
      as (G1 & G2 & G3 & _).
    cbv zeta in G1, G2, G3.
    split; [| split; [apply Hok2; lia | repeat split; congruence]].
    rewrite E2, E1, Zseq_snoc, flat_map_app, <- app_assoc.
    cbn [flat_map]. rewrite app_nil_r, Z.add_0_l, F3. reflexivity.
Qed.

(** [send_all_trees], given what [send_tree] sends for the two trees. *)
Lemma send_all_trees_spec s lcodes dcodes blcodes lc dc :
  bi_ok s ->
  257 <= lcodes <= L_CODES -> 1 <= dcodes <= D_CODES ->
  4 <= blcodes <= BL_CODES ->
  (forall rank, 0 <= rank < blcodes ->
     0 <= Len (bl_tree s (at_ bl_order rank)) <= MAX_BL_BITS) ->
  sends (dyn_ltree s) (lcodes - 1) lc ->
  sends (dyn_dtree s) (dcodes - 1) dc ->
  (forall x, In x (lc ++ dc) -> sendable (bl_tree s) (fst x)) ->
  stream (send_all_trees s lcodes dcodes blcodes)
  = stream s
    ++ bits_of 5 (lcodes - 257) ++ bits_of 5 (dcodes - 1)
    ++ bits_of 4 (blcodes - 4)
    ++ flat_map
         (fun rank => bits_of 3 (Len (bl_tree s (at_ bl_order rank))))
         (Zseq 0 (Z.to_nat blcodes))
    ++ flat_map (rl_bits (bl_tree s)) lc
    ++ flat_map (rl_bits (bl_tree s)) dc
  /\ bi_ok (send_all_trees s lcodes dcodes blcodes).
Proof.
  intros Hok Hl Hd Hb Hbl Hsl Hsd Hs.
  unfold L_CODES, LITERALS, LENGTH_CODES, D_CODES, BL_CODES in *.
  unfold send_all_trees. cbv zeta.
  destruct (send_bits_spec s (lcodes - 257) 5 Hok ltac:(lia))
    as (E1 & _ & Hok1).
  specialize (Hok1 ltac:(lia)).
  destruct (send_bits_frame s (lcodes - 257) 5) as (A1 & A2 & A3 & _).
  cbv zeta in A1, A2, A3.
  set (s1 := send_bits s (lcodes - 257) 5) in *.
  destruct (send_bits_spec s1 (dcodes - 1) 5 Hok1 ltac:(lia))
    as (E2 & _ & Hok2).
  specialize (Hok2 ltac:(lia)).
  destruct (send_bits_frame s1 (dcodes - 1) 5) as (B1 & B2 & B3 & _).
  cbv zeta in B1, B2, B3.
  set (s2 := send_bits s1 (dcodes - 1) 5) in *.
  destruct (send_bits_spec s2 (blcodes - 4) 4 Hok2 ltac:(lia))
    as (E3 & _ & Hok3).
  specialize (Hok3 ltac:(lia)).
  destruct (send_bits_frame s2 (blcodes - 4) 4) as (C1 & C2 & C3 & _).
  cbv zeta in C1, C2, C3.
  set (s3 := send_bits s2 (blcodes - 4) 4) in *.
  assert (T3 : dyn_ltree s3 = dyn_ltree s /\ dyn_dtree s3 = dyn_dtree s
               /\ bl_tree s3 = bl_tree s) by (repeat split; congruence).
  destruct T3 as (T3l & T3d & T3b).
  destruct (send_bl_lengths s3 (Z.to_nat blcodes) Hok3)
    as (E4 & Hok4 & D1 & D2 & D3).
  { intros rank Hr. rewrite T3b. apply Hbl. lia. }
  cbv zeta in E4, Hok4, D1, D2, D3.
  set (s4 := for_up (Z.to_nat blcodes) 0 _ s3) in *.
  assert (T4 : dyn_ltree s4 = dyn_ltree s /\ dyn_dtree s4 = dyn_dtree s
               /\ bl_tree s4 = bl_tree s) by (repeat split; congruence).
  destruct T4 as (T4l & T4d & T4b).
  rewrite T4l.
  destruct (Hsl s4 Hok4) as (E5 & Hok5).
  { intros x Hx. rewrite T4b. apply Hs, in_or_app. left. exact Hx. }
  destruct (send_tree_frame s4 (dyn_ltree s) (lcodes - 1))
    as (F1 & F2 & F3).
  set (s5 := send_tree s4 (dyn_ltree s) (lcodes - 1)) in *.
  assert (T5 : dyn_dtree s5 = dyn_dtree s /\ bl_tree s5 = bl_tree s)
    by (split; congruence).
  destruct T5 as (T5d & T5b).
  rewrite T5d.
  destruct (Hsd s5 Hok5) as (E6 & Hok6).
  { intros x Hx. rewrite T5b. apply Hs, in_or_app. right. exact Hx. }
  split; [| exact Hok6].
  rewrite E6, E5, E4, E3, E2, E1, T5b, T4b, T3b.
  change (Z.to_nat 5) with 5%nat. change (Z.to_nat 4) with 4%nat.
  rewrite <- !app_assoc. reflexivity.
Qed.

(** X24.  [send_all_trees] writes the header of a dynamic block: the
    counts [lcodes - 257] and [dcodes - 1] in 5 bits each and
    [blcodes - 4] in 4 bits, the lengths of the first [blcodes] bit-length
    codes in the order [bl_order], 3 bits each, then the code lengths of
    the literal tree and of the distance tree as [send_tree] sends them:
    two lists of symbols that stand for the lengths of the [lcodes] and
    [dcodes] first symbols. *)
Theorem send_all_trees_format :
  forall (s : deflate_state) (lcodes dcodes blcodes : Z),
    bi_ok s ->
    257 <= lcodes <= L_CODES -> 1 <= dcodes <= D_CODES ->
    4 <= blcodes <= BL_CODES ->
    (forall n, 0 <= n < lcodes -> 0 <= Len (dyn_ltree s n) <= MAX_BITS) ->
    ~ 0 <= Len (dyn_ltree s lcodes) <= MAX_BITS ->
    (forall n, 0 <= n < dcodes -> 0 <= Len (dyn_dtree s n) <= MAX_BITS) ->
    ~ 0 <= Len (dyn_dtree s dcodes) <= MAX_BITS ->
    (forall rank, 0 <= rank < blcodes ->
       0 <= Len (bl_tree s (at_ bl_order rank)) <= MAX_BL_BITS) ->
    exists lc dc,
      Forall rl_ok lc /\ Forall rl_ok dc
      /\ expand (-1) lc
         = map (fun n => Len (dyn_ltree s n)) (Zseq 0 (Z.to_nat lcodes))
      /\ expand (-1) dc
         = map (fun n => Len (dyn_dtree s n)) (Zseq 0 (Z.to_nat dcodes))
      /\ ((forall x, In x (lc ++ dc) -> sendable (bl_tree s) (fst x)) ->
          stream (send_all_trees s lcodes dcodes blcodes)
          = stream s
            ++ bits_of 5 (lcodes - 257) ++ bits_of 5 (dcodes - 1)
            ++ bits_of 4 (blcodes - 4)
            ++ flat_map
                 (fun rank => bits_of 3 (Len (bl_tree s (at_ bl_order rank))))
                 (Zseq 0 (Z.to_nat blcodes))
            ++ flat_map (rl_bits (bl_tree s)) lc
            ++ flat_map (rl_bits (bl_tree s)) dc
          /\ bi_ok (send_all_trees s lcodes dcodes blcodes)).
Proof.
  intros s lcodes dcodes blcodes Hok Hl Hd Hb Hll Hlg Hdl Hdg Hbl.
  destruct (send_tree_spec (dyn_ltree s) (lcodes - 1))
    as (lc & Hrl & Hel & Hsl).
  { lia. }
  { intros n Hn. apply Hll. lia. }
  { replace (lcodes - 1 + 1) with lcodes by lia. exact Hlg. }
  destruct (send_tree_spec (dyn_dtree s) (dcodes - 1))
    as (dc & Hrd & Hed & Hsd).
  { lia. }
  { intros n Hn. apply Hdl. lia. }
  { replace (dcodes - 1 + 1) with dcodes by lia. exact Hdg. }
  replace (lcodes - 1 + 1) with lcodes in Hel by lia.
  replace (dcodes - 1 + 1) with dcodes in Hed by lia.
  exists lc, dc.
  split; [exact Hrl |]. split; [exact Hrd |].
  split; [exact Hel |]. split; [exact Hed |].
  intros Hs. apply send_all_trees_spec; assumption.
Qed.

(** A state for a header: the literal 0 and the end of block have the
    length 1, no distance has a length, the lengths 0xffff that
    [scan_tree] puts stand after the literal 256 and after the distance 0,
    and each of the 19 symbols of the bit-length alphabet has a code of 5
    bits. *)
Definition state_header : deflate_state :=
  set_bl_tree
    (set_dyn_dtree
       (set_dyn_ltree state0
          (fun n =>
             Ct_data 0
               (if n =? 257 then 0xffff
                else if (n =? 0) || (n =? 256) then 1 else 0)))
       (fun n => Ct_data 0 (if n =? 1 then 0xffff else 0)))
    (fun n =>
       if (0 <=? n) && (n <? BL_CODES) then Ct_data n 5 else Ct_data 0 0).

Lemma send_all_trees_format_witness :
  exists lc dc,
    Forall rl_ok lc /\ Forall rl_ok dc
    /\ expand (-1) lc
       = map (fun n => Len (dyn_ltree state_header n))
           (Zseq 0 (Z.to_nat 257))
    /\ expand (-1) dc
       = map (fun n => Len (dyn_dtree state_header n)) (Zseq 0 (Z.to_nat 1))
    /\ stream (send_all_trees state_header 257 1 4)
       = stream state_header
         ++ bits_of 5 (257 - 257) ++ bits_of 5 (1 - 1) ++ bits_of 4 (4 - 4)
         ++ flat_map
              (fun rank =>
                 bits_of 3 (Len (bl_tree state_header (at_ bl_order rank))))
              (Zseq 0 (Z.to_nat 4))
         ++ flat_map (rl_bits (bl_tree state_header)) lc
         ++ flat_map (rl_bits (bl_tree state_header)) dc
    /\ bi_ok (send_all_trees state_header 257 1 4).
Proof.
  destruct (send_all_trees_format state_header 257 1 4)
    as (lc & dc & R1 & R2 & E1 & E2 & Hs).
  - exact bi_ok_state0.
  - vm_compute. split; discriminate.
  - vm_compute. split; discriminate.
  - vm_compute. split; discriminate.
  - intros n Hn.
    change (0 <= (if n =? 257 then 0xffff
                  else if (n =? 0) || (n =? 256) then 1 else 0) <= MAX_BITS).
    destruct (Z.eqb_spec n 257); [lia |].
    destruct ((n =? 0) || (n =? 256)); unfold MAX_BITS; lia.
  - vm_compute. intros [_ H]. apply H. reflexivity.
  - intros n Hn.
    change (0 <= (if n =? 1 then 0xffff else 0) <= MAX_BITS).
    destruct (Z.eqb_spec n 1); [lia | unfold MAX_BITS; lia].
  - vm_compute. intros [_ H]. apply H. reflexivity.
  - intros rank Hr. unfold Len.
    change (bl_tree state_header (at_ bl_order rank))
      with (if (0 <=? at_ bl_order rank) && (at_ bl_order rank <? BL_CODES)
            then Ct_data (at_ bl_order rank) 5 else Ct_data 0 0).
    destruct ((0 <=? at_ bl_order rank) && (at_ bl_order rank <? BL_CODES));
      cbn [dl]; unfold MAX_BL_BITS; lia.
  - exists lc, dc.
    split; [exact R1 |]. split; [exact R2 |].
    split; [exact E1 |]. split; [exact E2 |].
    apply Hs. intros x Hx.
    assert (Hr : rl_ok x).
    { apply in_app_or in Hx. destruct Hx as [Hx | Hx];
        [exact (proj1 (Forall_forall _ _) R1 x Hx)
        | exact (proj1 (Forall_forall _ _) R2 x Hx)]. }
    destruct Hr as [[H0 H1] _].
    unfold sendable, Len, Code.
    change (bl_tree state_header (fst x))
      with (if (0 <=? fst x) && (fst x <? BL_CODES)
            then Ct_data (fst x) 5 else Ct_data 0 0).
    destruct (Z.leb_spec 0 (fst x)) as [_ | ?]; [| lia].
    destruct (Z.ltb_spec (fst x) BL_CODES) as [_ | ?]; [| lia].
    cbn [andb dl fc]. unfold MAX_BITS, BL_CODES in *. lia.
Defined.
(** *** The order of the heap: pqdownheap *)

(** The heap order from the index [lo] on: every entry at [lo] or after
    is [smaller] than its two sons, at twice its index and one more. *)
Definition heap_ok (tree : Z -> ct_data) (depth : Z -> Z) (h : Z -> Z)
    (lo len : Z) : Prop :=
  forall i c,
    lo <= i -> c = 2 * i \/ c = 2 * i + 1 -> c <= len ->
    smaller tree (h i) (h c) depth = true.

Lemma smaller_refl tree depth a : smaller tree a a depth = true.
Proof.
  unfold smaller. rewrite Z.eqb_refl, Z.leb_refl. apply orb_true_r.
Qed.

Lemma smaller_total tree depth a b :
  smaller tree a b depth = false -> smaller tree b a depth = true.
Proof.
  unfold smaller. intros H. apply orb_false_iff in H. destruct H as [H1 H2].
  apply Z.ltb_ge in H1.
  destruct (Z.ltb_spec (Freq (tree b)) (Freq (tree a))) as [| H3];
    [reflexivity |].
  cbn [orb]. assert (E : Freq (tree a) = Freq (tree b)) by lia.
  rewrite E, Z.eqb_refl in H2 |- *. cbn [andb] in *.
  apply Z.leb_gt in H2. apply Z.leb_le. lia.
Qed.

Lemma smaller_trans tree depth a b c :
  smaller tree a b depth = true -> smaller tree b c depth = true ->
  smaller tree a c depth = true.
Proof.
  unfold smaller. intros H1 H2.
  apply orb_true_iff in H1. apply orb_true_iff in H2. apply orb_true_iff.
  rewrite !andb_true_iff, !Z.ltb_lt, !Z.eqb_eq, !Z.leb_le in *. lia.
Qed.

Lemma shiftl_1 k : Z.shiftl k 1 = 2 * k.
Proof. rewrite Z.shiftl_mul_pow2 by lia. change (2 ^ 1) with 2. lia. Qed.

(** The loop of [pqdownheap] with the hole at [k], where [v] is to go:
    the order holds but at the hole, and the father of the hole is
    smaller than [v] and than the sons of the hole. *)
Lemma pqdownheap_loop_order tree v lo :
  forall fuel s k s' k',
    1 <= lo <= k ->
    pqdownheap_loop fuel s tree v k (Z.shiftl k 1) = Some (s', k') ->
    (forall i c,
       lo <= i -> i <> k -> c = 2 * i \/ c = 2 * i + 1 -> c <= heap_len s ->
       c <> k -> smaller tree (heap s i) (heap s c) (depth s) = true) ->
    (forall p,
       lo <= p -> k = 2 * p \/ k = 2 * p + 1 ->
       smaller tree (heap s p) v (depth s) = true
       /\ forall c, c = 2 * k \/ c = 2 * k + 1 -> c <= heap_len s ->
                    smaller tree (heap s p) (heap s c) (depth s) = true) ->
    heap_ok tree (depth s) (upd (heap s') k' v) lo (heap_len s).
Proof.
  induction fuel as [| fuel IH]; intros s k s' k' Hk E I1 I2;
    [discriminate |].
  cbn [pqdownheap_loop] in E. rewrite shiftl_1 in E.
  assert (Hfill : (forall c, c = 2 * k \/ c = 2 * k + 1 -> c <= heap_len s ->
                     smaller tree v (heap s c) (depth s) = true) ->
                  heap_ok tree (depth s) (upd (heap s) k v) lo (heap_len s)).
  { intros Hv i c Hi Hc Hcl.
    destruct (Z.eq_dec i k) as [-> | Hik].
    - rewrite upd_same, upd_other by lia. apply Hv; assumption.
    - rewrite (upd_other _ _ i) by exact Hik.
      destruct (Z.eq_dec c k) as [-> | Hck].
      + rewrite upd_same. apply (I2 i Hi Hc).
      + rewrite upd_other by exact Hck. apply I1; assumption. }
  destruct (Z.leb_spec (2 * k) (heap_len s)) as [Hjl | Hjl].
  - set (j := if (2 * k <? heap_len s)
                 && smaller tree (heap s (2 * k + 1)) (heap s (2 * k))
                      (depth s)
              then 2 * k + 1 else 2 * k) in *.
    assert (Hj : (j = 2 * k \/ j = 2 * k + 1) /\ j <= heap_len s
                 /\ forall c, c = 2 * k \/ c = 2 * k + 1 -> c <= heap_len s ->
                      smaller tree (heap s j) (heap s c) (depth s) = true).
    { unfold j. destruct (Z.ltb_spec (2 * k) (heap_len s)) as [Hlt | Hge];
        cbn [andb].
      - destruct (smaller tree (heap s (2 * k + 1)) (heap s (2 * k)) (depth s))
          eqn:Es.
        + split; [right; reflexivity |]. split; [lia |].
          intros c [-> | ->] _; [exact Es | apply smaller_refl].
        + split; [left; reflexivity |]. split; [lia |].
          intros c [-> | ->] _;
            [apply smaller_refl | apply smaller_total; exact Es].
      - split; [left; reflexivity |]. split; [lia |].
        intros c [-> | ->] Hc; [apply smaller_refl | lia]. }
    destruct Hj as (Hjc & Hjlen & Hjmin).
    destruct (smaller tree v (heap s j) (depth s)) eqn:Ev.
    + injection E as <- <-. apply Hfill. intros c Hc Hcl.
      apply (smaller_trans _ _ _ (heap s j)); [exact Ev |].
      apply Hjmin; assumption.
    + apply smaller_total in Ev.
      apply (IH (set_heap s (upd (heap s) k (heap s j))) j s' k') in E.
      * fields_in E. exact E.
      * lia.
      * fields. intros i c Hi Hij Hc Hcl Hcj.
        destruct (Z.eq_dec i k) as [-> | Hik].
        -- rewrite upd_same, upd_other by lia. apply Hjmin; assumption.
        -- rewrite (upd_other _ _ i) by exact Hik.
           destruct (Z.eq_dec c k) as [-> | Hck].
           ++ rewrite upd_same. apply (I2 i Hi Hc); assumption.
           ++ rewrite upd_other by exact Hck. apply I1; assumption.
      * fields. intros p Hp Hjp.
        assert (p = k) by lia. subst p. rewrite upd_same.
        split; [exact Ev |].
        intros c Hc Hcl. rewrite upd_other by lia.
        apply I1; try assumption; lia.
  - injection E as <- <-. apply Hfill. intros c Hc Hcl. lia.
Qed.

(** The order after [pqdownheap], when it returns. *)
Lemma pqdownheap_order fuel s tree k s' :
  1 <= k ->
  pqdownheap fuel s tree k = Some s' ->
  heap_ok tree (depth s) (heap s) (k + 1) (heap_len s) ->
  heap_ok tree (depth s) (heap s') k (heap_len s).
Proof.
  intros Hk E Hok. unfold pqdownheap in E.
  destruct (pqdownheap_loop fuel s tree (heap s k) k (Z.shiftl k 1))
    as [[s1 k1] |] eqn:E1; [| discriminate].
  injection E as <-. fields.
  apply (pqdownheap_loop_order tree (heap s k) k fuel s k s1 k1);
    [lia | exact E1 | |].
  - intros i c Hi Hik Hc Hcl _. apply Hok; [lia | exact Hc | exact Hcl].
  - intros p Hp' Hkp. lia.
Qed.

(** X25.  [pqdownheap] restores the heap order: when the order holds
    after the index [k], then after [pqdownheap(s, tree, k)] it holds from
    [k] on; the entries [1 .. heap_len] of the heap are the same, in
    another order, and nothing else has changed. *)
Theorem pqdownheap_restores_order :
  forall (fuel : nat) (s : deflate_state) (tree : Z -> ct_data) (k : Z),
    1 <= k <= heap_len s -> (Z.to_nat (heap_len s) + 1 <= fuel)%nat ->
    heap_ok tree (depth s) (heap s) (k + 1) (heap_len s) ->
    exists s',
      pqdownheap fuel s tree k = Some s'
      /\ heap_ok tree (depth s') (heap s') k (heap_len s')
      /\ Permutation (zone (heap s') 1 (Z.to_nat (heap_len s)))
                     (zone (heap s) 1 (Z.to_nat (heap_len s)))
      /\ (forall i, ~ 1 <= i <= heap_len s -> heap s' i = heap s i)
      /\ unheap s' = unheap s.
Proof.
  intros fuel s tree k Hk Hf Hok.
  destruct (pqdownheap_spec fuel s tree k Hk Hf) as (s' & E & Hu & Hp & Ho).
  exists s'. split; [exact E |].
  split; [| split; [exact Hp | split; [exact Ho | exact Hu]]].
  assert (Hd : depth s' = depth s) by exact (f_equal depth Hu).
  rewrite Hd, (unheap_heap_len _ _ Hu).
  apply (pqdownheap_order fuel s tree k s'); [lia | exact E | exact Hok].
Qed.

(** A heap of three nodes in the order 7, 3, 5 of their frequencies. *)
Definition state_heap3 : deflate_state :=
  set_heap_len
    (set_heap
       (set_dyn_dtree state0
          (fun n => Ct_data (if n =? 0 then 7 else if n =? 1 then 3 else 5) 0))
       (fun i => i - 1))
    3.

Lemma pqdownheap_restores_order_witness :
  exists s',
    pqdownheap 4 state_heap3 (dyn_dtree state_heap3) 1 = Some s'
    /\ heap_ok (dyn_dtree state_heap3) (depth s') (heap s') 1 (heap_len s')
    /\ Permutation (zone (heap s') 1 (Z.to_nat (heap_len state_heap3)))
                   (zone (heap state_heap3) 1
                      (Z.to_nat (heap_len state_heap3)))
    /\ (forall i, ~ 1 <= i <= heap_len state_heap3 ->
          heap s' i = heap state_heap3 i)
    /\ unheap s' = unheap state_heap3.
Proof.
  apply (pqdownheap_restores_order 4 state_heap3 (dyn_dtree state_heap3) 1).
  - vm_compute. split; discriminate.
  - vm_compute. lia.
  - intros i c Hi Hc Hcl. change (heap_len state_heap3) with 3 in Hcl. lia.
Defined.

(** *** The heap of build_tree *)

(** In a heap the first entry is the smallest. *)
Lemma heap_root_least tree depth h len :
  heap_ok tree depth h 1 len ->
  forall i, 1 <= i <= len -> smaller tree (h 1) (h i) depth = true.
Proof.
  intros Hok.
  assert (H : forall n : nat, forall i, 1 <= i <= len -> i <= Z.of_nat n ->
            smaller tree (h 1) (h i) depth = true).
  { induction n as [| n IH]; intros i Hi Hn; [lia |].
    destruct (Z.eq_dec i 1) as [-> | H1]; [apply smaller_refl |].
    pose proof (Z.div_mod i 2 ltac:(lia)) as Hd.
    pose proof (Z.mod_pos_bound i 2 ltac:(lia)) as Hm.
    apply (smaller_trans _ _ _ (h (i / 2))).
    - apply IH; lia.
    - apply Hok; lia. }
  intros i Hi. apply (H (Z.to_nat i)); lia.
Qed.

(** The rounds of [for (n = s->heap_len / 2; n >= 1; n--)
    pqdownheap(s, tree, n)]. *)
Lemma build_tree_heapify_rounds_order fuel desc :
  forall rounds n s,
    Z.of_nat rounds <= n <= heap_len s ->
    (Z.to_nat (heap_len s) + 1 <= fuel)%nat ->
    heap_ok (dyn_tree s desc) (depth s) (heap s) (n + 1) (heap_len s) ->
    exists s',
      for_down_opt rounds n
        (fun n s => pqdownheap fuel s (dyn_tree s desc) n) s = Some s'
      /\ unheap s' = unheap s
      /\ heap_ok (dyn_tree s desc) (depth s) (heap s')
           (n - Z.of_nat rounds + 1) (heap_len s).
Proof.
  induction rounds as [| rounds IH]; intros n s Hn Hf Hok.
  - exists s. cbn [for_down_opt]. split; [reflexivity |].
    split; [reflexivity |]. rewrite Z.sub_0_r. exact Hok.
  - cbn [for_down_opt].
    destruct (pqdownheap_spec fuel s (dyn_tree s desc) n)
      as (s1 & E1 & Hu1 & _); [lia | exact Hf |].
    rewrite E1.
    pose proof (pqdownheap_order fuel s (dyn_tree s desc) n s1 ltac:(lia) E1
                  Hok) as Hok1.
    pose proof (unheap_heap_len _ _ Hu1) as Hl1.
    pose proof (unheap_dyn_tree desc _ _ Hu1) as Ht1.
    assert (Hd1 : depth s1 = depth s) by exact (f_equal depth Hu1).
    destruct (IH (n - 1) s1) as (s2 & E2 & Hu2 & Hok2).
    + lia.
    + rewrite Hl1. exact Hf.
    + rewrite Ht1, Hd1, Hl1. replace (n - 1 + 1) with n by lia. exact Hok1.
    + exists s2. split; [exact E2 |].
      split; [rewrite Hu2; exact Hu1 |].
      rewrite Ht1, Hd1, Hl1 in Hok2.
      replace (n - Z.of_nat (S rounds) + 1)
        with (n - 1 - Z.of_nat rounds + 1) by lia.
      exact Hok2.
Qed.

(** X26.  The loop of [build_tree] that calls [pqdownheap] from
    [heap_len / 2] down to 1 makes a heap of the entries [1 .. heap_len]:
    the order holds from the first index on, the first entry, at
    [SMALLEST], is smaller than every entry (a lower frequency, or the
    same and a depth not larger), the entries are the same in another
    order and nothing but the heap has changed. *)
Theorem build_tree_heapify_order :
  forall (fuel : nat) (s : deflate_state) (desc : tree_desc),
    0 <= heap_len s -> (Z.to_nat (heap_len s) + 1 <= fuel)%nat ->
    exists s',
      build_tree_heapify fuel s desc = Some s'
      /\ unheap s' = unheap s
      /\ heap_ok (dyn_tree s desc) (depth s) (heap s') 1 (heap_len s)
      /\ (forall i, 1 <= i <= heap_len s ->
            smaller (dyn_tree s desc) (heap s' SMALLEST) (heap s' i) (depth s)
            = true)
      /\ Permutation (zone (heap s') 1 (Z.to_nat (heap_len s)))
                     (zone (heap s) 1 (Z.to_nat (heap_len s))).
Proof.
  intros fuel s desc H0 Hf.
  assert (Hh : 0 <= heap_len s / 2 <= heap_len s).
  { split; [apply Z.div_pos; lia |].
    apply Z.div_le_upper_bound; lia. }
  pose proof (Z.div_mod (heap_len s) 2 ltac:(lia)) as Hd.
  pose proof (Z.mod_pos_bound (heap_len s) 2 ltac:(lia)) as Hm.
  destruct (build_tree_heapify_rounds_order fuel desc
              (Z.to_nat (heap_len s / 2)) (heap_len s / 2) s)
    as (s' & E & Hu & Hok).
  - lia.
  - exact Hf.
  - intros i c Hi Hc Hcl. lia.
  - destruct (build_tree_heapify_spec fuel s desc H0 Hf)
      as (s2 & E2 & _ & Hp & _).
    unfold build_tree_heapify in E2 |- *. rewrite E in E2 |- *.
    injection E2 as <-.
    replace (heap_len s / 2 - Z.of_nat (Z.to_nat (heap_len s / 2)) + 1)
      with 1 in Hok by lia.
    exists s'. split; [reflexivity |]. split; [exact Hu |].
    split; [exact Hok |]. split; [| exact Hp].
    apply heap_root_least. exact Hok.
Qed.

Lemma build_tree_heapify_order_witness :
  exists s',
    build_tree_heapify 4 state_heap3 D_DESC = Some s'
    /\ unheap s' = unheap state_heap3
    /\ heap_ok (dyn_tree state_heap3 D_DESC) (depth state_heap3) (heap s') 1
         (heap_len state_heap3)
    /\ (forall i, 1 <= i <= heap_len state_heap3 ->
          smaller (dyn_tree state_heap3 D_DESC) (heap s' SMALLEST) (heap s' i)
            (depth state_heap3) = true)
    /\ Permutation (zone (heap s') 1 (Z.to_nat (heap_len state_heap3)))
                   (zone (heap state_heap3) 1
                      (Z.to_nat (heap_len state_heap3))).
Proof.
  apply (build_tree_heapify_order 4 state_heap3 D_DESC).
  - vm_compute. discriminate.
  - vm_compute. lia.
Defined.
(** *** The header of a dynamic block, from build_bl_tree on *)

(** The leaves of a tree that [build_tree] has built have codes that can be
    sent. *)
Lemma built_sendable desc s s' L0 n :
  built desc s s' L0 -> In n L0 -> sendable (dyn_tree s' desc) n.
Proof.
  intros (Ho & Hnd & H2 & Hr & Hmc & Hfreq & Hlen & Hzero & Hk
          & Hblc & t6 & Ht & Hl6) Hn.
  cbv zeta in *.
  pose proof (max_length_range desc) as [HML _]. unfold MAX_BITS in *.
  pose proof (elems_range desc) as HE.
  set (mc := max_code s' desc) in *.
  set (ML := max_length (stat_desc desc)) in *.
  assert (Hm : exists m, In m L0 /\ n <> m).
  { destruct L0 as [| a [| b L]]; cbn [length] in H2; try lia.
    destruct (Z.eq_dec n a) as [-> | Hna].
    - exists b. split; [right; left; reflexivity |].
      inversion Hnd as [| ? ? Hnin _]. intros ->. apply Hnin. left.
      reflexivity.
    - exists a. split; [left; reflexivity | exact Hna]. }
  destruct Hm as (m & Hm & Hne).
  assert (G : sendable (gen_codes t6 mc (bl_count s')) n
              /\ ~ is_prefix (code_bits (gen_codes t6 mc (bl_count s')) n)
                     (code_bits (gen_codes t6 mc (bl_count s')) m)).
  { apply (prefix_code_of_leaves t6 mc (bl_count s') L0).
    - exact Hnd.
    - lia.
    - exact Hr.
    - intros x Hx. rewrite Hl6. apply Hlen in Hx. lia.
    - intros x Hx Hnin. rewrite Hl6. apply Hzero; [lia | exact Hnin].
    - intros b Hb. rewrite Hblc by exact Hb. apply countf_ext.
      intros x _. rewrite Hl6. reflexivity.
    - rewrite (sumf_ext _ (fun x => 2 ^ (15 - Len (dyn_tree s' desc x))))
        by (intros x _; rewrite Hl6; reflexivity).
      rewrite (sumf_leaves_pow (fun x => Len (dyn_tree s' desc x)) ML L0);
        [lia | lia | exact Hlen | exact Hk].
    - exact Hn.
    - exact Hm.
    - exact Hne. }
  destruct G as [G _]. unfold sendable in *. rewrite !Ht. exact G.
Qed.

(** Every symbol stands for a length at least. *)
Lemma expand_length codes :
  Forall rl_ok codes ->
  forall prev, (length codes <= length (expand prev codes))%nat.
Proof.
  induction 1 as [| x l [Hx Hv] _ IH]; intros prev; [reflexivity |].
  cbn [expand length]. rewrite length_app.
  specialize (IH (last (rl_lengths prev x) prev)).
  assert (1 <= length (rl_lengths prev x))%nat; [| lia].
  unfold rl_lengths.
  destruct (fst x =? REP_3_6); [rewrite repeat_length; lia |].
  destruct (fst x =? REPZ_3_10); [rewrite repeat_length; lia |].
  destruct (fst x =? REPZ_11_138); [rewrite repeat_length; lia |].
  cbn [length]. lia.
Qed.

(** A length that is not zero is sent as such once at least. *)
Lemma expand_has_literal codes :
  Forall rl_ok codes ->
  forall prev v,
    prev <= 0 -> In v (expand prev codes) -> 1 <= v ->
    exists x, In x codes /\ 1 <= fst x <= MAX_BITS.
Proof.
  induction 1 as [| x l [Hx Hv] _ IH]; intros prev v Hp Hin Hv1;
    [destruct Hin |].
  cbn [expand] in Hin. apply in_app_or in Hin.
  assert (Hout : (1 <= fst x <= MAX_BITS)
                 \/ ((forall w, In w (rl_lengths prev x) -> w <= 0)
                     /\ last (rl_lengths prev x) prev <= 0)).
  { unfold rl_lengths, REP_3_6, REPZ_3_10, REPZ_11_138, MAX_BITS, BL_CODES
      in *.
    destruct (Z.eqb_spec (fst x) 16).
    { right. split.
      - intros w Hw. apply repeat_spec in Hw. lia.
      - rewrite last_repeat by lia. exact Hp. }
    destruct (Z.eqb_spec (fst x) 17).
    { right. split.
      - intros w Hw. apply repeat_spec in Hw. lia.
      - rewrite last_repeat by lia. lia. }
    destruct (Z.eqb_spec (fst x) 18).
    { right. split.
      - intros w Hw. apply repeat_spec in Hw. lia.
      - rewrite last_repeat by lia. lia. }
    destruct (Z.eq_dec (fst x) 0) as [E0 | E0].
    - right. rewrite E0. split; [intros w [<- | []]; lia | cbn [last]; lia].
    - left. lia. }
  destruct Hout as [Hlit | [Hw Hlast]].
  - exists x. split; [left; reflexivity | exact Hlit].
  - destruct Hin as [Hin | Hin]; [apply Hw in Hin; lia |].
    destruct (IH _ v Hlast Hin Hv1) as (y & Hy & Hy1).
    exists y. split; [right; exact Hy | exact Hy1].
Qed.

Lemma bl_order_range rank : 0 <= at_ bl_order rank < BL_CODES.
Proof.
  unfold BL_CODES.
  assert (H : 0 <= at_ bl_order rank <= 18); [| lia].
  apply at_Forall_range; [lia |].
  unfold bl_order. repeat constructor; lia.
Qed.

(** Every length is in [bl_order] after the three repeat symbols. *)
Lemma bl_order_literal c :
  0 <= c <= MAX_BITS ->
  exists rank, 3 <= rank < BL_CODES /\ at_ bl_order rank = c.
Proof.
  intros Hc. unfold MAX_BITS in Hc.
  assert (H : forallb
                (fun c => existsb (fun rank => at_ bl_order rank =? c)
                            (Zseq 3 16))
                (Zseq 0 16) = true) by reflexivity.
  rewrite forallb_forall in H.
  specialize (H c ltac:(apply In_Zseq; lia)).
  apply existsb_exists in H. destruct H as (rank & Hr & E).
  apply In_Zseq in Hr. apply Z.eqb_eq in E.
  exists rank. unfold BL_CODES. split; [lia | exact E].
Qed.

Lemma others_BL_fields s s' :
  others BL_DESC s' = others BL_DESC s ->
  dyn_ltree s' = dyn_ltree s /\ dyn_dtree s' = dyn_dtree s
  /\ l_max_code s' = l_max_code s /\ d_max_code s' = d_max_code s.
Proof.
  intros H. unfold others in H.
  pose proof (f_equal (fun o => snd (fst o)) H) as H1. cbv beta in H1.
  cbn [fst snd] in H1.
  repeat split.
  - exact (f_equal (fun o => fst (fst (fst o))) H1).
  - exact (f_equal (fun o => snd (fst (fst o))) H1).
  - exact (f_equal (fun o => snd (fst o)) H1).
  - exact (f_equal (fun o => snd o) H1).
Qed.

(** X27.  The header of a dynamic block can always be sent.  From a
    state whose bit-length frequencies are zero, as [init_block] leaves
    them, with literal and distance trees of lengths 0 to 15 up to their
    [max_code] and some literal length not zero, [build_bl_tree] returns
    an index [max_blindex] of 3 at least, and the bit-length tree it has
    built has a code for every symbol that [send_tree] sends for the two
    trees: [send_all_trees], called as [_tr_flush_block] calls it from
    any state with these trees, appends the three counts, the
    [max_blindex + 1] lengths of the bit-length codes and the two lists
    of symbols, which stand for the lengths of the two trees. *)
Theorem dynamic_header_sent :
  forall (fuel : nat) (s : deflate_state),
    (573 <= fuel)%nat ->
    256 <= l_max_code s < L_CODES -> 0 <= d_max_code s < D_CODES ->
    (forall n, 0 <= n <= l_max_code s ->
       0 <= Len (dyn_ltree s n) <= MAX_BITS) ->
    (forall n, 0 <= n <= d_max_code s ->
       0 <= Len (dyn_dtree s n) <= MAX_BITS) ->
    (exists n, 0 <= n <= l_max_code s /\ Len (dyn_ltree s n) <> 0) ->
    (forall c, 0 <= c < BL_CODES -> Freq (bl_tree s c) = 0) ->
    exists s1 max_blindex lc dc,
      build_bl_tree fuel s = Some (s1, max_blindex)
      /\ 3 <= max_blindex < BL_CODES
      /\ Forall rl_ok lc /\ Forall rl_ok dc
      /\ expand (-1) lc
         = map (fun n => Len (dyn_ltree s n))
             (Zseq 0 (Z.to_nat (l_max_code s + 1)))
      /\ expand (-1) dc
         = map (fun n => Len (dyn_dtree s n))
             (Zseq 0 (Z.to_nat (d_max_code s + 1)))
      /\ (forall x, In x (lc ++ dc) -> sendable (bl_tree s1) (fst x))
      /\ forall t,
           bi_ok t -> dyn_ltree t = dyn_ltree s1 ->
           dyn_dtree t = dyn_dtree s1 -> bl_tree t = bl_tree s1 ->
           stream (send_all_trees t (l_max_code s + 1) (d_max_code s + 1)
                     (max_blindex + 1))
           = stream t
             ++ bits_of 5 (l_max_code s - 256) ++ bits_of 5 (d_max_code s)
             ++ bits_of 4 (max_blindex - 3)
             ++ flat_map
                  (fun rank =>
                     bits_of 3 (Len (bl_tree s1 (at_ bl_order rank))))
                  (Zseq 0 (Z.to_nat (max_blindex + 1)))
             ++ flat_map (rl_bits (bl_tree s1)) lc
             ++ flat_map (rl_bits (bl_tree s1)) dc
           /\ bi_ok (send_all_trees t (l_max_code s + 1) (d_max_code s + 1)
                       (max_blindex + 1)).
Proof.
  intros fuel s Hfuel Hlm Hdm Hll Hdl (n0 & Hn0 & Hn0l) HF0.
  unfold L_CODES, LITERALS, LENGTH_CODES, D_CODES in Hlm, Hdm.
  (* the literal tree *)
  destruct (scan_tree_codes s L_DESC (l_max_code s) ltac:(discriminate)
              ltac:(lia) Hll)
    as (lc & Hrl & Hel & Hfl & Hol & Etl & Hsl).
  cbv zeta in Hol, Etl, Hsl.
  set (gl := upd (dyn_tree s L_DESC) (l_max_code s + 1)
               (set_Len (dyn_tree s L_DESC (l_max_code s + 1)) 0xffff)) in *.
  set (s1 := scan_tree s L_DESC (l_max_code s)) in *.
  destruct (others_BL_fields _ _ Hol) as (_ & T1d & _ & T1m).
  change (dyn_dtree (set_dyn_tree s L_DESC gl)) with (dyn_dtree s) in T1d.
  change (d_max_code (set_dyn_tree s L_DESC gl)) with (d_max_code s) in T1m.
  change (dyn_tree s1 L_DESC) with (dyn_ltree s1) in Etl.
  (* the distance tree *)
  destruct (scan_tree_codes s1 D_DESC (d_max_code s1) ltac:(discriminate)
              ltac:(lia))
    as (dc & Hrd & Hed & Hfd & Hod & Etd & Hsd).
  { intros n Hn. change (dyn_tree s1 D_DESC) with (dyn_dtree s1).
    rewrite T1d. apply Hdl. lia. }
  cbv zeta in Hod, Etd, Hsd.
  change (dyn_tree s1 D_DESC) with (dyn_dtree s1) in *.
  rewrite T1m, T1d in *.
  set (gd := upd (dyn_dtree s) (d_max_code s + 1)
               (set_Len (dyn_dtree s (d_max_code s + 1)) 0xffff)) in *.
  set (s2 := scan_tree s1 D_DESC (d_max_code s)) in *.
  destruct (others_BL_fields _ _ Hod) as (T2l & _ & _ & _).
  change (dyn_ltree (set_dyn_tree s1 D_DESC gd)) with (dyn_ltree s1) in T2l.
  change (dyn_tree s2 D_DESC) with (dyn_dtree s2) in Etd.
  (* the frequencies of the symbols sent *)
  pose proof (expand_length lc Hrl (-1)) as Hlenl.
  pose proof (expand_length dc Hrd (-1)) as Hlend.
  rewrite Hel, length_map, length_Zseq in Hlenl.
  rewrite Hed, length_map, length_Zseq in Hlend.
  assert (Hfreq : forall c, 0 <= c < BL_CODES ->
            Freq (bl_tree s2 c)
            = countf (fun x => fst x =? c) lc
              + countf (fun x => fst x =? c) dc).
  { intros c Hc.
    pose proof (countf_nonneg (fun x => fst x =? c) lc).
    pose proof (countf_le_length (fun x => fst x =? c) lc).
    pose proof (countf_nonneg (fun x => fst x =? c) dc).
    pose proof (countf_le_length (fun x => fst x =? c) dc).
    assert (E1 : Freq (bl_tree s1 c) = countf (fun x => fst x =? c) lc).
    { rewrite Hfl by (rewrite HF0 by exact Hc; lia).
      rewrite HF0 by exact Hc. apply ush_small_16. lia. }
    rewrite Hfd by (rewrite E1; lia).
    rewrite E1. apply ush_small_16. lia. }
  assert (Hused : forall x, In x (lc ++ dc) ->
            0 <= fst x < BL_CODES /\ Freq (bl_tree s2 (fst x)) <> 0).
  { intros x Hx.
    assert (Hr : rl_ok x).
    { apply in_app_or in Hx. rewrite Forall_forall in Hrl, Hrd.
      destruct Hx as [Hx | Hx]; [apply Hrl | apply Hrd]; exact Hx. }
    destruct Hr as [Hr _]. split; [exact Hr |].
    rewrite Hfreq by exact Hr.
    pose proof (countf_nonneg (fun y => fst y =? fst x) lc).
    pose proof (countf_nonneg (fun y => fst y =? fst x) dc).
    assert (1 <= countf (fun y => fst y =? fst x) (lc ++ dc)); [| rewrite
      countf_app in *; lia].
    apply in_split in Hx. destruct Hx as (l1 & l2 & ->).
    rewrite countf_app. unfold countf at 2. cbn [sumf].
    rewrite Z.eqb_refl.
    pose proof (countf_nonneg (fun y => fst y =? fst x) l1).
    pose proof (countf_nonneg (fun y => fst y =? fst x) l2).
    unfold countf in *. lia. }
  (* the bit-length tree *)
  unfold build_bl_tree. cbv zeta. fold s1. rewrite T1m. fold s2.
  destruct (build_tree_spec fuel s2 BL_DESC Hfuel) as (s3 & L0 & E3 & Hb).
  rewrite E3.
  pose proof Hb as (Ho3 & _ & _ & _ & _ & Hin3 & Hlen3 & Hz3 & _).
  cbv zeta in Hin3, Hlen3, Hz3.
  change (elems (stat_desc BL_DESC)) with BL_CODES in Hin3, Hz3.
  change (max_length (stat_desc BL_DESC)) with MAX_BL_BITS in Hlen3.
  change (dyn_tree s3 BL_DESC) with (bl_tree s3) in *.
  change (dyn_tree s2 BL_DESC) with (bl_tree s2) in *.
  destruct (others_BL_fields _ _ Ho3) as (T3l & T3d & _ & _).
  assert (Hsend : forall x, In x (lc ++ dc) -> sendable (bl_tree s3) (fst x)).
  { intros x Hx. destruct (Hused x Hx) as [Hr Hf].
    apply (built_sendable BL_DESC s2 s3 L0 (fst x) Hb).
    apply Hin3; assumption. }
  assert (Hbl : forall c, 0 <= c < BL_CODES ->
            0 <= Len (bl_tree s3 c) <= MAX_BL_BITS).
  { intros c Hc. destruct (in_dec Z.eq_dec c L0) as [Hi | Hi].
    - apply Hlen3 in Hi. lia.
    - rewrite Hz3 by assumption. unfold MAX_BL_BITS. lia. }
  destruct (build_bl_tree_index_spec s3 (Z.to_nat BL_CODES) (BL_CODES - 1))
    as (R1 & R2 & R3 & R4).
  { unfold BL_CODES. lia. }
  { unfold BL_CODES. lia. }
  { intros rank Hrank. lia. }
  cbv zeta in R1, R2, R3, R4.
  set (mb := build_bl_tree_index (Z.to_nat BL_CODES) s3 (BL_CODES - 1)) in *.
  assert (Hmb : 3 <= mb).
  { destruct (Z.eq_dec mb 2) as [E2 | E2]; [| lia]. exfalso.
    assert (Hv : In (Len (dyn_ltree s n0)) (expand (-1) lc)).
    { rewrite Hel. apply in_map_iff. exists n0. split; [reflexivity |].
      apply In_Zseq. lia. }
    pose proof (Hll n0 Hn0) as Hl0.
    destruct (expand_has_literal lc Hrl (-1) _ ltac:(lia) Hv ltac:(lia))
      as (x & Hx & Hx1).
    destruct (bl_order_literal (fst x) ltac:(lia)) as (rank & Hrank & Er).
    pose proof (R4 E2 rank Hrank) as Hz. rewrite Er in Hz.
    destruct (Hsend x ltac:(apply in_or_app; left; exact Hx)) as [Hs _].
    lia. }
  eexists _, mb, lc, dc.
  split; [reflexivity |]. fields.
  split; [unfold BL_CODES; lia |].
  split; [exact Hrl |]. split; [exact Hrd |].
  split; [exact Hel |]. split; [exact Hed |].
  split; [exact Hsend |].
  intros t Hok Tl Td Tb. rewrite <- Tb.
  replace (l_max_code s - 256) with (l_max_code s + 1 - 257) by lia.
  replace (d_max_code s) with (d_max_code s + 1 - 1) at 2 by lia.
  replace (mb - 3) with (mb + 1 - 4) by lia.
  apply send_all_trees_spec.
  - exact Hok.
  - unfold L_CODES, LITERALS, LENGTH_CODES. lia.
  - unfold D_CODES. lia.
  - unfold BL_CODES. lia.
  - intros rank Hr. rewrite Tb. apply Hbl. apply bl_order_range.
  - rewrite Tl, T3l, T2l, Etl.
    replace (l_max_code s + 1 - 1) with (l_max_code s) by lia. exact Hsl.
  - rewrite Td, T3d, Etd.
    replace (d_max_code s + 1 - 1) with (d_max_code s) by lia. exact Hsd.
  - intros x Hx. rewrite Tb. apply Hsend, Hx.
Qed.

(** A block with the end-of-block symbol alone, of the length 1. *)
Definition state_block : deflate_state :=
  set_l_max_code
    (set_dyn_ltree state0 (fun n => Ct_data 0 (if n =? 256 then 1 else 0)))
    256.

Lemma dynamic_header_sent_witness :
  exists s1 max_blindex lc dc,
    build_bl_tree 573 state_block = Some (s1, max_blindex)
    /\ 3 <= max_blindex < BL_CODES
    /\ expand (-1) lc
       = map (fun n => Len (dyn_ltree state_block n))
           (Zseq 0 (Z.to_nat (l_max_code state_block + 1)))
    /\ (forall x, In x (lc ++ dc) -> sendable (bl_tree s1) (fst x)).
Proof.
  destruct (dynamic_header_sent 573 state_block)
    as (s1 & mb & lc & dc & E & Hmb & _ & _ & Hel & _ & Hs & _).
  - lia.
  - vm_compute. split; [discriminate | reflexivity].
  - vm_compute. split; [discriminate | reflexivity].
  - intros n Hn.
    change (0 <= (if n =? 256 then 1 else 0) <= MAX_BITS).
    destruct (n =? 256); unfold MAX_BITS; lia.
  - intros n Hn. vm_compute. split; discriminate.
  - exists 256. split; [vm_compute; split; discriminate |].
    vm_compute. discriminate.
  - intros c Hc. reflexivity.
  - exists s1, mb, lc, dc.
    split; [exact E |]. split; [exact Hmb |]. split; [exact Hel | exact Hs].
Defined.
(** *** The cost of a block: opt_len *)

(** The extra bits of the symbol [n] of a tree:
    [xbits = 0; if (n >= base) xbits = extra[n - base]]. *)
Definition xbits (desc : tree_desc) (n : Z) : Z :=
  if n >=? extra_base (stat_desc desc)
  then at_ (extra_bits (stat_desc desc)) (n - extra_base (stat_desc desc))
  else 0.

(** The bits that the symbols [L] take, the symbol [x] occurring [F x]
    times, with the lengths of [t]. *)
Definition cost (desc : tree_desc) (F : Z -> Z) (t : Z -> ct_data)
    (L : list Z) : Z :=
  sumf (fun x => F x * (dl (t x) + xbits desc x)) L.

Lemma ulg_idem x : ulg (ulg x) = ulg x.
Proof. unfold ulg. apply Z.mod_mod. lia. Qed.

Lemma ulg_add_l a b : ulg (ulg a + b) = ulg (a + b).
Proof. unfold ulg. apply Zplus_mod_idemp_l. Qed.

Lemma ulg_add_r a b : ulg (a + ulg b) = ulg (a + b).
Proof. unfold ulg. apply Zplus_mod_idemp_r. Qed.

Lemma ulg_mul f y : ulg (ulg f * uns y) = ulg (f * y).
Proof. unfold ulg, uns. symmetry. apply Zmult_mod. Qed.

Lemma ulg_cost a f y : ulg (a + ulg f * uns y) = ulg (a + f * y).
Proof. rewrite <- ulg_add_r, ulg_mul, ulg_add_r. reflexivity. Qed.

Lemma ulg_diff a b l f : ulg (a + ulg (ulg b - l) * f) = ulg (a + (b - l) * f).
Proof.
  rewrite <- ulg_add_r. rewrite <- (ulg_add_r a ((b - l) * f)). f_equal.
  f_equal. unfold ulg.
  rewrite Zmult_mod_idemp_l.
  rewrite <- (Zmult_mod_idemp_l (b mod 2 ^ 32 - l)).
  rewrite Zminus_mod_idemp_l, Zmult_mod_idemp_l. reflexivity.
Qed.

(** The body of the first loop of [gen_bitlen] and [opt_len]. *)
Lemma count_node_opt desc mc n tree blc ol sl ov :
  let ML := max_length (stat_desc desc) in
  let p := dl (tree (dl (tree n))) in
  let bits := Z.min (p + 1) ML in
  exists blc' ol' sl' ov',
    count_node desc mc n (tree, blc, ol, sl, ov)
    = (upd tree n (set_Len (tree n) (ush bits)), blc', ol', sl', ov')
    /\ ulg ol'
       = ulg (ol + if n <=? mc then fc (tree n) * (bits + xbits desc n)
                   else 0)
    /\ (n <= mc -> ulg ol' = ol') /\ (mc < n -> ol' = ol).
Proof.
  cbv zeta. unfold count_node, Len, Dad, Freq, xbits.
  set (ML := max_length (stat_desc desc)).
  set (p := dl (tree (dl (tree n)))).
  assert (Eb : (if p + 1 >? ML then ML else p + 1) = Z.min (p + 1) ML)
    by (destruct (Z.gtb_spec (p + 1) ML); lia).
  destruct (p + 1 >? ML) eqn:Eg; rewrite <- Eb.
  - destruct (Z.gtb_spec n mc) as [Hg | Hg].
    + destruct (Z.leb_spec n mc); [lia |].
      do 4 eexists. split; [reflexivity |]. rewrite Z.add_0_r.
      split; [reflexivity |]. split; [lia | reflexivity].
    + destruct (Z.leb_spec n mc); [| lia].
      do 4 eexists. split; [reflexivity |]. split; [| split].
      * rewrite upd_same. unfold set_Len. cbn [fc].
        rewrite ulg_idem. apply ulg_cost.
      * intros _. apply ulg_idem.
      * lia.
  - destruct (Z.gtb_spec n mc) as [Hg | Hg].
    + destruct (Z.leb_spec n mc); [lia |].
      do 4 eexists. split; [reflexivity |]. rewrite Z.add_0_r.
      split; [reflexivity |]. split; [lia | reflexivity].
    + destruct (Z.leb_spec n mc); [| lia].
      do 4 eexists. split; [reflexivity |]. split; [| split].
      * rewrite upd_same. unfold set_Len. cbn [fc].
        rewrite ulg_idem. apply ulg_cost.
      * intros _. apply ulg_idem.
      * lia.
Qed.

Lemma tuple5 {A B C D E} (a a' : A) (b b' : B) (c c' : C) (d d' : D)
    (e e' : E) :
  (a, b, c, d, e) = (a', b', c', d', e') ->
  a = a' /\ b = b' /\ c = c' /\ d = d' /\ e = e'.
Proof. intros H. inversion H. repeat split. Qed.

(** The first loop of [gen_bitlen]: [opt_len] grows by the bits of the
    leaves. *)
Lemma gen_bitlen_count_opt desc s treeR root rest lo blc ol sl :
  zone (heap s) lo (length rest) = rest ->
  NoDup (root :: rest) ->
  dads_ok (fun x => dl (treeR x)) [root] rest ->
  dl (treeR root) = 0 ->
  Z.of_nat (length rest) < 1000 ->
  (forall b, 0 <= b <= MAX_BITS -> blc b = 0) ->
  forall c, (c <= length rest)%nat ->
    forall tree blc' ol' sl' ov',
      for_up c lo (gen_bitlen_count s desc) (treeR, blc, ol, sl, 0)
      = (tree, blc', ol', sl', ov') ->
      (forall y, fc (tree y) = fc (treeR y))
      /\ ulg ol'
         = ulg (ol
                + sumf (fun x => if x <=? max_code s desc
                                 then fc (treeR x)
                                      * (dl (tree x) + xbits desc x)
                                 else 0)
                    (zone (heap s) lo c))
      /\ ((exists x, In x (zone (heap s) lo c) /\ x <= max_code s desc) ->
          ulg ol' = ol').
Proof.
  intros Hz Hnd Hok Hroot Hlen Hblc.
  pose proof (gen_bitlen_count_loop desc s treeR root rest lo blc ol sl Hz Hnd
                Hok Hroot Hlen Hblc) as Hcount.
  apply NoDup_cons_iff in Hnd. destruct Hnd as [Hnr Hnd].
  pose proof (max_length_range desc) as [HML _]. unfold MAX_BITS in HML.
  set (mc := max_code s desc) in *.
  induction c as [| c IH]; intros Hc tree' blc' ol' sl' ov' E.
  - cbn [for_up] in E. apply tuple5 in E.
    destruct E as (<- & _ & <- & _ & _). cbn [zone Zseq map sumf].
    split; [reflexivity |]. split; [rewrite Z.add_0_r; reflexivity |].
    intros (x & [] & _).
  - rewrite for_up_S_end, gen_bitlen_count_node in E. fold mc in E.
    specialize (Hcount c ltac:(lia)).
    destruct (for_up c lo (gen_bitlen_count s desc) (treeR, blc, ol, sl, 0))
      as [[[[t b] o] sl0] ov0].
    specialize (IH ltac:(lia) t b o sl0 ov0 eq_refl).
    destruct IH as (Hfc & Ho & Hno).
    destruct Hcount as (H1 & H2 & _).
    pose proof (zone_split (heap s) lo (length rest) c ltac:(lia)) as Hs.
    rewrite Hz in Hs.
    rewrite zone_snoc.
    set (P := zone (heap s) lo c) in *.
    set (x := heap s (lo + Z.of_nat c)) in *.
    assert (HP : forall y, In y P -> In y rest)
      by (intros y Hy; rewrite Hs; apply in_or_app; left; exact Hy).
    assert (Hrp : ~ In root P) by (intros Hin; apply Hnr, HP; exact Hin).
    assert (Hx : ~ In x P).
    { rewrite Hs in Hnd. apply NoDup_remove_2 in Hnd. intros Hin.
      apply Hnd. apply in_or_app. left. exact Hin. }
    assert (Hdx : In (dl (treeR x)) (root :: P)).
    { rewrite Hs in Hok. apply dads_ok_mid in Hok.
      apply in_app_or in Hok.
      destruct Hok as [Hin | [<- | []]];
        [right; exact Hin | left; reflexivity]. }
    assert (Etx : t x = treeR x) by (apply H2; exact Hx).
    assert (Hp : 0 <= dl (t (dl (t x))) <= max_length (stat_desc desc)).
    { rewrite Etx. destruct Hdx as [<- | Hin].
      - rewrite H2 by exact Hrp. rewrite Hroot. lia.
      - apply H1 in Hin. lia. }
    destruct (count_node_opt desc mc x t b o sl0 ov0)
      as (b1 & o1 & s1 & v1 & E1 & Ho1 & Hn1 & Hk1).
    cbv zeta in E1, Ho1.
    set (bits := Z.min (dl (t (dl (t x))) + 1) (max_length (stat_desc desc)))
      in *.
    assert (Hbits : ush bits = bits)
      by (apply ush_small_16; unfold bits; lia).
    rewrite E1 in E. apply tuple5 in E.
    destruct E as (<- & _ & <- & _ & _).
    split.
    { intros y. destruct (Z.eq_dec y x) as [-> | Hne].
      - rewrite upd_same. unfold set_Len. cbn [fc]. apply Hfc.
      - rewrite upd_other by exact Hne. apply Hfc. }
    split.
    { rewrite sumf_app. cbn [sumf]. rewrite upd_same.
      unfold set_Len at 2. cbn [dl]. rewrite Hbits, Z.add_0_r.
      rewrite (sumf_ext _ (fun y => if y <=? mc
                                    then fc (treeR y)
                                         * (dl (t y) + xbits desc y)
                                    else 0) P).
      2:{ intros y Hy. rewrite upd_other; [reflexivity |].
          intros ->. contradiction. }
      rewrite Ho1, <- ulg_add_l, Ho, ulg_add_l, <- (Hfc x).
      f_equal. lia. }
    intros (y & Hy & Hym). apply in_app_or in Hy.
    destruct (Z_le_gt_dec x mc) as [Hxm | Hxm]; [apply Hn1; exact Hxm |].
    destruct Hy as [Hy | [<- | []]]; [| lia].
    rewrite Hk1 by lia. apply Hno. exists y. split; assumption.
Qed.

Lemma sumf_change_one (f f' : Z -> Z) (W : list Z) m :
  NoDup W -> In m W -> (forall y, y <> m -> f' y = f y) ->
  sumf f' W = sumf f W + (f' m - f m).
Proof.
  induction W as [| x W IH]; intros Hnd Hin Hf; [destruct Hin |].
  inversion Hnd as [| ? ? Hx Hnd']; subst. cbn [sumf].
  destruct (Z.eq_dec x m) as [-> | Hne].
  - rewrite (sumf_ext f' f W); [lia |].
    intros y Hy. apply Hf. intros ->. contradiction.
  - destruct Hin as [-> | Hin]; [contradiction |].
    rewrite IH by assumption. rewrite (Hf x Hne). lia.
Qed.

(** The last loop of [gen_bitlen]: [opt_len] follows the lengths. *)
Lemma gen_bitlen_assign_opt desc s mc bits (W : list Z) (F : Z -> Z) :
  NoDup W -> 0 <= bits < 2 ^ 16 ->
  let G := fun t : Z -> ct_data =>
    sumf (fun x => if x <=? mc then F x * (dl (t x) + xbits desc x) else 0)
      W in
  forall fuel n h tree opt h' tree' opt',
    gen_bitlen_assign fuel s mc bits n h tree opt = Some (h', tree', opt') ->
    (forall y, fc (tree y) = F y) ->
    h' <= h
    /\ (forall y, fc (tree' y) = F y)
    /\ (ulg opt = opt -> ulg opt' = opt')
    /\ ((forall i, h' <= i < h -> In (heap s i) W) ->
        ulg opt' = ulg (opt + (G tree' - G tree))).
Proof.
  intros Hnd Hbits G.
  induction fuel as [| fuel IH]; intros n h tree opt h' tree' opt' E HF;
    [discriminate |].
  cbn [gen_bitlen_assign] in E.
  destruct (Z.eqb_spec n 0) as [-> | Hn0].
  { injection E as <- <- <-.
    split; [lia |]. split; [exact HF |]. split; [tauto |].
    intros _. f_equal. lia. }
  destruct (Z.ltb_spec (h - 1) 0) as [| Hh]; [discriminate |].
  set (m := heap s (h - 1)) in *.
  destruct (Z.gtb_spec m mc) as [Hg | Hg].
  { destruct (IH _ _ _ _ _ _ _ E HF) as (Hle & HF' & Hnorm & Hinv).
    split; [lia |]. split; [exact HF' |]. split; [exact Hnorm |].
    intros Hw. apply Hinv. intros i Hi. apply Hw. lia. }
  destruct (negb (uns (Len (tree m)) =? uns bits)).
  - set (tree1 := upd tree m (set_Len (tree m) (ush bits))) in *.
    set (opt1 := ulg (opt + ulg (ulg bits - Len (tree m)) * Freq (tree m)))
      in *.
    assert (HF1 : forall y, fc (tree1 y) = F y).
    { intros y. unfold tree1. destruct (Z.eq_dec y m) as [-> | Hne].
      - rewrite upd_same. unfold set_Len. cbn [fc]. apply HF.
      - rewrite upd_other by exact Hne. apply HF. }
    destruct (IH _ _ _ _ _ _ _ E HF1) as (Hle & HF' & Hnorm & Hinv).
    split; [lia |]. split; [exact HF' |].
    split; [intros _; apply Hnorm; unfold opt1; apply ulg_idem |].
    intros Hw.
    assert (Hm : In m W) by (apply Hw; lia).
    rewrite Hinv by (intros i Hi; apply Hw; lia).
    assert (E1 : G tree1 = G tree + F m * (bits - dl (tree m))).
    { unfold G.
      rewrite (sumf_change_one
                 (fun x => if x <=? mc
                           then F x * (dl (tree x) + xbits desc x) else 0)
                 (fun x => if x <=? mc
                           then F x * (dl (tree1 x) + xbits desc x) else 0)
                 W m Hnd Hm).
      - destruct (Z.leb_spec m mc); [| lia].
        unfold tree1. rewrite upd_same. unfold set_Len. cbn [dl].
        rewrite ush_small_16 by exact Hbits. lia.
      - intros y Hy. unfold tree1. rewrite upd_other by exact Hy.
        reflexivity. }
    rewrite <- ulg_add_l. unfold opt1 at 1. rewrite ulg_idem, ulg_diff.
    rewrite ulg_add_l. f_equal. unfold Len, Freq. rewrite HF, E1. lia.
  - destruct (IH _ _ _ _ _ _ _ E HF) as (Hle & HF' & Hnorm & Hinv).
    split; [lia |]. split; [exact HF' |]. split; [exact Hnorm |].
    intros Hw. apply Hinv. intros i Hi. apply Hw. lia.
Qed.

(** The rounds of the loop, one for each length from [b] down. *)
Lemma gen_bitlen_assign_rounds_opt desc s mc (W : list Z) (F : Z -> Z)
    (blc : Z -> Z) fuel :
  NoDup W ->
  let G := fun t : Z -> ct_data =>
    sumf (fun x => if x <=? mc then F x * (dl (t x) + xbits desc x) else 0)
      W in
  forall rounds b h tree opt h' tree' opt',
    Z.of_nat rounds <= b < 2 ^ 16 ->
    for_down_opt rounds b
      (fun bits '(h, tree, opt_len) =>
         gen_bitlen_assign fuel s mc bits (blc bits) h tree opt_len)
      (h, tree, opt)
    = Some (h', tree', opt') ->
    (forall y, fc (tree y) = F y) ->
    h' <= h
    /\ (forall y, fc (tree' y) = F y)
    /\ (ulg opt = opt -> ulg opt' = opt')
    /\ ((forall i, h' <= i < h -> In (heap s i) W) ->
        ulg opt' = ulg (opt + (G tree' - G tree))).
Proof.
  intros Hnd G.
  induction rounds as [| rounds IH]; intros b h tree opt h' tree' opt' Hb E HF.
  - cbn [for_down_opt] in E. injection E as <- <- <-.
    split; [lia |]. split; [exact HF |]. split; [tauto |].
    intros _. f_equal. lia.
  - cbn [for_down_opt] in E.
    destruct (gen_bitlen_assign fuel s mc b (blc b) h tree opt)
      as [[[h1 tree1] opt1] |] eqn:E1; [| discriminate].
    destruct (gen_bitlen_assign_opt desc s mc b W F Hnd ltac:(lia)
                fuel (blc b) h tree opt h1 tree1 opt1 E1 HF)
      as (Hle1 & HF1 & Hn1 & Hi1).
    destruct (IH (b - 1) h1 tree1 opt1 h' tree' opt' ltac:(lia) E HF1)
      as (Hle & HF' & Hn & Hi).
    split; [lia |]. split; [exact HF' |].
    split; [intros Ho; apply Hn, Hn1, Ho |].
    intros Hw.
    rewrite Hi by (intros i Hi'; apply Hw; lia).
    rewrite <- ulg_add_l, Hi1 by (intros i Hi'; apply Hw; lia).
    rewrite ulg_add_l. f_equal. cbv zeta beta. unfold G. lia.
Qed.

Lemma In_zone {A} (h : Z -> A) lo n i :
  lo <= i < lo + Z.of_nat n -> In (h i) (zone h lo n).
Proof.
  intros Hi. unfold zone. apply in_map. apply In_Zseq. exact Hi.
Qed.

(** [gen_bitlen] adds to [opt_len] the bits that the leaves take with their
    new lengths, and keeps the frequencies. *)
Lemma gen_bitlen_opt desc L0 treeA s k root rest fuel s' :
  let E := elems (stat_desc desc) in
  let ML := max_length (stat_desc desc) in
  let mc := max_code s desc in
  tree_ok desc L0 treeA s k root rest ->
  NoDup L0 -> (forall x, In x L0 -> 0 <= x <= mc) -> mc < E ->
  (1 <= k)%nat -> (573 <= fuel)%nat ->
  gen_bitlen fuel s desc = Some s' ->
  opt_len s'
  = ulg (opt_len s
         + cost desc (fun x => fc (dyn_tree s desc x)) (dyn_tree s' desc) L0)
  /\ forall y, fc (dyn_tree s' desc y) = fc (dyn_tree s desc y).
Proof.
  cbv zeta.
  intros (Hk & Hm & Hz & Hp & Hdad & Hok & Hfr) Hnd HL0 Hmc Hk1 Hfuel EG.
  pose proof (elems_range desc) as HE.
  pose proof (max_length_range desc) as [HML HEML].
  unfold MAX_BITS in HML.
  set (E := elems (stat_desc desc)) in *.
  set (ML := max_length (stat_desc desc)) in *.
  set (mc := max_code s desc) in *.
  change HEAP_SIZE with 573 in Hm.
  assert (HLE : forall x, In x L0 -> 0 <= x < E)
    by (intros x Hx; apply HL0 in Hx; lia).
  pose proof (length_leaves L0 E Hnd HLE) as HlenL.
  replace (2 * k + 1)%nat with (S (2 * k)) in Hz by lia.
  rewrite zone_cons in Hz. injection Hz as Hroot Hrest.
  assert (Hlr : length rest = (2 * k)%nat)
    by (rewrite <- Hrest; apply length_zone).
  assert (Hn : Z.to_nat (HEAP_SIZE - (heap_max s + 1)) = length rest)
    by (change HEAP_SIZE with 573; lia).
  assert (Hrest' : zone (heap s) (heap_max s + 1) (length rest) = rest)
    by (rewrite Hlr; exact Hrest).
  assert (NDS : NoDup (root :: rest)).
  { apply (Permutation_NoDup (l := L0 ++ Zseq E k));
      [symmetry; exact Hp | apply NoDup_leaves_nodes; assumption]. }
  pose proof NDS as NDS'. apply NoDup_cons_iff in NDS'.
  destruct NDS' as [Hrn NDR].
  unfold gen_bitlen in EG. rewrite Hn, Hroot in EG. fold mc in EG.
  fold ML in EG.
  set (tree := dyn_tree s desc) in *.
  set (treeR := upd tree root (set_Len (tree root) 0)) in *.
  set (blc0 := for_up (Z.to_nat (MAX_BITS + 1)) 0 _ (bl_count s)) in *.
  assert (HfR : forall x, fc (treeR x) = fc (tree x)).
  { intros x. unfold treeR. destruct (Z.eq_dec x root) as [-> | Hne].
    - rewrite upd_same. reflexivity.
    - rewrite upd_other by exact Hne. reflexivity. }
  assert (HdR : forall x, In x rest -> dl (treeR x) = dl (tree x)).
  { intros x Hx. unfold treeR. rewrite upd_other; [reflexivity |].
    intros ->. contradiction. }
  assert (HokR : dads_ok (fun x => dl (treeR x)) [root] rest)
    by (apply (dads_ok_ext _ _ _ _ Hok); exact HdR).
  assert (HdadR : map (fun x => dl (treeR x)) rest = dbl_desc E k)
    by (rewrite <- Hdad; apply map_ext_in; exact HdR).
  assert (HrootR : dl (treeR root) = 0)
    by (unfold treeR; rewrite upd_same; reflexivity).
  assert (Hb0 : forall b, 0 <= b <= MAX_BITS -> blc0 b = 0).
  { intros b Hb. unfold blc0. rewrite bl_count_zero.
    destruct (Z.leb_spec 0 b); destruct (Z.leb_spec b MAX_BITS);
      cbn [andb]; try reflexivity; lia. }
  pose proof (gen_bitlen_count_loop desc s treeR root rest (heap_max s + 1)
                blc0 (opt_len s) (static_len s) Hrest' NDS HokR HrootR
                ltac:(lia) Hb0 (length rest) (le_n _)) as Hcount.
  pose proof (gen_bitlen_count_opt desc s treeR root rest (heap_max s + 1)
                blc0 (opt_len s) (static_len s) Hrest' NDS HokR HrootR
                ltac:(lia) Hb0 (length rest) (le_n _)) as Hopt.
  rewrite Hrest' in Hcount, Hopt. fold mc in Hcount, Hopt.
  destruct (for_up (length rest) (heap_max s + 1) (gen_bitlen_count s desc)
              (treeR, blc0, opt_len s, static_len s, 0))
    as [[[[tE blcE] olE] slE] ov].
  destruct (Hopt _ _ _ _ _ eq_refl) as (Hfc & HoE & HnE). clear Hopt.
  destruct Hcount as (C1 & C2 & C3 & C4 & C5). fold ML in C1, C3, C4.
  set (len := fun x => dl (tE x)).
  set (dad := fun x => dl (treeR x)).
  assert (Hlroot : len root = 0).
  { unfold len. rewrite C2 by exact Hrn. exact HrootR. }
  assert (Hrl : mc < root)
    by (apply (root_not_leaf mc E ML L0 k root rest len dad); assumption).
  assert (HLrest : forall x, In x L0 -> In x rest).
  { intros x Hx.
    assert (Hin : In x (root :: rest)).
    { apply (Permutation_in _ (Permutation_sym Hp)). apply in_or_app. left.
      exact Hx. }
    destruct Hin as [<- | Hin]; [| exact Hin]. apply HL0 in Hx. lia. }
  assert (HlenL0 : forall x, In x L0 -> 1 <= len x <= ML)
    by (intros x Hx; apply C1, HLrest; exact Hx).
  assert (HblcE : forall b, 0 <= b <= MAX_BITS ->
            blcE b = countf (fun x => len x =? b) L0).
  { intros b Hb. rewrite C5 by exact Hb.
    apply (leaves_count mc E ML L0 k root rest len dad); assumption. }
  pose proof (kraft_overflow E ML L0 k root rest len dad Hp HdadR HokR
                Hk Hk1 ltac:(lia) Hlroot C1 C3) as HK.
  change (countf (fun x => len (dad x) =? ML) rest) with
    (countf (fun x => dl (tE (dl (treeR x))) =? ML) rest) in HK.
  rewrite <- C4 in HK.
  destruct (kraft_sum_leaves len ML L0 blcE ltac:(lia)) as [KS TS].
  { intros x Hx. apply HlenL0 in Hx. lia. }
  { intros b Hb. apply HblcE. unfold MAX_BITS. lia. }
  assert (Hov0 : 0 <= ov) by (rewrite C4; apply countf_nonneg).
  (* the bits of the leaves *)
  assert (Hsum : forall t,
            sumf (fun x => if x <=? mc
                           then fc (treeR x) * (dl (t x) + xbits desc x)
                           else 0) rest
            = cost desc (fun x => fc (tree x)) t L0).
  { intros t.
    rewrite (leaves_sum mc E ML L0 k root rest len dad Hp HdadR HokR HL0 Hmc
               Hk Hk1 C1 C3
               (fun x => fc (treeR x) * (dl (t x) + xbits desc x))).
    unfold cost. apply sumf_ext. intros x _. rewrite HfR. reflexivity. }
  assert (HnormE : ulg olE = olE).
  { apply HnE. destruct L0 as [| x L]; [discriminate |].
    exists x. split; [apply HLrest; left; reflexivity |].
    apply HL0. left. reflexivity. }
  rewrite Hsum in HoE.
  destruct (Z.eqb_spec ov 0) as [Eov | Eov].
  - (* no overflow *)
    injection EG as <-.
    assert (T' : dyn_tree
                   (set_opt_len
                      (set_dyn_tree
                         (set_static_len (set_bl_count s blcE) slE) desc tE)
                      olE) desc = tE) by (destruct desc; reflexivity).
    assert (O' : opt_len
                   (set_opt_len
                      (set_dyn_tree
                         (set_static_len (set_bl_count s blcE) slE) desc tE)
                      olE) = olE) by reflexivity.
    rewrite T', O'. split; [congruence |].
    intros y. rewrite Hfc. apply HfR.
  - (* the repair *)
    assert (Hpre : repair_pre ML blcE ov).
    { unfold repair_pre.
      split.
      { rewrite HblcE by (unfold MAX_BITS; lia). apply sumf_zero.
        intros x Hx. apply HlenL0 in Hx.
        destruct (Z.eqb_spec (len x) 0); [lia | reflexivity]. }
      split.
      { intros b Hb. rewrite HblcE by (unfold MAX_BITS; lia).
        apply countf_nonneg. }
      split; [rewrite KS; exact HK |].
      split; [lia |].
      split.
      { rewrite HblcE by (unfold MAX_BITS; lia). rewrite C4.
        apply (overflow_bucket E ML L0 k root rest len dad); try assumption.
        - lia.
        - change (0 < countf (fun x => dl (tE (dl (treeR x))) =? ML) rest).
          rewrite <- C4. lia. }
      rewrite TS.
      assert (2 ^ 7 <= 2 ^ ML) by (apply Z.pow_le_mono_r; lia).
      change (2 ^ 7) with 128 in *. change (2 ^ 15) with 32768. lia. }
    assert (Hovb : ov <= Z.of_nat (length rest))
      by (rewrite C4; apply countf_le_length).
    destruct (gen_bitlen_repair_spec ML fuel ltac:(lia) ltac:(lia)
                fuel blcE ov Hpre ltac:(lia))
      as (blc' & Er & Kr & Tr & Z0 & Nr & Or).
    rewrite Er in EG.
    set (s2 := set_bl_count (set_static_len (set_bl_count s blcE) slE) blc')
      in *.
    assert (Hh2 : heap s2 = heap s) by reflexivity.
    assert (Hmax : Z.max HEAP_SIZE (heap_max s + 1) = 573)
      by (change HEAP_SIZE with 573; lia).
    rewrite Hmax in EG.
    assert (Hzr : zone (heap s2) (heap_max s + 1)
                    (Z.to_nat (573 - (heap_max s + 1))) = rest).
    { rewrite Hh2.
      replace (Z.to_nat (573 - (heap_max s + 1))) with (length rest) by lia.
      exact Hrest'. }
    destruct (assign_rounds s2 mc ML (heap_max s + 1) 573 fuel blc' tE)
      with (rounds := Z.to_nat ML) (b := ML) (st := (573, tE, olE))
      as ([[hF tF] oF] & EF & (HhF & _)).
    + lia.
    + lia.
    + lia.
    + rewrite Hzr. exact NDR.
    + exact Nr.
    + rewrite Hzr. intros x Hx _. apply C1 in Hx. lia.
    + lia.
    + lia.
    + unfold assign_ok. rewrite Z.sub_diag. cbn [Z.to_nat zone Zseq map].
      split; [lia |]. split.
      { rewrite Hzr. change (sumf (fun c => blc' c * 1)
                               (Zseq 0 (Z.to_nat (ML + 1))))
          with (total ML blc').
        rewrite Tr, TS.
        rewrite (countf_ext (fun x => x <=? mc)
                   (fun x => (x <=? mc) && true))
          by (intros x _; symmetry; apply andb_true_r).
        rewrite (leaves_count mc E ML L0 k root rest len dad) by assumption.
        apply countf_true. }
      split; [intros c Hc; lia |]. split; [intros x [] |].
      intros x _. reflexivity.
    + rewrite EF in EG. injection EG as <-.
      assert (T' : dyn_tree (set_opt_len (set_dyn_tree s2 desc tF) oF) desc
                   = tF) by (destruct desc; reflexivity).
      assert (O' : opt_len (set_opt_len (set_dyn_tree s2 desc tF) oF) = oF)
        by reflexivity.
      rewrite T', O'.
      destruct (gen_bitlen_assign_rounds_opt desc s2 mc rest
                  (fun y => fc (treeR y)) blc' fuel NDR (Z.to_nat ML) ML 573
                  tE olE hF tF oF ltac:(lia) EF Hfc)
        as (_ & HF' & Hnorm & Hinv).
      split; [| intros y; rewrite HF'; apply HfR].
      rewrite <- (Hnorm HnormE), Hinv.
      * rewrite !Hsum. rewrite <- ulg_add_l, HoE, ulg_add_l. f_equal. lia.
      * intros i Hi. rewrite <- Hzr. apply In_zone. lia.
Qed.
(** *** build_tree and opt_len *)

Lemma pqdownheap_loop_unheap tree v :
  forall fuel s k j s' k',
    pqdownheap_loop fuel s tree v k j = Some (s', k') -> unheap s' = unheap s.
Proof.
  induction fuel as [| fuel IH]; intros s k j s' k' E; [discriminate |].
  cbn [pqdownheap_loop] in E.
  destruct (j <=? heap_len s); [| injection E as <- _; reflexivity].
  destruct (smaller tree v _ (depth s));
    [injection E as <- _; reflexivity |].
  apply IH in E. rewrite E. reflexivity.
Qed.

(** [pqdownheap] changes the heap only. *)
Lemma pqdownheap_unheap fuel s tree k s' :
  pqdownheap fuel s tree k = Some s' -> unheap s' = unheap s.
Proof.
  unfold pqdownheap. intros E.
  destruct (pqdownheap_loop fuel s tree (heap s k) k (Z.shiftl k 1))
    as [[s1 k1] |] eqn:E1; [| discriminate].
  injection E as <-. apply pqdownheap_loop_unheap in E1.
  rewrite <- E1. reflexivity.
Qed.

Lemma fc_upd_set_Dad (t : Z -> ct_data) i v x :
  fc (upd t i (set_Dad (t i) v) x) = fc (t x).
Proof.
  destruct (Z.eq_dec x i) as [-> | Hne].
  - rewrite upd_same. reflexivity.
  - rewrite upd_other by exact Hne. reflexivity.
Qed.

(** The loop of [build_tree] that joins the nodes keeps [opt_len] and the
    frequencies of the symbols. *)
Lemma build_tree_join_opt desc fuel0 :
  forall fuel s node s',
    build_tree_join fuel0 fuel s desc node = Some s' ->
    opt_len s' = opt_len s
    /\ forall x, x < node -> fc (dyn_tree s' desc x) = fc (dyn_tree s desc x).
Proof.
  induction fuel as [| fuel IH]; intros s node s' E; [discriminate |].
  cbn [build_tree_join] in E.
  set (sa := set_heap_len _ _) in E.
  destruct (pqdownheap fuel0 sa (dyn_tree sa desc) SMALLEST) as [sb |] eqn:Eb;
    [| discriminate].
  apply pqdownheap_unheap in Eb.
  assert (Ob : opt_len sb = opt_len s)
    by exact (f_equal opt_len Eb).
  assert (Tb : dyn_tree sb desc = dyn_tree s desc)
    by (rewrite (unheap_dyn_tree desc _ _ Eb); destruct desc; reflexivity).
  cbv zeta in E.
  set (sc := set_heap (set_dyn_tree _ desc _) _) in E.
  assert (Oc : opt_len sc = opt_len s)
    by (rewrite <- Ob; destruct desc; reflexivity).
  assert (Tc : forall x, x < node ->
            fc (dyn_tree sc desc x) = fc (dyn_tree s desc x)).
  { intros x Hx. rewrite <- Tb.
    assert (Ec : dyn_tree sc desc x
                 = upd
                     (upd
                        (upd (dyn_tree sb desc) node
                           (set_Freq (dyn_tree sb desc node)
                              (ush (Freq (dyn_tree sb desc (heap s SMALLEST))
                                    + Freq (dyn_tree sb desc
                                              (heap sb SMALLEST))))))
                        (heap sb SMALLEST)
                        (set_Dad
                           (upd (dyn_tree sb desc) node
                              (set_Freq (dyn_tree sb desc node)
                                 (ush (Freq (dyn_tree sb desc
                                               (heap s SMALLEST))
                                       + Freq (dyn_tree sb desc
                                                 (heap sb SMALLEST)))))
                              (heap sb SMALLEST))
                           (ush node)))
                     (heap s SMALLEST)
                     (set_Dad
                        (upd
                           (upd (dyn_tree sb desc) node
                              (set_Freq (dyn_tree sb desc node)
                                 (ush (Freq (dyn_tree sb desc
                                               (heap s SMALLEST))
                                       + Freq (dyn_tree sb desc
                                                 (heap sb SMALLEST))))))
                           (heap sb SMALLEST)
                           (set_Dad
                              (upd (dyn_tree sb desc) node
                                 (set_Freq (dyn_tree sb desc node)
                                    (ush (Freq (dyn_tree sb desc
                                                  (heap s SMALLEST))
                                          + Freq (dyn_tree sb desc
                                                    (heap sb SMALLEST)))))
                                 (heap sb SMALLEST))
                              (ush node))
                           (heap s SMALLEST))
                        (ush node)) x)
      by (destruct desc; reflexivity).
    rewrite Ec, !fc_upd_set_Dad. rewrite upd_other by lia. reflexivity. }
  destruct (pqdownheap fuel0 sc (dyn_tree sc desc) SMALLEST) as [sd |] eqn:Ed;
    [| discriminate].
  apply pqdownheap_unheap in Ed.
  assert (Od : opt_len sd = opt_len s)
    by (rewrite <- Oc; exact (f_equal opt_len Ed)).
  assert (Td : forall x, x < node ->
            fc (dyn_tree sd desc x) = fc (dyn_tree s desc x)).
  { intros x Hx. rewrite (unheap_dyn_tree desc _ _ Ed). apply Tc. exact Hx. }
  destruct (heap_len sd >=? 2).
  - apply IH in E. destruct E as [E1 E2].
    split; [congruence |].
    intros x Hx. rewrite E2 by lia. apply Td. exact Hx.
  - injection E as <-. split; assumption.
Qed.

(** [build_tree] from the leaves in the heap: [opt_len] grows by the bits
    that the leaves take with their codes. *)
Lemma build_tree_opt_from_leaves fuel s desc L0 s' :
  (573 <= fuel)%nat ->
  let E := elems (stat_desc desc) in
  let s0 := set_heap_max (set_heap_len s 0) HEAP_SIZE in
  let r :=
    build_tree_force 2 desc
      (for_up (Z.to_nat E) 0 (build_tree_collect desc) (s0, -1)) in
  leaves_ok (fst r) (snd r) L0 -> (2 <= length L0)%nat ->
  snd r < E -> heap_max (fst r) = HEAP_SIZE ->
  build_tree fuel s desc = Some s' ->
  opt_len s'
  = ulg (opt_len (fst r)
         + cost desc (fun x => fc (dyn_tree (fst r) desc x))
             (dyn_tree s' desc) L0).
Proof.
  intros Hfuel. cbv zeta. intros HL H2 Hmc Hmax EB.
  unfold build_tree in EB. cbv zeta in EB.
  pose proof (elems_range desc) as HE.
  set (E := elems (stat_desc desc)) in *.
  destruct (for_up (Z.to_nat E) 0 (build_tree_collect desc)
              (set_heap_max (set_heap_len s 0) HEAP_SIZE, -1))
    as [sc mcc].
  destruct (build_tree_force 2 desc (sc, mcc)) as [s1 mc].
  cbn [fst snd] in *.
  destruct HL as (Hl1 & Hz1 & Hnd & Hr1 & _).
  assert (HLE : forall x, In x L0 -> 0 <= x < E)
    by (intros x Hx; apply Hr1 in Hx; lia).
  pose proof (length_leaves L0 E Hnd HLE) as HlenL.
  set (s2 := set_max_code s1 desc mc) in *.
  assert (F2 : heap s2 = heap s1 /\ heap_len s2 = heap_len s1
               /\ heap_max s2 = heap_max s1
               /\ dyn_tree s2 desc = dyn_tree s1 desc
               /\ max_code s2 desc = mc
               /\ opt_len s2 = opt_len s1)
    by (destruct desc; repeat split; reflexivity).
  destruct F2 as (Hh2 & Hl2 & Hm2 & Ht2 & Hc2 & Ho2).
  destruct (build_tree_heapify_spec fuel s2 desc)
    as (s3 & E3 & Hu3 & Hp3 & Hout3); [lia | lia |].
  rewrite E3 in EB.
  pose proof (unheap_heap_len _ _ Hu3) as Hl3.
  pose proof (unheap_heap_max _ _ Hu3) as Hm3.
  pose proof (unheap_dyn_tree desc _ _ Hu3) as Ht3.
  pose proof (unheap_max_code desc _ _ Hu3) as Hc3.
  assert (Ho3 : opt_len s3 = opt_len s2) by exact (f_equal opt_len Hu3).
  assert (J3 : join_ok desc L0 (dyn_tree s3 desc) s3 0).
  { exists (length L0). split; [lia |]. split; [lia |].
    split; [change (Z.of_nat (2 * 0)) with 0; lia |].
    cbn [Nat.mul zone Zseq map dbl_desc].
    rewrite !app_nil_r.
    split.
    { rewrite Hl2, Hl1, Nat2Z.id, Hh2, Hz1 in Hp3. exact Hp3. }
    split; [reflexivity |]. split; [constructor |].
    intros x _. reflexivity. }
  destruct (build_tree_join_spec desc L0 (dyn_tree s3 desc) fuel Hnd HLE
              ltac:(lia) fuel s3 0 J3 ltac:(lia) ltac:(lia))
    as (s4 & k & E4 & J4 & Hl4 & Hc4 & _).
  rewrite Z.add_0_r in E4. fold E in E4. rewrite E4 in EB.
  destruct (build_tree_join_opt desc fuel fuel s3 E s4 E4) as (Ho4 & Hf4).
  destruct (join_ok_heap_len _ _ _ _ _ J4) as [Hk4 _].
  destruct (join_ok_tree_ok desc L0 (dyn_tree s3 desc) s4 k J4 Hl4)
    as (root & rest & TK).
  cbv zeta in TK.
  set (s5 := set_heap (set_heap_max s4 (heap_max s4 - 1)) _) in *.
  assert (F5 : max_code s5 desc = max_code s4 desc
               /\ dyn_tree s5 desc = dyn_tree s4 desc
               /\ opt_len s5 = opt_len s4)
    by (destruct desc; repeat split; reflexivity).
  destruct F5 as (Hc5 & Ht5 & Ho5).
  assert (Hmc5 : max_code s5 desc = mc) by congruence.
  destruct (gen_bitlen_spec desc L0 (dyn_tree s3 desc) s5 k root rest fuel TK
              Hnd)
    as (s6 & E6 & _).
  { rewrite Hmc5. exact Hr1. }
  { rewrite Hmc5. exact Hmc. }
  { lia. }
  { exact Hfuel. }
  destruct (gen_bitlen_opt desc L0 (dyn_tree s3 desc) s5 k root rest fuel s6
              TK Hnd) as (Ho6 & Hf6).
  { rewrite Hmc5. exact Hr1. }
  { rewrite Hmc5. exact Hmc. }
  { lia. }
  { exact Hfuel. }
  { exact E6. }
  rewrite E6 in EB. injection EB as <-.
  set (t6 := dyn_tree s6 desc) in *.
  set (s7 := set_dyn_tree s6 desc (gen_codes t6 mc (bl_count s6))).
  assert (F7 : dyn_tree s7 desc = gen_codes t6 mc (bl_count s6)
               /\ opt_len s7 = opt_len s6)
    by (destruct desc; repeat split; reflexivity).
  destruct F7 as (Ht7 & Ho7).
  rewrite Ho7, Ho6, Ho5, Ho4, Ho3, Ho2. f_equal. f_equal.
  unfold cost. apply sumf_ext. intros x Hx. apply HLE in Hx.
  rewrite Ht7, gen_codes_dl, Ht5, Hf4, Ht3, Ht2 by lia. reflexivity.
Qed.

(** The first loop of [build_tree] keeps [opt_len]. *)
Lemma build_tree_collect_opt desc s j :
  opt_len (fst (for_up j 0 (build_tree_collect desc) (s, -1))) = opt_len s.
Proof.
  induction j as [| j IH]; [reflexivity |].
  rewrite for_up_S_end.
  destruct (for_up j 0 (build_tree_collect desc) (s, -1)) as [s1 mc].
  cbn [fst] in IH. rewrite <- IH. unfold build_tree_collect.
  destruct (negb _); destruct desc; reflexivity.
Qed.

(** A round of [while (s->heap_len < 2)]: the symbol added has the
    frequency 1, and [opt_len] goes down by one. *)
Lemma force_round_opt desc s mc :
  let r := force_round desc s mc in
  let node := if mc <? 2 then mc + 1 else 0 in
  opt_len (fst r) = ulg (opt_len s - 1)
  /\ fc (dyn_tree (fst r) desc node) = 1
  /\ forall y, y <> node -> fc (dyn_tree (fst r) desc y) = fc (dyn_tree s desc y).
Proof.
  cbv zeta. unfold force_round. cbn [fst].
  set (node := if mc <? 2 then mc + 1 else 0).
  destruct desc; destruct (static_tree _); trees_all;
    (split; [reflexivity |]; split;
     [rewrite upd_same; reflexivity
     | intros y Hy; rewrite upd_other by exact Hy; reflexivity]).
Qed.

Lemma xbits_forced desc x : 0 <= x <= 2 -> xbits desc x = 0.
Proof.
  intros Hx. assert (E : x = 0 \/ x = 1 \/ x = 2) by lia.
  destruct E as [-> | [-> | ->]]; destruct desc; reflexivity.
Qed.

(** The second loop of [build_tree]: the symbols [X] that it adds. *)
Lemma build_tree_force_opt desc s1 mc1 F :
  leaves_ok s1 mc1 F ->
  let r := build_tree_force 2 desc (s1, mc1) in
  exists X,
    leaves_ok (fst r) (snd r) (F ++ X)
    /\ (X = [] \/ length (F ++ X) = 2%nat)
    /\ (2 <= length (F ++ X))%nat
    /\ (forall x, In x X -> 0 <= x <= 2)
    /\ ulg (opt_len (fst r)) = ulg (opt_len s1 - Z.of_nat (length X))
    /\ (forall y, In y X -> fc (dyn_tree (fst r) desc y) = 1)
    /\ (forall y, ~ In y X ->
          fc (dyn_tree (fst r) desc y) = fc (dyn_tree s1 desc y))
    /\ (forall n, dl (dyn_tree (fst r) desc n) = dl (dyn_tree s1 desc n))
    /\ heap_max (fst r) = heap_max s1
    /\ others desc (fst r) = others desc s1.
Proof.
  intros HF. cbv zeta.
  assert (Hmc1 : -1 <= mc1).
  { destruct HF as (_ & _ & _ & Hr & [[_ ->] | Hin]); [lia |].
    apply Hr in Hin. lia. }
  rewrite build_tree_force_S.
  destruct (Z.ltb_spec (heap_len s1) 2) as [Hlt | Hge].
  - assert (Hl : (length F < 2)%nat) by (destruct HF as (Hl & _); lia).
    destruct (force_round_node desc s1 mc1 F HF Hl)
      as (H1 & Hs1 & Hd1 & Hm1 & Ho1).
    destruct (force_round_opt desc s1 mc1) as (O1 & N1 & K1).
    cbv zeta in O1, N1, K1.
    set (n1 := if mc1 <? 2 then mc1 + 1 else 0) in *.
    assert (Hn1 : 0 <= n1 <= 2) by (unfold n1; destruct (Z.ltb_spec mc1 2); lia).
    destruct (force_round desc s1 mc1) as [s2 mc2]. cbn [fst snd] in *.
    rewrite build_tree_force_S.
    destruct (Z.ltb_spec (heap_len s2) 2) as [Hlt2 | Hge2].
    + assert (Hl2 : (length (F ++ [n1]) < 2)%nat)
        by (destruct H1 as (Hl2 & _); lia).
      destruct (force_round_node desc s2 mc2 (F ++ [n1]) H1 Hl2)
        as (H2 & Hs2 & Hd2 & Hm2 & Ho2).
      destruct (force_round_opt desc s2 mc2) as (O2 & N2 & K2).
      cbv zeta in O2, N2, K2.
      set (n2 := if mc2 <? 2 then mc2 + 1 else 0) in *.
      assert (Hmc2 : -1 <= mc2)
        by (rewrite Hs1; destruct (Z.ltb_spec mc1 2); lia).
      assert (Hn2 : 0 <= n2 <= 2)
        by (unfold n2; destruct (Z.ltb_spec mc2 2); lia).
      destruct (force_round desc s2 mc2) as [s3 mc3]. cbn [fst snd] in *.
      cbn [build_tree_force fst snd].
      exists [n1; n2].
      assert (EL : (F ++ [n1]) ++ [n2] = F ++ [n1; n2])
        by (rewrite <- app_assoc; reflexivity).
      rewrite EL in H2.
      assert (Hlen : length (F ++ [n1; n2]) = 2%nat).
      { rewrite length_app in *. cbn [length] in *.
        destruct H2 as (Hh2 & _). destruct H1 as (Hh1 & _).
        rewrite length_app in Hh2, Hh1. cbn [length] in Hh2, Hh1. lia. }
      assert (Hne : n1 <> n2).
      { destruct H2 as (_ & _ & Hnd & _). apply NoDup_remove_2 in Hnd.
        intros ->. apply Hnd. apply in_or_app. right. left. reflexivity. }
      split; [exact H2 |]. split; [right; exact Hlen |].
      split; [lia |].
      split; [intros x [<- | [<- | []]]; assumption |].
      split.
      { rewrite O2, O1, ulg_idem. cbn [length].
        change (ulg (opt_len s1 - 1) - 1)
          with (ulg (opt_len s1 - 1) + -1).
        rewrite ulg_add_l. f_equal. lia. }
      split.
      { intros y [<- | [<- | []]]; [| exact N2].
        rewrite K2 by exact Hne. exact N1. }
      split.
      { intros y Hy. rewrite K2, K1; [reflexivity | |];
          intros ->; apply Hy; [left | right; left]; reflexivity. }
      split; [intros n; rewrite Hd2; apply Hd1 |].
      split; congruence.
    + cbn [fst snd]. exists [n1].
      split; [exact H1 |].
      assert (Hlen : length (F ++ [n1]) = 2%nat).
      { destruct H1 as (Hh1 & _). rewrite length_app in *.
        cbn [length] in *. lia. }
      split; [right; exact Hlen |]. split; [lia |].
      split; [intros x [<- | []]; assumption |].
      split; [rewrite O1, ulg_idem; cbn [length]; f_equal; lia |].
      split; [intros y [<- | []]; exact N1 |].
      split.
      { intros y Hy. apply K1. intros ->. apply Hy. left. reflexivity. }
      split; [exact Hd1 |]. split; assumption.
  - cbn [fst snd]. exists []. rewrite app_nil_r.
    split; [exact HF |]. split; [left; reflexivity |].
    split; [destruct HF as (Hl & _); lia |].
    split; [intros x [] |].
    split; [cbn [length]; f_equal; lia |].
    split; [intros y [] |].
    repeat split; reflexivity.
Qed.

(** X28.  [build_tree] adds to [opt_len] the bits that the symbols of the
    block take with the code it has built: for every frequency array it
    returns, and [opt_len] has grown, modulo 2^32, by the sum over the
    alphabet of the frequency of a symbol times its new code length plus
    its extra bits.  The symbols that [build_tree] adds to have two
    codes count for nothing: each takes one bit, which the loop that adds
    them has taken off before. *)
Theorem build_tree_opt_len :
  forall (fuel : nat) (s : deflate_state) (desc : tree_desc),
    (573 <= fuel)%nat ->
    exists s',
      build_tree fuel s desc = Some s'
      /\ opt_len s'
         = ulg (opt_len s
                + sumf (fun n => Freq (dyn_tree s desc n)
                                 * (Len (dyn_tree s' desc n) + xbits desc n))
                    (Zseq 0 (Z.to_nat (elems (stat_desc desc))))).
Proof.
  intros fuel s desc Hfuel.
  pose proof (elems_range desc) as HE.
  set (E := elems (stat_desc desc)) in *.
  set (s0 := set_heap_max (set_heap_len s 0) HEAP_SIZE).
  assert (T0 : dyn_tree s0 desc = dyn_tree s desc)
    by (destruct desc; reflexivity).
  destruct (build_tree_collect_spec desc s0 (Z.to_nat E) eq_refl)
    as (Ho & Hm & Hl & Hz & Hf & Hd & Hd' & Hmc & Hle).
  rewrite T0 in *.
  pose proof (build_tree_collect_opt desc s0 (Z.to_nat E)) as Oc.
  change (opt_len s0) with (opt_len s) in Oc.
  set (c := for_up (Z.to_nat E) 0 (build_tree_collect desc) (s0, -1)) in *.
  set (U := used (dyn_tree s desc) (Z.to_nat E)) in *.
  assert (HinU : forall n, In n U
                           <-> 0 <= n < E /\ Freq (dyn_tree s desc n) <> 0).
  { intros n. unfold U. rewrite In_used, Z2Nat.id by lia. tauto. }
  assert (HF : leaves_ok (fst c) (snd c) U).
  { split; [exact Hl |]. split; [exact Hz |].
    split; [apply NoDup_used |]. split; [| exact Hmc].
    intros x Hx. split; [| apply Hle; exact Hx]. apply HinU in Hx. lia. }
  destruct (build_tree_force_opt desc (fst c) (snd c) U HF)
    as (X & HL & Hcase & H2 & HX & Oo & F1 & F2 & Hdl & Hmx & Hox).
  cbv zeta in HL, Oo, F1, F2, Hdl, Hmx, Hox.
  rewrite <- surjective_pairing in HL, Oo, F1, F2, Hdl, Hmx, Hox.
  assert (Hsnd : snd (build_tree_force 2 desc c) < E).
  { destruct HL as (_ & _ & _ & _ & [[E0 _] | Hin]).
    - rewrite E0 in H2. cbn [length] in H2. lia.
    - apply in_app_or in Hin. destruct Hin as [Hin | Hin].
      + apply HinU in Hin. lia.
      + apply HX in Hin. lia. }
  assert (Hmax : heap_max (fst (build_tree_force 2 desc c)) = HEAP_SIZE)
    by (rewrite Hmx, Hm; reflexivity).
  destruct (build_tree_from_leaves fuel s desc (U ++ X) Hfuel HL H2 Hsnd)
    as (s' & Eb & B & _).
  { intros n Hn Hfr. apply in_or_app. left. apply HinU. tauto. }
  { intros n Hn Hnin. rewrite Hdl. apply Hd; [lia |].
    destruct (Z.eq_dec (Freq (dyn_tree s desc n)) 0) as [E0 | E0];
      [exact E0 |].
    exfalso. apply Hnin. apply in_or_app. left. apply HinU. tauto. }
  { exact Hmax. }
  { transitivity (others desc (fst c)); [exact Hox |].
    apply (build_tree_collected desc s). }
  assert (Hopt : opt_len s'
                 = ulg (opt_len (fst (build_tree_force 2 desc c))
                        + cost desc
                            (fun x => fc (dyn_tree
                                            (fst (build_tree_force 2 desc c))
                                            desc x))
                            (dyn_tree s' desc) (U ++ X)))
    by exact (build_tree_opt_from_leaves fuel s desc (U ++ X) s' Hfuel HL H2
                Hsnd Hmax Eb).
  exists s'. split; [exact Eb |].
  assert (Hnd : NoDup (U ++ X)) by apply HL.
  (* the symbols added *)
  assert (HcX : forall x, In x X ->
            dl (dyn_tree s' desc x) + xbits desc x = 1).
  { intros x Hx. rewrite (xbits_forced desc x (HX x Hx)).
    destruct Hcase as [-> | Hlen]; [destruct Hx |].
    destruct (U ++ X) as [| a [| b [| ? ?]]] eqn:EL; try discriminate.
    destruct (built_two_leaves desc s s' a b B) as (La & Lb & _).
    assert (Hin : In x [a; b])
      by (rewrite <- EL; apply in_or_app; right; exact Hx).
    unfold Len in La, Lb.
    destruct Hin as [<- | [<- | []]]; lia. }
  unfold cost in Hopt. rewrite sumf_app in Hopt.
  rewrite (sumf_ext _ (fun _ => 1) X) in Hopt.
  2:{ intros x Hx. rewrite (F1 x Hx), (HcX x Hx). reflexivity. }
  rewrite sumf_const in Hopt.
  rewrite (sumf_ext _ (fun x => Freq (dyn_tree s desc x)
                                * (Len (dyn_tree s' desc x) + xbits desc x))
             U) in Hopt.
  2:{ intros x Hx. rewrite F2.
      - unfold Freq, Len. rewrite Hf. reflexivity.
      - intros Hx'. apply (NoDup_app_disjoint _ _ x Hnd); assumption. }
  rewrite Hopt, <- ulg_add_l, Oo, ulg_add_l, Oc.
  f_equal.
  unfold U at 1. unfold used. rewrite sumf_filter.
  rewrite (sumf_ext _ (fun n => Freq (dyn_tree s desc n)
                                * (Len (dyn_tree s' desc n) + xbits desc n))
             (Zseq 0 (Z.to_nat E))).
  - lia.
  - intros n _. destruct (Z.eqb_spec (Freq (dyn_tree s desc n)) 0) as [E0 | _];
      cbn [negb]; [rewrite E0; lia | reflexivity].
Qed.

Lemma build_tree_opt_len_witness :
  exists s',
    build_tree 573 state_fib BL_DESC = Some s'
    /\ opt_len s'
       = ulg (opt_len state_fib
              + sumf (fun n => Freq (dyn_tree state_fib BL_DESC n)
                               * (Len (dyn_tree s' BL_DESC n)
                                  + xbits BL_DESC n))
                  (Zseq 0 (Z.to_nat (elems (stat_desc BL_DESC))))).
Proof.
  apply (build_tree_opt_len 573 state_fib BL_DESC). apply le_n.
Defined.
End Trees_facts.
